(** * PINC: multigrid Poisson solver and particle pusher

    A shallow embedding of [src/multigrid.c] and [src/pusher.c].

    Conventions of the embedding.
    - C [int] and [long int] values are integers of [Z]; signed overflow has
      no meaning in C and the statements below are about runs without it.
      [/] and [%] are the truncating [Z.quot] and [Z.rem]. Where a sum
      formed in [double] is stored in an [int], in [puNeighborToReciprocal],
      the conversion is written out as [toInt] with the bounds of [int].
    - A [double] is an exact rational of [Qc]: the rounding of binary64 is not
      modelled, [(int) x] is truncation toward zero.
    - A C array is a window [0, n) of a total store [Z -> X]. An access beside
      the window has no meaning in C; here it reads or writes the cell of the
      store at that index, and being within bounds is a separate predicate. *)

From Stdlib Require Import ZArith List Lia Bool String QArith Qcanon.
From Stdlib Require Import FunctionalExtensionality.
Import ListNotations.
Local Open Scope string_scope.
Local Open Scope Z_scope.

(** ** Scalars *)

Abbreviation double := Qc.

Definition ofZ (z : Z) : double := Q2Qc (inject_Z z).

(** [(int) x] *)
Definition truncI (x : double) : Z := Z.quot (Qnum x) (Zpos (Qden x)).

Definition dlt (a b : double) : bool :=
  match (a ?= b)%Qc with Lt => true | _ => false end.

Definition dgt (a b : double) : bool := dlt b a.

Definition dge (a b : double) : bool := negb (dlt a b).

Definition deqb (a b : double) : bool := Qeq_bool a b.

(** the literals of the sources *)
Definition d0_25 : double := Q2Qc (1 # 4).
Definition d0_125 : double := Q2Qc (1 # 8).
Definition d0_5 : double := Q2Qc (1 # 2).

(** [(x < y)] used as an [int] *)
Definition b2z (b : bool) : Z := if b then 1 else 0.

(** ** Arrays and loops *)

Definition arr (X : Type) : Type := Z -> X.

Definition upd {X : Type} (a : arr X) (i : Z) (v : X) : arr X :=
  fun k => if k =? i then v else a k.

Definition ofList {X : Type} (junk : X) (l : list X) : arr X :=
  fun k => if k <? 0 then junk else nth (Z.to_nat k) l junk.

(** [n] rounds of [body], the counter starting at [i] and moving by [step] *)
Fixpoint forLoop {S : Type} (n : nat) (i step : Z) (body : Z -> S -> S) (s : S) : S :=
  match n with
  | O => s
  | Datatypes.S n' => forLoop n' (i + step) step body (body i s)
  end.

(** [for (i = lo; i < hi; i++) body] *)
Definition forUp {S : Type} (lo hi : Z) (body : Z -> S -> S) (s : S) : S :=
  forLoop (Z.to_nat (hi - lo)) lo 1 body s.

(** [for (i = lo; i < hi; i += step) body], [step > 0] *)
Definition forStep {S : Type} (lo hi step : Z) (body : Z -> S -> S) (s : S) : S :=
  forLoop (Z.to_nat ((hi - lo + step - 1) / step)) lo step body s.


(** ** The structures of pinc.h *)

(** Modelled from the spec: the [Grid] structure of [pinc.h] (its declaration
    is not in the sources), with the fields the sources read and write:
    [rank], the extents [size] and [trueSize], the ghost counts
    [nGhostLayers] (lower layers at [0..rank), upper at [rank..2 rank)), the
    cumulative products [sizeProd], the values [val] and the scratch [slice]. *)
Record Grid : Type := mkGrid {
  rank : Z;
  size : arr Z;
  trueSize : arr Z;
  nGhostLayers : arr Z;
  sizeProd : arr Z;
  val : arr double;
  slice : arr double;
  h5 : Z
}.

Definition setVal (g : Grid) (v : arr double) : Grid :=
  {| rank := rank g; size := size g; trueSize := trueSize g;
     nGhostLayers := nGhostLayers g; sizeProd := sizeProd g;
     val := v; slice := slice g; h5 := h5 g |}.

(** what [grids[q]] is taken to be beyond the grids of a hierarchy *)
Definition noGrid : Grid :=
  {| rank := 0; size := fun _ => 0; trueSize := fun _ => 0;
     nGhostLayers := fun _ => 0; sizeProd := fun _ => 0;
     val := fun _ => Q2Qc 0; slice := fun _ => Q2Qc 0; h5 := 0 |}.

(** the number of elements of [val] *)
Definition nElems (g : Grid) : Z := sizeProd g (rank g).

(** the functions a [Multigrid] points to *)
Inductive Smoother : Type := SmGaussSeidel2D | SmGaussSeidel3D | SmJacobian.
Inductive Restrictor : Type := ReHalfWeight2D | ReHalfWeight3D.
Inductive Prolongator : Type := PrBilinear2D | PrBilinear3D.

(** Modelled from the spec: the [Multigrid] structure of [multigrid.h]; a
    function pointer that was never assigned is [None]. *)
Record Multigrid : Type := mkMultigrid {
  nLevels : Z;
  nMGCycles : Z;
  nPreSmooth : Z;
  nPostSmooth : Z;
  nCoarseSolve : Z;
  grids : list Grid;
  preSmooth : option Smoother;
  postSmooth : option Smoother;
  coarseSolv : option Smoother;
  restrictor : option Restrictor;
  prolongator : option Prolongator
}.

(** Modelled from the spec: the key/value dictionary of the configuration
    and the two readers of iniparser the sources call; a missing key gives
    the caller's default. *)
Record dictionary : Type := mkDictionary {
  intEntries : list (string * Z);
  strEntries : list (string * string)
}.

Fixpoint lookup {V : Type} (key : string) (l : list (string * V)) : option V :=
  match l with
  | [] => None
  | (k, v) :: l' => if String.eqb k key then Some v else lookup key l'
  end.

Definition iniparser_getint (ini : dictionary) (key : string) (notfound : Z) : Z :=
  match lookup key (intEntries ini) with Some v => v | None => notfound end.

Definition iniparser_getstring (ini : dictionary) (key : string) (def : string) : string :=
  match lookup key (strEntries ini) with Some v => v | None => def end.

(** Modelled from the spec: [msg(ERROR, ...)] surfaces one diagnostic and
    terminates the program; a run is either a value or that diagnostic. *)
Inductive result (A : Type) : Type :=
| Ok (a : A)
| Fatal (diagnostic : string).
Arguments Ok {A} a.
Arguments Fatal {A} diagnostic.

Definition bind {A B : Type} (r : result A) (k : A -> result B) : result B :=
  match r with
  | Ok a => k a
  | Fatal m => Fatal m
  end.

Notation "x <- c ;; k" := (bind c (fun x => k))
  (at level 61, c at next level, right associativity).
Notation "c ;;; k" := (bind c (fun _ => k))
  (at level 61, right associativity).

Definition msgERROR {A : Type} (diagnostic : string) : result A := Fatal diagnostic.

(** a freshly allocated integer array *)
Definition fresh {X : Type} (junk : X) : arr X := fun _ => junk.

(** Modelled from the spec: [longIntArrCumProd], with [p[0] = 1] and
    [p[d+1] = p[d] * a[d]] for [d] in [0, n). *)
Definition longIntArrCumProd (a : arr Z) (n : Z) : arr Z :=
  forUp 0 n (fun d p => upd p (d + 1) (p d * a d)) (upd (fresh 0) 0 1).

(** ** multigrid.c: allocation *)

Definition setSolvers (ini : dictionary) (multigrid : Multigrid) : result Multigrid :=
  let preSmoothName := iniparser_getstring ini "modules:preSmooth" "" in
  let postSmoothName := iniparser_getstring ini "modules:postSmooth" "" in
  let coarseSolverName := iniparser_getstring ini "modules:coarseSolv" "" in
  let nDims := rank (nth 0 (grids multigrid) noGrid) - 1 in
  let pick (name : string) (noDims noName : string) : result Smoother :=
    if String.eqb name "gaussSeidel" then
      if nDims =? 2 then Ok SmGaussSeidel2D
      else if nDims =? 3 then Ok SmGaussSeidel3D
      else msgERROR noDims
    else if String.eqb name "jacobian" then Ok SmJacobian
    else msgERROR noName in
  pre <- pick preSmoothName "No Presmoothing algorithm set for dimensions"
              "No Presmoothing algorithm specified" ;;
  post <- pick postSmoothName "No postsmoothing algorithm set for dimensions"
               "No Postsmoothing algorithm specified" ;;
  coarse <- pick coarseSolverName "No coarsesolver algorithm set for dimensions"
                 "No coarse Grid Solver algorithm specified" ;;
  Ok {| nLevels := nLevels multigrid; nMGCycles := nMGCycles multigrid;
        nPreSmooth := nPreSmooth multigrid; nPostSmooth := nPostSmooth multigrid;
        nCoarseSolve := nCoarseSolve multigrid; grids := grids multigrid;
        preSmooth := Some pre; postSmooth := Some post; coarseSolv := Some coarse;
        restrictor := restrictor multigrid; prolongator := prolongator multigrid |}.

Definition setRestrictProlong (ini : dictionary) (multigrid : Multigrid) : result Multigrid :=
  let restrictorName := iniparser_getstring ini "multigrid:restrictor" "" in
  let prolongatorName := iniparser_getstring ini "multigrid:prolongator" "" in
  let rank_ := rank (nth 0 (grids multigrid) noGrid) in
  re <- (if String.eqb restrictorName "halfWeight" then
           if rank_ =? 3 then Ok ReHalfWeight2D
           else if rank_ =? 4 then Ok ReHalfWeight3D
           else msgERROR "No restricting algorithm for D"
         else msgERROR "No restrict stencil specified") ;;
  pr <- (if String.eqb prolongatorName "bilinear" then
           if rank_ =? 3 then Ok PrBilinear2D
           else if rank_ =? 4 then Ok PrBilinear3D
           else msgERROR "No restricting algorithm for D"
         else msgERROR "No prolongation stencil specified") ;;
  Ok {| nLevels := nLevels multigrid; nMGCycles := nMGCycles multigrid;
        nPreSmooth := nPreSmooth multigrid; nPostSmooth := nPostSmooth multigrid;
        nCoarseSolve := nCoarseSolve multigrid; grids := grids multigrid;
        preSmooth := preSmooth multigrid; postSmooth := postSmooth multigrid;
        coarseSolv := coarseSolv multigrid;
        restrictor := Some re; prolongator := Some pr |}.

(** the grid built in round [q] of [mgAllocSubGrids]; [junk] is what the
    newly allocated [val] and [slice] hold. The count [nSliceMax] only sizes
    the allocation of [slice] and is not kept. *)
Definition subGrid (junk : arr double) (grid : Grid) (q : Z) : Grid :=
  let trueSize_ := trueSize grid in
  let nGhostLayers_ := nGhostLayers grid in
  let rank_ := rank grid in
  let subTrueSize := upd (fresh 0) 0 (trueSize_ 0) in
  let subSize := upd (fresh 0) 0 (subTrueSize 0) in
  let subTrueSize :=
    forUp 1 rank_ (fun d a => upd a d (Z.quot (trueSize_ d) (2 * q))) subTrueSize in
  let subSize := upd subSize 0 (trueSize_ 0) in
  let subSize :=
    forUp 1 rank_
      (fun d a =>
         let a := upd a d (subTrueSize d) in
         let a := upd a d (a d + nGhostLayers_ d) in
         upd a d (a d + nGhostLayers_ (rank_ + d)))
      subSize in
  let subSizeProd := longIntArrCumProd subSize rank_ in
  let subNGhostLayers :=
    forUp 0 (2 * rank_) (fun d a => upd a d (nGhostLayers_ d)) (fresh 0) in
  {| rank := rank_; size := subSize; sizeProd := subSizeProd;
     nGhostLayers := subNGhostLayers; trueSize := subTrueSize;
     val := junk; slice := junk; h5 := 0 |}.

(** [mgAllocSubGrids]: [grids[0]] is the caller's grid, [grids[q]] the grid
    of round [q]. The list stands for the array the source allocates with
    [malloc((nLevels+1) * sizeof(Grid))], every allocation being taken to
    succeed: this is the source for [nLevels >= 0]. For a negative [nLevels]
    the size requested is zero or wraps around, the write of [grids[0]] has
    no meaning in C, and the list says nothing about the source; the
    statements about the hierarchy take [nLevels >= 0]. *)
Definition mgAllocSubGrids (junk : arr double) (grid : Grid) (nLevels : Z) : list Grid :=
  forUp 1 nLevels (fun q grids => (grids ++ [subGrid junk grid q])%list) [grid].

(** [grids[q]] *)
Definition level (grids : list Grid) (q : Z) : option Grid :=
  if q <? 0 then None else nth_error grids (Z.to_nat q).

(** round [d] of the sanity check of [mgAlloc]; in
    [trueSize[d+1] % (int) 2*nLevels] the cast and [%] bind before [*]. *)
Definition sanityLoop (trueSize_ : arr Z) (nLevels_ : Z) (d : Z) (r : result unit) : result unit :=
  r ;;;
  if negb (Z.rem (trueSize_ (d + 1)) 2 * nLevels_ =? 0)
  then msgERROR "The number of True Grid Points needs to be a multiple of 2^nLevels"
  else Ok tt.

(** [mgAlloc] *)
Definition mgAlloc (junk : arr double) (ini : dictionary) (grid : Grid) : result Multigrid :=
  let nLevels_ := iniparser_getint ini "multigrid:mgLevels" 0 in
  let nMGCycles_ := iniparser_getint ini "multigrid:mgCycles" 0 in
  let nPreSmooth_ := iniparser_getint ini "multigrid:nPreSmooth" 0 in
  let nPostSmooth_ := iniparser_getint ini "multigrid:nPostSmooth" 0 in
  let nCoarseSolve_ := iniparser_getint ini "multigrid:nCoarseSolve" 0 in
  let nDims := rank grid - 1 in
  let trueSize_ := trueSize grid in
  (if nLevels_ =? 0
   then msgERROR "Multi Grid levels is 0, direct solver not implemented yet"
   else Ok tt) ;;;
  (if nMGCycles_ =? 0 then msgERROR "MG cycles is 0" else Ok tt) ;;;
  forUp 0 nDims (sanityLoop trueSize_ nLevels_) (Ok tt) ;;;
  let grids_ := mgAllocSubGrids junk grid nLevels_ in
  m <- setSolvers ini
         {| nLevels := nLevels_; nMGCycles := nMGCycles_; nPreSmooth := nPreSmooth_;
            nPostSmooth := nPostSmooth_; nCoarseSolve := nCoarseSolve_; grids := grids_;
            preSmooth := None; postSmooth := None; coarseSolv := None;
            restrictor := None; prolongator := None |} ;;
  setRestrictProlong ini m.

(** ** pusher.c: neighbourhood algebra *)

(** the bounds of [int] *)
Definition INT_MAX : Z := 2147483647.
Definition INT_MIN : Z := -2147483648.

(** the conversion of a [double] to [int] that the assignment to an [int]
    makes: truncation toward zero when the truncated value is an [int];
    beyond the range of [int] C gives the conversion no meaning, and the
    conversion instruction of x86-64 gives [INT_MIN], which is taken here *)
Definition toInt (x : double) : Z :=
  let t := truncI x in
  if (INT_MIN <=? t) && (t <=? INT_MAX) then t else INT_MIN.

(** [puNeighborToReciprocal]: in [reciprocal += (2-(neighbor%3))*pow(3,d)] the
    sum is formed in [double] and converted back to the [int] [reciprocal];
    [pow(3,d)] is the exact power; the loop state is the pair of
    [reciprocal] and the running [neighbor]. *)
Definition puNeighborToReciprocal (neighbor nDims : Z) : Z :=
  fst (forUp 0 nDims
         (fun d '(reciprocal, neighbor) =>
            (toInt (ofZ reciprocal + ofZ (2 - Z.rem neighbor 3) * ofZ (3 ^ d))%Qc,
             Z.quot neighbor 3))
         (0, neighbor)).

(** the finest grid of the run below: a 32 x 32 interior with one ghost
    layer on every side of the two spatial axes *)
Definition grid32 : Grid :=
  {| rank := 3;
     size := ofList 0 [1; 34; 34];
     trueSize := ofList 0 [1; 32; 32];
     nGhostLayers := ofList 0 [0; 1; 1; 0; 1; 1];
     sizeProd := ofList 0 [1; 1; 34; 1156];
     val := fresh (Q2Qc 0);
     slice := fresh (Q2Qc 0);
     h5 := 0 |}.

Definition iniOf (levels : Z) : dictionary :=
  {| intEntries := [("multigrid:mgLevels", levels); ("multigrid:mgCycles", 1);
                    ("multigrid:nPreSmooth", 2); ("multigrid:nPostSmooth", 2);
                    ("multigrid:nCoarseSolve", 4)];
     strEntries := [("modules:preSmooth", "gaussSeidel"); ("modules:postSmooth", "gaussSeidel");
                    ("modules:coarseSolv", "jacobian"); ("multigrid:restrictor", "halfWeight");
                    ("multigrid:prolongator", "bilinear")] |}.

(** a two-dimensional grid with [n] interior nodes along both axes *)
Definition gridSq (n : Z) : Grid :=
  {| rank := 3;
     size := ofList 0 [1; n + 2; n + 2];
     trueSize := ofList 0 [1; n; n];
     nGhostLayers := ofList 0 [0; 1; 1; 0; 1; 1];
     sizeProd := ofList 0 [1; 1; n + 2; (n + 2) * (n + 2)];
     val := fresh (Q2Qc 0);
     slice := fresh (Q2Qc 0);
     h5 := 0 |}.

Definition isOk {A : Type} (r : result A) : bool :=
  match r with Ok _ => true | Fatal _ => false end.

(** Modelled from the spec: the [Population] structure of [pinc.h]:
    interleaved coordinates [pos] and [vel], the half-open particle ranges
    [iStart[s], iStop[s]) of the species and their rescaling factors. *)
Record Population : Type := mkPopulation {
  pos : arr double;
  vel : arr double;
  iStart : arr Z;
  iStop : arr Z;
  nSpecies : Z;
  nDims : Z;
  renormE : arr double;
  renormRho : arr double
}.

Definition setPos (pop : Population) (a : arr double) : Population :=
  {| pos := a; vel := vel pop; iStart := iStart pop; iStop := iStop pop;
     nSpecies := nSpecies pop; nDims := nDims pop;
     renormE := renormE pop; renormRho := renormRho pop |}.

Definition setVel (pop : Population) (a : arr double) : Population :=
  {| pos := pos pop; vel := a; iStart := iStart pop; iStop := iStop pop;
     nSpecies := nSpecies pop; nDims := nDims pop;
     renormE := renormE pop; renormRho := renormRho pop |}.

Definition setIStop (pop : Population) (a : arr Z) : Population :=
  {| pos := pos pop; vel := vel pop; iStart := iStart pop; iStop := a;
     nSpecies := nSpecies pop; nDims := nDims pop;
     renormE := renormE pop; renormRho := renormRho pop |}.

(** Modelled from the spec: the fields of [MpiInfo] that the extraction of
    emigrants uses. [emigrants ne] is the send buffer of neighbour [ne] and
    [emigrantsDummy ne] the offset in it of the moving pointer
    [emigrantsDummy[ne]]. *)
Record MpiInfo : Type := mkMpiInfo {
  thresholds : arr double;
  neighborhoodCenter : Z;
  nNeighbors : Z;
  nEmigrants : arr Z;
  emigrants : arr (arr double);
  emigrantsDummy : arr Z
}.

Definition setNEmigrants (m : MpiInfo) (a : arr Z) : MpiInfo :=
  {| thresholds := thresholds m; neighborhoodCenter := neighborhoodCenter m;
     nNeighbors := nNeighbors m; nEmigrants := a;
     emigrants := emigrants m; emigrantsDummy := emigrantsDummy m |}.

Definition setEmigrants (m : MpiInfo) (b : arr (arr double)) (c : arr Z) : MpiInfo :=
  {| thresholds := thresholds m; neighborhoodCenter := neighborhoodCenter m;
     nNeighbors := nNeighbors m; nEmigrants := nEmigrants m;
     emigrants := b; emigrantsDummy := c |}.

(** Modelled from the spec: the array and grid primitives of the other
    files of the repository: [alSetAll] fills [a[0..n)], [gZero] zeroes and
    [gMul] scales every element of a grid. *)
Definition alSetAll (a : arr Z) (n : Z) (v : Z) : arr Z :=
  fun k => if (0 <=? k) && (k <? n) then v else a k.

Definition gZero (g : Grid) : Grid :=
  setVal g (fun k => if (0 <=? k) && (k <? nElems g) then Q2Qc 0 else val g k).

Definition gMul (g : Grid) (num : double) : Grid :=
  setVal g (fun k => if (0 <=? k) && (k <? nElems g) then (val g k * num)%Qc else val g k).

(** [&a[p]] *)
Definition from {X : Type} (a : arr X) (p : Z) : arr X := fun k => a (p + k).

(** ** pusher.c: boundaries, acceleration, distribution *)

(** the two tests of [puBndPeriodic] on coordinate [d] of particle [i] *)
Definition puBndPeriodic_coord (nDims_ : Z) (size_ : arr Z) (i d : Z) (pos_ : arr double)
    : arr double :=
  let pos_ :=
    if dgt (pos_ (i * nDims_ + d)) (ofZ (size_ (d + 1)))
    then upd pos_ (i * nDims_ + d) (pos_ (i * nDims_ + d)%Z - ofZ (size_ (d + 1)%Z))%Qc
    else pos_ in
  if dlt (pos_ (i * nDims_ + d)) (Q2Qc 0)
  then upd pos_ (i * nDims_ + d) (pos_ (i * nDims_ + d)%Z + ofZ (size_ (d + 1)%Z))%Qc
  else pos_.

Definition puBndPeriodic (pop : Population) (grid : Grid) : Population :=
  let nSpecies_ := nSpecies pop in
  let nDims_ := nDims pop in
  let size_ := size grid in
  setPos pop
    (forUp 0 nSpecies_
       (fun s pos_ =>
          let iStart_ := iStart pop s in
          let iStop_ := iStop pop s in
          forUp iStart_ iStop_
            (fun i pos_ => forUp 0 nDims_ (puBndPeriodic_coord nDims_ size_ i) pos_)
            pos_)
       (pos pop)).

(** [puInterp3D1]: [pos_] is the pointer to the particle's coordinates. *)
Definition puInterp3D1 (result_ : arr double) (pos_ : arr double) (val_ : arr double)
    (sizeProd_ : arr Z) : arr double :=
  let j := truncI (pos_ 0) in
  let k := truncI (pos_ 1) in
  let l := truncI (pos_ 2) in
  let x := (pos_ 0%Z - ofZ j)%Qc in
  let y := (pos_ 1%Z - ofZ k)%Qc in
  let z := (pos_ 2%Z - ofZ l)%Qc in
  let xcomp := (1 - x)%Qc in
  let ycomp := (1 - y)%Qc in
  let zcomp := (1 - z)%Qc in
  let p := j * 3 + k * sizeProd_ 2 + l * sizeProd_ 3 in
  let pj := p + 3 in
  let pk := p + sizeProd_ 2 in
  let pjk := pk + 3 in
  let pl := p + sizeProd_ 3 in
  let pjl := pl + 3 in
  let pkl := pl + sizeProd_ 2 in
  let pjkl := pkl + 3 in
  forUp 0 3
    (fun v result_ =>
       upd result_ v
         (zcomp * (ycomp * (xcomp * val_ (p + v)%Z + x * val_ (pj + v)%Z)
                   + y * (xcomp * val_ (pk + v)%Z + x * val_ (pjk + v)%Z))
          + z * (ycomp * (xcomp * val_ (pl + v)%Z + x * val_ (pjl + v)%Z)
                 + y * (xcomp * val_ (pkl + v)%Z + x * val_ (pjkl + v)%Z)))%Qc)
    result_.

(** the particles of one species in [puAcc3D1]: [vel[p+d] += dv[d]] *)
Definition puAcc3D1_species (pos_ : arr double) (E : Grid) (pStart pStop : Z)
    (vel_ : arr double) : arr double :=
  forStep pStart pStop 3
    (fun p vel_ =>
       let dv := puInterp3D1 (fresh (Q2Qc 0)) (from pos_ p) (val E) (sizeProd E) in
       forUp 0 3 (fun d vel_ => upd vel_ (p + d) (vel_ (p + d)%Z + dv d)%Qc) vel_)
    vel_.

(** the round of species [s] in [puAcc3D1], on the velocities and the field *)
Definition puAcc3D1_round (pop : Population) (s : Z) (st : arr double * Grid)
    : arr double * Grid :=
  let '(vel_, E) := st in
  let nDims_ := 3 in
  let pStart := iStart pop s * nDims_ in
  let pStop := iStop pop s * nDims_ in
  (puAcc3D1_species (pos pop) E pStart pStop vel_, gMul E (renormE pop s)).

(** [puAcc3D1]; the result is the population and the field, both of which
    the function changes in place. *)
Definition puAcc3D1 (pop : Population) (E : Grid) : Population * Grid :=
  let nSpecies_ := nSpecies pop in
  let '(vel_, E_) := forUp 0 nSpecies_ (puAcc3D1_round pop) (vel pop, E) in
  (setVel pop vel_, E_).


(** the product of [renormE[t]] over the species [t < s] *)
Definition renormBefore (pop : Population) (s : Z) : double :=
  forUp 0 s (fun t acc => (acc * renormE pop t)%Qc) (Q2Qc 1).








(** a single particle on a line of extent 4, standing on the upper edge *)
Definition popEdge : Population :=
  {| pos := ofList (Q2Qc 0) [ofZ 4]; vel := ofList (Q2Qc 0) [ofZ 1];
     iStart := ofList 0 [0]; iStop := ofList 0 [1];
     nSpecies := 1; nDims := 1;
     renormE := ofList (Q2Qc 0) [ofZ 1]; renormRho := ofList (Q2Qc 0) [ofZ 1] |}.

Definition gridLine : Grid :=
  {| rank := 2;
     size := ofList 0 [1; 4];
     trueSize := ofList 0 [1; 4];
     nGhostLayers := ofList 0 [0; 0; 0; 0];
     sizeProd := ofList 0 [1; 1; 4];
     val := fresh (Q2Qc 0);
     slice := fresh (Q2Qc 0);
     h5 := 0 |}.

(** the field as the particles of species [s] find it in [puAcc3D1]: the
    entry field after the rescalings that end the rounds of the species
    before [s] *)
Definition fieldSeenBy (pop : Population) (E : Grid) (s : Z) : Grid :=
  forUp 0 s (fun t E => gMul E (renormE pop t)) E.

(** the ranges of the species follow one another: [iStop[s] <= iStart[t]]
    for [s < t] *)
Definition disjointSpecies (pop : Population) : Prop :=
  forall s t, 0 <= s < t -> t < nSpecies pop -> iStop pop s <= iStart pop t.


(** a vector field on 2 x 2 x 2 nodes, every component 1 *)
Definition fieldOnes : Grid :=
  {| rank := 4;
     size := ofList 0 [3; 2; 2; 2];
     trueSize := ofList 0 [3; 2; 2; 2];
     nGhostLayers := ofList 0 [0; 0; 0; 0; 0; 0; 0; 0];
     sizeProd := ofList 0 [1; 3; 6; 12; 24];
     val := fresh (ofZ 1);
     slice := fresh (Q2Qc 0);
     h5 := 0 |}.



(** two species with factors 2 and 3: one particle at the origin in the
    first, none in the second *)
Definition popTwo : Population :=
  {| pos := ofList (Q2Qc 0) [ofZ 0; ofZ 0; ofZ 0];
     vel := ofList (Q2Qc 0) [ofZ 0; ofZ 0; ofZ 0];
     iStart := ofList 0 [0; 1]; iStop := ofList 0 [1; 1];
     nSpecies := 2; nDims := 3;
     renormE := ofList (Q2Qc 0) [ofZ 2; ofZ 3];
     renormRho := ofList (Q2Qc 0) [ofZ 2; ofZ 3] |}.


(** ** pusher.c: extraction of emigrants *)

(** [*(emigrants[ne]++) = x] *)
Definition pushEmigrant (m : MpiInfo) (ne : Z) (x : double) : MpiInfo :=
  let c := emigrantsDummy m ne in
  setEmigrants m (upd (emigrants m) ne (upd (emigrants m ne) c x))
    (upd (emigrantsDummy m) ne (c + 1)).

(** [nEmigrants[k]++] *)
Definition countEmigrant (m : MpiInfo) (k : Z) : MpiInfo :=
  setNEmigrants m (upd (nEmigrants m) k (nEmigrants m k + 1)).

(** the start of both extractions: the moving pointers are set to the
    starts of the buffers and the counts are zeroed *)
Definition resetEmigrants (nSpecies_ : Z) (mpiInfo : MpiInfo) : MpiInfo :=
  let nNeighbors_ := nNeighbors mpiInfo in
  let m :=
    setEmigrants mpiInfo (emigrants mpiInfo)
      (forUp 0 nNeighbors_ (fun ne c => upd c ne 0) (emigrantsDummy mpiInfo)) in
  setNEmigrants m (alSetAll (nEmigrants m) (nSpecies_ * nNeighbors_) 0).

(** the neighbour a particle at [p] belongs to in [puExtractEmigrants3D] *)
Definition neighbor3D (pos_ : arr double) (thresholds_ : arr double) (p : Z) : Z :=
  let lx := thresholds_ 0 in
  let ly := thresholds_ 1 in
  let lz := thresholds_ 2 in
  let ux := thresholds_ 3 in
  let uy := thresholds_ 4 in
  let uz := thresholds_ 5 in
  let x := pos_ p in
  let y := pos_ (p + 1) in
  let z := pos_ (p + 2) in
  let nx := - b2z (dlt x lx) + b2z (dge x ux) in
  let ny := - b2z (dlt y ly) + b2z (dge y uy) in
  let nz := - b2z (dlt z lz) + b2z (dge z uz) in
  13 + nx + 3 * ny + 9 * nz.

(** the body of [if (ne != neighborhoodCenter)] in [puExtractEmigrants3D],
    up to the changes of [pStop] and [p] *)
Definition removeEmigrant3D (s nSpecies_ p pStop ne : Z) (st : Population * MpiInfo)
    : Population * MpiInfo :=
  let '(pop, m) := st in
  let pos_ := pos pop in
  let vel_ := vel pop in
  let x := pos_ p in
  let y := pos_ (p + 1) in
  let z := pos_ (p + 2) in
  let m := pushEmigrant m ne x in
  let m := pushEmigrant m ne y in
  let m := pushEmigrant m ne z in
  let m := pushEmigrant m ne (vel_ p) in
  let m := pushEmigrant m ne (vel_ (p + 1)) in
  let m := pushEmigrant m ne (vel_ (p + 2)) in
  let m := countEmigrant m (ne * nSpecies_ + s) in
  let pos_ := upd pos_ p (pos_ (pStop - 3)) in
  let pos_ := upd pos_ (p + 1) (pos_ (pStop - 2)) in
  let pos_ := upd pos_ (p + 2) (pos_ (pStop - 1)) in
  let vel_ := upd vel_ p (vel_ (pStop - 3)) in
  let vel_ := upd vel_ (p + 1) (vel_ (pStop - 2)) in
  let vel_ := upd vel_ (p + 2) (vel_ (pStop - 1)) in
  let pop := setVel (setPos pop pos_) vel_ in
  (setIStop pop (upd (iStop pop) s (iStop pop s - 1)), m).

(** the particle loop of [puExtractEmigrants3D] for species [s]; [None]
    when [fuel] rounds do not reach its end *)
Fixpoint extractLoop3D (fuel : nat) (s nSpecies_ : Z) (p pStop : Z)
    (st : Population * MpiInfo) : option (Population * MpiInfo) :=
  if p <? pStop then
    match fuel with
    | O => None
    | Datatypes.S fuel' =>
        let ne := neighbor3D (pos (fst st)) (thresholds (snd st)) p in
        if negb (ne =? neighborhoodCenter (snd st)) then
          let st := removeEmigrant3D s nSpecies_ p pStop ne st in
          let pStop := pStop - 3 in
          let p := p - 3 in
          extractLoop3D fuel' s nSpecies_ (p + 3) pStop st
        else extractLoop3D fuel' s nSpecies_ (p + 3) pStop st
    end
  else Some st.

Definition puExtractEmigrants3D (pop : Population) (mpiInfo : MpiInfo)
    : option (Population * MpiInfo) :=
  let nSpecies_ := nSpecies pop in
  let m := resetEmigrants nSpecies_ mpiInfo in
  forUp 0 nSpecies_
    (fun s r =>
       match r with
       | None => None
       | Some st =>
           let pStart := iStart (fst st) s * 3 in
           let pStop := iStop (fst st) s * 3 in
           extractLoop3D (Z.to_nat (pStop - pStart)) s nSpecies_ pStart pStop st
       end)
    (Some (pop, m)).

(** [for (d = hi; d >= 0; d--) body] *)
Definition forDown {S : Type} (hi : Z) (body : Z -> S -> S) (s : S) : S :=
  forLoop (Z.to_nat (hi + 1)) hi (-1) body s.

(** the neighbour a particle at [p] belongs to in [puExtractEmigrantsND] *)
Definition neighborND (pos_ : arr double) (thresholds_ : arr double) (nDims_ p : Z) : Z :=
  forDown (nDims_ - 1)
    (fun d ne =>
       let ne := ne * 3 in
       ne + 1 - b2z (dlt (pos_ (p + d)) (thresholds_ d))
       + b2z (dge (pos_ (p + d)) (thresholds_ (nDims_ + d))))
    0.

Definition removeEmigrantND (s nSpecies_ nDims_ p pStop ne : Z) (st : Population * MpiInfo)
    : Population * MpiInfo :=
  let '(pop, m) := st in
  let pos_ := pos pop in
  let vel_ := vel pop in
  let m := forUp 0 nDims_ (fun d m => pushEmigrant m ne (pos_ (p + d))) m in
  let m := forUp 0 nDims_ (fun d m => pushEmigrant m ne (vel_ (p + d))) m in
  let m := countEmigrant m (ne * nSpecies_ + s) in
  let pos_ := forUp 0 nDims_ (fun d a => upd a (p + d) (a (pStop - nDims_ + d))) pos_ in
  let vel_ := forUp 0 nDims_ (fun d a => upd a (p + d) (a (pStop - nDims_ + d))) vel_ in
  let pop := setVel (setPos pop pos_) vel_ in
  (setIStop pop (upd (iStop pop) s (iStop pop s - 1)), m).

Fixpoint extractLoopND (fuel : nat) (s nSpecies_ nDims_ : Z) (p pStop : Z)
    (st : Population * MpiInfo) : option (Population * MpiInfo) :=
  if p <? pStop then
    match fuel with
    | O => None
    | Datatypes.S fuel' =>
        let ne := neighborND (pos (fst st)) (thresholds (snd st)) nDims_ p in
        if negb (ne =? neighborhoodCenter (snd st)) then
          let st := removeEmigrantND s nSpecies_ nDims_ p pStop ne st in
          let pStop := pStop - nDims_ in
          let p := p - nDims_ in
          extractLoopND fuel' s nSpecies_ nDims_ (p + nDims_) pStop st
        else extractLoopND fuel' s nSpecies_ nDims_ (p + nDims_) pStop st
    end
  else Some st.

Definition puExtractEmigrantsND (pop : Population) (mpiInfo : MpiInfo)
    : option (Population * MpiInfo) :=
  let nSpecies_ := nSpecies pop in
  let nDims_ := nDims pop in
  let m := resetEmigrants nSpecies_ mpiInfo in
  forUp 0 nSpecies_
    (fun s r =>
       match r with
       | None => None
       | Some st =>
           let pStart := iStart (fst st) s * nDims_ in
           let pStop := iStop (fst st) s * nDims_ in
           extractLoopND (Z.to_nat (pStop - pStart)) s nSpecies_ nDims_ pStart pStop st
       end)
    (Some (pop, m)).

Fixpoint sumZ (n : nat) (f : Z -> Z) : Z :=
  match n with
  | O => 0
  | Datatypes.S n' => sumZ n' f + f (Z.of_nat n')
  end.

(** the emigrants of species [s] on record: the sum of
    [nEmigrants[n*nSpecies+s]] over the neighbours [n] *)
Definition emigrantCount (m : MpiInfo) (nSpecies_ s : Z) : Z :=
  sumZ (Z.to_nat (nNeighbors m)) (fun n => nEmigrants m (n * nSpecies_ + s)).

(** the number of live particles of species [s] *)
Definition liveCount (pop : Population) (s : Z) : Z := iStop pop s - iStart pop s.

(** what the loops of the extraction keep, for [S] species: the starts of
    the ranges, the number of neighbours, and for every species the
    particles still live plus the emigrants on record *)
Definition kept (S : Z) (st st' : Population * MpiInfo) : Prop :=
  iStart (fst st') = iStart (fst st) /\
  nNeighbors (snd st') = nNeighbors (snd st) /\
  forall t, 0 <= t < S ->
    iStop (fst st') t + emigrantCount (snd st') S t
    = iStop (fst st) t + emigrantCount (snd st) S t.

(** no live particle lies beyond a migration threshold, as each of the two
    extractions classifies it *)
Definition noEmigrant3D (pop : Population) (mpiInfo : MpiInfo) : Prop :=
  forall t i, 0 <= t < nSpecies pop -> iStart pop t <= i < iStop pop t ->
    neighbor3D (pos pop) (thresholds mpiInfo) (i * 3) = neighborhoodCenter mpiInfo.

Definition noEmigrantND (pop : Population) (mpiInfo : MpiInfo) : Prop :=
  forall t i, 0 <= t < nSpecies pop -> iStart pop t <= i < iStop pop t ->
    neighborND (pos pop) (thresholds mpiInfo) (nDims pop) (i * nDims pop)
    = neighborhoodCenter mpiInfo.

(** two species of particles in three dimensions: the first has one
    particle inside the thresholds and one beyond the upper [x] threshold,
    the second one particle inside *)
Definition popMig : Population :=
  {| pos := ofList (Q2Qc 0) [ofZ 1; ofZ 1; ofZ 1;  ofZ 9; ofZ 1; ofZ 1;
                             ofZ 0; ofZ 0; ofZ 0;  ofZ 2; ofZ 2; ofZ 2];
     vel := ofList (Q2Qc 0) [ofZ 0; ofZ 0; ofZ 0;  ofZ 1; ofZ 0; ofZ 0;
                             ofZ 0; ofZ 0; ofZ 0;  ofZ 0; ofZ 0; ofZ 0];
     iStart := ofList 0 [0; 3]; iStop := ofList 0 [2; 4];
     nSpecies := 2; nDims := 3;
     renormE := ofList (Q2Qc 0) [ofZ 1; ofZ 1];
     renormRho := ofList (Q2Qc 0) [ofZ 1; ofZ 1] |}.

Definition mpiMig : MpiInfo :=
  {| thresholds := ofList (Q2Qc 0) [ofZ 0; ofZ 0; ofZ 0; ofZ 8; ofZ 8; ofZ 8];
     neighborhoodCenter := 13;
     nNeighbors := 27;
     nEmigrants := fresh 7;
     emigrants := fresh (fresh (Q2Qc 0));
     emigrantsDummy := fresh 0 |}.

(** ** Recorded accesses *)

(** the arrays [jacobian] works on *)
Inductive Buffer : Type := PhiVal | RhoVal | TempVal.

Inductive Access : Type :=
| Read (b : Buffer) (i : Z)
| Write (b : Buffer) (i : Z).

(** a computation together with the accesses it makes, in order *)
Definition Traced (A : Type) : Type := (A * list Access)%type.

Definition tret {A : Type} (a : A) : Traced A := (a, []).

Definition tbind {A B : Type} (c : Traced A) (k : A -> Traced B) : Traced B :=
  let '(a, t1) := c in
  let '(b, t2) := k a in
  (b, (t1 ++ t2)%list).

Notation "x <~ c ;; k" := (tbind c (fun x => k))
  (at level 61, c at next level, right associativity).

Definition rd (b : Buffer) (a : arr double) (i : Z) : Traced double := (a i, [Read b i]).

Definition wr (b : Buffer) (a : arr double) (i : Z) (v : double) : Traced (arr double) :=
  (upd a i v, [Write b i]).

Fixpoint forLoopT {S : Type} (n : nat) (i step : Z) (body : Z -> S -> Traced S) (s : S)
    : Traced S :=
  match n with
  | O => tret s
  | Datatypes.S n' => s' <~ body i s ;; forLoopT n' (i + step) step body s'
  end.

Definition forUpT {S : Type} (lo hi : Z) (body : Z -> S -> Traced S) (s : S) : Traced S :=
  forLoopT (Z.to_nat (hi - lo)) lo 1 body s.

(** the access is to a cell of an array of [n] elements *)
Definition accessInBounds (n : Z) (a : Access) : Prop :=
  match a with
  | Read _ i => 0 <= i < n
  | Write _ i => 0 <= i < n
  end.

(** ** Ghost cells *)

(** the coordinate along axis [d] of the element at index [i] *)
Definition coordAlong (g : Grid) (d i : Z) : Z := (i / sizeProd g d) mod size g d.

(** the element at [i] lies in a ghost layer of axis [d] *)
Definition ghostCell (g : Grid) (d i : Z) : bool :=
  (0 <=? i) && (i <? nElems g)
  && ((coordAlong g d i <? nGhostLayers g d)
      || (size g d - nGhostLayers g (rank g + d) <=? coordAlong g d i)).

Definition sameShape (g g' : Grid) : Prop :=
  rank g' = rank g /\ size g' = size g /\ trueSize g' = trueSize g /\
  nGhostLayers g' = nGhostLayers g /\ sizeProd g' = sizeProd g.

(** what the solver relies on from [gSwapGhostsDim], whose source is in
    another file: an exchange along axis [d] keeps the shape of the grid and
    writes to ghost cells of axis [d] only *)
Definition exchangeContract (swap : Grid -> MpiInfo -> Z -> Grid) : Prop :=
  forall g m d,
    sameShape g (swap g m d) /\
    forall i, ghostCell g d i = false -> val (swap g m d) i = val g i.

(** Modelled from the spec: [gSwapGhostsDim] on a single subdomain with
    periodic topology, where the neighbour on either side is the grid
    itself: a ghost cell takes the value of the interior cell one interior
    length away. *)
Definition gSwapGhostsDimPeriodic (g : Grid) (m : MpiInfo) (d : Z) : Grid :=
  setVal g
    (fun i =>
       if (0 <=? i) && (i <? nElems g) then
         if coordAlong g d i <? nGhostLayers g d
         then val g (i + trueSize g d * sizeProd g d)
         else if size g d - nGhostLayers g (rank g + d) <=? coordAlong g d i
              then val g (i - trueSize g d * sizeProd g d)
              else val g i
       else val g i).

(** ** multigrid.c: the Jacobi solver *)

Section Exchange.

Variable gSwapGhostsDim : Grid -> MpiInfo -> Z -> Grid.

(** [for (d = 1; d < rank; d++) gSwapGhostsDim(phi, mpiInfo, d)] *)
Definition swapGhosts (rank_ : Z) (mpiInfo : MpiInfo) (phi : Grid) : Grid :=
  forUp 1 rank_ (fun d phi => gSwapGhostsDim phi mpiInfo d) phi.

(** the sweep of one cycle of [jacobian] into [tempVal] *)
Definition jacobianSweep (sizeProd_ : arr Z) (rank_ : Z) (phiVal rhoVal tempVal : arr double)
    : Traced (arr double) :=
  let gj := sizeProd_ 1 in
  let gjj := - sizeProd_ 1 in
  let gk := sizeProd_ 2 in
  let gkk := - sizeProd_ 2 in
  st <~ forUpT 0 (sizeProd_ rank_)
          (fun g '(tempVal, gj, gjj, gk, gkk) =>
             a <~ rd PhiVal phiVal gj ;;
             b <~ rd PhiVal phiVal gjj ;;
             c <~ rd PhiVal phiVal gk ;;
             d <~ rd PhiVal phiVal gkk ;;
             r <~ rd RhoVal rhoVal g ;;
             tempVal <~ wr TempVal tempVal g (d0_25 * (a + b + c + d - r))%Qc ;;
             tret (tempVal, gj + 1, gjj + 1, gk + 1, gkk + 1))
          (tempVal, gj, gjj, gk, gkk) ;;
  let '(tempVal, _, _, _, _) := st in
  tret tempVal.

(** the index of the node [jacobian] sets to zero *)
Definition normalizeIndex (sizeProd_ : arr Z) : Z := 3 * sizeProd_ 1 + 3 * sizeProd_ 2.

(** a cycle of [jacobian] up to [phiVal[normalize] = 0.] *)
Definition jacobianRelax (sizeProd_ : arr Z) (rank_ : Z) (rhoVal : arr double)
    (st : Grid * arr double) : Traced (Grid * arr double) :=
  let '(phi, tempVal) := st in
  let phiVal := val phi in
  let normalize := normalizeIndex sizeProd_ in
  tempVal <~ jacobianSweep sizeProd_ rank_ phiVal rhoVal tempVal ;;
  phiVal <~ forUpT 0 (sizeProd_ rank_)
              (fun q phiVal => v <~ rd TempVal tempVal q ;; wr PhiVal phiVal q v)
              phiVal ;;
  phiVal <~ wr PhiVal phiVal normalize (Q2Qc 0) ;;
  tret (setVal phi phiVal, tempVal).

(** a whole cycle: the exchange of the ghost layers ends it *)
Definition jacobianCycle (sizeProd_ : arr Z) (rank_ : Z) (rhoVal : arr double)
    (mpiInfo : MpiInfo) (st : Grid * arr double) : Traced (Grid * arr double) :=
  st <~ jacobianRelax sizeProd_ rank_ rhoVal st ;;
  tret (swapGhosts rank_ mpiInfo (fst st), snd st).

(** the grid and the scratch array after [c] cycles; [junk] is what the
    newly allocated [tempVal] holds *)
Definition jacobianCycles (junk : arr double) (phi rho : Grid) (mpiInfo : MpiInfo) (c : Z)
    : Traced (Grid * arr double) :=
  let rank_ := rank phi in
  let sizeProd_ := sizeProd phi in
  let rhoVal := val rho in
  forUpT 0 c (fun _ st => jacobianCycle sizeProd_ rank_ rhoVal mpiInfo st) (phi, junk).

Definition jacobian (junk : arr double) (phi rho : Grid) (nCycles : Z) (mpiInfo : MpiInfo)
    : Traced Grid :=
  st <~ jacobianCycles junk phi rho mpiInfo nCycles ;;
  tret (fst st).

End Exchange.

(** a 2 x 2 interior with one ghost layer on every side, all zero, and a
    right-hand side that is -4 everywhere *)
Definition phiSmall : Grid := gridSq 2.

Definition rhoSmall : Grid := setVal (gridSq 2) (fresh (ofZ (-4))).

(** a 6 x 6 interior with one ghost layer on every side *)
Definition phiLarge : Grid := gridSq 6.

Definition rhoLarge : Grid := setVal (gridSq 6) (fresh (ofZ (-4))).

(** ** multigrid.c: restriction and prolongation *)

Definition d1_12 : double := Q2Qc (1 # 12).

Definition halfWeightRestrict3D (fine coarse : Grid) : Grid :=
  let fVal := val fine in
  let fSizeProd := sizeProd fine in
  let rank_ := rank fine in
  let nGhostLayers_ := nGhostLayers fine in
  let cVal := val coarse in
  let cSizeProd := sizeProd coarse in
  let cTrueSize := trueSize coarse in
  let c := cSizeProd 1 * nGhostLayers_ 1 + cSizeProd 2 * nGhostLayers_ 2
           + cSizeProd 3 * nGhostLayers_ 3 in
  let f := fSizeProd 1 * nGhostLayers_ 1 + fSizeProd 2 * nGhostLayers_ 2
           + fSizeProd 3 * nGhostLayers_ 3 in
  let fj := f + fSizeProd 1 in
  let fjj := f - fSizeProd 1 in
  let fk := f + fSizeProd 2 in
  let fkk := f - fSizeProd 2 in
  let fl := f + fSizeProd 3 in
  let fll := f - fSizeProd 3 in
  let cKEdgeInc := nGhostLayers_ 2 + nGhostLayers_ (rank_ + 2) in
  let fKEdgeInc := nGhostLayers_ 2 + nGhostLayers_ (rank_ + 2) + fSizeProd 2 in
  let cLEdgeInc := (nGhostLayers_ 3 + nGhostLayers_ (rank_ + 3)) * cSizeProd 2 in
  let fLEdgeInc := (nGhostLayers_ 3 + nGhostLayers_ (rank_ + 3)) * fSizeProd 2 + fSizeProd 3 in
  let coeff := d1_12 in
  let '(cVal, _, _, _, _, _, _, _, _) :=
    forUp 0 (cTrueSize 3)
      (fun l st =>
         let '(cVal, c, f, fj, fjj, fk, fkk, fl, fll) :=
           forUp 0 (cTrueSize 2)
             (fun k st =>
                let '(cVal, c, f, fj, fjj, fk, fkk, fl, fll) :=
                  forUp 0 (cTrueSize 1)
                    (fun j '(cVal, c, f, fj, fjj, fk, fkk, fl, fll) =>
                       (upd cVal c
                          (coeff * (ofZ 6 * fVal f + fVal fj + fVal fjj + fVal fk
                                    + fVal fkk + fVal fl + fVal fll))%Qc,
                        c + 1, f + 2, fj + 2, fjj + 2, fk + 2, fkk + 2, fl + 2, fll + 2))
                    st in
                (cVal, c + cKEdgeInc, f + fKEdgeInc, fj + fKEdgeInc, fjj + fKEdgeInc,
                 fk + fKEdgeInc, fkk + fKEdgeInc, fl + fKEdgeInc, fll + fKEdgeInc))
             st in
         (cVal, c + cLEdgeInc, f + fLEdgeInc, fj + fLEdgeInc, fjj + fLEdgeInc,
          fk + fLEdgeInc, fkk + fLEdgeInc, fl + fLEdgeInc, fll + fLEdgeInc))
      (cVal, c, f, fj, fjj, fk, fkk, fl, fll) in
  setVal coarse cVal.

Definition halfWeightRestrict2D (fine coarse : Grid) : Grid :=
  let fVal := val fine in
  let fSizeProd := sizeProd fine in
  let rank_ := rank fine in
  let nGhostLayers_ := nGhostLayers fine in
  let cVal := val coarse in
  let cSizeProd := sizeProd coarse in
  let cSize := size coarse in
  let c := cSizeProd 2 + cSizeProd 1 in
  let f := fSizeProd 2 + fSizeProd 1 in
  let fj := f + fSizeProd 1 in
  let fjj := f - fSizeProd 1 in
  let fk := f + fSizeProd 2 in
  let fkk := f - fSizeProd 2 in
  let cKEdgeInc := nGhostLayers_ 2 + nGhostLayers_ (rank_ + 2) in
  let fKEdgeInc := cKEdgeInc + fSizeProd 2 in
  let '(cVal, _, _, _, _, _, _) :=
    forUp (nGhostLayers_ 2) (cSize 2 - nGhostLayers_ (rank_ + 2))
      (fun k st =>
         let '(cVal, c, f, fj, fjj, fk, fkk) :=
           forUp (nGhostLayers_ 1) (cSize 1 - nGhostLayers_ (rank_ + 1))
             (fun j '(cVal, c, f, fj, fjj, fk, fkk) =>
                (upd cVal c
                   (d0_125 * (ofZ 4 * fVal f + fVal fj + fVal fjj + fVal fk + fVal fkk))%Qc,
                 c + 1, f + 2, fj + 2, fjj + 2, fk + 2, fkk + 2))
             st in
         (cVal, c + cKEdgeInc, f + fKEdgeInc, fj + fKEdgeInc, fjj + fKEdgeInc,
          fk + fKEdgeInc, fkk + fKEdgeInc))
      (cVal, c, f, fj, fjj, fk, fkk) in
  setVal coarse cVal.

(** the three passes of [bilinearProlong2D], between which the ghost layers
    are exchanged: direct insertion of the coarse values *)
Definition bilinearProlong2D_insert (fine coarse : Grid) : arr double :=
  let fVal := val fine in
  let fSizeProd := sizeProd fine in
  let rank_ := rank fine in
  let nGhostLayers_ := nGhostLayers fine in
  let cVal := val coarse in
  let cSizeProd := sizeProd coarse in
  let cSize := size coarse in
  let f := fSizeProd 2 + fSizeProd 1 in
  let c := cSizeProd 2 + cSizeProd 1 in
  let cKEdgeInc := nGhostLayers_ 2 + nGhostLayers_ (rank_ + 2) in
  let fKEdgeInc := cKEdgeInc + fSizeProd 2 in
  let '(fVal, _, _) :=
    forUp (nGhostLayers_ 2) (cSize 2 - nGhostLayers_ (rank_ + 2))
      (fun k st =>
         let '(fVal, c, f) :=
           forUp (nGhostLayers_ 1) (cSize 1 - nGhostLayers_ (rank_ + 1))
             (fun j '(fVal, c, f) => (upd fVal f (cVal c), c + 1, f + 2))
             st in
         (fVal, c + cKEdgeInc, f + fKEdgeInc))
      (fVal, c, f) in
  fVal.

(** odd numbered columns, interpolating vertically *)
Definition bilinearProlong2D_vertical (fSizeProd fSize : arr Z) (fVal : arr double)
    : arr double :=
  let f := fSizeProd 1 in
  let fNext := f + fSizeProd 2 in
  let fPrev := f - fSizeProd 2 in
  let '(fVal, _, _, _) :=
    forStep 0 (fSize 2) 2
      (fun k st =>
         let '(fVal, f, fNext, fPrev) :=
           forStep 0 (fSize 1) 2
             (fun j '(fVal, f, fNext, fPrev) =>
                (upd fVal f (fVal f + d0_5 * (fVal fPrev + fVal fNext))%Qc,
                 f + 2, fNext + 2, fPrev + 2))
             st in
         (fVal, f + fSizeProd 2, fNext + fSizeProd 2, fPrev + fSizeProd 2))
      (fVal, f, fNext, fPrev) in
  fVal.

(** even numbered columns, interpolating horizontally *)
Definition bilinearProlong2D_horizontal (fSizeProd fSize : arr Z) (fVal : arr double)
    : arr double :=
  let f := 0 in
  let fNext := f + fSizeProd 1 in
  let fPrev := f - fSizeProd 1 in
  let '(fVal, _, _, _) :=
    forStep 0 (fSize 2) 1
      (fun k st =>
         forStep 0 (fSize 1) 2
           (fun j '(fVal, f, fNext, fPrev) =>
              (upd fVal f (fVal f + d0_5 * (fVal fPrev + fVal fNext))%Qc,
               f + 2, fNext + 2, fPrev + 2))
           st)
      (fVal, f, fNext, fPrev) in
  fVal.

Section Prolongation.

Variable gSwapGhostsDim : Grid -> MpiInfo -> Z -> Grid.

Definition bilinearProlong3D (fine coarse : Grid) (mpiInfo : MpiInfo) : Grid :=
  let fVal := val fine in
  let fSizeProd := sizeProd fine in
  let fSize := size fine in
  let fTrueSize := trueSize fine in
  let rank_ := rank fine in
  let nGhostLayers_ := nGhostLayers fine in
  let cVal := val coarse in
  let cSizeProd := sizeProd coarse in
  let cTrueSize := trueSize coarse in
  let f := fSizeProd 1 + fSizeProd 2 + fSizeProd 3 in
  let c := cSizeProd 1 + cSizeProd 2 + cSizeProd 3 in
  let cKEdgeInc := nGhostLayers_ 2 + nGhostLayers_ (rank_ + 2) in
  let fKEdgeInc := cKEdgeInc + fSizeProd 2 in
  let cLEdgeInc := (nGhostLayers_ 3 + nGhostLayers_ (rank_ + 3)) * cSizeProd 2 in
  let fLEdgeInc := (nGhostLayers_ 3 + nGhostLayers_ (rank_ + 3)) * fSizeProd 2 + fSizeProd 3 in
  (* direct insertion *)
  let '(fVal, _, _) :=
    forUp 0 (cTrueSize 3)
      (fun l st =>
         let '(fVal, c, f) :=
           forUp 0 (cTrueSize 2)
             (fun k st =>
                let '(fVal, c, f) :=
                  forUp 0 (cTrueSize 1)
                    (fun j '(fVal, c, f) => (upd fVal f (cVal c), c + 1, f + 2))
                    st in
                (fVal, c + cKEdgeInc, f + fKEdgeInc))
             st in
         (fVal, c + cLEdgeInc, f + fLEdgeInc))
      (fVal, c, f) in
  let fine := gSwapGhostsDim (setVal fine fVal) mpiInfo 3 in
  let fVal := val fine in
  (* interpolation along the third axis *)
  let f := fSizeProd 1 + fSizeProd 2 + 2 * fSizeProd 3 in
  let fNext := f + fSizeProd 3 in
  let fPrev := f - fSizeProd 3 in
  let '(fVal, _, _, _) :=
    forStep 0 (fTrueSize 3) 2
      (fun l st =>
         let '(fVal, f, fNext, fPrev) :=
           forStep 0 (fSize 2) 2
             (fun k st =>
                let '(fVal, f, fNext, fPrev) :=
                  forStep 0 (fSize 1) 2
                    (fun j '(fVal, f, fNext, fPrev) =>
                       (upd fVal f (d0_5 * (fVal fPrev + fVal fNext))%Qc,
                        f + 2, fNext + 2, fPrev + 2))
                    st in
                (fVal, f + fSizeProd 2, fNext + fSizeProd 2, fPrev + fSizeProd 2))
             st in
         (fVal, f + fSizeProd 3, fNext + fSizeProd 3, fPrev + fSizeProd 3))
      (fVal, f, fNext, fPrev) in
  let fine := gSwapGhostsDim (setVal fine fVal) mpiInfo 2 in
  let fVal := val fine in
  (* interpolation along the second axis *)
  let f := fSizeProd 1 + 2 * fSizeProd 2 + fSizeProd 3 in
  let fNext := f + fSizeProd 2 in
  let fPrev := f - fSizeProd 2 in
  let '(fVal, _, _, _) :=
    forUp 0 (fTrueSize 3)
      (fun l st =>
         forStep 0 (fSize 2) 2
           (fun k st =>
              let '(fVal, f, fNext, fPrev) :=
                forStep 0 (fSize 1) 2
                  (fun j '(fVal, f, fNext, fPrev) =>
                     (upd fVal f (d0_5 * (fVal fPrev + fVal fNext))%Qc,
                      f + 2, fNext + 2, fPrev + 2))
                  st in
              (fVal, f + fSizeProd 2, fNext + fSizeProd 2, fPrev + fSizeProd 2))
           st)
      (fVal, f, fNext, fPrev) in
  let fine := gSwapGhostsDim (setVal fine fVal) mpiInfo 1 in
  let fVal := val fine in
  (* interpolation along the first axis *)
  let f := 2 * fSizeProd 1 + fSizeProd 2 + fSizeProd 3 in
  let fNext := f + fSizeProd 1 in
  let fPrev := f - fSizeProd 1 in
  let '(fVal, _, _, _) :=
    forUp 0 (fTrueSize 3)
      (fun l st =>
         let '(fVal, f, fNext, fPrev) :=
           forUp 0 (fTrueSize 2)
             (fun k st =>
                forStep 0 (fSize 1) 2
                  (fun j '(fVal, f, fNext, fPrev) =>
                     (upd fVal f (d0_5 * (fVal fPrev + fVal fNext))%Qc,
                      f + 2, fNext + 2, fPrev + 2))
                  st)
             st in
         (fVal, f + 2 * fSizeProd 2, fNext + 2 * fSizeProd 2, fPrev + 2 * fSizeProd 2))
      (fVal, f, fNext, fPrev) in
  setVal fine fVal.

Definition bilinearProlong2D (fine coarse : Grid) (mpiInfo : MpiInfo) : Grid :=
  let fSizeProd := sizeProd fine in
  let fSize := size fine in
  let fVal := bilinearProlong2D_insert fine coarse in
  let fine := gSwapGhostsDim (setVal fine fVal) mpiInfo 2 in
  let fVal := bilinearProlong2D_vertical fSizeProd fSize (val fine) in
  let fine := gSwapGhostsDim (setVal fine fVal) mpiInfo 1 in
  let fVal := bilinearProlong2D_horizontal fSizeProd fSize (val fine) in
  setVal fine fVal.

End Prolongation.

(** a grid of [n x n] interior nodes with one ghost layer per side, every
    element [c] *)
Definition constSq (n : Z) (c : double) : Grid := setVal (gridSq n) (fresh c).

(** a grid of [n x n x n] interior nodes with one ghost layer per side *)
Definition gridCube (n : Z) : Grid :=
  {| rank := 4;
     size := ofList 0 [1; n + 2; n + 2; n + 2];
     trueSize := ofList 0 [1; n; n; n];
     nGhostLayers := ofList 0 [0; 1; 1; 1; 0; 1; 1; 1];
     sizeProd := ofList 0 [1; 1; n + 2; (n + 2) * (n + 2); (n + 2) * (n + 2) * (n + 2)];
     val := fresh (Q2Qc 0);
     slice := fresh (Q2Qc 0);
     h5 := 0 |}.

Definition constCube (n : Z) (c : double) : Grid := setVal (gridCube n) (fresh c).

(** the indices of the interior nodes of a grid of rank 3 or 4 with unit
    leading extent *)
Definition interior2D (g : Grid) : list Z :=
  flat_map
    (fun k => map (fun j => Z.of_nat j * sizeProd g 1 + Z.of_nat k * sizeProd g 2)
                (seq (Z.to_nat (nGhostLayers g 1)) (Z.to_nat (trueSize g 1))))
    (seq (Z.to_nat (nGhostLayers g 2)) (Z.to_nat (trueSize g 2))).

Definition interior3D (g : Grid) : list Z :=
  flat_map
    (fun l => map (fun i => i + Z.of_nat l * sizeProd g 3) (interior2D g))
    (seq (Z.to_nat (nGhostLayers g 3)) (Z.to_nat (trueSize g 3))).

(** every listed element of the grid is [c] *)
Definition allAre (g : Grid) (c : double) (l : list Z) : bool :=
  forallb (fun i => deqb (val g i) c) l.

(** what the two tests of [puBndPeriodic] make of a coordinate [x] on an
    axis of extent [sz] *)
Definition wrapOnce (x sz : double) : double :=
  let x := if dgt x sz then (x - sz)%Qc else x in
  if dlt x (Q2Qc 0) then (x + sz)%Qc else x.

(** a fine and a coarse grid of two dimensions as [halfWeightRestrict2D]
    takes them: scalar fields with one ghost layer on every side, the coarse
    interior [cT1 x cT2] and the fine interior twice that along each axis *)
Definition restrictPair2D (fine coarse : Grid) (cT1 cT2 : Z) : Prop :=
  rank fine = 3 /\
  nGhostLayers fine 1 = 1 /\ nGhostLayers fine 2 = 1 /\
  nGhostLayers fine 4 = 1 /\ nGhostLayers fine 5 = 1 /\
  0 <= cT1 /\ 0 <= cT2 /\
  size coarse 1 = cT1 + 2 /\ size coarse 2 = cT2 + 2 /\
  sizeProd coarse 1 = 1 /\ sizeProd coarse 2 = cT1 + 2 /\
  sizeProd fine 1 = 1 /\ sizeProd fine 2 = 2 * cT1 + 2 /\
  nElems fine = (2 * cT1 + 2) * (2 * cT2 + 2).

(** every element of the grid, ghost cells included, is [c] *)
Definition constField (g : Grid) (c : double) : Prop :=
  forall k, 0 <= k < nElems g -> val g k = c.

(** a fine and a coarse grid of three dimensions as [halfWeightRestrict3D]
    takes them: scalar fields with one ghost layer on every side, the coarse
    interior [cT1 x cT2 x cT3] and the fine interior twice that along each
    axis *)
Definition restrictPair3D (fine coarse : Grid) (cT1 cT2 cT3 : Z) : Prop :=
  rank fine = 4 /\
  nGhostLayers fine 1 = 1 /\ nGhostLayers fine 2 = 1 /\ nGhostLayers fine 3 = 1 /\
  nGhostLayers fine 6 = 1 /\ nGhostLayers fine 7 = 1 /\
  0 <= cT1 /\ 0 <= cT2 /\ 0 <= cT3 /\
  trueSize coarse 1 = cT1 /\ trueSize coarse 2 = cT2 /\ trueSize coarse 3 = cT3 /\
  sizeProd coarse 1 = 1 /\ sizeProd coarse 2 = cT1 + 2 /\
  sizeProd coarse 3 = (cT1 + 2) * (cT2 + 2) /\
  sizeProd fine 1 = 1 /\ sizeProd fine 2 = 2 * cT1 + 2 /\
  sizeProd fine 3 = (2 * cT1 + 2) * (2 * cT2 + 2) /\
  nElems fine = (2 * cT1 + 2) * (2 * cT2 + 2) * (2 * cT3 + 2).

(** ** pusher.c: puMove *)

Definition puMove (pop : Population) : Population :=
  let nSpecies_ := nSpecies pop in
  let nDims_ := nDims pop in
  let vel_ := vel pop in
  setPos pop
    (forUp 0 nSpecies_
       (fun s pos_ =>
          let pStart := iStart pop s * nDims_ in
          let pStop := iStop pop s * nDims_ in
          forUp pStart pStop (fun p pos_ => upd pos_ p (pos_ p + vel_ p)%Qc) pos_)
       (pos pop)).

(** ** pusher.c: ranks of the neighbours and immigrants *)

Module Mpi.

(** Modelled from the spec: the fields of [MpiInfo] that place the
    subdomain among the others and that receive the immigrants. They stand
    beside the fields of [MpiInfo] above: the coordinates [subdomain] of this
    subdomain, the numbers [nSubdomains] of subdomains along the axes with
    their cumulative products [nSubdomainsProd], the receive buffer
    [immigrants] and the counts [nImmigrants] per neighbour and species. *)
Record Info : Type := mkInfo {
  nDims : Z;
  nSpecies : Z;
  subdomain : arr Z;
  nSubdomains : arr Z;
  nSubdomainsProd : arr Z;
  nImmigrants : arr Z;
  immigrants : arr double
}.

Definition setImmigrants (m : Info) (a : arr double) : Info :=
  {| nDims := nDims m; nSpecies := nSpecies m; subdomain := subdomain m;
     nSubdomains := nSubdomains m; nSubdomainsProd := nSubdomainsProd m;
     nImmigrants := nImmigrants m; immigrants := a |}.

End Mpi.

(** [puNeighborToRank]: the loop state is the pair of [rank] and the
    running [neighbor]. *)
Definition puNeighborToRank (mpiInfo : Mpi.Info) (neighbor : Z) : Z :=
  let subdomain := Mpi.subdomain mpiInfo in
  let nSubdomains := Mpi.nSubdomains mpiInfo in
  let nSubdomainsProd := Mpi.nSubdomainsProd mpiInfo in
  fst (forUp 0 (Mpi.nDims mpiInfo)
         (fun d '(rank_, neighbor) =>
            let n := Z.rem neighbor 3 - 1 in
            let neighbor := Z.quot neighbor 3 in
            let n := Z.rem (subdomain d + n + nSubdomains d) (nSubdomains d) in
            (rank_ + n * nSubdomainsProd d, neighbor))
         (0, neighbor)).

(** [puRankToNeighbor]: [pow(3,d)] is the exact power. *)
Definition puRankToNeighbor (mpiInfo : Mpi.Info) (rank_ : Z) : Z :=
  let subdomain := Mpi.subdomain mpiInfo in
  let nSubdomains := Mpi.nSubdomains mpiInfo in
  fst (forUp 0 (Mpi.nDims mpiInfo)
         (fun d '(neighbor, rank_) =>
            let n := Z.rem rank_ (nSubdomains d) in
            let n := Z.rem (n - subdomain d + 1 + nSubdomains d) (nSubdomains d) in
            let rank_ := Z.quot rank_ (nSubdomains d) in
            (neighbor + n * 3 ^ d, rank_))
         (0, rank_)).

(** the digit of axis [d] in a neighbour index: 0, 1 or 2 for the lower
    neighbour, this subdomain and the upper neighbour along the axis *)
Definition neighborDigit (neighbor d : Z) : Z := (neighbor / 3 ^ d) mod 3.

(** the index of the subdomain itself among its [3^D] neighbours *)
Definition centerOf (D : Z) : Z := (3 ^ D - 1) / 2.

(** a decomposition with at least [least] subdomains along every axis: the
    subdomain lies inside it and [nSubdomainsProd] holds the cumulative
    products of [nSubdomains] *)
Definition decomposition (least : Z) (mpiInfo : Mpi.Info) : Prop :=
  0 <= Mpi.nDims mpiInfo /\
  Mpi.nSubdomainsProd mpiInfo 0 = 1 /\
  forall d, 0 <= d < Mpi.nDims mpiInfo ->
    least <= Mpi.nSubdomains mpiInfo d /\
    0 <= Mpi.subdomain mpiInfo d < Mpi.nSubdomains mpiInfo d /\
    Mpi.nSubdomainsProd mpiInfo (d + 1)
    = Mpi.nSubdomainsProd mpiInfo d * Mpi.nSubdomains mpiInfo d.

(** subdomain (1, 0) of a decomposition into 4 x 3 subdomains *)
Definition mpi4x3 : Mpi.Info :=
  {| Mpi.nDims := 2; Mpi.nSpecies := 2;
     Mpi.subdomain := ofList 0 [1; 0];
     Mpi.nSubdomains := ofList 0 [4; 3];
     Mpi.nSubdomainsProd := ofList 0 [1; 4; 12];
     Mpi.nImmigrants := fresh 0;
     Mpi.immigrants := fresh (Q2Qc 0) |}.

(** a single subdomain in two dimensions *)
Definition mpiSingle : Mpi.Info :=
  {| Mpi.nDims := 2; Mpi.nSpecies := 1;
     Mpi.subdomain := ofList 0 [0; 0];
     Mpi.nSubdomains := ofList 0 [1; 1];
     Mpi.nSubdomainsProd := ofList 0 [1; 1; 1];
     Mpi.nImmigrants := fresh 0;
     Mpi.immigrants := fresh (Q2Qc 0) |}.

(** its upper neighbour along the first axis, subdomain (2, 0) *)
Definition mpi4x3Upper : Mpi.Info :=
  {| Mpi.nDims := 2; Mpi.nSpecies := 2;
     Mpi.subdomain := ofList 0 [2; 0];
     Mpi.nSubdomains := ofList 0 [4; 3];
     Mpi.nSubdomainsProd := ofList 0 [1; 4; 12];
     Mpi.nImmigrants := fresh 0;
     Mpi.immigrants := fresh (Q2Qc 0) |}.

(** Modelled from the spec: [alSum] adds the elements [a[0..n)]. *)
Definition alSum (a : arr Z) (n : Z) : Z := sumZ (Z.to_nat n) a.

(** [shiftImmigrants]: the loop state is the buffer and the running [ne]. *)
Definition shiftImmigrants (mpiInfo : Mpi.Info) (grid : Grid) (ne : Z) : Mpi.Info :=
  let immigrants := Mpi.immigrants mpiInfo in
  let nSpecies_ := Mpi.nSpecies mpiInfo in
  let nImmigrantsTotal := alSum (from (Mpi.nImmigrants mpiInfo) (ne * nSpecies_)) nSpecies_ in
  let nDims_ := Mpi.nDims mpiInfo in
  let '(immigrants, _) :=
    forUp 0 nDims_
      (fun d '(immigrants, ne) =>
         let n := Z.rem ne 3 - 1 in
         let ne := Z.quot ne 3 in
         let shift := ofZ (n * trueSize grid (d + 1)) in
         (forUp 0 nImmigrantsTotal
            (fun i immigrants =>
               upd immigrants (d + 2 * nDims_ * i)
                 (immigrants (d + 2 * nDims_ * i)%Z + shift)%Qc)
            immigrants,
          ne))
      (immigrants, ne) in
  Mpi.setImmigrants mpiInfo immigrants.

(** [for (d = 0; d < nDims; d++) *(a++) = *(particles++)]: [aP] and [pp]
    are the offsets of the moving pointers in the array written and in the
    caller's buffer. *)
Definition importCoords (particles : arr double) (nDims_ : Z) (st : arr double * Z * Z)
    : arr double * Z * Z :=
  forUp 0 nDims_ (fun d '(a, aP, pp) => (upd a aP (particles pp), aP + 1, pp + 1)) st.

(** the round of one particle in [importParticles] *)
Definition importParticles_particle (particles : arr double) (nDims_ : Z) (i : Z)
    (st : arr double * arr double * Z * Z * Z) : arr double * arr double * Z * Z * Z :=
  let '(pos_, vel_, posP, velP, pp) := st in
  let '(pos_, posP, pp) := importCoords particles nDims_ (pos_, posP, pp) in
  let '(vel_, velP, pp) := importCoords particles nDims_ (vel_, velP, pp) in
  (pos_, vel_, posP, velP, pp).

(** the round of species [s] *)
Definition importParticles_species (particles : arr double) (nParticles : arr Z) (nDims_ : Z)
    (s : Z) (st : arr double * arr double * arr Z * Z) : arr double * arr double * arr Z * Z :=
  let '(pos_, vel_, iStop_, pp) := st in
  let posP := nDims_ * iStop_ s in
  let velP := nDims_ * iStop_ s in
  let '(pos_, vel_, _, _, pp) :=
    forUp 0 (nParticles s) (importParticles_particle particles nDims_)
      (pos_, vel_, posP, velP, pp) in
  (pos_, vel_, upd iStop_ s (iStop_ s + nParticles s), pp).

Definition importParticles (pop : Population) (particles : arr double) (nParticles : arr Z)
    (nSpecies_ : Z) : Population :=
  let nDims_ := nDims pop in
  let '(pos_, vel_, iStop_, _) :=
    forUp 0 nSpecies_ (importParticles_species particles nParticles nDims_)
      (pos pop, vel pop, iStop pop, 0) in
  setIStop (setVel (setPos pop pos_) vel_) iStop_.

(** there is room behind every species for the particles to import: the
    ranges are well formed and the particles added to a species end before
    the next species starts *)
Definition roomFor (pop : Population) (nParticles : arr Z) (n : Z) : Prop :=
  (forall s, 0 <= s < n -> 0 <= nParticles s /\ iStart pop s <= iStop pop s) /\
  (forall s t, 0 <= s < t -> t < n -> iStop pop s + nParticles s <= iStart pop t).

(** two immigrants in two dimensions from the upper neighbour along the
    first axis (index 5), one of each species *)
Definition mpiTwoImmigrants : Mpi.Info :=
  {| Mpi.nDims := 2; Mpi.nSpecies := 2;
     Mpi.subdomain := ofList 0 [1; 0];
     Mpi.nSubdomains := ofList 0 [4; 3];
     Mpi.nSubdomainsProd := ofList 0 [1; 4; 12];
     Mpi.nImmigrants := fun k => if (10 <=? k) && (k <? 12) then 1 else 0;
     Mpi.immigrants := ofList (Q2Qc 0) [ofZ 9; ofZ 1; ofZ 1; ofZ 0;
                                        ofZ 8; ofZ 2; ofZ 0; ofZ 1] |}.

(** two species in two dimensions with room for one more particle each *)
Definition popRoom : Population :=
  {| pos := ofList (Q2Qc 0) [ofZ 1; ofZ 1;  ofZ 0; ofZ 0;  ofZ 2; ofZ 2;  ofZ 0; ofZ 0];
     vel := ofList (Q2Qc 0) [ofZ 0; ofZ 0;  ofZ 0; ofZ 0;  ofZ 0; ofZ 0;  ofZ 0; ofZ 0];
     iStart := ofList 0 [0; 2]; iStop := ofList 0 [1; 3];
     nSpecies := 2; nDims := 2;
     renormE := ofList (Q2Qc 0) [ofZ 1; ofZ 1];
     renormRho := ofList (Q2Qc 0) [ofZ 1; ofZ 1] |}.

(** the number of the particles [a..b) that [puExtractEmigrantsND] sends to
    the neighbour [n] when it finds them at their places in [pos_] *)
Definition emigrantsTo (pos_ thresholds_ : arr double) (nDims_ n a b : Z) : Z :=
  sumZ (Z.to_nat (b - a))
    (fun k => b2z (neighborND pos_ thresholds_ nDims_ ((a + k) * nDims_) =? n)).

(** ** multigrid.c: the Gauss-Seidel solvers *)

(** [loopRedBlack2D]: the parameters [gj], [gjj], [gk] and [gkk] of the
    source are set from [g] on entry, so that what the caller passes for them
    plays no part. *)
Definition loopRedBlack2D (rhoVal phiVal : arr double) (sizeProd_ trueSize_ : arr Z)
    (kEdgeInc g : Z) : arr double :=
  let gj := g + sizeProd_ 1 in
  let gjj := g - sizeProd_ 1 in
  let gk := g + sizeProd_ 2 in
  let gkk := g - sizeProd_ 2 in
  let '(phiVal, _, _, _, _, _) :=
    forStep 1 (trueSize_ 2) 2
      (fun k st =>
         let '(phiVal, g, gj, gjj, gk, gkk) :=
           forStep 1 (trueSize_ 1) 2
             (fun j '(phiVal, g, gj, gjj, gk, gkk) =>
                (upd phiVal g
                   (d0_25 * (phiVal gj + phiVal gjj + phiVal gk + phiVal gkk + rhoVal g))%Qc,
                 g + 2, gj + 2, gjj + 2, gk + 2, gkk + 2))
             st in
         (phiVal, g + kEdgeInc, gj + kEdgeInc, gjj + kEdgeInc, gk + kEdgeInc,
          gkk + kEdgeInc))
      (phiVal, g, gj, gjj, gk, gkk) in
  phiVal.

(** [loopRedBlack3D] *)
Definition loopRedBlack3D (rhoVal phiVal : arr double) (sizeProd_ trueSize_ : arr Z)
    (kEdgeInc lEdgeInc g : Z) : arr double :=
  let gj := g + sizeProd_ 1 in
  let gjj := g - sizeProd_ 1 in
  let gk := g + sizeProd_ 2 in
  let gkk := g - sizeProd_ 2 in
  let gl := g + sizeProd_ 3 in
  let gll := g - sizeProd_ 3 in
  let '(phiVal, _, _, _, _, _, _, _) :=
    forStep 0 (trueSize_ 3) 2
      (fun l st =>
         let '(phiVal, g, gj, gjj, gk, gkk, gl, gll) :=
           forStep 0 (trueSize_ 2) 2
             (fun k st =>
                let '(phiVal, g, gj, gjj, gk, gkk, gl, gll) :=
                  forStep 0 (trueSize_ 1) 2
                    (fun j '(phiVal, g, gj, gjj, gk, gkk, gl, gll) =>
                       (upd phiVal g
                          (d0_125 * (phiVal gj + phiVal gjj + phiVal gk + phiVal gkk
                                     + phiVal gl + phiVal gll + rhoVal g))%Qc,
                        g + 2, gj + 2, gjj + 2, gk + 2, gkk + 2, gl + 2, gll + 2))
                    st in
                (phiVal, g + kEdgeInc, gj + kEdgeInc, gjj + kEdgeInc, gk + kEdgeInc,
                 gkk + kEdgeInc, gl + kEdgeInc, gll + kEdgeInc))
             st in
         (phiVal, g + lEdgeInc, gj + lEdgeInc, gjj + lEdgeInc, gk + lEdgeInc,
          gkk + lEdgeInc, gl + lEdgeInc, gll + lEdgeInc))
      (phiVal, g, gj, gjj, gk, gkk, gl, gll) in
  phiVal.

Section GaussSeidel.

Variable gSwapGhostsDim : Grid -> MpiInfo -> Z -> Grid.

(** a cycle of [gaussSeidel2D]; [phi0] is the grid on entry to the solver,
    whose shape the solver has read before its first cycle *)
Definition gaussSeidel2D_cycle (phi0 rho : Grid) (mpiInfo : MpiInfo) (phi : Grid) : Grid :=
  let trueSize_ := trueSize phi0 in
  let nGhostLayers_ := nGhostLayers phi0 in
  let sizeProd_ := sizeProd phi0 in
  let rank_ := rank phi0 in
  let rhoVal := val rho in
  let kEdgeInc := nGhostLayers_ 2 + nGhostLayers_ (rank_ + 2) + sizeProd_ 2 in
  (* red pass *)
  let g := nGhostLayers_ 1 + sizeProd_ 2 in
  let phiVal := loopRedBlack2D rhoVal (val phi) sizeProd_ trueSize_ kEdgeInc g in
  let g := nGhostLayers_ 1 + 1 + 2 * sizeProd_ 2 in
  let phiVal := loopRedBlack2D rhoVal phiVal sizeProd_ trueSize_ kEdgeInc g in
  let phi := swapGhosts gSwapGhostsDim rank_ mpiInfo (setVal phi phiVal) in
  (* black pass *)
  let g := nGhostLayers_ 1 + 1 + sizeProd_ 2 in
  let phiVal := loopRedBlack2D rhoVal (val phi) sizeProd_ trueSize_ kEdgeInc g in
  let g := nGhostLayers_ 1 + 2 * sizeProd_ 2 in
  let phiVal := loopRedBlack2D rhoVal phiVal sizeProd_ trueSize_ kEdgeInc g in
  swapGhosts gSwapGhostsDim rank_ mpiInfo (setVal phi phiVal).

Definition gaussSeidel2D (phi rho : Grid) (nCycles : Z) (mpiInfo : MpiInfo) : Grid :=
  forUp 0 nCycles (fun c phi' => gaussSeidel2D_cycle phi rho mpiInfo phi') phi.

(** a cycle of [gaussSeidel3D] *)
Definition gaussSeidel3D_cycle (phi0 rho : Grid) (mpiInfo : MpiInfo) (phi : Grid) : Grid :=
  let trueSize_ := trueSize phi0 in
  let nGhostLayers_ := nGhostLayers phi0 in
  let sizeProd_ := sizeProd phi0 in
  let rank_ := rank phi0 in
  let rhoVal := val rho in
  let kEdgeInc := (nGhostLayers_ 1 + nGhostLayers_ (rank_ + 1)) + sizeProd_ 2 in
  let lEdgeInc := (nGhostLayers_ 2 + nGhostLayers_ (rank_ + 2)) * sizeProd_ 2 + sizeProd_ 3 in
  let sweep := fun g phiVal =>
    loopRedBlack3D rhoVal phiVal sizeProd_ trueSize_ kEdgeInc lEdgeInc g in
  (* red pass *)
  let phiVal :=
    sweep (nGhostLayers_ 1 * sizeProd_ 1 + nGhostLayers_ 2 * sizeProd_ 2
           + nGhostLayers_ 3 * sizeProd_ 3) (val phi) in
  let phiVal :=
    sweep ((nGhostLayers_ 1 + 1) * sizeProd_ 1 + (nGhostLayers_ 2 + 1) * sizeProd_ 2
           + nGhostLayers_ 3 * sizeProd_ 3) phiVal in
  let phiVal :=
    sweep (nGhostLayers_ 1 * sizeProd_ 1 + nGhostLayers_ 2 * sizeProd_ 2
           + (nGhostLayers_ 3 + 1) * sizeProd_ 3) phiVal in
  let phiVal :=
    sweep ((nGhostLayers_ 1 + 1) * sizeProd_ 1 + (nGhostLayers_ 2 + 1) * sizeProd_ 2
           + (nGhostLayers_ 3 + 1) * sizeProd_ 3) phiVal in
  let phi := swapGhosts gSwapGhostsDim rank_ mpiInfo (setVal phi phiVal) in
  (* black pass *)
  let phiVal :=
    sweep ((nGhostLayers_ 1 * sizeProd_ 1 + 1) + nGhostLayers_ 2 * sizeProd_ 2
           + nGhostLayers_ 3 * sizeProd_ 3) (val phi) in
  let phiVal :=
    sweep (nGhostLayers_ 1 * sizeProd_ 1 + (nGhostLayers_ 2 + 1) * sizeProd_ 2
           + nGhostLayers_ 3 * sizeProd_ 3) phiVal in
  let phiVal :=
    sweep (nGhostLayers_ 1 * sizeProd_ 1 + nGhostLayers_ 2 * sizeProd_ 2
           + (nGhostLayers_ 3 + 1) * sizeProd_ 3) phiVal in
  let phiVal :=
    sweep ((nGhostLayers_ 1 + 1) * sizeProd_ 1 + (nGhostLayers_ 2 + 1) * sizeProd_ 2
           + (nGhostLayers_ 3 + 1) * sizeProd_ 3) phiVal in
  swapGhosts gSwapGhostsDim rank_ mpiInfo (setVal phi phiVal).

Definition gaussSeidel3D (phi rho : Grid) (nCycles : Z) (mpiInfo : MpiInfo) : Grid :=
  forUp 0 nCycles (fun c phi' => gaussSeidel3D_cycle phi rho mpiInfo phi') phi.

End GaussSeidel.

(** a two-dimensional scalar grid with one ghost layer on every side and an
    interior of [T1 x T2] nodes *)
Definition grid2D (g : Grid) (T1 T2 : Z) : Prop :=
  rank g = 3 /\
  nGhostLayers g 1 = 1 /\ nGhostLayers g 2 = 1 /\
  nGhostLayers g 4 = 1 /\ nGhostLayers g 5 = 1 /\
  trueSize g 1 = T1 /\ trueSize g 2 = T2 /\
  size g 1 = T1 + 2 /\ size g 2 = T2 + 2 /\
  sizeProd g 1 = 1 /\ sizeProd g 2 = T1 + 2 /\ sizeProd g 3 = (T1 + 2) * (T2 + 2).

(** the same in three dimensions *)
Definition grid3D (g : Grid) (T1 T2 T3 : Z) : Prop :=
  rank g = 4 /\
  nGhostLayers g 1 = 1 /\ nGhostLayers g 2 = 1 /\ nGhostLayers g 3 = 1 /\
  nGhostLayers g 5 = 1 /\ nGhostLayers g 6 = 1 /\ nGhostLayers g 7 = 1 /\
  trueSize g 1 = T1 /\ trueSize g 2 = T2 /\ trueSize g 3 = T3 /\
  size g 1 = T1 + 2 /\ size g 2 = T2 + 2 /\ size g 3 = T3 + 2 /\
  sizeProd g 1 = 1 /\ sizeProd g 2 = T1 + 2 /\ sizeProd g 3 = (T1 + 2) * (T2 + 2) /\
  sizeProd g 4 = (T1 + 2) * (T2 + 2) * (T3 + 2).

(** the value [loopRedBlack2D] assigns to the node at [g] of a grid whose
    rows are [W] apart, from the field [phi] and the source [rho] *)
Definition relax2D (phi rho : arr double) (W g : Z) : double :=
  (d0_25 * (phi (g + 1)%Z + phi (g - 1)%Z + phi (g + W)%Z + phi (g - W)%Z + rho g))%Qc.

(** the names [setSolvers] knows *)
Definition smootherName (name : string) : Prop :=
  name = "gaussSeidel"%string \/ name = "jacobian"%string.

(** ** multigrid.c: residual and cycles *)

(** Modelled from the spec: [gAddTo] adds the second grid into the first,
    element by element. *)
Definition gAddTo (result_ addition : Grid) : Grid :=
  setVal result_
    (fun k => if (0 <=? k) && (k <? nElems result_)
              then (val result_ k + val addition k)%Qc else val result_ k).

(** how a run of the cycles ends: with a value, with a read of [grids[q]]
    outside the grids of a hierarchy, with a call through a function pointer
    that was never assigned, or with the depth allowed to the recursion used
    up *)
Inductive outcome (A : Type) : Type :=
| Done (a : A)
| OutOfBounds (q : Z)
| Unset
| OutOfFuel.
Arguments Done {A} a.
Arguments OutOfBounds {A} q.
Arguments Unset {A}.
Arguments OutOfFuel {A}.

Definition obind {A B : Type} (c : outcome A) (k : A -> outcome B) : outcome B :=
  match c with
  | Done a => k a
  | OutOfBounds q => OutOfBounds q
  | Unset => Unset
  | OutOfFuel => OutOfFuel
  end.

Notation "x <<- c ;; k" := (obind c (fun x => k))
  (at level 61, c at next level, right associativity).

(** [multigrid->grids[q]] *)
Definition gridAt (multigrid : Multigrid) (q : Z) : outcome Grid :=
  match level (grids multigrid) q with
  | Some g => Done g
  | None => OutOfBounds q
  end.

(** a function pointer of the hierarchy *)
Definition pointer {A : Type} (p : option A) : outcome A :=
  match p with
  | Some f => Done f
  | None => Unset
  end.

Fixpoint replaceNth (n : nat) (g : Grid) (l : list Grid) : list Grid :=
  match l, n with
  | [], _ => []
  | _ :: t, O => g :: t
  | h :: t, Datatypes.S n' => h :: replaceNth n' g t
  end.

(** the hierarchy once the grid [grids[q]] points to has become [g] *)
Definition setGridAt (multigrid : Multigrid) (q : Z) (g : Grid) : Multigrid :=
  {| nLevels := nLevels multigrid; nMGCycles := nMGCycles multigrid;
     nPreSmooth := nPreSmooth multigrid; nPostSmooth := nPostSmooth multigrid;
     nCoarseSolve := nCoarseSolve multigrid;
     grids := if q <? 0 then grids multigrid
              else replaceNth (Z.to_nat q) g (grids multigrid);
     preSmooth := preSmooth multigrid; postSmooth := postSmooth multigrid;
     coarseSolv := coarseSolv multigrid;
     restrictor := restrictor multigrid; prolongator := prolongator multigrid |}.

Section Cycles.

Variable gSwapGhostsDim : Grid -> MpiInfo -> Z -> Grid.

(** [gFinDiff2nd2D(result, object, mpiInfo)], of another file of the
    repository: the grid [result] has become *)
Variable gFinDiff2nd2D : Grid -> Grid -> MpiInfo -> Grid.

(** what a newly allocated array holds *)
Variable junk : arr double.

(** [mgResidual] *)
Definition mgResidual (res rho phi : Grid) (mpiInfo : MpiInfo) : Grid :=
  let sizeProd_ := sizeProd res in
  let rank_ := rank res in
  let rhoVal := val rho in
  let res := gFinDiff2nd2D res phi mpiInfo in
  let resVal :=
    forUp 0 (sizeProd_ rank_) (fun g resVal => upd resVal g (resVal g - rhoVal g)%Qc)
      (val res) in
  swapGhosts gSwapGhostsDim rank_ mpiInfo (setVal res resVal).

(** the calls through the function pointers [setSolvers] and
    [setRestrictProlong] assign *)
Definition callSmoother (f : Smoother) (phi rho : Grid) (nCycles : Z) (mpiInfo : MpiInfo)
    : Grid :=
  match f with
  | SmGaussSeidel2D => gaussSeidel2D gSwapGhostsDim phi rho nCycles mpiInfo
  | SmGaussSeidel3D => gaussSeidel3D gSwapGhostsDim phi rho nCycles mpiInfo
  | SmJacobian => fst (jacobian gSwapGhostsDim junk phi rho nCycles mpiInfo)
  end.

Definition callRestrictor (f : Restrictor) (fine coarse : Grid) : Grid :=
  match f with
  | ReHalfWeight2D => halfWeightRestrict2D fine coarse
  | ReHalfWeight3D => halfWeightRestrict3D fine coarse
  end.

Definition callProlongator (f : Prolongator) (fine coarse : Grid) (mpiInfo : MpiInfo) : Grid :=
  match f with
  | PrBilinear2D => bilinearProlong2D gSwapGhostsDim fine coarse mpiInfo
  | PrBilinear3D => bilinearProlong3D gSwapGhostsDim fine coarse mpiInfo
  end.

(** [mgVCycle]; the parameter [ini] is not used. The three hierarchies are
    taken to share no grid. [fuel] bounds the depth of the recursion. *)
Fixpoint mgVCycle (fuel : nat) (lvl targetLvl : Z) (mgRho mgPhi mgRes : Multigrid)
    (mpiInfo : MpiInfo) : outcome (Multigrid * Multigrid * Multigrid) :=
  match fuel with
  | O => OutOfFuel
  | Datatypes.S fuel' =>
      if lvl =? targetLvl then
        (* solve and return at coarsest level *)
        coarseSolv_ <<- pointer (coarseSolv mgRho) ;;
        phi <<- gridAt mgPhi lvl ;;
        rho <<- gridAt mgRho lvl ;;
        let phi := callSmoother coarseSolv_ phi rho (nCoarseSolve mgRho) mpiInfo in
        let mgPhi := setGridAt mgPhi lvl phi in
        prolongator_ <<- pointer (prolongator mgRho) ;;
        res <<- gridAt mgRes (lvl - 1) ;;
        let res := callProlongator prolongator_ res phi mpiInfo in
        Done (mgRho, mgPhi, setGridAt mgRes (lvl - 1) res)
      else
        let nPreSmooth_ := nPreSmooth mgRho in
        let nPostSmooth_ := nPostSmooth mgRho in
        phi <<- gridAt mgPhi lvl ;;
        rho <<- gridAt mgRho lvl ;;
        res <<- gridAt mgRes lvl ;;
        let phi := gZero phi in
        preSmooth_ <<- pointer (preSmooth mgRho) ;;
        let phi := callSmoother preSmooth_ phi rho nPreSmooth_ mpiInfo in
        let res := mgResidual res rho phi mpiInfo in
        restrictor_ <<- pointer (restrictor mgRho) ;;
        coarse <<- gridAt mgRho (lvl + 1) ;;
        let coarse := callRestrictor restrictor_ res coarse in
        let mgRho := setGridAt mgRho (lvl + 1) coarse in
        let mgPhi := setGridAt mgPhi lvl phi in
        let mgRes := setGridAt mgRes lvl res in
        (* go coarser and solve *)
        st <<- mgVCycle fuel' (lvl + 1) targetLvl mgRho mgPhi mgRes mpiInfo ;;
        let '(mgRho, mgPhi, mgRes) := st in
        phi <<- gridAt mgPhi lvl ;;
        rho <<- gridAt mgRho lvl ;;
        res <<- gridAt mgRes lvl ;;
        let phi := gAddTo phi res in
        postSmooth_ <<- pointer (postSmooth mgRho) ;;
        let phi := callSmoother postSmooth_ phi rho nPostSmooth_ mpiInfo in
        let mgPhi := setGridAt mgPhi lvl phi in
        if 0 <? lvl then
          prolongator_ <<- pointer (prolongator mgRho) ;;
          finer <<- gridAt mgRes (lvl - 1) ;;
          let finer := callProlongator prolongator_ finer phi mpiInfo in
          Done (mgRho, mgPhi, setGridAt mgRes (lvl - 1) finer)
        else Done (mgRho, mgPhi, mgRes)
  end.

(** [linearMGSolv] *)
Definition linearMGSolv (fuel : nat) (mgRho mgPhi mgRes : Multigrid) (mpiInfo : MpiInfo)
    : outcome (Multigrid * Multigrid * Multigrid) :=
  let nMGCycles_ := nMGCycles mgRho in
  let targetLvl := nLevels mgRho - 1 in
  forUp 0 nMGCycles_
    (fun c st =>
       st <<- st ;;
       let '(mgRho, mgPhi, mgRes) := st in
       mgVCycle fuel 0 targetLvl mgRho mgPhi mgRes mpiInfo)
    (Done (mgRho, mgPhi, mgRes)).

End Cycles.

(** the settings of a hierarchy, its grids apart *)
Definition sameSettings (m m' : Multigrid) : Prop :=
  nLevels m' = nLevels m /\ nMGCycles m' = nMGCycles m /\
  nPreSmooth m' = nPreSmooth m /\ nPostSmooth m' = nPostSmooth m /\
  nCoarseSolve m' = nCoarseSolve m /\
  preSmooth m' = preSmooth m /\ postSmooth m' = postSmooth m /\
  coarseSolv m' = coarseSolv m /\
  restrictor m' = restrictor m /\ prolongator m' = prolongator m.

(** every function pointer of the hierarchy has been assigned *)
Definition solversSet (m : Multigrid) : Prop :=
  preSmooth m <> None /\ postSmooth m <> None /\ coarseSolv m <> None /\
  restrictor m <> None /\ prolongator m <> None.

(** hierarchies of two levels and of one level on a 4 x 4 interior, as
    [mgAlloc] builds them *)
Definition mgTwo : Multigrid :=
  {| nLevels := 2; nMGCycles := 1; nPreSmooth := 2; nPostSmooth := 2; nCoarseSolve := 4;
     grids := [gridSq 4; subGrid (fresh (Q2Qc 0)) (gridSq 4) 1];
     preSmooth := Some SmGaussSeidel2D; postSmooth := Some SmGaussSeidel2D;
     coarseSolv := Some SmJacobian;
     restrictor := Some ReHalfWeight2D; prolongator := Some PrBilinear2D |}.

Definition mgOne : Multigrid :=
  {| nLevels := 1; nMGCycles := 1; nPreSmooth := 2; nPostSmooth := 2; nCoarseSolve := 4;
     grids := [gridSq 4];
     preSmooth := Some SmGaussSeidel2D; postSmooth := Some SmGaussSeidel2D;
     coarseSolv := Some SmJacobian;
     restrictor := Some ReHalfWeight2D; prolongator := Some PrBilinear2D |}.

(** a stand-in for the finite-difference operator of the examples *)
Definition finDiffNone (res phi : Grid) (mpiInfo : MpiInfo) : Grid := res.

(** * Properties *)

Lemma forLoop_snoc {S : Type} (n : nat) (i step : Z) (body : Z -> S -> S) (s : S) :
  forLoop (Datatypes.S n) i step body s
  = body (i + Z.of_nat n * step) (forLoop n i step body s).
Proof.
  revert i s. induction n as [|n IH]; intros i s.
  - simpl. f_equal. lia.
  - change (forLoop (Datatypes.S (Datatypes.S n)) i step body s)
      with (forLoop (Datatypes.S n) (i + step) step body (body i s)).
    rewrite IH. simpl forLoop. f_equal. lia.
Qed.

(** ** Conversions *)

Lemma truncI_ofZ (j : Z) : truncI (ofZ j) = j.
Proof.
  unfold truncI, ofZ, Q2Qc. cbn [this].
  rewrite Qred_identity by (cbn; apply Z.gcd_1_r).
  cbn. apply Z.quot_1_r.
Qed.

(** a sum of integers formed in [double] is that integer *)
Lemma ofZ_linear (a b c : Z) : (ofZ a + ofZ b * ofZ c)%Qc = ofZ (a + b * c).
Proof.
  unfold ofZ. apply Qc_is_canon. cbn [this Qcplus Qcmult Q2Qc].
  rewrite !Qred_correct. rewrite inject_Z_plus, inject_Z_mult. reflexivity.
Qed.

(** the conversion gives the integer back when it is an [int] *)
Lemma toInt_exact (a b c : Z) :
  INT_MIN <= a + b * c <= INT_MAX ->
  toInt (ofZ a + ofZ b * ofZ c)%Qc = a + b * c.
Proof.
  intros H. unfold toInt. cbv zeta. rewrite ofZ_linear, truncI_ofZ.
  destruct (Z.leb_spec INT_MIN (a + b * c)), (Z.leb_spec (a + b * c) INT_MAX);
    cbn [andb]; lia.
Qed.

Section Reciprocal.

Let step (d : Z) (st : Z * Z) : Z * Z :=
  let '(reciprocal, neighbor) := st in
  (toInt (ofZ reciprocal + ofZ (2 - Z.rem neighbor 3) * ofZ (3 ^ d))%Qc,
   Z.quot neighbor 3).

(** [k] rounds from axis [d0] on a running value below [3^k] add the
    mirrored digits and use the value up, as long as the largest sum the
    rounds can reach is an [int]. *)
Lemma reciprocal_rounds (k : nat) :
  forall d0 r m, 0 <= d0 -> 0 <= m < 3 ^ Z.of_nat k ->
    0 <= r -> r + 3 ^ d0 * (3 ^ Z.of_nat k - 1) <= INT_MAX ->
    forLoop k d0 1 step (r, m)
    = (r + 3 ^ d0 * (3 ^ Z.of_nat k - 1 - m), 0).
Proof.
  induction k as [|k IH]; intros d0 r m Hd Hm Hr Hmax.
  - simpl in *. f_equal; lia.
  - rewrite Nat2Z.inj_succ, Z.pow_succ_r in * by lia.
    assert (H3 : 0 < 3 ^ d0) by (apply Z.pow_pos_nonneg; lia).
    assert (Hk : 0 < 3 ^ Z.of_nat k) by (apply Z.pow_pos_nonneg; lia).
    pose proof (Z.mod_pos_bound m 3 ltac:(lia)) as Hdig.
    assert (Hs : 3 ^ (d0 + 1) = 3 * 3 ^ d0)
      by (rewrite Z.pow_add_r, Z.pow_1_r by lia; lia).
    cbn [forLoop]. unfold step at 2.
    rewrite Z.rem_mod_nonneg, Z.quot_div_nonneg by lia.
    rewrite toInt_exact by (unfold INT_MIN, INT_MAX in *; nia).
    rewrite IH.
    + f_equal. rewrite Hs.
      pose proof (Z.div_mod m 3 ltac:(lia)). nia.
    + lia.
    + split; [apply Z.div_pos; lia | apply Z.div_lt_upper_bound; lia].
    + nia.
    + rewrite Hs. nia.
Qed.

End Reciprocal.

(** up to 19 dimensions every power of 3 the function meets is an [int] *)
Lemma pow3_int (D : Z) : 0 <= D <= 19 -> 3 ^ D - 1 <= INT_MAX.
Proof.
  intros HD. assert (H : 3 ^ D <= 3 ^ 19) by (apply Z.pow_le_mono_r; lia).
  change (3 ^ 19) with 1162261467 in H. unfold INT_MAX. lia.
Qed.

Lemma puNeighborToReciprocal_closed (n D : Z) :
  0 <= D <= 19 -> 0 <= n < 3 ^ D -> puNeighborToReciprocal n D = 3 ^ D - 1 - n.
Proof.
  intros HD Hn. unfold puNeighborToReciprocal, forUp.
  rewrite Z.sub_0_r.
  assert (HD' : Z.of_nat (Z.to_nat D) = D) by (apply Z2Nat.id; lia).
  pose proof (pow3_int D HD) as Hint.
  rewrite (reciprocal_rounds (Z.to_nat D) 0 0 n)
    by (rewrite ?HD', ?Z.pow_0_r; lia).
  rewrite HD'. cbn [fst]. rewrite Z.pow_0_r. lia.
Qed.

(** C9 (as amended): for every dimensionality [1 <= D <= 19], the range in
    which [3^D - 1] is an [int], and every neighbour index [n] in [0, 3^D),
    the reciprocal of the reciprocal of [n] is [n]. *)
Theorem puNeighborToReciprocal_involutive (D n : Z) :
  1 <= D <= 19 -> 0 <= n < 3 ^ D ->
  puNeighborToReciprocal (puNeighborToReciprocal n D) D = n.
Proof.
  intros HD Hn.
  rewrite (puNeighborToReciprocal_closed n D) by lia.
  rewrite puNeighborToReciprocal_closed by lia. lia.
Qed.

Lemma puNeighborToReciprocal_involutive_witness :
  1 <= 3 <= 19 /\ 0 <= 5 < 3 ^ 3 /\
  puNeighborToReciprocal (puNeighborToReciprocal 5 3) 3 = 5.
Proof.
  split; [lia|]. split; [vm_compute; split; [discriminate | reflexivity]|].
  apply (puNeighborToReciprocal_involutive 3 5); [lia|].
  vm_compute; split; [discriminate | reflexivity].
Defined.

(** C9 (the claim as it stood fails): in 20 dimensions the index 0 is in
    [0, 3^20); its reciprocal would be [3^20 - 1 = 3486784400], which is no
    [int]: the sum of round 19 is converted to [INT_MIN], and that is what
    the function returns; the reciprocal of [INT_MIN] is not 0. *)
Lemma puNeighborToReciprocal_beyond_int :
  1 <= 20 /\ 0 <= 0 < 3 ^ 20 /\
  INT_MAX < 3 ^ 20 - 1 /\
  puNeighborToReciprocal 0 20 = INT_MIN /\
  puNeighborToReciprocal (puNeighborToReciprocal 0 20) 20 <> 0.
Proof.
  split; [lia|]. split; [vm_compute; split; [discriminate | reflexivity]|].
  split; [reflexivity|].
  split; [vm_compute; reflexivity|].
  vm_compute. discriminate.
Qed.

(** ** Loops that fill an array *)

Lemma upd_same {X : Type} (a : arr X) (i : Z) (v : X) : upd a i v i = v.
Proof. unfold upd. now rewrite Z.eqb_refl. Qed.

Lemma upd_other {X : Type} (a : arr X) (i k : Z) (v : X) :
  k <> i -> upd a i v k = a k.
Proof. intros H. unfold upd. destruct (Z.eqb_spec k i); congruence. Qed.

(** A loop whose round [d] only writes cell [d], with a value that does not
    depend on the cells written so far, fills the cells of its range. *)
Lemma forLoop_fill {X : Type} (f : Z -> arr X -> X) (g : Z -> X) (n : nat) :
  forall (i : Z) (a : arr X) (k : Z),
    (forall d b, f d b = g d) ->
    forLoop n i 1 (fun d b => upd b d (f d b)) a k
    = if (i <=? k) && (k <? i + Z.of_nat n) then g k else a k.
Proof.
  induction n as [|n IH]; intros i a k Hf.
  - simpl. destruct (Z.leb_spec i k), (Z.ltb_spec k (i + 0)); simpl; trivial; lia.
  - cbn [forLoop]. rewrite IH by assumption. rewrite Hf.
    destruct (Z.eq_dec k i) as [->|Hk].
    + rewrite upd_same.
      destruct (Z.leb_spec (i + 1) i), (Z.leb_spec i i),
        (Z.ltb_spec i (i + 1 + Z.of_nat n)),
        (Z.ltb_spec i (i + Z.of_nat (Datatypes.S n))); simpl; trivial; lia.
    + rewrite upd_other by assumption.
      destruct (Z.leb_spec (i + 1) k), (Z.leb_spec i k),
        (Z.ltb_spec k (i + 1 + Z.of_nat n)),
        (Z.ltb_spec k (i + Z.of_nat (Datatypes.S n))); simpl; trivial; lia.
Qed.

(** ** mgAllocSubGrids *)

Lemma subGrid_trueSize (junk : arr double) (grid : Grid) (q d : Z) :
  trueSize (subGrid junk grid q) d
  = if (1 <=? d) && (d <? rank grid) then Z.quot (trueSize grid d) (2 * q)
    else if d =? 0 then trueSize grid 0 else 0.
Proof.
  unfold subGrid; cbn [trueSize]. unfold forUp.
  rewrite (forLoop_fill (fun d _ => Z.quot (trueSize grid d) (2 * q))
             (fun d => Z.quot (trueSize grid d) (2 * q))) by trivial.
  destruct (Z.leb_spec 1 d), (Z.ltb_spec d (rank grid)),
    (Z.ltb_spec d (1 + Z.of_nat (Z.to_nat (rank grid - 1)))); simpl; trivial; lia.
Qed.

Lemma mgAllocSubGrids_rounds (junk : arr double) (grid : Grid) (n : nat) :
  forall (q0 : Z) (gs : list Grid),
    forLoop n q0 1 (fun q grids => (grids ++ [subGrid junk grid q])%list) gs
    = (gs ++ map (fun k => subGrid junk grid (q0 + Z.of_nat k)) (seq 0 n))%list.
Proof.
  induction n as [|n IH]; intros q0 gs.
  - simpl. now rewrite app_nil_r.
  - cbn [forLoop]. rewrite IH. rewrite <- app_assoc. f_equal.
    cbn [seq map app]. rewrite Z.add_0_r. f_equal.
    rewrite <- seq_shift, map_map. apply map_ext. intros k. f_equal. lia.
Qed.

(** X1: on every level [q] of the hierarchy, [1 <= q < nLevels], the
    interior extent of a non-leading axis is the finest extent divided by
    [2 q], and the leading extent is the finest one. *)
Lemma mgAllocSubGrids_trueSize (junk : arr double) (grid : Grid) (L q : Z) :
  1 <= q < L ->
  exists g, level (mgAllocSubGrids junk grid L) q = Some g /\
            trueSize g 0 = trueSize grid 0 /\
            forall d, 1 <= d < rank grid ->
                      trueSize g d = Z.quot (trueSize grid d) (2 * q).
Proof.
  intros Hq. exists (subGrid junk grid q). split; [|split].
  - unfold level, mgAllocSubGrids, forUp.
    destruct (Z.ltb_spec q 0); [lia|].
    rewrite mgAllocSubGrids_rounds.
    replace (Z.to_nat q) with (Datatypes.S (Z.to_nat (q - 1))) by lia.
    cbn [app nth_error].
    rewrite nth_error_map, nth_error_seq.
    destruct (Nat.ltb_spec (Z.to_nat (q - 1)) (Z.to_nat (L - 1))); [|lia].
    cbn [option_map]. do 2 f_equal. lia.
  - rewrite subGrid_trueSize.
    destruct (Z.leb_spec 1 0); simpl; [lia | reflexivity].
  - intros d Hd. rewrite subGrid_trueSize.
    destruct (Z.leb_spec 1 d), (Z.ltb_spec d (rank grid)); simpl; trivial; lia.
Qed.

Lemma mgAllocSubGrids_trueSize_witness :
  exists g, level (mgAllocSubGrids (fresh (Q2Qc 0)) grid32 4) 3 = Some g /\
            trueSize g 0 = trueSize grid32 0 /\
            forall d, 1 <= d < rank grid32 ->
                      trueSize g d = Z.quot (trueSize grid32 d) (2 * 3).
Proof. apply (mgAllocSubGrids_trueSize (fresh (Q2Qc 0)) grid32 4 3). lia. Defined.

(** C1 (the code departs from the claim): with four levels on a 32 x 32
    interior, every extent divisible by [2^3], level 2 has 8 nodes along
    axis 1 and level 3 has 5, which is not half of 8. *)
Theorem mgAllocSubGrids_level3_not_half :
  option_map (fun g => trueSize g 1) (level (mgAllocSubGrids (fresh (Q2Qc 0)) grid32 4) 2) = Some 8 /\
  option_map (fun g => trueSize g 1) (level (mgAllocSubGrids (fresh (Q2Qc 0)) grid32 4) 3) = Some 5 /\
  5 <> Z.quot 8 2 /\ 5 <> Z.quot 32 (2 ^ 3).
Proof. repeat split; try reflexivity; vm_compute; discriminate. Qed.

(** ** mgAlloc *)

(** With at least one level the sanity loop of [mgAlloc] passes exactly when
    every extent it visits is even. *)
Lemma mgAlloc_sanity_parity (trueSize_ : arr Z) (nLevels_ : Z) (n : nat) :
  nLevels_ <> 0 ->
  forall d0,
    (forLoop n d0 1 (sanityLoop trueSize_ nLevels_) (Ok tt) = Ok tt
     <-> forall d, d0 <= d < d0 + Z.of_nat n -> Z.rem (trueSize_ (d + 1)) 2 = 0).
Proof.
  intros HL. induction n as [|n IH]; intros d0.
  - simpl. split; [intros _ d Hd; lia | reflexivity].
  - rewrite forLoop_snoc, Z.mul_1_r. unfold sanityLoop at 1.
    destruct (forLoop n d0 1 (sanityLoop trueSize_ nLevels_) (Ok tt)) as [[]|m] eqn:E.
    + cbn [bind].
      destruct (Z.eqb_spec (Z.rem (trueSize_ (d0 + Z.of_nat n + 1)) 2 * nLevels_) 0) as [H0|H0];
        cbn [negb].
      * split; [|reflexivity]. intros _ d Hd.
        destruct (Z.eq_dec d (d0 + Z.of_nat n)) as [->|Hne]; [nia|].
        apply (proj1 (IH d0) E). lia.
      * split; [discriminate|]. intros H. exfalso. apply H0.
        rewrite (H (d0 + Z.of_nat n)) by lia. reflexivity.
    + cbn [bind]. split; [discriminate|]. intros H. exfalso.
      assert (Hn : forLoop n d0 1 (sanityLoop trueSize_ nLevels_) (Ok tt) = Ok tt)
        by (apply (proj2 (IH d0)); intros d Hd; apply H; lia).
      rewrite E in Hn. discriminate.
Qed.

(** X4: with at least one level, the sanity check of [mgAlloc] over the
    [rank - 1] spatial axes passes exactly when every interior extent
    [trueSize[d+1]] is even, whatever the number of levels. *)
Theorem mgAlloc_sanity_even (grid : Grid) (nLevels_ : Z) :
  nLevels_ <> 0 ->
  (forUp 0 (rank grid - 1) (sanityLoop (trueSize grid) nLevels_) (Ok tt) = Ok tt
   <-> forall d, 0 <= d < rank grid - 1 -> Z.rem (trueSize grid (d + 1)) 2 = 0).
Proof.
  intros HL. unfold forUp. rewrite mgAlloc_sanity_parity by exact HL.
  split; intros H d Hd; apply H; lia.
Qed.

Lemma mgAlloc_sanity_even_witness :
  forUp 0 (rank (gridSq 2) - 1) (sanityLoop (trueSize (gridSq 2)) 3) (Ok tt) = Ok tt
  <-> forall d, 0 <= d < rank (gridSq 2) - 1 -> Z.rem (trueSize (gridSq 2) (d + 1)) 2 = 0.
Proof. apply (mgAlloc_sanity_even (gridSq 2) 3). discriminate. Defined.

(** C2 (the code departs from the claim): with three levels and a 2 x 2
    interior, 2 is not a multiple of [2^(3-1)], yet construction goes
    through; with one level and a 3 x 3 interior, 3 is a multiple of
    [2^(1-1)], yet construction ends with the diagnostic. *)
Theorem mgAlloc_checks_parity_only :
  isOk (mgAlloc (fresh (Q2Qc 0)) (iniOf 3) (gridSq 2)) = true /\
  Z.rem 2 (2 ^ (3 - 1)) <> 0 /\
  mgAlloc (fresh (Q2Qc 0)) (iniOf 1) (gridSq 3)
  = Fatal "The number of True Grid Points needs to be a multiple of 2^nLevels" /\
  Z.rem 3 (2 ^ (1 - 1)) = 0.
Proof. repeat split; try reflexivity; vm_compute; discriminate. Qed.

(** ** Scalars *)

Lemma deqb_eq (a b : double) : deqb a b = true <-> a = b.
Proof.
  unfold deqb. rewrite Qeq_bool_iff. split.
  - apply Qc_is_canon.
  - intros ->. reflexivity.
Qed.

Lemma dlt_spec (a b : double) : dlt a b = true <-> (a < b)%Qc.
Proof.
  unfold dlt. rewrite Qclt_alt.
  destruct (a ?= b)%Qc; split; congruence.
Qed.

(** deciding a closed equation or inequation of rationals by evaluation *)
Ltac qc_eval :=
  match goal with
  | |- @eq Qc _ _ => apply deqb_eq; vm_compute; reflexivity
  | |- ~ (@eq _ _ _) =>
      let H := fresh in intros H; apply deqb_eq in H; vm_compute in H; discriminate
  end.

(** ** puBndPeriodic *)

Lemma puBndPeriodic_vel (pop : Population) (grid : Grid) :
  vel (puBndPeriodic pop grid) = vel pop.
Proof. reflexivity. Qed.

(** A loop in which every cell is written by at most one round, and a round
    writes to the cells it owns a value that depends on the cell alone. *)
Lemma forLoop_owned {X : Type} (F : Z -> X -> X) (owner : Z -> Z -> bool)
    (body : Z -> arr X -> arr X) (k : Z) (n : nat) :
  forall (i0 : Z) (a : arr X),
    (forall d b, i0 <= d < i0 + Z.of_nat n ->
                 body d b k = if owner d k then F k (b k) else b k) ->
    (forall d d', i0 <= d < i0 + Z.of_nat n -> i0 <= d' < i0 + Z.of_nat n ->
                  owner d k = true -> owner d' k = true -> d = d') ->
    (forall d, i0 <= d < i0 + Z.of_nat n -> owner d k = true ->
               forLoop n i0 1 body a k = F k (a k)) /\
    ((forall d, i0 <= d < i0 + Z.of_nat n -> owner d k = false) ->
     forLoop n i0 1 body a k = a k).
Proof.
  induction n as [|n IH]; intros i0 a Hbody Hone.
  - split; [intros d Hd; lia | reflexivity].
  - destruct (IH i0 a) as [IH1 IH2].
    { intros d b Hd. apply Hbody. lia. }
    { intros d d' Hd Hd'. apply Hone; lia. }
    rewrite forLoop_snoc, Z.mul_1_r, Hbody by lia. split.
    + intros d Hd Hown. destruct (Z.eq_dec d (i0 + Z.of_nat n)) as [->|Hne].
      * rewrite Hown. f_equal. apply IH2. intros d' Hd'.
        destruct (owner d' k) eqn:E; [|reflexivity].
        pose proof (Hone d' (i0 + Z.of_nat n) ltac:(lia) ltac:(lia) E Hown). lia.
      * destruct (owner (i0 + Z.of_nat n) k) eqn:E.
        -- pose proof (Hone d (i0 + Z.of_nat n) ltac:(lia) ltac:(lia) Hown E). lia.
        -- apply (IH1 d); [lia | exact Hown].
    + intros Hnone. rewrite (Hnone (i0 + Z.of_nat n)) by lia.
      apply IH2. intros d Hd. apply Hnone. lia.
Qed.

Section Periodic.

Variable nDims_ : Z.
Variable size_ : arr Z.
Hypothesis nDims_pos : 1 <= nDims_.

(** what the coordinate stored at [k] becomes *)
Let wrapAt (k : Z) (x : double) : double := wrapOnce x (ofZ (size_ (k mod nDims_ + 1))).

Let coordRound := puBndPeriodic_coord nDims_ size_.

Lemma coordRound_spec (i d k : Z) (pos_ : arr double) :
  0 <= d < nDims_ ->
  coordRound i d pos_ k
  = if k =? i * nDims_ + d then wrapAt k (pos_ k) else pos_ k.
Proof.
  intros Hd. unfold coordRound, puBndPeriodic_coord, wrapAt, wrapOnce. cbv zeta.
  destruct (Z.eqb_spec k (i * nDims_ + d)) as [->|Hk].
  - replace ((i * nDims_ + d) mod nDims_) with d
      by (symmetry; rewrite Z.add_comm, Z.mod_add, Z.mod_small; lia).
    destruct (dgt (pos_ (i * nDims_ + d)) (ofZ (size_ (d + 1)))).
    + rewrite upd_same.
      destruct (dlt _ (Q2Qc 0)); [now rewrite !upd_same | now rewrite upd_same].
    + destruct (dlt _ (Q2Qc 0)); [now rewrite upd_same | reflexivity].
  - destruct (dgt (pos_ (i * nDims_ + d)) (ofZ (size_ (d + 1)))).
    + destruct (dlt _ (Q2Qc 0)); now rewrite ?upd_other by assumption.
    + destruct (dlt _ (Q2Qc 0)); now rewrite ?upd_other by assumption.
Qed.

Let particleRound (i : Z) (pos_ : arr double) : arr double :=
  forUp 0 nDims_ (coordRound i) pos_.

Lemma particleRound_spec (i k : Z) (pos_ : arr double) :
  particleRound i pos_ k
  = if (i * nDims_ <=? k) && (k <? i * nDims_ + nDims_) then wrapAt k (pos_ k) else pos_ k.
Proof.
  unfold particleRound, forUp.
  destruct (forLoop_owned wrapAt (fun d k => k =? i * nDims_ + d) (coordRound i) k
              (Z.to_nat (nDims_ - 0)) 0 pos_) as [H1 H2].
  - intros d b Hd. apply coordRound_spec. lia.
  - intros d d' _ _ E E'. apply Z.eqb_eq in E, E'. lia.
  - destruct (Z.leb_spec (i * nDims_) k), (Z.ltb_spec k (i * nDims_ + nDims_)); cbn [andb].
    + apply (H1 (k - i * nDims_)); [lia | apply Z.eqb_eq; lia].
    + apply H2. intros d Hd. apply Z.eqb_neq. lia.
    + apply H2. intros d Hd. apply Z.eqb_neq. lia.
    + apply H2. intros d Hd. apply Z.eqb_neq. lia.
Qed.

Lemma speciesRound_spec (a b k : Z) (pos_ : arr double) :
  forUp a b particleRound pos_ k
  = if (a * nDims_ <=? k) && (k <? b * nDims_) then wrapAt k (pos_ k) else pos_ k.
Proof.
  unfold forUp.
  destruct (forLoop_owned wrapAt
              (fun i k => (i * nDims_ <=? k) && (k <? i * nDims_ + nDims_))
              particleRound k (Z.to_nat (b - a)) a pos_) as [H1 H2].
  - intros i c Hi. apply particleRound_spec.
  - intros i i' _ _ E E'. apply andb_true_iff in E, E'.
    rewrite Z.leb_le, Z.ltb_lt in E, E'. nia.
  - destruct (Z.leb_spec (a * nDims_) k), (Z.ltb_spec k (b * nDims_)); cbn [andb].
    + apply (H1 (k / nDims_)).
      * pose proof (Z.div_mod k nDims_ ltac:(lia)).
        pose proof (Z.mod_pos_bound k nDims_ ltac:(lia)). nia.
      * pose proof (Z.div_mod k nDims_ ltac:(lia)).
        pose proof (Z.mod_pos_bound k nDims_ ltac:(lia)).
        apply andb_true_iff. rewrite Z.leb_le, Z.ltb_lt. nia.
    + apply H2. intros i Hi. apply andb_false_iff. rewrite Z.leb_gt, Z.ltb_ge. nia.
    + apply H2. intros i Hi. apply andb_false_iff. rewrite Z.leb_gt, Z.ltb_ge. nia.
    + apply H2. intros i Hi. apply andb_false_iff. rewrite Z.leb_gt, Z.ltb_ge. nia.
Qed.

End Periodic.

(** X2: what [puBndPeriodic] does to every coordinate of every live
    particle, when the ranges of the species follow one another: the two
    tests of [wrapOnce], the first of them strict. *)
Lemma puBndPeriodic_coordinate (pop : Population) (grid : Grid) (s i d : Z) :
  1 <= nDims pop ->
  disjointSpecies pop ->
  0 <= s < nSpecies pop ->
  iStart pop s <= i < iStop pop s ->
  0 <= d < nDims pop ->
  pos (puBndPeriodic pop grid) (i * nDims pop + d)
  = wrapOnce (pos pop (i * nDims pop + d)) (ofZ (size grid (d + 1))).
Proof.
  intros HD Hdis Hs Hi Hd. unfold puBndPeriodic. cbv zeta. cbn [pos setPos].
  set (k := i * nDims pop + d).
  destruct (forLoop_owned
              (fun k x => wrapOnce x (ofZ (size grid (k mod nDims pop + 1))))
              (fun s k => (iStart pop s * nDims pop <=? k) && (k <? iStop pop s * nDims pop))
              (fun s pos_ =>
                 forUp (iStart pop s) (iStop pop s)
                   (fun i pos_ =>
                      forUp 0 (nDims pop) (puBndPeriodic_coord (nDims pop) (size grid) i) pos_)
                   pos_)
              k (Z.to_nat (nSpecies pop - 0)) 0 (pos pop)) as [H1 _].
  - intros t b Ht. apply (speciesRound_spec (nDims pop) (size grid) HD).
  - intros t t' Ht Ht' E E'. apply andb_true_iff in E, E'.
    rewrite Z.leb_le, Z.ltb_lt in E, E'.
    destruct (Z.lt_trichotomy t t') as [Hlt | [Heq | Hgt]]; [|exact Heq|].
    + pose proof (Hdis t t' ltac:(lia) ltac:(lia)). nia.
    + pose proof (Hdis t' t ltac:(lia) ltac:(lia)). nia.
  - assert (Hown : (iStart pop s * nDims pop <=? k) && (k <? iStop pop s * nDims pop) = true).
    { subst k. apply andb_true_iff. rewrite Z.leb_le, Z.ltb_lt. nia. }
    pose proof (H1 s ltac:(lia) Hown) as H.
    etransitivity; [exact H|].
    subst k. replace ((i * nDims pop + d) mod nDims pop) with d
      by (symmetry; rewrite Z.add_comm, Z.mod_add, Z.mod_small; lia).
    reflexivity.
Qed.

Lemma puBndPeriodic_coordinate_witness :
  pos (puBndPeriodic popEdge gridLine) (0 * nDims popEdge + 0)
  = wrapOnce (pos popEdge (0 * nDims popEdge + 0)) (ofZ (size gridLine (0 + 1))).
Proof.
  apply (puBndPeriodic_coordinate popEdge gridLine 0 0 0).
  - change (nDims popEdge) with 1. lia.
  - intros s t Hst Ht. change (nSpecies popEdge) with 1 in Ht. lia.
  - change (nSpecies popEdge) with 1. lia.
  - change (iStart popEdge 0) with 0. change (iStop popEdge 0) with 1. lia.
  - change (nDims popEdge) with 1. lia.
Defined.

(** On an axis of non-negative extent, [wrapOnce] is the map of the claim
    except on the extent itself, which it leaves where it is. *)
Lemma wrapOnce_cases (x sz : double) :
  (0 <= sz)%Qc ->
  ((sz < x)%Qc -> wrapOnce x sz = (x - sz)%Qc) /\
  ((x < 0)%Qc -> wrapOnce x sz = (x + sz)%Qc) /\
  ((0 <= x)%Qc -> (x <= sz)%Qc -> wrapOnce x sz = x).
Proof.
  intros Hsz. unfold wrapOnce, dgt. cbv zeta. change (Q2Qc 0) with 0%Qc.
  split; [|split].
  - intros H. rewrite (proj2 (dlt_spec sz x) H).
    destruct (dlt (x - sz) 0) eqn:E; [|reflexivity].
    apply dlt_spec in E. exfalso. apply Qclt_minus_iff in H.
    exact (Qclt_not_le _ _ E (Qclt_le_weak _ _ H)).
  - intros H. destruct (dlt sz x) eqn:E.
    + apply dlt_spec in E. exfalso.
      apply (Qclt_not_le _ _ H). apply Qclt_le_weak.
      exact (Qcle_lt_trans _ _ _ Hsz E).
    + now rewrite (proj2 (dlt_spec x 0) H).
  - intros H0 H1. destruct (dlt sz x) eqn:E.
    + apply dlt_spec in E. exfalso. exact (Qclt_not_le _ _ E H1).
    + destruct (dlt x 0) eqn:E'; [|reflexivity].
      apply dlt_spec in E'. exfalso. exact (Qclt_not_le _ _ E' H0).
Qed.

(** C8 (the code departs from the claim): a particle standing exactly on
    [size[1]] satisfies [pos >= size[1]] and is left where it is, not moved
    to [pos - size[1]]; the test of the source is [pos > size[1]]. *)
Theorem puBndPeriodic_keeps_upper_edge :
  dge (pos popEdge 0) (ofZ (size gridLine 1)) = true /\
  pos (puBndPeriodic popEdge gridLine) 0 = pos popEdge 0 /\
  pos (puBndPeriodic popEdge gridLine) 0 <> (pos popEdge 0%Z - ofZ (size gridLine 1%Z))%Qc.
Proof.
  split; [reflexivity|]. split; qc_eval.
Qed.

(** ** puAcc3D1 *)

Section Acceleration.

Variable pos_ : arr double.






End Acceleration.

Lemma forUp_succ {S : Type} (hi : Z) (body : Z -> S -> S) (s : S) :
  0 <= hi -> forUp 0 (hi + 1) body s = body hi (forUp 0 hi body s).
Proof.
  intros H. unfold forUp.
  replace (Z.to_nat (hi + 1 - 0)) with (Datatypes.S (Z.to_nat (hi - 0))) by lia.
  rewrite forLoop_snoc. f_equal. lia.
Qed.

Lemma forUp_none {S : Type} (lo hi : Z) (body : Z -> S -> S) (s : S) :
  hi <= lo -> forUp lo hi body s = s.
Proof.
  intros H. unfold forUp. replace (Z.to_nat (hi - lo)) with 0%nat by lia. reflexivity.
Qed.

Lemma fieldSeenBy_succ (pop : Population) (E : Grid) (s : Z) :
  0 <= s -> fieldSeenBy pop E (s + 1) = gMul (fieldSeenBy pop E s) (renormE pop s).
Proof. intros H. unfold fieldSeenBy. now rewrite forUp_succ. Qed.

Lemma fieldSeenBy_sizeProd (pop : Population) (E : Grid) (s : Z) :
  sizeProd (fieldSeenBy pop E s) = sizeProd E.
Proof.
  unfold fieldSeenBy, forUp. generalize (Z.to_nat (s - 0)) as n.
  induction n as [|n IH]; [reflexivity|].
  rewrite forLoop_snoc. cbn [gMul setVal sizeProd]. exact IH.
Qed.


Lemma puAcc3D1_unfold (pop : Population) (E : Grid) :
  puAcc3D1 pop E
  = (setVel pop (fst (forUp 0 (nSpecies pop) (puAcc3D1_round pop) (vel pop, E))),
     snd (forUp 0 (nSpecies pop) (puAcc3D1_round pop) (vel pop, E))).
Proof.
  unfold puAcc3D1.
  destruct (forUp 0 (nSpecies pop) (puAcc3D1_round pop) (vel pop, E)). reflexivity.
Qed.



Lemma gMul_nElems (g : Grid) (num : double) : nElems (gMul g num) = nElems g.
Proof. reflexivity. Qed.

Lemma fieldSeenBy_nElems (pop : Population) (E : Grid) (s : Z) :
  nElems (fieldSeenBy pop E s) = nElems E.
Proof.
  unfold fieldSeenBy, forUp. generalize (Z.to_nat (s - 0)) as n.
  induction n as [|n IH]; [reflexivity|].
  rewrite forLoop_snoc, gMul_nElems. exact IH.
Qed.

(** within the grid, the field that species [s] finds is the entry field
    times the factors of the species before it *)
Lemma fieldSeenBy_val (pop : Population) (E : Grid) (k : Z) :
  0 <= k < nElems E ->
  forall s, 0 <= s ->
    val (fieldSeenBy pop E s) k = (renormBefore pop s * val E k)%Qc.
Proof.
  intros Hk s Hs. pattern s. apply natlike_ind; [| |exact Hs]; clear s Hs.
  - unfold fieldSeenBy, renormBefore. rewrite !forUp_none by lia. ring.
  - intros s Hs IH. replace (Z.succ s) with (s + 1) by lia.
    rewrite fieldSeenBy_succ by lia. unfold renormBefore. rewrite forUp_succ by lia.
    fold (renormBefore pop s). unfold gMul at 1. cbn [val setVal].
    rewrite fieldSeenBy_nElems.
    destruct (Z.leb_spec 0 k), (Z.ltb_spec k (nElems E)); try lia. cbn [andb].
    rewrite IH. ring.
Qed.




(** ** puDistr3D1 *)

















(** ** puExtractEmigrants3D and puExtractEmigrantsND *)

Lemma sumZ_ext (n : nat) (f g : Z -> Z) :
  (forall k, 0 <= k < Z.of_nat n -> f k = g k) -> sumZ n f = sumZ n g.
Proof.
  induction n as [|n IH]; intros H; [reflexivity|].
  cbn [sumZ]. rewrite IH, (H (Z.of_nat n)) by (intros; try apply H; lia). reflexivity.
Qed.

(** raising one term of a sum by one raises the sum by one *)
Lemma sumZ_bump (n : nat) (f g : Z -> Z) (j : Z) :
  0 <= j < Z.of_nat n ->
  (forall k, 0 <= k < Z.of_nat n -> k <> j -> g k = f k) ->
  g j = f j + 1 ->
  sumZ n g = sumZ n f + 1.
Proof.
  induction n as [|n IH]; intros Hj Hk Hgj; [lia|].
  cbn [sumZ]. destruct (Z.eq_dec j (Z.of_nat n)) as [->|Hne].
  - rewrite Hgj. rewrite (sumZ_ext n g f); [lia|].
    intros k Hk'. apply Hk; lia.
  - rewrite IH by (try lia; intros; apply Hk; lia).
    rewrite (Hk (Z.of_nat n)) by lia. lia.
Qed.

Lemma index_injective (S k1 s1 k2 s2 : Z) :
  0 <= s1 < S -> 0 <= s2 < S -> k1 * S + s1 = k2 * S + s2 -> k1 = k2 /\ s1 = s2.
Proof. intros H1 H2 H. assert (k1 = k2) by nia. subst. lia. Qed.

Section Extraction.

Variable S : Z.

Local Abbreviation kept := (kept S).

Lemma kept_refl (st : Population * MpiInfo) : kept st st.
Proof. repeat split. Qed.

Lemma kept_trans (st1 st2 st3 : Population * MpiInfo) :
  kept st1 st2 -> kept st2 st3 -> kept st1 st3.
Proof.
  intros (A1 & B1 & C1) (A2 & B2 & C2). split; [|split].
  - congruence.
  - congruence.
  - intros t Ht. rewrite C2, C1 by assumption. reflexivity.
Qed.

(** recording one emigrant of species [s] for a neighbour [ne] and taking
    one particle off the range of [s] keeps the balance *)
Lemma kept_remove (s ne : Z) (pop pop' : Population) (m m' : MpiInfo) :
  0 <= s < S ->
  0 <= ne < nNeighbors m ->
  iStart pop' = iStart pop ->
  iStop pop' = upd (iStop pop) s (iStop pop s - 1) ->
  nNeighbors m' = nNeighbors m ->
  nEmigrants m' = upd (nEmigrants m) (ne * S + s) (nEmigrants m (ne * S + s) + 1) ->
  kept (pop, m) (pop', m').
Proof.
  intros Hs Hne HiStart HiStop HN HnE. split; [|split]; cbn [fst snd].
  - exact HiStart.
  - exact HN.
  - intros t Ht. unfold emigrantCount. rewrite HiStop, HnE, HN.
    destruct (Z.eq_dec t s) as [->|Hts].
    + rewrite upd_same.
      rewrite (sumZ_bump _ (fun n => nEmigrants m (n * S + s)) _ ne).
      * lia.
      * lia.
      * intros k Hk Hkne. apply upd_other. intros E.
        apply index_injective in E; lia.
      * apply upd_same.
    + rewrite upd_other by assumption. f_equal.
      apply sumZ_ext. intros k Hk. apply upd_other. intros E.
      apply index_injective in E; lia.
Qed.

Lemma b2z_range (b : bool) : 0 <= b2z b <= 1.
Proof. destruct b; cbn; lia. Qed.

Lemma neighbor3D_range (pos_ thresholds_ : arr double) (p : Z) :
  0 <= neighbor3D pos_ thresholds_ p < 27.
Proof.
  unfold neighbor3D. cbv zeta.
  repeat match goal with
         | |- context [b2z ?b] =>
             let H := fresh in pose proof (b2z_range b) as H; generalize dependent (b2z b)
         end.
  intros; lia.
Qed.

Lemma kept_removeEmigrant3D (s p pStop ne : Z) (st : Population * MpiInfo) :
  0 <= s < S -> 0 <= ne < nNeighbors (snd st) ->
  kept st (removeEmigrant3D s S p pStop ne st).
Proof.
  intros Hs Hne. destruct st as [pop m]. cbn [snd] in Hne.
  apply (kept_remove s ne); trivial; reflexivity.
Qed.

Lemma extractLoop3D_kept (s : Z) (fuel : nat) :
  0 <= s < S ->
  forall p pStop st,
    nNeighbors (snd st) = 27 ->
    pStop - p <= Z.of_nat fuel ->
    exists st', extractLoop3D fuel s S p pStop st = Some st' /\ kept st st'.
Proof.
  intros Hs. induction fuel as [|fuel IH]; intros p pStop st HN Hfuel.
  - cbn [extractLoop3D]. destruct (Z.ltb_spec p pStop); [lia|].
    exists st. split; [reflexivity | apply kept_refl].
  - cbn [extractLoop3D]. destruct (Z.ltb_spec p pStop) as [Hlt|Hge].
    + destruct (negb _).
      * pose proof (neighbor3D_range (pos (fst st)) (thresholds (snd st)) p) as Hr.
        pose proof (kept_removeEmigrant3D s p pStop _ st Hs ltac:(rewrite HN; exact Hr)) as Hk.
        cbv zeta.
        destruct (IH (p - 3 + 3) (pStop - 3) _
                    (eq_trans (proj1 (proj2 Hk)) HN) ltac:(lia)) as (st' & E & Hk').
        exists st'. split; [exact E | exact (kept_trans _ _ _ Hk Hk')].
      * destruct (IH (p + 3) pStop st HN ltac:(lia)) as (st' & E & Hk').
        exists st'. split; assumption.
    + exists st. split; [reflexivity | apply kept_refl].
Qed.

Lemma neighborND_rounds (pos_ thresholds_ : arr double) (nDims_ p : Z) (n : nat) :
  forall (d ne : Z) (k : Z),
    0 <= k -> 0 <= ne < 3 ^ k ->
    0 <= forLoop n d (-1)
           (fun d ne =>
              let ne := ne * 3 in
              ne + 1 - b2z (dlt (pos_ (p + d)) (thresholds_ d))
              + b2z (dge (pos_ (p + d)) (thresholds_ (nDims_ + d))))
           ne
      < 3 ^ (k + Z.of_nat n).
Proof.
  induction n as [|n IH]; intros d ne k Hk Hne.
  - cbn [forLoop]. now rewrite Z.add_0_r.
  - cbn [forLoop]. replace (k + Z.of_nat (Datatypes.S n)) with ((k + 1) + Z.of_nat n) by lia.
    apply IH; [lia|]. cbv zeta.
    pose proof (b2z_range (dlt (pos_ (p + d)) (thresholds_ d))).
    pose proof (b2z_range (dge (pos_ (p + d)) (thresholds_ (nDims_ + d)))).
    rewrite Z.pow_add_r, Z.pow_1_r by lia. lia.
Qed.

Lemma neighborND_range (pos_ thresholds_ : arr double) (nDims_ p : Z) :
  0 <= nDims_ -> 0 <= neighborND pos_ thresholds_ nDims_ p < 3 ^ nDims_.
Proof.
  intros H. unfold neighborND, forDown.
  pose proof (neighborND_rounds pos_ thresholds_ nDims_ p
                (Z.to_nat (nDims_ - 1 + 1)) (nDims_ - 1) 0 0) as Hr.
  replace (0 + Z.of_nat (Z.to_nat (nDims_ - 1 + 1))) with nDims_ in Hr by lia.
  apply Hr; [lia|]. rewrite Z.pow_0_r. lia.
Qed.

Lemma kept_removeEmigrantND (s nDims_ p pStop ne : Z) (st : Population * MpiInfo) :
  0 <= s < S -> 0 <= ne < nNeighbors (snd st) ->
  kept st (removeEmigrantND s S nDims_ p pStop ne st).
Proof.
  intros Hs Hne. destruct st as [pop m]. cbn [snd] in Hne.
  assert (Hpush : forall (f : Z -> double) (n : nat) (d : Z) (m0 : MpiInfo),
             nEmigrants (forLoop n d 1 (fun d m => pushEmigrant m ne (f d)) m0) = nEmigrants m0 /\
             nNeighbors (forLoop n d 1 (fun d m => pushEmigrant m ne (f d)) m0) = nNeighbors m0).
  { intros f n. induction n as [|n IH]; intros d m0; [now split|].
    cbn [forLoop]. destruct (IH (d + 1) (pushEmigrant m0 ne (f d))) as [A B].
    rewrite A, B. now split. }
  apply (kept_remove s ne); trivial; try reflexivity.
  - unfold removeEmigrantND, forUp. cbn [snd countEmigrant setNEmigrants nNeighbors].
    rewrite (proj2 (Hpush _ _ _ _)), (proj2 (Hpush _ _ _ _)). reflexivity.
  - unfold removeEmigrantND, forUp. cbn [snd countEmigrant setNEmigrants nEmigrants].
    rewrite (proj1 (Hpush _ _ _ _)), (proj1 (Hpush _ _ _ _)). reflexivity.
Qed.

Lemma extractLoopND_kept (s nDims_ : Z) (fuel : nat) :
  0 <= s < S -> 1 <= nDims_ ->
  forall p pStop st,
    nNeighbors (snd st) = 3 ^ nDims_ ->
    pStop - p <= Z.of_nat fuel ->
    exists st', extractLoopND fuel s S nDims_ p pStop st = Some st' /\ kept st st'.
Proof.
  intros Hs HD. induction fuel as [|fuel IH]; intros p pStop st HN Hfuel.
  - cbn [extractLoopND]. destruct (Z.ltb_spec p pStop); [lia|].
    exists st. split; [reflexivity | apply kept_refl].
  - cbn [extractLoopND]. destruct (Z.ltb_spec p pStop) as [Hlt|Hge].
    + destruct (negb _).
      * pose proof (neighborND_range (pos (fst st)) (thresholds (snd st)) nDims_ p
                      ltac:(lia)) as Hr.
        pose proof (kept_removeEmigrantND s nDims_ p pStop _ st Hs
                      ltac:(rewrite HN; exact Hr)) as Hk.
        cbv zeta.
        destruct (IH (p - nDims_ + nDims_) (pStop - nDims_) _
                    (eq_trans (proj1 (proj2 Hk)) HN) ltac:(lia)) as (st' & E & Hk').
        exists st'. split; [exact E | exact (kept_trans _ _ _ Hk Hk')].
      * destruct (IH (p + nDims_) pStop st HN ltac:(lia)) as (st' & E & Hk').
        exists st'. split; assumption.
    + exists st. split; [reflexivity | apply kept_refl].
Qed.

(** the loop over the species, for either particle loop *)
Lemma species_kept
    (loop : Z -> Population * MpiInfo -> option (Population * MpiInfo)) (N : Z) :
  (forall s st, 0 <= s < S -> nNeighbors (snd st) = N ->
                exists st', loop s st = Some st' /\ kept st st') ->
  forall st0, nNeighbors (snd st0) = N ->
  forall n, 0 <= n <= S ->
    exists st',
      forUp 0 n (fun s r => match r with None => None | Some st => loop s st end) (Some st0)
      = Some st' /\ kept st0 st'.
Proof.
  intros Hloop st0 HN n [Hn0 HnS]. revert HnS.
  pattern n. apply natlike_ind; [| |exact Hn0]; clear n Hn0.
  - intros _. rewrite forUp_none by lia. exists st0. split; [reflexivity | apply kept_refl].
  - intros n Hn0 IH HnS. destruct (IH ltac:(lia)) as (st1 & E1 & K1).
    replace (Z.succ n) with (n + 1) by lia. rewrite forUp_succ, E1 by lia.
    destruct (Hloop n st1 ltac:(lia) (eq_trans (proj1 (proj2 K1)) HN)) as (st2 & E2 & K2).
    exists st2. split; [exact E2 | exact (kept_trans _ _ _ K1 K2)].
Qed.

Lemma sumZ_zero (n : nat) (f : Z -> Z) :
  (forall k, 0 <= k < Z.of_nat n -> f k = 0) -> sumZ n f = 0.
Proof.
  induction n as [|n IH]; intros H; [reflexivity|].
  cbn [sumZ]. rewrite IH, (H (Z.of_nat n)) by (intros; try apply H; lia). reflexivity.
Qed.

Lemma emigrantCount_reset (mpiInfo : MpiInfo) (t : Z) :
  0 <= t < S -> emigrantCount (resetEmigrants S mpiInfo) S t = 0.
Proof.
  intros Ht. unfold emigrantCount. apply sumZ_zero. intros k Hk.
  change (nNeighbors (resetEmigrants S mpiInfo)) with (nNeighbors mpiInfo) in Hk.
  unfold resetEmigrants. cbv zeta. cbn [nEmigrants setNEmigrants setEmigrants nNeighbors].
  unfold alSetAll.
  destruct (Z.leb_spec 0 (k * S + t)), (Z.ltb_spec (k * S + t) (S * nNeighbors mpiInfo));
    cbn [andb]; trivial; nia.
Qed.

End Extraction.

(** When no live particle lies beyond a threshold, the extraction leaves the
    population as it is. *)
Lemma extractLoop3D_stay (s S : Z) (fuel : nat) :
  forall p pStop st,
    pStop - p <= Z.of_nat fuel ->
    (forall k, 0 <= k -> p + 3 * k < pStop ->
               neighbor3D (pos (fst st)) (thresholds (snd st)) (p + 3 * k)
               = neighborhoodCenter (snd st)) ->
    extractLoop3D fuel s S p pStop st = Some st.
Proof.
  induction fuel as [|fuel IH]; intros p pStop st Hfuel Hc; cbn [extractLoop3D].
  - destruct (Z.ltb_spec p pStop); [lia | reflexivity].
  - destruct (Z.ltb_spec p pStop) as [Hlt|Hge]; [|reflexivity].
    pose proof (Hc 0 ltac:(lia) ltac:(lia)) as H0. rewrite Z.mul_0_r, Z.add_0_r in H0.
    rewrite H0, Z.eqb_refl. cbn [negb]. apply IH; [lia|].
    intros k Hk Hlt'. replace (p + 3 + 3 * k) with (p + 3 * (k + 1)) by lia.
    apply Hc; lia.
Qed.

Lemma extractLoopND_stay (s S nDims_ : Z) (fuel : nat) :
  1 <= nDims_ ->
  forall p pStop st,
    pStop - p <= Z.of_nat fuel ->
    (forall k, 0 <= k -> p + nDims_ * k < pStop ->
               neighborND (pos (fst st)) (thresholds (snd st)) nDims_ (p + nDims_ * k)
               = neighborhoodCenter (snd st)) ->
    extractLoopND fuel s S nDims_ p pStop st = Some st.
Proof.
  intros HD. induction fuel as [|fuel IH]; intros p pStop st Hfuel Hc; cbn [extractLoopND].
  - destruct (Z.ltb_spec p pStop); [lia | reflexivity].
  - destruct (Z.ltb_spec p pStop) as [Hlt|Hge]; [|reflexivity].
    pose proof (Hc 0 ltac:(lia) ltac:(lia)) as H0. rewrite Z.mul_0_r, Z.add_0_r in H0.
    rewrite H0, Z.eqb_refl. cbn [negb]. apply IH; [lia|].
    intros k Hk Hlt'. replace (p + nDims_ + nDims_ * k) with (p + nDims_ * (k + 1)) by lia.
    apply Hc; lia.
Qed.

Lemma species_stay
    (loop : Z -> Population * MpiInfo -> option (Population * MpiInfo))
    (S : Z) (st0 : Population * MpiInfo) :
  (forall s, 0 <= s < S -> loop s st0 = Some st0) ->
  forall n, 0 <= n <= S ->
    forUp 0 n (fun s r => match r with None => None | Some st => loop s st end) (Some st0)
    = Some st0.
Proof.
  intros Hloop n [Hn0 HnS]. revert HnS.
  pattern n. apply natlike_ind; [| |exact Hn0]; clear n Hn0.
  - intros _. now rewrite forUp_none by lia.
  - intros n Hn0 IH HnS. replace (Z.succ n) with (n + 1) by lia.
    rewrite forUp_succ, IH by lia. apply Hloop. lia.
Qed.

Lemma puExtractEmigrants3D_stay (pop : Population) (mpiInfo : MpiInfo) :
  noEmigrant3D pop mpiInfo ->
  puExtractEmigrants3D pop mpiInfo = Some (pop, resetEmigrants (nSpecies pop) mpiInfo).
Proof.
  intros Hno. destruct (Z_le_gt_dec 0 (nSpecies pop)) as [HS|HS].
  - unfold puExtractEmigrants3D. cbv zeta.
    apply (species_stay
             (fun s st =>
                extractLoop3D (Z.to_nat (iStop (fst st) s * 3 - iStart (fst st) s * 3))
                  s (nSpecies pop) (iStart (fst st) s * 3) (iStop (fst st) s * 3) st)
             (nSpecies pop)); [|lia].
    intros s Hs. apply extractLoop3D_stay; [lia|]. cbn [fst snd].
    intros k Hk Hlt.
    replace (iStart pop s * 3 + 3 * k) with ((iStart pop s + k) * 3) by lia.
    apply (Hno s); lia.
  - unfold puExtractEmigrants3D. cbv zeta. now rewrite forUp_none by lia.
Qed.

Lemma puExtractEmigrantsND_stay (pop : Population) (mpiInfo : MpiInfo) :
  1 <= nDims pop ->
  noEmigrantND pop mpiInfo ->
  puExtractEmigrantsND pop mpiInfo = Some (pop, resetEmigrants (nSpecies pop) mpiInfo).
Proof.
  intros HD Hno. destruct (Z_le_gt_dec 0 (nSpecies pop)) as [HS|HS].
  - unfold puExtractEmigrantsND. cbv zeta.
    apply (species_stay
             (fun s st =>
                extractLoopND
                  (Z.to_nat (iStop (fst st) s * nDims pop - iStart (fst st) s * nDims pop))
                  s (nSpecies pop) (nDims pop)
                  (iStart (fst st) s * nDims pop) (iStop (fst st) s * nDims pop) st)
             (nSpecies pop)); [|lia].
    intros s Hs. apply extractLoopND_stay; [exact HD | lia |]. cbn [fst snd].
    intros k Hk Hlt.
    replace (iStart pop s * nDims pop + nDims pop * k)
      with ((iStart pop s + k) * nDims pop) by lia.
    apply (Hno s); nia.
  - unfold puExtractEmigrantsND. cbv zeta. now rewrite forUp_none by lia.
Qed.

(** C6: after [puExtractEmigrants3D] in a neighbourhood of [3^3], and after
    [puExtractEmigrantsND] in one of [3^nDims], the live count of every
    species is its count before the call less the emigrants of the species
    on record over all neighbours, and it is unchanged when no live particle
    lies beyond a migration threshold. Both calls return. *)
Theorem puExtractEmigrants_counts (pop : Population) (mpiInfo : MpiInfo) (s : Z) :
  0 <= s < nSpecies pop ->
  1 <= nDims pop ->
  nNeighbors mpiInfo = 3 ^ nDims pop ->
  (nDims pop = 3 ->
   exists pop' m',
     puExtractEmigrants3D pop mpiInfo = Some (pop', m') /\
     liveCount pop' s = liveCount pop s - emigrantCount m' (nSpecies pop) s /\
     (noEmigrant3D pop mpiInfo -> liveCount pop' s = liveCount pop s)) /\
  (exists pop' m',
     puExtractEmigrantsND pop mpiInfo = Some (pop', m') /\
     liveCount pop' s = liveCount pop s - emigrantCount m' (nSpecies pop) s /\
     (noEmigrantND pop mpiInfo -> liveCount pop' s = liveCount pop s)).
Proof.
  intros Hs HD HN.
  assert (Hfin : forall st',
             kept (nSpecies pop) (pop, resetEmigrants (nSpecies pop) mpiInfo) st' ->
             liveCount (fst st') s = liveCount pop s - emigrantCount (snd st') (nSpecies pop) s).
  { intros st' (A & _ & C). specialize (C s Hs). cbn [fst snd] in A, C.
    rewrite emigrantCount_reset in C by assumption. unfold liveCount. rewrite A. lia. }
  split.
  - intros H3. rewrite H3 in HN. change (3 ^ 3) with 27 in HN.
    destruct (species_kept (nSpecies pop)
                (fun s st =>
                   extractLoop3D (Z.to_nat (iStop (fst st) s * 3 - iStart (fst st) s * 3))
                     s (nSpecies pop) (iStart (fst st) s * 3) (iStop (fst st) s * 3) st)
                27
                (fun s0 st Hs0 HN0 =>
                   extractLoop3D_kept (nSpecies pop) s0
                     (Z.to_nat (iStop (fst st) s0 * 3 - iStart (fst st) s0 * 3)) Hs0
                     (iStart (fst st) s0 * 3) (iStop (fst st) s0 * 3) st HN0 ltac:(lia))
                (pop, resetEmigrants (nSpecies pop) mpiInfo) HN (nSpecies pop) ltac:(lia))
      as ([pop' m'] & E & K).
    exists pop', m'. split; [exact E|]. pose proof (Hfin _ K) as H. cbn [fst snd] in H.
    split; [exact H|].
    intros Hno. pose proof (puExtractEmigrants3D_stay pop mpiInfo Hno) as Hst.
    unfold puExtractEmigrants3D in Hst, E. cbv zeta in Hst, E. rewrite Hst in E.
    injection E as <- _. reflexivity.
  - destruct (species_kept (nSpecies pop)
                (fun s st =>
                   extractLoopND
                     (Z.to_nat (iStop (fst st) s * nDims pop - iStart (fst st) s * nDims pop))
                     s (nSpecies pop) (nDims pop)
                     (iStart (fst st) s * nDims pop) (iStop (fst st) s * nDims pop) st)
                (3 ^ nDims pop)
                (fun s0 st Hs0 HN0 =>
                   extractLoopND_kept (nSpecies pop) s0 (nDims pop)
                     (Z.to_nat (iStop (fst st) s0 * nDims pop - iStart (fst st) s0 * nDims pop))
                     Hs0 HD (iStart (fst st) s0 * nDims pop) (iStop (fst st) s0 * nDims pop)
                     st HN0 ltac:(lia))
                (pop, resetEmigrants (nSpecies pop) mpiInfo) HN (nSpecies pop) ltac:(lia))
      as ([pop' m'] & E & K).
    exists pop', m'. split; [exact E|]. pose proof (Hfin _ K) as H. cbn [fst snd] in H.
    split; [exact H|].
    intros Hno. pose proof (puExtractEmigrantsND_stay pop mpiInfo HD Hno) as Hst.
    unfold puExtractEmigrantsND in Hst, E. cbv zeta in Hst, E. rewrite Hst in E.
    injection E as <- _. reflexivity.
Qed.

Lemma puExtractEmigrants_counts_witness :
  (nDims popMig = 3 ->
   exists pop' m',
     puExtractEmigrants3D popMig mpiMig = Some (pop', m') /\
     liveCount pop' 0 = liveCount popMig 0 - emigrantCount m' (nSpecies popMig) 0 /\
     (noEmigrant3D popMig mpiMig -> liveCount pop' 0 = liveCount popMig 0)) /\
  (exists pop' m',
     puExtractEmigrantsND popMig mpiMig = Some (pop', m') /\
     liveCount pop' 0 = liveCount popMig 0 - emigrantCount m' (nSpecies popMig) 0 /\
     (noEmigrantND popMig mpiMig -> liveCount pop' 0 = liveCount popMig 0)).
Proof.
  apply (puExtractEmigrants_counts popMig mpiMig 0).
  - change (nSpecies popMig) with 2. lia.
  - change (nDims popMig) with 3. lia.
  - reflexivity.
Defined.

(** on the run above the particle beyond the upper [x] threshold leaves the
    first species for neighbour 14, the last particle of the species taking
    its place *)
Lemma puExtractEmigrants3D_run :
  match puExtractEmigrants3D popMig mpiMig with
  | Some (pop', m') =>
      iStop pop' 0 = 1 /\ iStop pop' 1 = 4 /\
      nEmigrants m' (14 * 2 + 0) = 1 /\ emigrantCount m' 2 0 = 1 /\ emigrantCount m' 2 1 = 0
  | None => False
  end.
Proof. vm_compute. repeat split. Qed.

(** ** jacobian *)

Lemma fst_tbind {A B : Type} (c : Traced A) (k : A -> Traced B) :
  fst (tbind c k) = fst (k (fst c)).
Proof. unfold tbind. destruct c as [a t1]. cbn [fst]. now destruct (k a). Qed.

Lemma snd_tbind {A B : Type} (c : Traced A) (k : A -> Traced B) :
  snd (tbind c k) = (snd c ++ snd (k (fst c)))%list.
Proof. unfold tbind. destruct c as [a t1]. cbn [fst snd]. now destruct (k a). Qed.

Lemma fst_forLoopT_snoc {S : Type} (n : nat) (step : Z) (body : Z -> S -> Traced S) :
  forall (i : Z) (s : S),
    fst (forLoopT (Datatypes.S n) i step body s)
    = fst (body (i + Z.of_nat n * step) (fst (forLoopT n i step body s))).
Proof.
  induction n as [|n IH]; intros i s.
  - cbn [forLoopT]. rewrite fst_tbind. cbn [tret fst].
    replace (i + Z.of_nat 0 * step) with i by lia. reflexivity.
  - change (forLoopT (Datatypes.S (Datatypes.S n)) i step body s)
      with (s' <~ body i s ;; forLoopT (Datatypes.S n) (i + step) step body s').
    rewrite fst_tbind, IH. cbn [forLoopT]. rewrite fst_tbind.
    replace (i + step + Z.of_nat n * step) with (i + Z.of_nat (Datatypes.S n) * step) by lia.
    reflexivity.
Qed.

Lemma sameShape_refl (g : Grid) : sameShape g g.
Proof. repeat split. Qed.

Lemma sameShape_trans (g1 g2 g3 : Grid) :
  sameShape g1 g2 -> sameShape g2 g3 -> sameShape g1 g3.
Proof. unfold sameShape. intuition congruence. Qed.

Lemma sameShape_setVal (g : Grid) (v : arr double) : sameShape g (setVal g v).
Proof. repeat split. Qed.

Lemma ghostCell_sameShape (g g' : Grid) (d i : Z) :
  sameShape g g' -> ghostCell g' d i = ghostCell g d i.
Proof.
  intros (A & B & _ & C & D). unfold ghostCell, coordAlong, nElems.
  now rewrite A, B, C, D.
Qed.

Section Pinning.

Variable gSwapGhostsDim : Grid -> MpiInfo -> Z -> Grid.
Hypothesis contract : exchangeContract gSwapGhostsDim.

(** exchanges along axes for which the cell at [i] is no ghost cell leave
    the cell as it is *)
Lemma exchanges_frame (m : MpiInfo) (i : Z) (n : nat) :
  forall (d0 : Z) (g : Grid),
    (forall d, d0 <= d < d0 + Z.of_nat n -> ghostCell g d i = false) ->
    sameShape g (forLoop n d0 1 (fun d phi => gSwapGhostsDim phi m d) g) /\
    val (forLoop n d0 1 (fun d phi => gSwapGhostsDim phi m d) g) i = val g i.
Proof.
  induction n as [|n IH]; intros d0 g H.
  - split; [apply sameShape_refl | reflexivity].
  - cbn [forLoop]. destruct (contract g m d0) as [Hs Hv].
    destruct (IH (d0 + 1) (gSwapGhostsDim g m d0)) as [IHs IHv].
    + intros d Hd. rewrite (ghostCell_sameShape g) by exact Hs. apply H. lia.
    + split; [exact (sameShape_trans _ _ _ Hs IHs)|].
      rewrite IHv. apply Hv, H. lia.
Qed.

Lemma swapGhosts_frame (m : MpiInfo) (g : Grid) (i : Z) :
  (forall d, 1 <= d < rank g -> ghostCell g d i = false) ->
  sameShape g (swapGhosts gSwapGhostsDim (rank g) m g) /\
  val (swapGhosts gSwapGhostsDim (rank g) m g) i = val g i.
Proof.
  intros H. unfold swapGhosts, forUp. apply exchanges_frame.
  intros d Hd. apply H. lia.
Qed.

(** the relaxation ends with the node at [normalize] set to zero and keeps
    the shape of the grid *)
Lemma jacobianRelax_pin (sp : arr Z) (rk : Z) (rhoVal : arr double) (st : Grid * arr double) :
  val (fst (fst (jacobianRelax sp rk rhoVal st))) (normalizeIndex sp) = Q2Qc 0 /\
  sameShape (fst st) (fst (fst (jacobianRelax sp rk rhoVal st))).
Proof.
  destruct st as [phi tempVal]. unfold jacobianRelax. cbv zeta.
  rewrite !fst_tbind. cbn [tret fst wr val setVal]. split.
  - apply upd_same.
  - apply sameShape_setVal.
Qed.

Lemma jacobianCycles_succ (junk : arr double) (phi rho : Grid) (m : MpiInfo) (c : Z) :
  0 <= c ->
  fst (jacobianCycles gSwapGhostsDim junk phi rho m (c + 1))
  = fst (jacobianCycle gSwapGhostsDim (sizeProd phi) (rank phi) (val rho) m
           (fst (jacobianCycles gSwapGhostsDim junk phi rho m c))).
Proof.
  intros Hc. unfold jacobianCycles, forUpT. cbv zeta.
  replace (Z.to_nat (c + 1 - 0)) with (Datatypes.S (Z.to_nat (c - 0))) by lia.
  now rewrite fst_forLoopT_snoc.
Qed.

Lemma jacobianCycle_unfold (sp : arr Z) (rk : Z) (rhoVal : arr double) (m : MpiInfo)
    (st : Grid * arr double) :
  fst (fst (jacobianCycle gSwapGhostsDim sp rk rhoVal m st))
  = swapGhosts gSwapGhostsDim rk m (fst (fst (jacobianRelax sp rk rhoVal st))).
Proof. unfold jacobianCycle. rewrite fst_tbind. reflexivity. Qed.

Lemma jacobianCycles_shape (junk : arr double) (phi rho : Grid) (m : MpiInfo) (c : Z) :
  0 <= c -> sameShape phi (fst (fst (jacobianCycles gSwapGhostsDim junk phi rho m c))).
Proof.
  intros Hc. pattern c. apply natlike_ind; [| |exact Hc]; clear c Hc.
  - apply sameShape_refl.
  - intros c Hc IH. replace (Z.succ c) with (c + 1) by lia.
    rewrite jacobianCycles_succ, jacobianCycle_unfold by assumption.
    set (st := fst (jacobianCycles gSwapGhostsDim junk phi rho m c)) in *.
    destruct (jacobianRelax_pin (sizeProd phi) (rank phi) (val rho) st) as [_ Hr].
    pose proof (sameShape_trans _ _ _ IH Hr) as Hpr.
    apply (sameShape_trans _ _ _ Hpr).
    unfold swapGhosts, forUp.
    apply (exchanges_frame m (-1)). intros d Hd.
    unfold ghostCell. reflexivity.
Qed.

End Pinning.

(** the periodic exchange on one subdomain honours the contract *)
Lemma gSwapGhostsDimPeriodic_contract : exchangeContract gSwapGhostsDimPeriodic.
Proof.
  intros g m d. split; [apply sameShape_setVal|].
  intros i H. unfold gSwapGhostsDimPeriodic, ghostCell in *. cbn [val setVal].
  destruct ((0 <=? i) && (i <? nElems g)); [|reflexivity].
  cbn [andb] in H. apply orb_false_elim in H. destruct H as [H1 H2].
  now rewrite H1, H2.
Qed.

(** C7 (as amended): when the exchange of ghost layers writes to ghost
    cells only and the node at [3 sizeProd[1] + 3 sizeProd[2]] is a node of
    the grid that lies in no ghost layer of the axes [1 .. rank-1], then in
    every cycle [c] of [jacobian] the relaxation leaves that node at 0, the
    exchange that ends the cycle does not change it, and so the node is 0 in
    the grid at the end of the cycle, which is the grid [jacobian] returns
    when [nCycles] is [c]. *)
Theorem jacobian_pins_interior_node
    (gSwapGhostsDim : Grid -> MpiInfo -> Z -> Grid)
    (junk : arr double) (phi rho : Grid) (mpiInfo : MpiInfo) (c : Z) :
  exchangeContract gSwapGhostsDim ->
  0 <= normalizeIndex (sizeProd phi) < nElems phi ->
  (forall d, 1 <= d < rank phi ->
             ghostCell phi d (normalizeIndex (sizeProd phi)) = false) ->
  1 <= c ->
  val (fst (fst (jacobianRelax (sizeProd phi) (rank phi) (val rho)
                   (fst (jacobianCycles gSwapGhostsDim junk phi rho mpiInfo (c - 1))))))
      (normalizeIndex (sizeProd phi)) = Q2Qc 0 /\
  fst (fst (jacobianCycles gSwapGhostsDim junk phi rho mpiInfo c))
  = swapGhosts gSwapGhostsDim (rank phi) mpiInfo
      (fst (fst (jacobianRelax (sizeProd phi) (rank phi) (val rho)
                   (fst (jacobianCycles gSwapGhostsDim junk phi rho mpiInfo (c - 1)))))) /\
  val (fst (fst (jacobianCycles gSwapGhostsDim junk phi rho mpiInfo c)))
      (normalizeIndex (sizeProd phi)) = Q2Qc 0 /\
  fst (jacobian gSwapGhostsDim junk phi rho c mpiInfo)
  = fst (fst (jacobianCycles gSwapGhostsDim junk phi rho mpiInfo c)).
Proof.
  intros Hcontract _ Hint Hc.
  set (entering := fst (jacobianCycles gSwapGhostsDim junk phi rho mpiInfo (c - 1))).
  destruct (jacobianRelax_pin (sizeProd phi) (rank phi) (val rho) entering) as [Hpin Hshape].
  set (pinned := fst (fst (jacobianRelax (sizeProd phi) (rank phi) (val rho) entering))) in *.
  assert (Hphi : sameShape phi pinned).
  { apply (sameShape_trans _ (fst entering)); [|exact Hshape].
    apply jacobianCycles_shape; [exact Hcontract | lia]. }
  assert (Hend : fst (fst (jacobianCycles gSwapGhostsDim junk phi rho mpiInfo c))
                 = swapGhosts gSwapGhostsDim (rank phi) mpiInfo pinned).
  { replace c with (c - 1 + 1) at 1 by lia.
    rewrite jacobianCycles_succ by lia. apply jacobianCycle_unfold. }
  split; [exact Hpin|]. split; [exact Hend|]. split.
  - rewrite Hend.
    destruct (swapGhosts_frame gSwapGhostsDim Hcontract mpiInfo pinned
                (normalizeIndex (sizeProd phi))) as [_ Hv].
    + intros d Hd. rewrite (ghostCell_sameShape phi) by exact Hphi.
      apply Hint. destruct Hphi as [Hr _]. rewrite <- Hr. exact Hd.
    + destruct Hphi as [Hr _]. rewrite Hr in Hv. rewrite Hv. exact Hpin.
  - unfold jacobian. rewrite fst_tbind. reflexivity.
Qed.

Lemma jacobian_pins_interior_node_witness :
  val (fst (fst (jacobianRelax (sizeProd phiLarge) (rank phiLarge) (val rhoLarge)
                   (fst (jacobianCycles gSwapGhostsDimPeriodic (fresh (Q2Qc 0))
                           phiLarge rhoLarge mpiMig (2 - 1))))))
      (normalizeIndex (sizeProd phiLarge)) = Q2Qc 0 /\
  fst (fst (jacobianCycles gSwapGhostsDimPeriodic (fresh (Q2Qc 0)) phiLarge rhoLarge mpiMig 2))
  = swapGhosts gSwapGhostsDimPeriodic (rank phiLarge) mpiMig
      (fst (fst (jacobianRelax (sizeProd phiLarge) (rank phiLarge) (val rhoLarge)
                   (fst (jacobianCycles gSwapGhostsDimPeriodic (fresh (Q2Qc 0))
                           phiLarge rhoLarge mpiMig (2 - 1)))))) /\
  val (fst (fst (jacobianCycles gSwapGhostsDimPeriodic (fresh (Q2Qc 0))
                   phiLarge rhoLarge mpiMig 2)))
      (normalizeIndex (sizeProd phiLarge)) = Q2Qc 0 /\
  fst (jacobian gSwapGhostsDimPeriodic (fresh (Q2Qc 0)) phiLarge rhoLarge 2 mpiMig)
  = fst (fst (jacobianCycles gSwapGhostsDimPeriodic (fresh (Q2Qc 0)) phiLarge rhoLarge mpiMig 2)).
Proof.
  apply (jacobian_pins_interior_node gSwapGhostsDimPeriodic).
  - exact gSwapGhostsDimPeriodic_contract.
  - vm_compute. split; [discriminate | reflexivity].
  - intros d Hd. change (rank phiLarge) with 3 in Hd.
    assert (Hc : d = 1 \/ d = 2) by lia. destruct Hc as [-> | ->]; reflexivity.
  - lia.
Defined.

(** C7 (the claim fails): on a 2 x 2 interior with one ghost layer per side
    the node at [3 sizeProd[1] + 3 sizeProd[2] = 15] is the ghost corner
    (3, 3); it is within the array, the relaxation of the first cycle sets it
    to 0, and the periodic exchange that ends the cycle writes 1 over it. *)
Lemma jacobian_pin_overwritten_in_ghost_corner :
  0 <= normalizeIndex (sizeProd phiSmall) < nElems phiSmall /\
  val (fst (fst (jacobianRelax (sizeProd phiSmall) (rank phiSmall) (val rhoSmall)
                   (phiSmall, fresh (Q2Qc 0)))))
      (normalizeIndex (sizeProd phiSmall)) = Q2Qc 0 /\
  val (fst (jacobian gSwapGhostsDimPeriodic (fresh (Q2Qc 0)) phiSmall rhoSmall 1 mpiMig))
      (normalizeIndex (sizeProd phiSmall)) = ofZ 1 /\
  val (fst (jacobian gSwapGhostsDimPeriodic (fresh (Q2Qc 0)) phiSmall rhoSmall 1 mpiMig))
      (normalizeIndex (sizeProd phiSmall)) <> Q2Qc 0.
Proof.
  split; [vm_compute; split; [discriminate | reflexivity]|].
  split; [qc_eval|]. split; qc_eval.
Qed.

(** ** The accesses of jacobian *)

Lemma snd_forLoopT_first {S : Type} (n : nat) (i step : Z) (body : Z -> S -> Traced S) (s : S) :
  snd (forLoopT (Datatypes.S n) i step body s)
  = (snd (body i s) ++ snd (forLoopT n (i + step) step body (fst (body i s))))%list.
Proof. cbn [forLoopT]. apply snd_tbind. Qed.

(** the first sweep starts by reading [phiVal[sizeProd[1]]] and
    [phiVal[-sizeProd[1]]] *)
Lemma jacobianSweep_first_accesses (sp : arr Z) (rk : Z) (phiVal rhoVal tempVal : arr double) :
  1 <= sp rk ->
  exists t,
    snd (jacobianSweep sp rk phiVal rhoVal tempVal)
    = Read PhiVal (sp 1) :: Read PhiVal (- sp 1) :: t.
Proof.
  intros HN. unfold jacobianSweep, forUpT. cbv zeta.
  replace (Z.to_nat (sp rk - 0)) with (Datatypes.S (Z.to_nat (sp rk - 1))) by lia.
  rewrite snd_tbind, snd_forLoopT_first, !snd_tbind. cbn [rd snd fst app].
  eexists. reflexivity.
Qed.

(** with the operands of the sum read from left to right, the second access
    of a call is the read of [phiVal[-sizeProd[1]]] *)
Lemma jacobian_second_access
    (gSwapGhostsDim : Grid -> MpiInfo -> Z -> Grid)
    (junk : arr double) (phi rho : Grid) (nCycles : Z) (mpiInfo : MpiInfo) :
  1 <= nCycles -> 1 <= nElems phi ->
  nth_error (snd (jacobian gSwapGhostsDim junk phi rho nCycles mpiInfo)) 1
  = Some (Read PhiVal (- sizeProd phi 1)).
Proof.
  intros Hc HN.
  unfold jacobian, jacobianCycles, forUpT. cbv zeta.
  replace (Z.to_nat (nCycles - 0)) with (Datatypes.S (Z.to_nat (nCycles - 1))) by lia.
  rewrite snd_tbind, snd_forLoopT_first.
  unfold jacobianCycle at 1. rewrite snd_tbind.
  unfold jacobianRelax at 1. cbv zeta. rewrite snd_tbind.
  destruct (jacobianSweep_first_accesses (sizeProd phi) (rank phi) (val phi) (val rho) junk HN)
    as [t Ht].
  rewrite Ht. reflexivity.
Qed.

(** C10 (the code departs from the claim): whatever the exchange of ghost
    layers, on every grid with at least one element and [sizeProd[1] >= 1]
    a call of [jacobian] with at least one cycle reads [phiVal] at
    [-sizeProd[1]], below the start of the array. *)
Theorem jacobian_reads_below_phiVal
    (gSwapGhostsDim : Grid -> MpiInfo -> Z -> Grid)
    (junk : arr double) (phi rho : Grid) (nCycles : Z) (mpiInfo : MpiInfo) :
  1 <= nCycles -> 1 <= nElems phi -> 1 <= sizeProd phi 1 ->
  In (Read PhiVal (- sizeProd phi 1))
     (snd (jacobian gSwapGhostsDim junk phi rho nCycles mpiInfo)) /\
  ~ accessInBounds (nElems phi) (Read PhiVal (- sizeProd phi 1)).
Proof.
  intros Hc HN Hsp. split; [|cbn [accessInBounds]; lia].
  apply (nth_error_In _ 1).
  now apply jacobian_second_access.
Qed.

Lemma jacobian_reads_below_phiVal_witness :
  In (Read PhiVal (- sizeProd phiSmall 1))
     (snd (jacobian gSwapGhostsDimPeriodic (fresh (Q2Qc 0)) phiSmall rhoSmall 1 mpiMig)) /\
  ~ accessInBounds (nElems phiSmall) (Read PhiVal (- sizeProd phiSmall 1)).
Proof.
  apply (jacobian_reads_below_phiVal gSwapGhostsDimPeriodic); vm_compute; discriminate.
Defined.

(** on the 4 x 4 grid the first sweep reads [phiVal] at -1 and -4 for the
    node 0 and at 16 and 19 for the node 15, all outside [0, 16) *)
Lemma jacobian_stray_reads_4x4 :
  firstn 4 (snd (jacobian gSwapGhostsDimPeriodic (fresh (Q2Qc 0)) phiSmall rhoSmall 1 mpiMig))
  = [Read PhiVal 1; Read PhiVal (-1); Read PhiVal 4; Read PhiVal (-4)] /\
  firstn 4 (skipn 90 (snd (jacobian gSwapGhostsDimPeriodic (fresh (Q2Qc 0))
                             phiSmall rhoSmall 1 mpiMig)))
  = [Read PhiVal 16; Read PhiVal 14; Read PhiVal 19; Read PhiVal 11].
Proof. split; vm_compute; reflexivity. Qed.

(** ** Restriction and prolongation of a constant field *)

(** C5 (the code departs from the claim): the fine field is 1 everywhere on
    a 4 x 4 interior, ghost cells included. [halfWeightRestrict2D] gives 1 at
    every interior node of the 2 x 2 coarse grid, as claimed. Prolonging
    that coarse field back into the fine grid with [bilinearProlong2D],
    whatever the exchange of ghost layers as long as it writes to ghost
    cells only, gives 1 at the node (1, 1) that takes a coarse value, but 2
    at the interior node (1, 2) and 3 at the interior node (2, 2): the two
    interpolation passes add to what the fine grid holds. *)
Theorem bilinearProlong2D_adds_to_fine
    (gSwapGhostsDim : Grid -> MpiInfo -> Z -> Grid) (mpiInfo : MpiInfo) :
  exchangeContract gSwapGhostsDim ->
  allAre (halfWeightRestrict2D (constSq 4 (ofZ 1)) (gridSq 2)) (ofZ 1)
    (interior2D (gridSq 2)) = true /\
  val (bilinearProlong2D gSwapGhostsDim (constSq 4 (ofZ 1))
         (halfWeightRestrict2D (constSq 4 (ofZ 1)) (gridSq 2)) mpiInfo)
      (1 * 1 + 1 * 6) = ofZ 1 /\
  val (bilinearProlong2D gSwapGhostsDim (constSq 4 (ofZ 1))
         (halfWeightRestrict2D (constSq 4 (ofZ 1)) (gridSq 2)) mpiInfo)
      (1 * 1 + 2 * 6) = ofZ 2 /\
  val (bilinearProlong2D gSwapGhostsDim (constSq 4 (ofZ 1))
         (halfWeightRestrict2D (constSq 4 (ofZ 1)) (gridSq 2)) mpiInfo)
      (2 * 1 + 2 * 6) = ofZ 3.
Proof.
  intros H. split; [vm_compute; reflexivity|].
  unfold bilinearProlong2D. cbv zeta.
  set (fineC := constSq 4 (ofZ 1)).
  set (coarseC := halfWeightRestrict2D fineC (gridSq 2)).
  set (G1 := setVal fineC (bilinearProlong2D_insert fineC coarseC)).
  set (S1 := gSwapGhostsDim G1 mpiInfo 2).
  set (G2 := setVal S1 (bilinearProlong2D_vertical (sizeProd fineC) (size fineC) (val S1))).
  set (S2 := gSwapGhostsDim G2 mpiInfo 1).
  cbn [val setVal].
  assert (F1 : forall i, ghostCell G1 2 i = false -> val S1 i = val G1 i)
    by (apply (H G1 mpiInfo 2)).
  assert (Sh : sameShape G1 G2).
  { apply (sameShape_trans _ S1); [apply (H G1 mpiInfo 2) | apply sameShape_setVal]. }
  assert (F2 : forall i, ghostCell G1 1 i = false -> val S2 i = val G2 i).
  { intros i Hi. apply (H G2 mpiInfo 1). now rewrite (ghostCell_sameShape G1 G2). }
  split; [|split].
  - change (val S2 7 = ofZ 1). rewrite F2 by reflexivity.
    change (val S1 7 = ofZ 1). rewrite F1 by reflexivity. qc_eval.
  - change (val S2 13 = ofZ 2). rewrite F2 by reflexivity.
    change ((val S1 13%Z + d0_5 * (val S1 7%Z + val S1 19%Z))%Qc = ofZ 2).
    rewrite !F1 by reflexivity. qc_eval.
  - change ((val S2 14%Z + d0_5 * (val S2 13%Z + val S2 15%Z))%Qc = ofZ 3).
    rewrite !F2 by reflexivity.
    change ((val S1 14%Z
             + d0_5 * ((val S1 13%Z + d0_5 * (val S1 7%Z + val S1 19%Z))
                       + (val S1 15%Z + d0_5 * (val S1 9%Z + val S1 21%Z))))%Qc = ofZ 3).
    rewrite !F1 by reflexivity. qc_eval.
Qed.

Lemma bilinearProlong2D_adds_to_fine_witness :
  allAre (halfWeightRestrict2D (constSq 4 (ofZ 1)) (gridSq 2)) (ofZ 1)
    (interior2D (gridSq 2)) = true /\
  val (bilinearProlong2D gSwapGhostsDimPeriodic (constSq 4 (ofZ 1))
         (halfWeightRestrict2D (constSq 4 (ofZ 1)) (gridSq 2)) mpiMig)
      (1 * 1 + 1 * 6) = ofZ 1 /\
  val (bilinearProlong2D gSwapGhostsDimPeriodic (constSq 4 (ofZ 1))
         (halfWeightRestrict2D (constSq 4 (ofZ 1)) (gridSq 2)) mpiMig)
      (1 * 1 + 2 * 6) = ofZ 2 /\
  val (bilinearProlong2D gSwapGhostsDimPeriodic (constSq 4 (ofZ 1))
         (halfWeightRestrict2D (constSq 4 (ofZ 1)) (gridSq 2)) mpiMig)
      (2 * 1 + 2 * 6) = ofZ 3.
Proof.
  apply (bilinearProlong2D_adds_to_fine gSwapGhostsDimPeriodic mpiMig).
  exact gSwapGhostsDimPeriodic_contract.
Defined.

(** with the periodic exchange on one subdomain, the whole interior after
    the prolongation: the constant only at the four nodes of insertion *)
Lemma bilinearProlong2D_interior_periodic :
  map (fun i =>
         truncI (val (bilinearProlong2D gSwapGhostsDimPeriodic (constSq 4 (ofZ 1))
                        (halfWeightRestrict2D (constSq 4 (ofZ 1)) (gridSq 2)) mpiMig) i))
    (interior2D (gridSq 4))
  = [1; 2; 1; 2;  2; 3; 2; 3;  1; 2; 1; 2;  2; 3; 2; 3].
Proof. vm_compute; reflexivity. Qed.

(** the three-dimensional operators on the same experiment, with the field
    7 on a 4 x 4 x 4 interior: the restriction gives 7 at every interior
    node of the coarse grid and [bilinearProlong3D], which assigns in every
    pass, gives 7 at every interior node of the fine grid *)
Lemma bilinearProlong3D_returns_constant :
  allAre (halfWeightRestrict3D (constCube 4 (ofZ 7)) (gridCube 2)) (ofZ 7)
    (interior3D (gridCube 2)) = true /\
  allAre (bilinearProlong3D gSwapGhostsDimPeriodic (constCube 4 (ofZ 7))
            (halfWeightRestrict3D (constCube 4 (ofZ 7)) (gridCube 2)) mpiMig)
    (ofZ 7) (interior3D (gridCube 4)) = true.
Proof. split; vm_compute; reflexivity. Qed.

(** [bilinearProlong2D] does return the constant when the fine grid it
    writes to holds zero *)
Lemma bilinearProlong2D_into_zero :
  allAre (bilinearProlong2D gSwapGhostsDimPeriodic (gridSq 4)
            (halfWeightRestrict2D (constSq 4 (ofZ 1)) (gridSq 2)) mpiMig)
    (ofZ 1) (interior2D (gridSq 4)) = true.
Proof. vm_compute; reflexivity. Qed.

(** ** halfWeightRestrict2D on a constant field *)

(** a property of the state that holds at the start and is kept by every
    round holds at the end of the loop *)
Lemma forLoop_invariant {S : Type} (P : Z -> S -> Prop) (body : Z -> S -> S) (n : nat) :
  forall (i : Z) (s : S),
    P 0 s ->
    (forall q st, 0 <= q < Z.of_nat n -> P q st -> P (q + 1) (body (i + q) st)) ->
    P (Z.of_nat n) (forLoop n i 1 body s).
Proof.
  induction n as [|n IH]; intros i s H0 Hstep.
  - exact H0.
  - rewrite forLoop_snoc, Z.mul_1_r, Nat2Z.inj_succ. unfold Z.succ.
    apply Hstep; [lia|]. apply IH; [exact H0|].
    intros q st Hq. apply Hstep. lia.
Qed.

Lemma halfWeight_stencil (c : double) :
  (d0_125 * (ofZ 4 * c + c + c + c + c))%Qc = c.
Proof.
  assert (E8 : d0_125 = (/ (1 + 1 + 1 + 1 + 1 + 1 + 1 + 1))%Qc) by qc_eval.
  assert (E4 : ofZ 4 = (1 + 1 + 1 + 1)%Qc) by qc_eval.
  rewrite E8, E4. field. intros H. apply deqb_eq in H. vm_compute in H. discriminate.
Qed.

(** X5: on a pair of two-dimensional grids as [halfWeightRestrict2D] takes
    them, the restriction of a fine field that is [c] everywhere is [c] at
    every interior node of the coarse grid. *)
Theorem halfWeightRestrict2D_constant (fine coarse : Grid) (cT1 cT2 : Z) (c : double) :
  restrictPair2D fine coarse cT1 cT2 ->
  constField fine c ->
  forall j k, 1 <= j <= cT1 -> 1 <= k <= cT2 ->
    val (halfWeightRestrict2D fine coarse) (j + k * (cT1 + 2)) = c.
Proof.
  intros (Hrank & Hg1 & Hg2 & Hg4 & Hg5 & H1 & H2 & Hs1 & Hs2 & Hcp1 & Hcp2 & Hfp1 & Hfp2 & HnE)
         Hconst j k Hj Hk.
  unfold halfWeightRestrict2D. cbv zeta.
  rewrite Hrank. change (3 + 2) with 5. change (3 + 1) with 4.
  rewrite Hg1, Hg2, Hg4, Hg5, Hs1, Hs2, Hcp1, Hcp2, Hfp1, Hfp2.
  set (C1 := cT1 + 2). set (F1 := 2 * cT1 + 2).
  (* the state after [q] nodes of row [r + 1] *)
  set (I := fun (r q : Z) (st : arr double * Z * Z * Z * Z * Z * Z) =>
              let '(cVal, cc, f, fj, fjj, fk, fkk) := st in
              cc = 1 + q + (1 + r) * C1 /\
              f = 1 + 2 * q + (1 + 2 * r) * F1 /\
              fj = f + 1 /\ fjj = f - 1 /\ fk = f + F1 /\ fkk = f - F1 /\
              forall j' k', 1 <= j' <= cT1 ->
                            (1 <= k' <= r \/ (k' = r + 1 /\ j' <= q)) ->
                            cVal (j' + k' * C1) = c).
  assert (Hrow : forall r st, 0 <= r < cT2 -> I r 0 st ->
             I r cT1
               (forUp 1 (C1 - 1)
                  (fun _ '(cVal, cc, f, fj, fjj, fk, fkk) =>
                     (upd cVal cc
                        (d0_125 * (ofZ 4 * val fine f + val fine fj + val fine fjj
                                   + val fine fk + val fine fkk))%Qc,
                      cc + 1, f + 2, fj + 2, fjj + 2, fk + 2, fkk + 2))
                  st)).
  { intros r st Hr Hst. unfold forUp.
    replace cT1 with (Z.of_nat (Z.to_nat (C1 - 1 - 1))) at 1 by (subst C1; lia).
    apply (forLoop_invariant (I r)); [exact Hst|].
    intros q [[[[[[cVal cc] f] fj] fjj] fk] fkk] Hq (Ec & Ef & Efj & Efjj & Efk & Efkk & Hc).
    subst C1. unfold I.
    refine (conj _ (conj _ (conj _ (conj _ (conj _ (conj _ _)))))); try lia.
    intros j' k' Hj' Hk'.
    assert (Hin : forall x, 0 <= x < F1 * (2 * cT2 + 2) -> val fine x = c)
      by (intros x Hx; apply Hconst; rewrite HnE; exact Hx).
    destruct (Z.eq_dec (j' + k' * (cT1 + 2)) cc) as [E|E].
    - rewrite E, upd_same.
      rewrite !Hin by (subst F1; nia). apply halfWeight_stencil.
    - rewrite upd_other by exact E. apply Hc; [exact Hj'|].
      destruct Hk' as [Hk'|[Hk' Hq']]; [left; exact Hk'|]. right. split; [exact Hk'|].
      assert (j' <> q + 1) by (intros ->; apply E; subst; lia). lia. }
  assert (Hall : I cT2 0
            (forUp 1 (cT2 + 2 - 1)
               (fun _ st =>
                  let '(cVal, cc, f, fj, fjj, fk, fkk) :=
                    forUp 1 (C1 - 1)
                      (fun _ '(cVal, cc, f, fj, fjj, fk, fkk) =>
                         (upd cVal cc
                            (d0_125 * (ofZ 4 * val fine f + val fine fj + val fine fjj
                                       + val fine fk + val fine fkk))%Qc,
                          cc + 1, f + 2, fj + 2, fjj + 2, fk + 2, fkk + 2))
                      st in
                  (cVal, cc + (1 + 1), f + (1 + 1 + F1), fj + (1 + 1 + F1),
                   fjj + (1 + 1 + F1), fk + (1 + 1 + F1), fkk + (1 + 1 + F1)))
               (val coarse, C1 + 1, F1 + 1, F1 + 1 + 1, F1 + 1 - 1,
                F1 + 1 + F1, F1 + 1 - F1))).
  { unfold forUp at 1.
    replace cT2 with (Z.of_nat (Z.to_nat (cT2 + 2 - 1 - 1))) at 1 by lia.
    apply (forLoop_invariant (fun r => I r 0)).
    - unfold I. repeat split; subst C1 F1; lia.
    - intros r st Hr Hst. pose proof (Hrow r st ltac:(lia) Hst) as Hend.
      destruct (forUp 1 (C1 - 1) _ st) as [[[[[[cVal cc] f] fj] fjj] fk] fkk].
      destruct Hend as (Ec & Ef & Efj & Efjj & Efk & Efkk & Hc).
      unfold I.
      refine (conj _ (conj _ (conj _ (conj _ (conj _ (conj _ _))))));
        try (subst C1 F1; lia).
      intros j' k' Hj' Hk'. apply Hc; [exact Hj'|].
      destruct Hk' as [Hk'|[Hk' Hq']]; [|lia].
      destruct (Z.eq_dec k' (r + 1)); [right; lia | left; lia]. }
  destruct (forUp 1 (cT2 + 2 - 1) _ _) as [[[[[[cVal cc] f] fj] fjj] fk] fkk].
  destruct Hall as (_ & _ & _ & _ & _ & _ & Hc).
  cbn [val setVal]. subst C1. apply Hc; [exact Hj | left; exact Hk].
Qed.

Lemma halfWeightRestrict2D_constant_witness :
  val (halfWeightRestrict2D (constSq 4 (ofZ 7)) (gridSq 2)) (1 + 2 * (2 + 2)) = ofZ 7.
Proof.
  apply (halfWeightRestrict2D_constant (constSq 4 (ofZ 7)) (gridSq 2) 2 2 (ofZ 7)).
  - repeat split; try reflexivity; lia.
  - intros k Hk. reflexivity.
  - lia.
  - lia.
Defined.

(** ** halfWeightRestrict3D on a constant field *)

Lemma halfWeight_stencil3D (c : double) :
  (d1_12 * (ofZ 6 * c + c + c + c + c + c + c))%Qc = c.
Proof.
  assert (E12 : d1_12 = (/ (1 + 1 + 1 + 1 + 1 + 1 + 1 + 1 + 1 + 1 + 1 + 1))%Qc) by qc_eval.
  assert (E6 : ofZ 6 = (1 + 1 + 1 + 1 + 1 + 1)%Qc) by qc_eval.
  rewrite E12, E6. field. intros H. apply deqb_eq in H. vm_compute in H. discriminate.
Qed.

(** the seven nodes read for a coarse node lie inside the fine grid *)
Lemma halfWeightRestrict3D_reads (cT1 cT2 cT3 q r2 r3 : Z) :
  0 <= q < cT1 -> 0 <= r2 < cT2 -> 0 <= r3 < cT3 ->
  let F1 := 2 * cT1 + 2 in
  let F2 := 2 * cT2 + 2 in
  let f := 1 + 2 * q + (1 + 2 * r2 + (1 + 2 * r3) * F2) * F1 in
  0 < F1 <= F1 * F2 /\ 0 <= f - F1 * F2 /\ f + F1 * F2 < F1 * F2 * (2 * cT3 + 2).
Proof.
  intros Hq Hr2 Hr3 F1 F2 f.
  assert (HF1 : 0 < F1) by (subst F1; lia).
  assert (HF2 : 0 < F2) by (subst F2; lia).
  assert (HP : F1 * 1 <= F1 * F2) by (apply Z.mul_le_mono_nonneg_l; lia).
  set (A := 1 + 2 * r2 + (1 + 2 * r3) * F2) in *.
  assert (HA0 : F2 <= A).
  { subst A. assert (0 <= r3 * F2) by (apply Z.mul_nonneg_nonneg; lia). lia. }
  assert (HA1 : A + F2 + 1 <= F2 * (2 * cT3 + 2)).
  { subst A. assert ((1 + r3) * F2 <= cT3 * F2) by (apply Z.mul_le_mono_nonneg_r; lia).
    subst F2. lia. }
  assert (H0 : F2 * F1 <= A * F1) by (apply Z.mul_le_mono_nonneg_r; lia).
  assert (H1 : (A + F2 + 1) * F1 <= F2 * (2 * cT3 + 2) * F1)
    by (apply Z.mul_le_mono_nonneg_r; lia).
  subst f. split; [lia|]. split.
  - replace (F1 * F2) with (F2 * F1) by ring. lia.
  - replace (F1 * F2 * (2 * cT3 + 2)) with (F2 * (2 * cT3 + 2) * F1) by ring.
    replace ((A + F2 + 1) * F1) with (A * F1 + F1 * F2 + F1) in H1 by ring.
    subst F1. lia.
Qed.

(** X6: on a pair of three-dimensional grids as [halfWeightRestrict3D] takes
    them, the restriction of a fine field that is [c] everywhere is [c] at
    every interior node of the coarse grid. *)
Theorem halfWeightRestrict3D_constant (fine coarse : Grid) (cT1 cT2 cT3 : Z) (c : double) :
  restrictPair3D fine coarse cT1 cT2 cT3 ->
  constField fine c ->
  forall j k l, 1 <= j <= cT1 -> 1 <= k <= cT2 -> 1 <= l <= cT3 ->
    val (halfWeightRestrict3D fine coarse)
        (j + k * (cT1 + 2) + l * ((cT1 + 2) * (cT2 + 2))) = c.
Proof.
  intros (Hrank & Hg1 & Hg2 & Hg3 & Hg6 & Hg7 & H1 & H2 & H3 & Ht1 & Ht2 & Ht3
          & Hcp1 & Hcp2 & Hcp3 & Hfp1 & Hfp2 & Hfp3 & HnE)
         Hconst j k l Hj Hk Hl.
  unfold halfWeightRestrict3D. cbv zeta.
  rewrite Hrank. change (4 + 2) with 6. change (4 + 3) with 7.
  rewrite Hg1, Hg2, Hg3, Hg6, Hg7, Ht1, Ht2, Ht3, Hcp1, Hcp2, Hcp3, Hfp1, Hfp2, Hfp3.
  set (C1 := cT1 + 2). set (C2 := cT2 + 2).
  set (F1 := 2 * cT1 + 2). set (F2 := 2 * cT2 + 2).
  assert (Hin : forall x, 0 <= x < F1 * F2 * (2 * cT3 + 2) -> val fine x = c)
    by (intros x Hx; apply Hconst; rewrite HnE; exact Hx).
  (* the state after [q] nodes of row [r2 + 1] of plane [r3 + 1] *)
  set (I := fun (r3 r2 q : Z) (st : arr double * Z * Z * Z * Z * Z * Z * Z * Z) =>
              let '(cVal, cc, f, fj, fjj, fk, fkk, fl, fll) := st in
              cc = 1 + q + (1 + r2 + (1 + r3) * C2) * C1 /\
              f = 1 + 2 * q + (1 + 2 * r2 + (1 + 2 * r3) * F2) * F1 /\
              fj = f + 1 /\ fjj = f - 1 /\ fk = f + F1 /\ fkk = f - F1 /\
              fl = f + F1 * F2 /\ fll = f - F1 * F2 /\
              forall j' k' l', 1 <= j' <= cT1 -> 1 <= k' <= cT2 ->
                (1 <= l' <= r3 \/ (l' = r3 + 1 /\ 1 <= k' <= r2)
                 \/ (l' = r3 + 1 /\ k' = r2 + 1 /\ j' <= q)) ->
                cVal (j' + (k' + l' * C2) * C1) = c).
  set (row := forUp 0 cT1
                (fun (_ : Z) '(cVal, cc, f, fj, fjj, fk, fkk, fl, fll) =>
                   (upd cVal cc
                      (d1_12 * (ofZ 6 * val fine f + val fine fj + val fine fjj
                                + val fine fk + val fine fkk + val fine fl
                                + val fine fll))%Qc,
                    cc + 1, f + 2, fj + 2, fjj + 2, fk + 2, fkk + 2, fl + 2, fll + 2))).
  assert (Hrow : forall r3 r2 st, 0 <= r3 < cT3 -> 0 <= r2 < cT2 ->
                                  I r3 r2 0 st -> I r3 r2 cT1 (row st)).
  { intros r3 r2 st Hr3 Hr2 Hst. unfold row, forUp.
    replace cT1 with (Z.of_nat (Z.to_nat (cT1 - 0))) at 1 by lia.
    apply (forLoop_invariant (I r3 r2)); [exact Hst|].
    intros q [[[[[[[[cVal cc] f] fj] fjj] fk] fkk] fl] fll] Hq
           (Ec & Ef & Efj & Efjj & Efk & Efkk & Efl & Efll & Hc).
    unfold I.
    refine (conj _ (conj _ (conj _ (conj _ (conj _ (conj _ (conj _ (conj _ _))))))));
      try lia.
    intros j' k' l' Hj' Hk' Hl'.
    destruct (Z.eq_dec (j' + (k' + l' * C2) * C1) cc) as [E|E].
    - rewrite E, upd_same.
      pose proof (halfWeightRestrict3D_reads cT1 cT2 cT3 q r2 r3 ltac:(lia) Hr2 Hr3) as Hb.
      cbv zeta in Hb. fold F1 F2 in Hb. rewrite <- Ef in Hb.
      rewrite !Hin by lia. apply halfWeight_stencil3D.
    - rewrite upd_other by exact E. apply Hc; [exact Hj'|exact Hk'|].
      destruct Hl' as [Hl'|[Hl'|(Hl' & Hk'' & Hq')]]; [left; exact Hl'|right; left; exact Hl'|].
      right. right. split; [exact Hl'|]. split; [exact Hk''|].
      assert (j' <> q + 1) by (intros ->; apply E; subst; lia). lia. }
  set (plane := forUp 0 cT2
                  (fun (_ : Z) st =>
                     let '(cVal, cc, f, fj, fjj, fk, fkk, fl, fll) := row st in
                     (cVal, cc + (1 + 1), f + (1 + 1 + F1), fj + (1 + 1 + F1),
                      fjj + (1 + 1 + F1), fk + (1 + 1 + F1), fkk + (1 + 1 + F1),
                      fl + (1 + 1 + F1), fll + (1 + 1 + F1)))).
  assert (Hplane : forall r3 st, 0 <= r3 < cT3 -> I r3 0 0 st -> I r3 cT2 0 (plane st)).
  { intros r3 st Hr3 Hst. unfold plane, forUp.
    replace cT2 with (Z.of_nat (Z.to_nat (cT2 - 0))) at 1 by lia.
    apply (forLoop_invariant (fun r2 => I r3 r2 0)); [exact Hst|].
    intros r2 st' Hr2 Hst'. pose proof (Hrow r3 r2 st' Hr3 ltac:(lia) Hst') as Hend.
    destruct (row st') as [[[[[[[[cVal cc] f] fj] fjj] fk] fkk] fl] fll].
    destruct Hend as (Ec & Ef & Efj & Efjj & Efk & Efkk & Efl & Efll & Hc).
    unfold I.
    refine (conj _ (conj _ (conj _ (conj _ (conj _ (conj _ (conj _ (conj _ _))))))));
      try (subst C1 F1; lia).
    intros j' k' l' Hj' Hk' Hl'. apply Hc; [exact Hj'|exact Hk'|].
    destruct Hl' as [Hl'|[Hl'|(Hl' & Hk'' & Hq')]]; [left; exact Hl'| |lia].
    destruct (Z.eq_dec k' (r2 + 1)); [right; right; lia | right; left; lia]. }
  assert (Hall : I cT3 0 0
            (forUp 0 cT3
               (fun (_ : Z) st =>
                  let '(cVal, cc, f, fj, fjj, fk, fkk, fl, fll) := plane st in
                  (cVal, cc + (1 + 1) * C1, f + ((1 + 1) * F1 + F1 * F2),
                   fj + ((1 + 1) * F1 + F1 * F2), fjj + ((1 + 1) * F1 + F1 * F2),
                   fk + ((1 + 1) * F1 + F1 * F2), fkk + ((1 + 1) * F1 + F1 * F2),
                   fl + ((1 + 1) * F1 + F1 * F2), fll + ((1 + 1) * F1 + F1 * F2)))
               (val coarse, 1 * 1 + C1 * 1 + C1 * C2 * 1, 1 * 1 + F1 * 1 + F1 * F2 * 1,
                1 * 1 + F1 * 1 + F1 * F2 * 1 + 1, 1 * 1 + F1 * 1 + F1 * F2 * 1 - 1,
                1 * 1 + F1 * 1 + F1 * F2 * 1 + F1, 1 * 1 + F1 * 1 + F1 * F2 * 1 - F1,
                1 * 1 + F1 * 1 + F1 * F2 * 1 + F1 * F2,
                1 * 1 + F1 * 1 + F1 * F2 * 1 - F1 * F2))).
  { unfold forUp at 1.
    replace cT3 with (Z.of_nat (Z.to_nat (cT3 - 0))) at 1 by lia.
    apply (forLoop_invariant (fun r3 => I r3 0 0)).
    - unfold I.
      refine (conj _ (conj _ (conj _ (conj _ (conj _ (conj _ (conj _ (conj _ _))))))));
        lia.
    - intros r3 st Hr3 Hst. pose proof (Hplane r3 st ltac:(lia) Hst) as Hend.
      destruct (plane st) as [[[[[[[[cVal cc] f] fj] fjj] fk] fkk] fl] fll].
      destruct Hend as (Ec & Ef & Efj & Efjj & Efk & Efkk & Efl & Efll & Hc).
      unfold I.
      refine (conj _ (conj _ (conj _ (conj _ (conj _ (conj _ (conj _ (conj _ _))))))));
        try (subst C2 F2; lia).
      intros j' k' l' Hj' Hk' Hl'. apply Hc; [exact Hj'|exact Hk'|].
      destruct Hl' as [Hl'|[Hl'|Hl']]; [|lia|lia].
      destruct (Z.eq_dec l' (r3 + 1)); [right; left; lia | left; lia]. }
  fold row. fold plane.
  destruct (forUp 0 cT3 _ _) as [[[[[[[[cVal cc] f] fj] fjj] fk] fkk] fl] fll].
  destruct Hall as (_ & _ & _ & _ & _ & _ & _ & _ & Hc).
  cbn [val setVal].
  replace (j + k * C1 + l * (C1 * C2)) with (j + (k + l * C2) * C1) by ring.
  apply Hc; [exact Hj | exact Hk | left; exact Hl].
Qed.

Lemma halfWeightRestrict3D_constant_witness :
  val (halfWeightRestrict3D (constCube 4 (ofZ 7)) (gridCube 2))
      (1 + 2 * (2 + 2) + 2 * ((2 + 2) * (2 + 2))) = ofZ 7.
Proof.
  apply (halfWeightRestrict3D_constant (constCube 4 (ofZ 7)) (gridCube 2) 2 2 2 (ofZ 7)).
  - repeat split; try reflexivity; lia.
  - intros k Hk. reflexivity.
  - lia.
  - lia.
  - lia.
Defined.

(** ** puMove *)

Lemma puMove_range (vel_ : arr double) (a b k : Z) (pos_ : arr double) :
  forUp a b (fun p pos_ => upd pos_ p (pos_ p + vel_ p)%Qc) pos_ k
  = if (a <=? k) && (k <? b) then (pos_ k + vel_ k)%Qc else pos_ k.
Proof.
  unfold forUp.
  destruct (forLoop_owned (fun k x => (x + vel_ k)%Qc) (fun d k => k =? d)
              (fun p pos_ => upd pos_ p (pos_ p + vel_ p)%Qc) k
              (Z.to_nat (b - a)) a pos_) as [H1 H2].
  - intros d c _. unfold upd. destruct (Z.eqb_spec k d) as [->|]; reflexivity.
  - intros d d' _ _ E E'. apply Z.eqb_eq in E, E'. lia.
  - destruct (Z.leb_spec a k), (Z.ltb_spec k b); cbn [andb].
    + apply (H1 k); [lia | apply Z.eqb_refl].
    + apply H2. intros d Hd. apply Z.eqb_neq. lia.
    + apply H2. intros d Hd. apply Z.eqb_neq. lia.
    + apply H2. intros d Hd. apply Z.eqb_neq. lia.
Qed.

(** what [puMove] does to the cell [p] of [pos] *)
Lemma puMove_at (pop : Population) (p : Z) :
  0 <= nDims pop ->
  disjointSpecies pop ->
  (forall s, 0 <= s < nSpecies pop ->
     iStart pop s * nDims pop <= p < iStop pop s * nDims pop ->
     pos (puMove pop) p = (pos pop p + vel pop p)%Qc) /\
  ((forall s, 0 <= s < nSpecies pop ->
      ~ (iStart pop s * nDims pop <= p < iStop pop s * nDims pop)) ->
   pos (puMove pop) p = pos pop p).
Proof.
  intros HD Hdis. unfold puMove. cbv zeta. cbn [pos vel setPos].
  destruct (forLoop_owned
              (fun k x => (x + vel pop k)%Qc)
              (fun s k => (iStart pop s * nDims pop <=? k) && (k <? iStop pop s * nDims pop))
              (fun s pos_ =>
                 forUp (iStart pop s * nDims pop) (iStop pop s * nDims pop)
                   (fun p pos_ => upd pos_ p (pos_ p + vel pop p)%Qc) pos_)
              p (Z.to_nat (nSpecies pop - 0)) 0 (pos pop)) as [H1 H2].
  - intros t b Ht. apply puMove_range.
  - intros t t' Ht Ht' E E'. apply andb_true_iff in E, E'.
    rewrite Z.leb_le, Z.ltb_lt in E, E'.
    destruct (Z.lt_trichotomy t t') as [Hlt | [Heq | Hgt]]; [|exact Heq|].
    + pose proof (Hdis t t' ltac:(lia) ltac:(lia)). nia.
    + pose proof (Hdis t' t ltac:(lia) ltac:(lia)). nia.
  - split.
    + intros s Hs Hp. apply (H1 s); [lia|].
      apply andb_true_iff. rewrite Z.leb_le, Z.ltb_lt. exact Hp.
    + intros Hno. apply H2. intros s Hs.
      apply andb_false_iff. rewrite Z.leb_gt, Z.ltb_ge.
      pose proof (Hno s ltac:(lia)). lia.
Qed.

(** X7: when the ranges of the species follow one another, [puMove] adds
    its velocity once to every coordinate of every live particle, leaves the
    cells of [pos] that belong to no live particle as they were, and does not
    touch the velocities. *)
Theorem puMove_coordinate (pop : Population) (s i d : Z) :
  1 <= nDims pop ->
  disjointSpecies pop ->
  0 <= s < nSpecies pop ->
  iStart pop s <= i < iStop pop s ->
  0 <= d < nDims pop ->
  pos (puMove pop) (i * nDims pop + d)
  = (pos pop (i * nDims pop + d)%Z + vel pop (i * nDims pop + d)%Z)%Qc /\
  (forall p,
     (forall t, 0 <= t < nSpecies pop ->
        ~ (iStart pop t * nDims pop <= p < iStop pop t * nDims pop)) ->
     pos (puMove pop) p = pos pop p) /\
  vel (puMove pop) = vel pop.
Proof.
  intros HD Hdis Hs Hi Hd. split; [|split].
  - apply (proj1 (puMove_at pop (i * nDims pop + d) ltac:(lia) Hdis) s Hs). nia.
  - intros p Hp. apply (proj2 (puMove_at pop p ltac:(lia) Hdis) Hp).
  - reflexivity.
Qed.

Lemma puMove_coordinate_witness :
  pos (puMove popMig) (1 * nDims popMig + 0)
  = (pos popMig (1 * nDims popMig + 0)%Z + vel popMig (1 * nDims popMig + 0)%Z)%Qc /\
  (forall p,
     (forall t, 0 <= t < nSpecies popMig ->
        ~ (iStart popMig t * nDims popMig <= p < iStop popMig t * nDims popMig)) ->
     pos (puMove popMig) p = pos popMig p) /\
  vel (puMove popMig) = vel popMig.
Proof.
  apply (puMove_coordinate popMig 0 1 0).
  - change (nDims popMig) with 3. lia.
  - intros s t Hst Ht. change (nSpecies popMig) with 2 in Ht.
    assert (s = 0 /\ t = 1) as [-> ->] by lia.
    change (iStop popMig 0) with 2. change (iStart popMig 1) with 3. lia.
  - change (nSpecies popMig) with 2. lia.
  - change (iStart popMig 0) with 0. change (iStop popMig 0) with 2. lia.
  - change (nDims popMig) with 3. lia.
Defined.

(** ** puBndPeriodic after puMove *)

(** what [puBndPeriodic] does to the cell [k] of [pos] *)
Lemma puBndPeriodic_at (pop : Population) (grid : Grid) (k : Z) :
  1 <= nDims pop ->
  disjointSpecies pop ->
  (forall s, 0 <= s < nSpecies pop ->
     iStart pop s * nDims pop <= k < iStop pop s * nDims pop ->
     pos (puBndPeriodic pop grid) k
     = wrapOnce (pos pop k) (ofZ (size grid (k mod nDims pop + 1)))) /\
  ((forall s, 0 <= s < nSpecies pop ->
      ~ (iStart pop s * nDims pop <= k < iStop pop s * nDims pop)) ->
   pos (puBndPeriodic pop grid) k = pos pop k).
Proof.
  intros HD Hdis. unfold puBndPeriodic. cbv zeta. cbn [pos setPos].
  destruct (forLoop_owned
              (fun k x => wrapOnce x (ofZ (size grid (k mod nDims pop + 1))))
              (fun s k => (iStart pop s * nDims pop <=? k) && (k <? iStop pop s * nDims pop))
              (fun s pos_ =>
                 forUp (iStart pop s) (iStop pop s)
                   (fun i pos_ =>
                      forUp 0 (nDims pop) (puBndPeriodic_coord (nDims pop) (size grid) i) pos_)
                   pos_)
              k (Z.to_nat (nSpecies pop - 0)) 0 (pos pop)) as [H1 H2].
  - intros t b Ht. apply (speciesRound_spec (nDims pop) (size grid) HD).
  - intros t t' Ht Ht' E E'. apply andb_true_iff in E, E'.
    rewrite Z.leb_le, Z.ltb_lt in E, E'.
    destruct (Z.lt_trichotomy t t') as [Hlt | [Heq | Hgt]]; [|exact Heq|].
    + pose proof (Hdis t t' ltac:(lia) ltac:(lia)). nia.
    + pose proof (Hdis t' t ltac:(lia) ltac:(lia)). nia.
  - split.
    + intros s Hs Hk. apply (H1 s); [lia|].
      apply andb_true_iff. rewrite Z.leb_le, Z.ltb_lt. exact Hk.
    + intros Hno. apply H2. intros s Hs.
      apply andb_false_iff. rewrite Z.leb_gt, Z.ltb_ge.
      pose proof (Hno s ltac:(lia)). lia.
Qed.

(** a coordinate no further than one extent beyond either edge is brought
    back onto the axis, the upper edge included *)
Lemma wrapOnce_range (x sz : double) :
  (0 <= sz)%Qc -> (- sz <= x)%Qc -> (x <= sz + sz)%Qc ->
  (0 <= wrapOnce x sz)%Qc /\ (wrapOnce x sz <= sz)%Qc.
Proof.
  intros Hsz Hlo Hhi. destruct (wrapOnce_cases x sz Hsz) as (Hgt & Hlt & Hin).
  destruct (Qclt_le_dec sz x) as [H|H].
  - rewrite (Hgt H). split.
    + apply Qclt_le_weak. apply Qclt_minus_iff in H. exact H.
    + apply Qcle_minus_iff. apply Qcle_minus_iff in Hhi.
      replace (sz + - (x - sz))%Qc with (sz + sz + - x)%Qc by ring. exact Hhi.
  - destruct (Qclt_le_dec x 0) as [H0|H0].
    + rewrite (Hlt H0). split.
      * apply Qcle_minus_iff in Hlo.
        replace (x + - - sz)%Qc with (x + sz)%Qc in Hlo by ring. exact Hlo.
      * apply Qcle_minus_iff. apply Qclt_le_weak. apply Qclt_minus_iff in H0.
        replace (sz + - (x + sz))%Qc with (0 + - x)%Qc by ring. exact H0.
    + rewrite (Hin H0 H). split; assumption.
Qed.

(** X8: when the ranges of the species follow one another, a live particle
    that stands on the axis [d], between 0 and [size[d+1]], and whose
    velocity along it is at most [size[d+1]] in magnitude, stands on the
    axis again after [puMove] followed by [puBndPeriodic]: between 0 and
    [size[d+1]], both ends included. *)
Theorem puMove_puBndPeriodic_on_axis (pop : Population) (grid : Grid) (s i d : Z) :
  1 <= nDims pop ->
  disjointSpecies pop ->
  0 <= s < nSpecies pop ->
  iStart pop s <= i < iStop pop s ->
  0 <= d < nDims pop ->
  (0 <= pos pop (i * nDims pop + d)%Z)%Qc ->
  (pos pop (i * nDims pop + d)%Z <= ofZ (size grid (d + 1)%Z))%Qc ->
  (- ofZ (size grid (d + 1)%Z) <= vel pop (i * nDims pop + d)%Z)%Qc ->
  (vel pop (i * nDims pop + d)%Z <= ofZ (size grid (d + 1)%Z))%Qc ->
  (0 <= pos (puBndPeriodic (puMove pop) grid) (i * nDims pop + d)%Z)%Qc /\
  (pos (puBndPeriodic (puMove pop) grid) (i * nDims pop + d)%Z
   <= ofZ (size grid (d + 1)%Z))%Qc.
Proof.
  intros HD Hdis Hs Hi Hd Hx0 Hx1 Hv0 Hv1.
  set (k := i * nDims pop + d) in *. set (sz := ofZ (size grid (d + 1))) in *.
  assert (Hk : iStart pop s * nDims pop <= k < iStop pop s * nDims pop) by (subst k; nia).
  destruct (puBndPeriodic_at (puMove pop) grid k HD Hdis) as [Hw _].
  rewrite (Hw s Hs Hk).
  change (nDims (puMove pop)) with (nDims pop).
  replace (k mod nDims pop) with d
    by (subst k; symmetry; rewrite Z.add_comm, Z.mod_add, Z.mod_small; lia).
  fold sz.
  destruct (puMove_at pop k ltac:(lia) Hdis) as [Hm _].
  rewrite (Hm s Hs Hk).
  assert (Hsz : (0 <= sz)%Qc) by (exact (Qcle_trans _ _ _ Hx0 Hx1)).
  apply wrapOnce_range; [exact Hsz | |].
  - apply Qcle_minus_iff. apply Qcle_minus_iff in Hv0.
    replace (pos pop k + vel pop k + - - sz)%Qc
      with ((vel pop k + - - sz) + pos pop k)%Qc by ring.
    replace 0%Qc with (0 + 0)%Qc by ring.
    apply Qcplus_le_compat; assumption.
  - apply Qcplus_le_compat; assumption.
Qed.


Lemma puMove_puBndPeriodic_on_axis_witness :
  (0 <= pos (puBndPeriodic (puMove popEdge) gridLine) (0 * nDims popEdge + 0)%Z)%Qc /\
  (pos (puBndPeriodic (puMove popEdge) gridLine) (0 * nDims popEdge + 0)%Z
   <= ofZ (size gridLine (0 + 1)%Z))%Qc.
Proof.
  apply (puMove_puBndPeriodic_on_axis popEdge gridLine 0 0 0).
  - change (nDims popEdge) with 1. lia.
  - intros s t Hst Ht. change (nSpecies popEdge) with 1 in Ht. lia.
  - change (nSpecies popEdge) with 1. lia.
  - change (iStart popEdge 0) with 0. change (iStop popEdge 0) with 1. lia.
  - change (nDims popEdge) with 1. lia.
  - vm_compute. discriminate.
  - vm_compute. discriminate.
  - vm_compute. discriminate.
  - vm_compute. discriminate.
Defined.

(** ** puExtractEmigrantsND in three dimensions *)

Lemma forLoop_ext {S : Type} (body body' : Z -> S -> S) (n : nat) :
  (forall d s, body d s = body' d s) ->
  forall i step s, forLoop n i step body s = forLoop n i step body' s.
Proof.
  intros H. induction n as [|n IH]; intros i step s; [reflexivity|].
  cbn [forLoop]. rewrite H. apply IH.
Qed.

Lemma neighborND_3D (pos_ thresholds_ : arr double) (p : Z) :
  neighborND pos_ thresholds_ 3 p = neighbor3D pos_ thresholds_ p.
Proof.
  unfold neighborND, neighbor3D, forDown. cbv zeta.
  change (Z.to_nat (3 - 1 + 1)) with 3%nat. cbn [forLoop].
  change (3 - 1) with 2. change (2 + -1) with 1. change (1 + -1) with 0.
  change (3 + 2) with 5. change (3 + 1) with 4. change (3 + 0) with 3.
  rewrite Z.add_0_r. lia.
Qed.

Lemma removeEmigrantND_3D (s nSpecies_ p pStop ne : Z) (st : Population * MpiInfo) :
  removeEmigrantND s nSpecies_ 3 p pStop ne st = removeEmigrant3D s nSpecies_ p pStop ne st.
Proof.
  destruct st as [pop m]. unfold removeEmigrantND, removeEmigrant3D, forUp. cbv zeta.
  change (Z.to_nat (3 - 0)) with 3%nat. cbn [forLoop].
  change (0 + 1 + 1) with 2. change (0 + 1) with 1.
  rewrite !Z.add_0_r.
  replace (pStop - 3 + 1) with (pStop - 2) by lia.
  replace (pStop - 3 + 2) with (pStop - 1) by lia.
  reflexivity.
Qed.

Lemma extractLoopND_3D (s nSpecies_ : Z) (fuel : nat) :
  forall p pStop st,
    extractLoopND fuel s nSpecies_ 3 p pStop st = extractLoop3D fuel s nSpecies_ p pStop st.
Proof.
  induction fuel as [|fuel IH]; intros p pStop st; cbn [extractLoopND extractLoop3D].
  - reflexivity.
  - cbv zeta. rewrite neighborND_3D, removeEmigrantND_3D, !IH. reflexivity.
Qed.

(** X9: for a population of three dimensions [puExtractEmigrantsND] does
    what [puExtractEmigrants3D] does: the same population, the same counts
    and the same send buffers, for every population and every thresholds. *)
Theorem puExtractEmigrantsND_is_3D (pop : Population) (mpiInfo : MpiInfo) :
  nDims pop = 3 ->
  puExtractEmigrantsND pop mpiInfo = puExtractEmigrants3D pop mpiInfo.
Proof.
  intros H3. unfold puExtractEmigrantsND, puExtractEmigrants3D, forUp. cbv zeta.
  rewrite H3. apply forLoop_ext. intros s [st|]; [|reflexivity].
  apply extractLoopND_3D.
Qed.

Lemma puExtractEmigrantsND_is_3D_witness :
  puExtractEmigrantsND popMig mpiMig = puExtractEmigrants3D popMig mpiMig.
Proof.
  apply (puExtractEmigrantsND_is_3D popMig mpiMig). reflexivity.
Defined.

(** ** puInterp3D1 and the field after puAcc3D1 *)




Lemma puAcc3D1_field_rounds (pop : Population) (E : Grid) (n : Z) :
  0 <= n ->
  snd (forUp 0 n (puAcc3D1_round pop) (vel pop, E)) = fieldSeenBy pop E n.
Proof.
  intros Hn. pattern n. apply natlike_ind; [| |exact Hn]; clear n Hn.
  - unfold fieldSeenBy. now rewrite !forUp_none by lia.
  - intros n Hn IH. replace (Z.succ n) with (n + 1) by lia.
    rewrite forUp_succ, fieldSeenBy_succ by lia.
    destruct (forUp 0 n (puAcc3D1_round pop) (vel pop, E)) as [vel_ E_].
    cbn [snd] in IH. subst E_. reflexivity.
Qed.

(** X11: [puAcc3D1] leaves the field rescaled: after the call every element
    of [E] is its entry value times the product of [renormE[s]] over all the
    species, whether or not the species have particles; the shape of the
    grid is kept. *)
Theorem puAcc3D1_field (pop : Population) (E : Grid) (k : Z) :
  0 <= nSpecies pop ->
  0 <= k < nElems E ->
  val (snd (puAcc3D1 pop E)) k = (renormBefore pop (nSpecies pop) * val E k)%Qc /\
  sizeProd (snd (puAcc3D1 pop E)) = sizeProd E /\
  nElems (snd (puAcc3D1 pop E)) = nElems E.
Proof.
  intros HS Hk. rewrite puAcc3D1_unfold. cbn [snd].
  rewrite puAcc3D1_field_rounds by assumption.
  split; [|split].
  - apply fieldSeenBy_val; assumption.
  - apply fieldSeenBy_sizeProd.
  - apply fieldSeenBy_nElems.
Qed.

Lemma puAcc3D1_field_witness :
  val (snd (puAcc3D1 popTwo fieldOnes)) 5
  = (renormBefore popTwo (nSpecies popTwo) * val fieldOnes 5%Z)%Qc /\
  sizeProd (snd (puAcc3D1 popTwo fieldOnes)) = sizeProd fieldOnes /\
  nElems (snd (puAcc3D1 popTwo fieldOnes)) = nElems fieldOnes.
Proof.
  apply (puAcc3D1_field popTwo fieldOnes 5).
  - change (nSpecies popTwo) with 2. lia.
  - change (nElems fieldOnes) with 24. lia.
Defined.

(** ** puNeighborToRank and puRankToNeighbor *)

Lemma sumZ_succ (n : nat) (f : Z -> Z) :
  sumZ (Datatypes.S n) f = sumZ n f + f (Z.of_nat n).
Proof. reflexivity. Qed.

Lemma neighborDigit_range (n d : Z) : 0 <= neighborDigit n d <= 2.
Proof. unfold neighborDigit. pose proof (Z.mod_pos_bound (n / 3 ^ d) 3 ltac:(lia)). lia. Qed.

(** the digits of a neighbour index make up the index *)
Lemma neighborDigit_sum (n : Z) (k : nat) :
  0 <= n ->
  sumZ k (fun d => neighborDigit n d * 3 ^ d) = n mod 3 ^ Z.of_nat k.
Proof.
  intros Hn. induction k as [|k IH].
  - cbn. now rewrite Z.mod_1_r.
  - rewrite sumZ_succ, IH, Nat2Z.inj_succ, Z.pow_succ_r by lia.
    rewrite (Z.mul_comm 3), Z.rem_mul_r by (try apply Z.pow_nonzero; lia).
    unfold neighborDigit. ring.
Qed.

(** the reciprocal index has the mirrored digits *)
Lemma neighborDigit_mirror (D n d : Z) :
  0 <= d < D -> 0 <= n < 3 ^ D ->
  neighborDigit (3 ^ D - 1 - n) d = 2 - neighborDigit n d.
Proof.
  intros Hd Hn. unfold neighborDigit.
  assert (HW : 3 ^ D = 3 ^ d * (3 * 3 ^ (D - d - 1))).
  { rewrite <- Z.pow_succ_r, <- Z.pow_add_r by lia. f_equal. lia. }
  assert (H3d : 0 < 3 ^ d) by (apply Z.pow_pos_nonneg; lia).
  assert (H3W : 0 < 3 ^ (D - d - 1)) by (apply Z.pow_pos_nonneg; lia).
  set (W := 3 ^ (D - d - 1)) in *. set (T := 3 ^ d) in *.
  pose proof (Z.div_mod n T ltac:(lia)) as Hdm.
  pose proof (Z.mod_pos_bound n T ltac:(lia)) as Hm.
  set (b := n / T) in *. set (a := n mod T) in *.
  assert (Hb : 0 <= b < 3 * W) by nia.
  assert (E : (3 ^ D - 1 - n) / T = 3 * W - 1 - b).
  { symmetry. apply (Z.div_unique_pos _ _ _ (T - 1 - a)); [lia|]. rewrite HW. nia. }
  rewrite E.
  pose proof (Z.div_mod b 3 ltac:(lia)) as Hdb.
  pose proof (Z.mod_pos_bound b 3 ltac:(lia)) as Hmb.
  symmetry. apply (Z.mod_unique_pos _ _ (W - 1 - b / 3)); lia.
Qed.

Lemma centerOf_range (D : Z) : 0 <= D -> 0 <= centerOf D < 3 ^ D.
Proof.
  intros HD. unfold centerOf.
  assert (0 < 3 ^ D) by (apply Z.pow_pos_nonneg; lia).
  split; [apply Z.div_pos; lia | apply Z.div_lt_upper_bound; lia].
Qed.

Lemma centerOf_digit (D d : Z) : 0 <= d < D -> neighborDigit (centerOf D) d = 1.
Proof.
  intros Hd. pose proof (centerOf_range D ltac:(lia)) as Hc.
  pose proof (neighborDigit_mirror D (centerOf D) d Hd Hc) as Hm.
  assert (E : 3 ^ D - 1 - centerOf D = centerOf D).
  { unfold centerOf.
    assert (Hodd : exists h, 3 ^ D = 2 * h + 1).
    { assert (HD : 0 <= D) by lia. clear - HD. pattern D.
      apply natlike_ind; [exists 0; reflexivity | | exact HD].
      intros x Hx [h Hh]. exists (3 * h + 1). rewrite Z.pow_succ_r by lia. lia. }
    destruct Hodd as [h Hh]. rewrite Hh.
    replace (2 * h + 1 - 1) with (h * 2) by lia. rewrite Z.div_mul by lia. lia. }
  rewrite E in Hm. lia.
Qed.

Section Ranks.

Variable T : Mpi.Info.

Let sub := Mpi.subdomain T.
Let nSub := Mpi.nSubdomains T.
Let P := Mpi.nSubdomainsProd T.

(** the coordinate along axis [d] of the neighbour with digit [g] there *)
Let coord (d g : Z) : Z := Z.rem (sub d + (g - 1) + nSub d) (nSub d).

Lemma puNeighborToRank_rounds (ne : Z) (k : nat) :
  0 <= ne ->
  forLoop k 0 1
    (fun d '(rank_, neighbor) =>
       let n := Z.rem neighbor 3 - 1 in
       let neighbor := Z.quot neighbor 3 in
       let n := Z.rem (sub d + n + nSub d) (nSub d) in
       (rank_ + n * P d, neighbor))
    (0, ne)
  = (sumZ k (fun d => coord d (neighborDigit ne d) * P d), ne / 3 ^ Z.of_nat k).
Proof.
  intros Hne. induction k as [|k IH].
  - cbn. now rewrite Z.div_1_r.
  - rewrite forLoop_snoc, IH, sumZ_succ. cbv zeta.
    assert (H3 : 0 < 3 ^ Z.of_nat k) by (apply Z.pow_pos_nonneg; lia).
    assert (Hq : 0 <= ne / 3 ^ Z.of_nat k) by (apply Z.div_pos; lia).
    rewrite (Z.rem_mod_nonneg (ne / 3 ^ Z.of_nat k) 3), Z.quot_div_nonneg by lia.
    rewrite Z.div_div by lia.
    rewrite Nat2Z.inj_succ, Z.pow_succ_r, (Z.mul_comm 3) by lia.
    replace (0 + Z.of_nat k * 1) with (Z.of_nat k) by lia.
    reflexivity.
Qed.

Lemma puNeighborToRank_closed (ne : Z) :
  0 <= ne ->
  puNeighborToRank T ne
  = sumZ (Z.to_nat (Mpi.nDims T)) (fun d => coord d (neighborDigit ne d) * P d).
Proof.
  intros Hne. unfold puNeighborToRank, forUp. cbv zeta. rewrite Z.sub_0_r.
  fold sub nSub P. now rewrite puNeighborToRank_rounds.
Qed.

Hypothesis P0 : P 0 = 1.

Lemma puRankToNeighbor_rounds (R : Z) (k : nat) :
  0 <= R ->
  (forall d, 0 <= d < Z.of_nat k -> 0 < nSub d /\ P (d + 1) = P d * nSub d) ->
  forLoop k 0 1
    (fun d '(neighbor, rank_) =>
       let n := Z.rem rank_ (nSub d) in
       let n := Z.rem (n - sub d + 1 + nSub d) (nSub d) in
       let rank_ := Z.quot rank_ (nSub d) in
       (neighbor + n * 3 ^ d, rank_))
    (0, R)
  = (sumZ k (fun d => Z.rem ((R / P d) mod nSub d - sub d + 1 + nSub d) (nSub d) * 3 ^ d),
     R / P (Z.of_nat k)) /\ 0 < P (Z.of_nat k).
Proof.
  intros HR. induction k as [|k IH]; intros HP.
  - cbn. rewrite P0, Z.div_1_r. split; [reflexivity | lia].
  - destruct IH as [IH Hpos]; [intros d Hd; apply HP; lia|].
    destruct (HP (Z.of_nat k) ltac:(lia)) as [Hn HPk].
    rewrite forLoop_snoc, IH, sumZ_succ. cbv zeta.
    replace (0 + Z.of_nat k * 1) with (Z.of_nat k) by lia.
    assert (Hq : 0 <= R / P (Z.of_nat k)) by (apply Z.div_pos; lia).
    rewrite (Z.rem_mod_nonneg (R / P (Z.of_nat k))), Z.quot_div_nonneg by lia.
    rewrite Z.div_div by lia.
    rewrite Nat2Z.inj_succ. unfold Z.succ. rewrite HPk.
    split; [reflexivity | nia].
Qed.

(** a sum of coordinates weighted by the cumulative products is below the
    next product and gives its coordinates back *)
Lemma mixedRadix_digits (c : Z -> Z) (k : nat) :
  (forall d, 0 <= d < Z.of_nat k ->
     0 <= c d < nSub d /\ P (d + 1) = P d * nSub d) ->
  0 <= sumZ k (fun d => c d * P d) < P (Z.of_nat k) /\
  forall d, 0 <= d < Z.of_nat k ->
    0 < P d /\ (sumZ k (fun d => c d * P d) / P d) mod nSub d = c d /\
    exists M, P (Z.of_nat k) = P d * nSub d * M.
Proof.
  induction k as [|k IH]; intros H.
  - cbn. rewrite P0. split; [lia | intros d Hd; lia].
  - destruct IH as [[IH0 IH1] IH2]; [intros d Hd; apply H; lia|].
    destruct (H (Z.of_nat k) ltac:(lia)) as [Hc HPk].
    rewrite sumZ_succ, Nat2Z.inj_succ. unfold Z.succ. rewrite HPk.
    set (R := sumZ k (fun d => c d * P d)) in *.
    set (Pk := P (Z.of_nat k)) in *.
    split; [nia|].
    intros d Hd. destruct (Z.eq_dec d (Z.of_nat k)) as [->|Hne].
    + fold Pk. split; [lia|]. split.
      * rewrite Z.div_add, Z.div_small, Z.add_0_l by lia. apply Z.mod_small. lia.
      * exists 1. ring.
    + destruct (IH2 d ltac:(lia)) as (Hpos & Hdig & M & HM). split; [exact Hpos|]. split.
      * replace (R + c (Z.of_nat k) * Pk) with (R + (c (Z.of_nat k) * M * nSub d) * P d)
          by (rewrite HM; ring).
        rewrite Z.div_add by lia.
        replace (R / P d + c (Z.of_nat k) * M * nSub d)
          with (R / P d + (c (Z.of_nat k) * M) * nSub d) by ring.
        rewrite Z.mod_add; [exact Hdig|].
        destruct (H d ltac:(lia)). lia.
      * exists (M * nSub (Z.of_nat k)). rewrite HM. ring.
Qed.

Lemma coord_range (d g : Z) :
  0 < nSub d -> 0 <= sub d -> 0 <= g -> 0 <= coord d g < nSub d.
Proof.
  intros Hn Hs Hg. unfold coord.
  rewrite Z.rem_mod_nonneg by lia. apply Z.mod_pos_bound. lia.
Qed.

End Ranks.

(** the offset of a neighbour is read back from its coordinate when the
    axis has three subdomains or more *)
Lemma coord_back (N s g : Z) :
  3 <= N -> 0 <= s < N -> 0 <= g <= 2 ->
  Z.rem (Z.rem (s + (g - 1) + N) N - s + 1 + N) N = g.
Proof.
  intros HN Hs Hg.
  rewrite (Z.rem_mod_nonneg (s + (g - 1) + N)) by lia.
  pose proof (Z.div_mod (s + (g - 1) + N) N ltac:(lia)) as Hdm.
  pose proof (Z.mod_pos_bound (s + (g - 1) + N) N ltac:(lia)) as Hm.
  set (m := (s + (g - 1) + N) mod N) in *. set (q := (s + (g - 1) + N) / N) in *.
  assert (Hq : q = 0 \/ q = 1 \/ q = 2) by nia.
  rewrite Z.rem_mod_nonneg by lia.
  symmetry. apply (Z.mod_unique_pos _ _ (2 - q)); [lia|].
  destruct Hq as [-> | [-> | ->]]; lia.
Qed.

(** stepping to the neighbour with digit [g] and from there to the one with
    the mirrored digit leads back *)
Lemma coord_mirror (N a g : Z) :
  1 <= N -> 0 <= a < N -> 0 <= g <= 2 ->
  Z.rem (Z.rem (a + (g - 1) + N) N + (2 - g - 1) + N) N = a.
Proof.
  intros HN Ha Hg.
  rewrite (Z.rem_mod_nonneg (a + (g - 1) + N)) by lia.
  pose proof (Z.div_mod (a + (g - 1) + N) N ltac:(lia)) as Hdm.
  pose proof (Z.mod_pos_bound (a + (g - 1) + N) N ltac:(lia)) as Hm.
  set (m := (a + (g - 1) + N) mod N) in *. set (q := (a + (g - 1) + N) / N) in *.
  rewrite Z.rem_mod_nonneg by lia.
  symmetry. apply (Z.mod_unique_pos _ _ (2 - q)); [lia|].
  assert (Hq : 0 <= q <= 2) by nia. nia.
Qed.


(** X12: in a decomposition with at least one subdomain along every axis,
    the rank [puNeighborToRank] returns for a neighbour index is a rank of the
    decomposition: it lies between 0 and the number of subdomains. *)
Theorem puNeighborToRank_range (T : Mpi.Info) (ne : Z) :
  decomposition 1 T ->
  0 <= ne ->
  0 <= puNeighborToRank T ne < Mpi.nSubdomainsProd T (Mpi.nDims T).
Proof.
  intros (HD & HP0 & Hax) Hne.
  rewrite puNeighborToRank_closed by assumption.
  destruct (mixedRadix_digits T HP0
              (fun d => Z.rem (Mpi.subdomain T d + (neighborDigit ne d - 1)
                               + Mpi.nSubdomains T d) (Mpi.nSubdomains T d))
              (Z.to_nat (Mpi.nDims T))) as [Hr _].
  - intros d Hd. destruct (Hax d ltac:(lia)) as (Hn & Hs & HP). split; [|exact HP].
    apply coord_range; [lia | lia |]. pose proof (neighborDigit_range ne d). lia.
  - rewrite Z2Nat.id in Hr by lia. exact Hr.
Qed.

Lemma puNeighborToRank_range_witness :
  0 <= puNeighborToRank mpi4x3 5 < Mpi.nSubdomainsProd mpi4x3 (Mpi.nDims mpi4x3).
Proof.
  apply (puNeighborToRank_range mpi4x3 5).
  - split; [cbn; lia|]. split; [reflexivity|].
    intros d Hd. change (Mpi.nDims mpi4x3) with 2 in Hd.
    assert (d = 0 \/ d = 1) as [-> | ->] by lia;
      vm_compute; repeat split; discriminate.
  - lia.
Defined.

(** X13: in a decomposition with three subdomains or more along every
    axis, [puRankToNeighbor] undoes [puNeighborToRank]: the rank of the
    neighbour with index [ne] is mapped back to [ne], for every index below
    [3^nDims]. *)
Theorem puRankToNeighbor_puNeighborToRank (T : Mpi.Info) (ne : Z) :
  decomposition 3 T ->
  0 <= ne < 3 ^ Mpi.nDims T ->
  puRankToNeighbor T (puNeighborToRank T ne) = ne.
Proof.
  intros (HD & HP0 & Hax) Hne.
  rewrite puNeighborToRank_closed by lia.
  set (c := fun d => Z.rem (Mpi.subdomain T d + (neighborDigit ne d - 1)
                            + Mpi.nSubdomains T d) (Mpi.nSubdomains T d)).
  destruct (mixedRadix_digits T HP0 c (Z.to_nat (Mpi.nDims T))) as [Hr Hdig].
  { intros d Hd. destruct (Hax d ltac:(lia)) as (Hn & Hs & HP). split; [|exact HP].
    apply coord_range; [lia | lia |]. pose proof (neighborDigit_range ne d). lia. }
  set (R := sumZ (Z.to_nat (Mpi.nDims T)) (fun d => c d * Mpi.nSubdomainsProd T d)) in *.
  destruct (puRankToNeighbor_rounds T HP0 R (Z.to_nat (Mpi.nDims T)) ltac:(lia)) as [E _].
  { intros d Hd. destruct (Hax d ltac:(lia)) as (Hn & Hs & HP). split; [lia | exact HP]. }
  unfold puRankToNeighbor, forUp. cbv zeta. rewrite Z.sub_0_r.
  etransitivity; [apply f_equal; exact E|]. cbn [fst].
  transitivity (sumZ (Z.to_nat (Mpi.nDims T)) (fun d => neighborDigit ne d * 3 ^ d)).
  - apply sumZ_ext. intros d Hd. f_equal.
    destruct (Hdig d Hd) as (_ & Hc & _). rewrite Hc. unfold c.
    destruct (Hax d ltac:(lia)) as (Hn & Hs & HP).
    apply coord_back; [lia | lia | apply neighborDigit_range].
  - rewrite neighborDigit_sum, Z2Nat.id by lia. apply Z.mod_small. lia.
Qed.

Lemma puRankToNeighbor_puNeighborToRank_witness :
  puRankToNeighbor mpi4x3 (puNeighborToRank mpi4x3 5) = 5.
Proof.
  apply (puRankToNeighbor_puNeighborToRank mpi4x3 5).
  - split; [cbn; lia|]. split; [reflexivity|].
    intros d Hd. change (Mpi.nDims mpi4x3) with 2 in Hd.
    assert (d = 0 \/ d = 1) as [-> | ->] by lia;
      vm_compute; repeat split; discriminate.
  - change (Mpi.nDims mpi4x3) with 2. lia.
Defined.

(** X14: on a single subdomain (one subdomain along every axis) every
    neighbour index below [3^nDims] has rank 0, and [puRankToNeighbor] maps
    every non-negative rank to the neighbour index 0: there the round trip
    does not give the index back, the centre included. *)
Theorem puRankToNeighbor_single_subdomain (T : Mpi.Info) (ne r : Z) :
  decomposition 1 T ->
  (forall d, 0 <= d < Mpi.nDims T -> Mpi.nSubdomains T d = 1) ->
  0 <= ne -> 0 <= r ->
  puNeighborToRank T ne = 0 /\ puRankToNeighbor T r = 0.
Proof.
  intros (HD & HP0 & Hax) H1 Hne Hr. split.
  - rewrite puNeighborToRank_closed by assumption.
    apply sumZ_zero. intros d Hd. rewrite H1 by lia. now rewrite Z.rem_1_r.
  - destruct (puRankToNeighbor_rounds T HP0 r (Z.to_nat (Mpi.nDims T)) Hr) as [E _].
    { intros d Hd. destruct (Hax d ltac:(lia)) as (Hn & Hs & HP). split; [lia | exact HP]. }
    unfold puRankToNeighbor, forUp. cbv zeta. rewrite Z.sub_0_r.
    etransitivity; [apply f_equal; exact E|]. cbn [fst].
    apply sumZ_zero. intros d Hd. rewrite H1 by lia. now rewrite Z.rem_1_r.
Qed.

Lemma puRankToNeighbor_single_subdomain_witness :
  puNeighborToRank mpiSingle 4 = 0 /\ puRankToNeighbor mpiSingle 0 = 0.
Proof.
  apply (puRankToNeighbor_single_subdomain mpiSingle 4 0).
  - split; [cbn; lia|]. split; [reflexivity|].
    intros d Hd. change (Mpi.nDims mpiSingle) with 2 in Hd.
    assert (d = 0 \/ d = 1) as [-> | ->] by lia;
      vm_compute; repeat split; discriminate.
  - intros d Hd. change (Mpi.nDims mpiSingle) with 2 in Hd.
    assert (d = 0 \/ d = 1) as [-> | ->] by lia; reflexivity.
  - lia.
  - lia.
Defined.

(** X15: the tags of the exchange agree. Let two subdomains [A] and [B] of
    one decomposition in at most 19 dimensions, the range in which
    [3^nDims - 1] is an [int], be such that [B] is the neighbour with index
    [ne] of [A] (the rank [B] has for itself, as the centre of its
    neighbourhood, is the rank [A] computes for [ne]). Then [A] is the
    neighbour of [B] with the index [puNeighborToReciprocal] gives for
    [ne]. *)
Theorem puNeighborToRank_reciprocal (A B : Mpi.Info) (ne : Z) :
  decomposition 1 A ->
  decomposition 1 B ->
  Mpi.nDims A <= 19 ->
  Mpi.nDims B = Mpi.nDims A ->
  Mpi.nSubdomains B = Mpi.nSubdomains A ->
  Mpi.nSubdomainsProd B = Mpi.nSubdomainsProd A ->
  0 <= ne < 3 ^ Mpi.nDims A ->
  puNeighborToRank B (centerOf (Mpi.nDims B)) = puNeighborToRank A ne ->
  puNeighborToRank B (puNeighborToReciprocal ne (Mpi.nDims B))
  = puNeighborToRank A (centerOf (Mpi.nDims A)).
Proof.
  intros (HD & HP0 & HaxA) (_ & HP0B & HaxB) H19 ED EN EP Hne Hrank.
  pose proof (centerOf_range (Mpi.nDims A) HD) as Hc.
  rewrite ED in *. rewrite puNeighborToReciprocal_closed by lia.
  assert (H3 : 0 < 3 ^ Mpi.nDims A) by (apply Z.pow_pos_nonneg; lia).
  rewrite !puNeighborToRank_closed in * by lia.
  rewrite ED, EN, EP in *.
  (* the coordinates of B are those of the neighbour of A *)
  assert (Hb : forall d, 0 <= d < Mpi.nDims A ->
             Mpi.subdomain B d
             = Z.rem (Mpi.subdomain A d + (neighborDigit ne d - 1) + Mpi.nSubdomains A d)
                 (Mpi.nSubdomains A d)).
  { intros d Hd.
    destruct (mixedRadix_digits A HP0 (Mpi.subdomain B) (Z.to_nat (Mpi.nDims A)))
      as [_ HdB].
    { intros e He. destruct (HaxB e ltac:(lia)) as (_ & Hs & _).
      destruct (HaxA e ltac:(lia)) as (_ & _ & HP). split; assumption. }
    destruct (mixedRadix_digits A HP0
                (fun d => Z.rem (Mpi.subdomain A d + (neighborDigit ne d - 1)
                                 + Mpi.nSubdomains A d) (Mpi.nSubdomains A d))
                (Z.to_nat (Mpi.nDims A))) as [_ HdA].
    { intros e He. destruct (HaxA e ltac:(lia)) as (Hn & Hs & HP). split; [|exact HP].
      apply coord_range; [lia | lia |]. pose proof (neighborDigit_range ne e). lia. }
    destruct (HdB d ltac:(lia)) as (_ & EB & _).
    destruct (HdA d ltac:(lia)) as (_ & EA & _).
    rewrite <- EB, <- EA. do 2 f_equal.
    etransitivity; [|exact Hrank].
    apply sumZ_ext. intros e He. f_equal.
    rewrite centerOf_digit by lia.
    destruct (HaxB e ltac:(lia)) as (_ & Hs & _).
    replace (Mpi.subdomain B e + (1 - 1) + Mpi.nSubdomains A e)
      with (Mpi.subdomain B e + 1 * Mpi.nSubdomains A e) by ring.
    rewrite Z.rem_mod_nonneg, Z.mod_add, Z.mod_small by lia. reflexivity. }
  apply sumZ_ext. intros d Hd. f_equal.
  rewrite neighborDigit_mirror, centerOf_digit by lia.
  rewrite Hb by lia.
  destruct (HaxA d ltac:(lia)) as (Hn & Hs & _).
  rewrite coord_mirror by (try apply neighborDigit_range; lia).
  replace (Mpi.subdomain A d + (1 - 1) + Mpi.nSubdomains A d)
    with (Mpi.subdomain A d + 1 * Mpi.nSubdomains A d) by ring.
  rewrite Z.rem_mod_nonneg, Z.mod_add, Z.mod_small by lia. reflexivity.
Qed.


Lemma puNeighborToRank_reciprocal_witness :
  puNeighborToRank mpi4x3Upper (puNeighborToReciprocal 5 (Mpi.nDims mpi4x3Upper))
  = puNeighborToRank mpi4x3 (centerOf (Mpi.nDims mpi4x3)).
Proof.
  apply (puNeighborToRank_reciprocal mpi4x3 mpi4x3Upper 5).
  - split; [cbn; lia|]. split; [reflexivity|].
    intros d Hd. change (Mpi.nDims mpi4x3) with 2 in Hd.
    assert (d = 0 \/ d = 1) as [-> | ->] by lia;
      vm_compute; repeat split; discriminate.
  - split; [cbn; lia|]. split; [reflexivity|].
    intros d Hd. change (Mpi.nDims mpi4x3Upper) with 2 in Hd.
    assert (d = 0 \/ d = 1) as [-> | ->] by lia;
      vm_compute; repeat split; discriminate.
  - vm_compute. discriminate.
  - reflexivity.
  - reflexivity.
  - reflexivity.
  - change (Mpi.nDims mpi4x3) with 2. lia.
  - reflexivity.
Defined.

(** ** shiftImmigrants *)

(** the round of axis [d]: the coordinate [d] of the first [total]
    immigrants moves by [sh] *)
Lemma shiftImmigrants_axis (nD total d : Z) (sh : double) (imm : arr double) (i' d' : Z) :
  1 <= nD -> 0 <= d < 2 * nD -> 0 <= d' < 2 * nD ->
  forUp 0 total
    (fun i imm => upd imm (d + 2 * nD * i) (imm (d + 2 * nD * i)%Z + sh)%Qc) imm
    (d' + 2 * nD * i')
  = if (d' =? d) && (0 <=? i') && (i' <? total)
    then (imm (d' + 2 * nD * i')%Z + sh)%Qc else imm (d' + 2 * nD * i').
Proof.
  intros HD Hd Hd'. unfold forUp.
  destruct (forLoop_owned (fun _ x => (x + sh)%Qc) (fun i k => k =? d + 2 * nD * i)
              (fun i imm => upd imm (d + 2 * nD * i) (imm (d + 2 * nD * i)%Z + sh)%Qc)
              (d' + 2 * nD * i') (Z.to_nat (total - 0)) 0 imm) as [H1 H2].
  - intros i c _. unfold upd.
    destruct (Z.eqb_spec (d' + 2 * nD * i') (d + 2 * nD * i)) as [->|]; reflexivity.
  - intros i j _ _ E E'. apply Z.eqb_eq in E, E'. nia.
  - destruct (Z.eqb_spec d' d) as [->|Hne]; cbn [andb].
    + destruct (Z.leb_spec 0 i'), (Z.ltb_spec i' total); cbn [andb].
      * apply (H1 i'); [lia | apply Z.eqb_refl].
      * apply H2. intros i Hi. apply Z.eqb_neq. nia.
      * apply H2. intros i Hi. apply Z.eqb_neq. nia.
      * apply H2. intros i Hi. apply Z.eqb_neq. nia.
    + apply H2. intros i Hi. apply Z.eqb_neq. intros E.
      assert (i' * (2 * nD) + d' = i * (2 * nD) + d) as E' by lia.
      apply index_injective in E'; lia.
Qed.

(** X16: [shiftImmigrants] moves the position of every immigrant of the
    message by the offset of the sending neighbour: with [total] the sum of
    [nImmigrants[ne*nSpecies ..]] over the species, coordinate [d] of
    immigrant [i < total] gains [(digit of ne on axis d - 1) * trueSize[d+1]];
    the velocities of the immigrants and the rest of the buffer are left as
    they were. *)
Theorem shiftImmigrants_positions (mpiInfo : Mpi.Info) (grid : Grid) (ne : Z) :
  1 <= Mpi.nDims mpiInfo ->
  0 <= ne ->
  let nD := Mpi.nDims mpiInfo in
  let total :=
    alSum (from (Mpi.nImmigrants mpiInfo) (ne * Mpi.nSpecies mpiInfo)) (Mpi.nSpecies mpiInfo) in
  let shifted := Mpi.immigrants (shiftImmigrants mpiInfo grid ne) in
  (forall i d, 0 <= i < total -> 0 <= d < nD ->
     shifted (d + 2 * nD * i)
     = (Mpi.immigrants mpiInfo (d + 2 * nD * i)%Z
        + ofZ ((neighborDigit ne d - 1) * trueSize grid (d + 1))%Z)%Qc) /\
  (forall i d, nD <= d < 2 * nD ->
     shifted (d + 2 * nD * i) = Mpi.immigrants mpiInfo (d + 2 * nD * i)) /\
  (forall i d, 0 <= d < 2 * nD -> ~ (0 <= i < total) ->
     shifted (d + 2 * nD * i) = Mpi.immigrants mpiInfo (d + 2 * nD * i)).
Proof.
  intros HD Hne nD total shifted.
  set (imm0 := Mpi.immigrants mpiInfo).
  set (sh := fun d => ofZ ((neighborDigit ne d - 1) * trueSize grid (d + 1))).
  (* the buffer and the running index after the rounds of the axes below [r] *)
  set (I := fun (r : Z) (st : arr double * Z) =>
              snd st = ne / 3 ^ r /\
              forall i d, 0 <= d < 2 * nD ->
                fst st (d + 2 * nD * i)
                = if (d <? r) && (0 <=? i) && (i <? total)
                  then (imm0 (d + 2 * nD * i)%Z + sh d)%Qc else imm0 (d + 2 * nD * i)).
  assert (Hall : I nD
            (forUp 0 nD
               (fun d '(immigrants, ne) =>
                  (forUp 0 total
                     (fun i immigrants =>
                        upd immigrants (d + 2 * nD * i)
                          (immigrants (d + 2 * nD * i)%Z
                           + ofZ ((Z.rem ne 3 - 1) * trueSize grid (d + 1))%Z)%Qc)
                     immigrants,
                   Z.quot ne 3))
               (imm0, ne))).
  { unfold forUp at 1.
    replace nD with (Z.of_nat (Z.to_nat (nD - 0))) at 1 by lia.
    apply (forLoop_invariant I).
    - split; cbn [fst snd].
      + now rewrite Z.pow_0_r, Z.div_1_r.
      + intros i d Hd. destruct (Z.ltb_spec d 0); [lia | reflexivity].
    - intros r [imm ner] Hr [Hner Himm]. cbn [fst snd] in Hner, Himm.
      rewrite Z.add_0_l. split; cbn [fst snd].
      + assert (0 < 3 ^ r) by (apply Z.pow_pos_nonneg; lia).
        rewrite Hner, Z.quot_div_nonneg, Z.div_div by (try apply Z.div_pos; lia).
        now rewrite Z.pow_add_r, Z.pow_1_r by lia.
      + intros i d Hd.
        rewrite shiftImmigrants_axis by lia.
        rewrite Himm by lia.
        assert (Esh : ofZ ((Z.rem ner 3 - 1) * trueSize grid (r + 1)) = sh r).
        { unfold sh, neighborDigit. rewrite Hner, Z.rem_mod_nonneg; [reflexivity | | lia].
          apply Z.div_pos; [lia | apply Z.pow_pos_nonneg; lia]. }
        rewrite Esh.
        destruct (Z.eqb_spec d r) as [->|Hdr].
        * destruct (Z.ltb_spec r r); [lia|]. destruct (Z.ltb_spec r (r + 1)); [|lia].
          cbn [andb]. reflexivity.
        * cbn [andb].
          destruct (Z.ltb_spec d r), (Z.ltb_spec d (r + 1)); try lia; reflexivity. }
  assert (Eshift : shifted
                   = fst (forUp 0 nD
                            (fun d '(immigrants, ne) =>
                               (forUp 0 total
                                  (fun i immigrants =>
                                     upd immigrants (d + 2 * nD * i)
                                       (immigrants (d + 2 * nD * i)%Z
                                        + ofZ ((Z.rem ne 3 - 1) * trueSize grid (d + 1))%Z)%Qc)
                                  immigrants,
                                Z.quot ne 3))
                            (imm0, ne))).
  { unfold shifted, shiftImmigrants. cbv zeta. fold nD total imm0.
    destruct (forUp 0 nD _ (imm0, ne)) as [imm ner]. reflexivity. }
  destruct Hall as [_ Hall]. rewrite Eshift.
  split; [|split].
  - intros i d Hi Hd. rewrite Hall by lia.
    destruct (Z.ltb_spec d nD), (Z.leb_spec 0 i), (Z.ltb_spec i total); try lia. reflexivity.
  - intros i d Hd. rewrite Hall by lia.
    destruct (Z.ltb_spec d nD); [lia | reflexivity].
  - intros i d Hd Hi. rewrite Hall by lia.
    destruct (Z.ltb_spec d nD), (Z.leb_spec 0 i), (Z.ltb_spec i total);
      cbn [andb]; try lia; reflexivity.
Qed.


Lemma shiftImmigrants_positions_witness :
  (forall i d,
     0 <= i < alSum (from (Mpi.nImmigrants mpiTwoImmigrants)
                       (5 * Mpi.nSpecies mpiTwoImmigrants)) (Mpi.nSpecies mpiTwoImmigrants) ->
     0 <= d < Mpi.nDims mpiTwoImmigrants ->
     Mpi.immigrants (shiftImmigrants mpiTwoImmigrants (gridSq 8) 5)
       (d + 2 * Mpi.nDims mpiTwoImmigrants * i)
     = (Mpi.immigrants mpiTwoImmigrants (d + 2 * Mpi.nDims mpiTwoImmigrants * i)%Z
        + ofZ ((neighborDigit 5 d - 1) * trueSize (gridSq 8) (d + 1))%Z)%Qc) /\
  (forall i d, Mpi.nDims mpiTwoImmigrants <= d < 2 * Mpi.nDims mpiTwoImmigrants ->
     Mpi.immigrants (shiftImmigrants mpiTwoImmigrants (gridSq 8) 5)
       (d + 2 * Mpi.nDims mpiTwoImmigrants * i)
     = Mpi.immigrants mpiTwoImmigrants (d + 2 * Mpi.nDims mpiTwoImmigrants * i)) /\
  (forall i d, 0 <= d < 2 * Mpi.nDims mpiTwoImmigrants ->
     ~ (0 <= i < alSum (from (Mpi.nImmigrants mpiTwoImmigrants)
                          (5 * Mpi.nSpecies mpiTwoImmigrants))
                   (Mpi.nSpecies mpiTwoImmigrants)) ->
     Mpi.immigrants (shiftImmigrants mpiTwoImmigrants (gridSq 8) 5)
       (d + 2 * Mpi.nDims mpiTwoImmigrants * i)
     = Mpi.immigrants mpiTwoImmigrants (d + 2 * Mpi.nDims mpiTwoImmigrants * i)).
Proof.
  apply (shiftImmigrants_positions mpiTwoImmigrants (gridSq 8) 5).
  - change (Mpi.nDims mpiTwoImmigrants) with 2. lia.
  - lia.
Defined.

(** ** importParticles *)

Lemma importCoords_spec (particles : arr double) (nD : Z) (a : arr double) (aP pp : Z) :
  0 <= nD ->
  exists a',
    importCoords particles nD (a, aP, pp) = (a', aP + nD, pp + nD) /\
    forall k, a' k = if (aP <=? k) && (k <? aP + nD) then particles (pp + (k - aP)) else a k.
Proof.
  intros HD. unfold importCoords, forUp.
  set (I := fun (r : Z) (st : arr double * Z * Z) =>
              let '(a', q, p) := st in
              q = aP + r /\ p = pp + r /\
              forall k, a' k = if (aP <=? k) && (k <? aP + r)
                               then particles (pp + (k - aP)) else a k).
  assert (H : I nD (forLoop (Z.to_nat (nD - 0)) 0 1
                      (fun d '(a, aP, pp) => (upd a aP (particles pp), aP + 1, pp + 1))
                      (a, aP, pp))).
  { replace nD with (Z.of_nat (Z.to_nat (nD - 0))) at 1 by lia.
    apply (forLoop_invariant I).
    - unfold I. cbv beta iota. split; [lia|]. split; [lia|]. intros k.
      destruct (Z.leb_spec aP k), (Z.ltb_spec k (aP + 0)); cbn [andb]; trivial; lia.
    - intros r [[a' q] p] Hr (Eq & Ep & Ha). unfold I. cbv beta iota.
      split; [lia|]. split; [lia|]. intros k. unfold upd.
      destruct (Z.eqb_spec k q) as [->|Hk].
      + destruct (Z.leb_spec aP q), (Z.ltb_spec q (aP + (r + 1))); try lia. cbn [andb].
        f_equal. lia.
      + rewrite Ha.
        destruct (Z.leb_spec aP k), (Z.ltb_spec k (aP + r)), (Z.ltb_spec k (aP + (r + 1)));
          cbn [andb]; trivial; lia. }
  destruct (forLoop _ _ _ _ _) as [[a' q] p]. destruct H as (-> & -> & Ha).
  exists a'. split; [reflexivity | exact Ha].
Qed.

(** the particles of one species: [n] particles from the buffer offset
    [pp0] are written from the offset [aP0] on *)
Lemma importParticles_slot (particles : arr double) (nD n : Z) (pos_ vel_ : arr double)
    (aP0 pp0 : Z) :
  1 <= nD -> 0 <= n ->
  exists pos' vel',
    forUp 0 n (importParticles_particle particles nD) (pos_, vel_, aP0, aP0, pp0)
    = (pos', vel', aP0 + nD * n, aP0 + nD * n, pp0 + 2 * nD * n) /\
    forall k,
      pos' k = (if (aP0 <=? k) && (k <? aP0 + nD * n)
                then particles (pp0 + 2 * nD * ((k - aP0) / nD) + (k - aP0) mod nD)
                else pos_ k) /\
      vel' k = (if (aP0 <=? k) && (k <? aP0 + nD * n)
                then particles (pp0 + 2 * nD * ((k - aP0) / nD) + nD + (k - aP0) mod nD)
                else vel_ k).
Proof.
  intros HD Hn. unfold forUp.
  set (I := fun (r : Z) (st : arr double * arr double * Z * Z * Z) =>
              let '(pos', vel', posP, velP, pp) := st in
              posP = aP0 + nD * r /\ velP = aP0 + nD * r /\ pp = pp0 + 2 * nD * r /\
              forall k,
                pos' k = (if (aP0 <=? k) && (k <? aP0 + nD * r)
                          then particles (pp0 + 2 * nD * ((k - aP0) / nD) + (k - aP0) mod nD)
                          else pos_ k) /\
                vel' k = (if (aP0 <=? k) && (k <? aP0 + nD * r)
                          then particles (pp0 + 2 * nD * ((k - aP0) / nD) + nD
                                          + (k - aP0) mod nD)
                          else vel_ k)).
  assert (H : I n (forLoop (Z.to_nat (n - 0)) 0 1 (importParticles_particle particles nD)
                     (pos_, vel_, aP0, aP0, pp0))).
  { replace n with (Z.of_nat (Z.to_nat (n - 0))) at 1 by lia.
    apply (forLoop_invariant I).
    - unfold I. cbv beta iota. split; [lia|]. split; [lia|]. split; [lia|]. intros k.
      destruct (Z.leb_spec aP0 k), (Z.ltb_spec k (aP0 + nD * 0)); cbn [andb]; try lia;
        split; reflexivity.
    - intros r [[[[pos' vel'] posP] velP] pp] Hr (EP & EV & Epp & Hc).
      unfold importParticles_particle.
      destruct (importCoords_spec particles nD pos' posP pp ltac:(lia)) as (p1 & E1 & H1).
      rewrite E1.
      destruct (importCoords_spec particles nD vel' velP (pp + nD) ltac:(lia))
        as (v1 & E2 & H2).
      rewrite E2. unfold I. cbv beta iota.
      split; [lia|]. split; [lia|]. split; [lia|]. intros k.
      rewrite H1, H2. destruct (Hc k) as [Hp Hv]. rewrite Hp, Hv. subst posP velP pp.
      destruct (Z.leb_spec (aP0 + nD * r) k), (Z.ltb_spec k (aP0 + nD * r + nD));
        cbn [andb].
      + assert (Ediv : (k - aP0) / nD = r).
        { symmetry. apply (Z.div_unique_pos _ _ _ (k - aP0 - nD * r)); lia. }
        assert (Emod : (k - aP0) mod nD = k - aP0 - nD * r).
        { symmetry. apply (Z.mod_unique_pos _ _ r); lia. }
        rewrite Ediv, Emod.
        destruct (Z.leb_spec aP0 k), (Z.ltb_spec k (aP0 + nD * (r + 1))); try nia. cbn [andb].
        split; f_equal; lia.
      + destruct (Z.leb_spec aP0 k), (Z.ltb_spec k (aP0 + nD * r)),
          (Z.ltb_spec k (aP0 + nD * (r + 1))); cbn [andb]; try nia; split; reflexivity.
      + destruct (Z.leb_spec aP0 k), (Z.ltb_spec k (aP0 + nD * r)),
          (Z.ltb_spec k (aP0 + nD * (r + 1))); cbn [andb]; try nia; split; reflexivity.
      + destruct (Z.leb_spec aP0 k), (Z.ltb_spec k (aP0 + nD * r)),
          (Z.ltb_spec k (aP0 + nD * (r + 1))); cbn [andb]; try nia; split; reflexivity. }
  destruct (forLoop _ _ _ _ _) as [[[[pos' vel'] posP] velP] pp].
  destruct H as (-> & -> & -> & Hc).
  exists pos', vel'. split; [reflexivity | exact Hc].
Qed.


Lemma alSum_succ (a : arr Z) (m : Z) : 0 <= m -> alSum a (m + 1) = alSum a m + a m.
Proof.
  intros H. unfold alSum.
  replace (Z.to_nat (m + 1)) with (Datatypes.S (Z.to_nat m)) by lia.
  rewrite sumZ_succ. f_equal. f_equal. lia.
Qed.

(** the state of [importParticles] after the species below [m] *)
Lemma importParticles_rounds (pop : Population) (particles : arr double) (nP : arr Z) (n : Z) :
  1 <= nDims pop ->
  roomFor pop nP n ->
  forall m, 0 <= m <= n ->
    exists pos' vel' iStop',
      forUp 0 m (importParticles_species particles nP (nDims pop))
        (pos pop, vel pop, iStop pop, 0)
      = (pos', vel', iStop', 2 * nDims pop * alSum nP m) /\
      (forall t, iStop' t
                 = if (0 <=? t) && (t <? m) then iStop pop t + nP t else iStop pop t) /\
      (forall t k, 0 <= t < m ->
         nDims pop * iStop pop t <= k < nDims pop * (iStop pop t + nP t) ->
         pos' k = particles (2 * nDims pop * alSum nP t
                             + 2 * nDims pop * ((k - nDims pop * iStop pop t) / nDims pop)
                             + (k - nDims pop * iStop pop t) mod nDims pop) /\
         vel' k = particles (2 * nDims pop * alSum nP t
                             + 2 * nDims pop * ((k - nDims pop * iStop pop t) / nDims pop)
                             + nDims pop
                             + (k - nDims pop * iStop pop t) mod nDims pop)) /\
      (forall k,
         (forall t, 0 <= t < m ->
            ~ (nDims pop * iStop pop t <= k < nDims pop * (iStop pop t + nP t))) ->
         pos' k = pos pop k /\ vel' k = vel pop k).
Proof.
  intros HD [Hwf Hroom] m [Hm0 Hmn]. revert Hmn.
  pattern m. apply natlike_ind; [| |exact Hm0]; clear m Hm0.
  - intros _. rewrite forUp_none by lia.
    exists (pos pop), (vel pop), (iStop pop).
    split; [f_equal; change (alSum nP 0) with 0; lia|]. split; [|split].
    + intros t. destruct (Z.leb_spec 0 t), (Z.ltb_spec t 0); cbn [andb]; trivial; lia.
    + intros t k Ht. lia.
    + intros k _. split; reflexivity.
  - intros m Hm0 IH Hmn.
    destruct (IH ltac:(lia)) as (pos1 & vel1 & iStop1 & E & HiStop & Hin & Hout).
    replace (Z.succ m) with (m + 1) by lia. rewrite forUp_succ, E by lia.
    unfold importParticles_species.
    assert (EiS : iStop1 m = iStop pop m).
    { rewrite HiStop. destruct (Z.ltb_spec m m); [lia|]. now rewrite andb_false_r. }
    rewrite EiS.
    destruct (Hwf m ltac:(lia)) as [HnP Hlive].
    destruct (importParticles_slot particles (nDims pop) (nP m) pos1 vel1
                (nDims pop * iStop pop m) (2 * nDims pop * alSum nP m) HD HnP)
      as (pos2 & vel2 & E2 & Hslot).
    cbv zeta. rewrite E2.
    exists pos2, vel2, (upd iStop1 m (iStop pop m + nP m)).
    split; [|split; [|split]].
    + rewrite alSum_succ by lia. f_equal. ring.
    + intros t. unfold upd. destruct (Z.eqb_spec t m) as [->|Htm].
      * destruct (Z.leb_spec 0 m), (Z.ltb_spec m (m + 1)); try lia. reflexivity.
      * rewrite HiStop.
        destruct (Z.leb_spec 0 t), (Z.ltb_spec t m), (Z.ltb_spec t (m + 1));
          cbn [andb]; trivial; lia.
    + intros t k Ht Hk. destruct (Hslot k) as [Hp Hv]. rewrite Hp, Hv.
      destruct (Z.eq_dec t m) as [->|Htm].
      * destruct (Z.leb_spec (nDims pop * iStop pop m) k),
          (Z.ltb_spec k (nDims pop * iStop pop m + nDims pop * nP m)); try lia.
        cbn [andb]. split; reflexivity.
      * pose proof (Hroom t m ltac:(lia) ltac:(lia)) as Hr.
        destruct (Z.leb_spec (nDims pop * iStop pop m) k); [nia|]. cbn [andb].
        apply Hin; [lia | exact Hk].
    + intros k Hk. destruct (Hslot k) as [Hp Hv]. rewrite Hp, Hv.
      pose proof (Hk m ltac:(lia)) as Hkm.
      destruct (Z.leb_spec (nDims pop * iStop pop m) k),
        (Z.ltb_spec k (nDims pop * iStop pop m + nDims pop * nP m)); cbn [andb]; try lia;
        apply Hout; intros t Ht; apply Hk; lia.
Qed.

(** X17: when there is room behind every species, [importParticles] appends
    to each species [s] its [nParticles[s]] particles of the buffer, in the
    order of the buffer (the species one after the other, a particle being its
    [nDims] coordinates followed by its [nDims] velocity components): the
    range of [s] grows by [nParticles[s]] at its end, the new particles hold
    the values of the buffer, and the particles that were live keep their
    positions and velocities. *)
Theorem importParticles_appends (pop : Population) (particles : arr double) (nP : arr Z)
    (n : Z) :
  1 <= nDims pop ->
  0 <= n ->
  roomFor pop nP n ->
  iStart (importParticles pop particles nP n) = iStart pop /\
  (forall s, 0 <= s < n ->
     iStop (importParticles pop particles nP n) s = iStop pop s + nP s) /\
  (forall s i d, 0 <= s < n -> 0 <= i < nP s -> 0 <= d < nDims pop ->
     pos (importParticles pop particles nP n) (nDims pop * (iStop pop s + i) + d)
     = particles (2 * nDims pop * (alSum nP s + i) + d) /\
     vel (importParticles pop particles nP n) (nDims pop * (iStop pop s + i) + d)
     = particles (2 * nDims pop * (alSum nP s + i) + nDims pop + d)) /\
  (forall s i d, 0 <= s < n -> iStart pop s <= i < iStop pop s -> 0 <= d < nDims pop ->
     pos (importParticles pop particles nP n) (nDims pop * i + d) = pos pop (nDims pop * i + d) /\
     vel (importParticles pop particles nP n) (nDims pop * i + d) = vel pop (nDims pop * i + d)).
Proof.
  intros HD Hn Hroom.
  destruct (importParticles_rounds pop particles nP n HD Hroom n ltac:(lia))
    as (pos' & vel' & iStop' & E & HiStop & Hin & Hout).
  unfold importParticles. cbv zeta. rewrite E. cbn [iStart iStop pos vel setIStop setVel setPos].
  destruct Hroom as [Hwf Hroom].
  split; [reflexivity|]. split; [|split].
  - intros s Hs. rewrite HiStop.
    destruct (Z.leb_spec 0 s), (Z.ltb_spec s n); try lia. reflexivity.
  - intros s i d Hs Hi Hd.
    destruct (Hin s (nDims pop * (iStop pop s + i) + d) Hs ltac:(nia)) as [Hp Hv].
    rewrite Hp, Hv.
    replace (nDims pop * (iStop pop s + i) + d - nDims pop * iStop pop s)
      with (d + i * nDims pop) by ring.
    rewrite Z.div_add, Z.mod_add, Z.div_small, Z.mod_small by lia.
    split; f_equal; ring.
  - intros s i d Hs Hi Hd. apply Hout. intros t Ht.
    destruct (Hwf t Ht) as [HnP Hlive].
    destruct (Z.lt_trichotomy t s) as [Hlt | [-> | Hgt]].
    + pose proof (Hroom t s ltac:(lia) ltac:(lia)). nia.
    + nia.
    + pose proof (Hroom s t ltac:(lia) ltac:(lia)). destruct (Hwf s Hs). nia.
Qed.

Lemma importParticles_appends_witness :
  iStart (importParticles popRoom (Mpi.immigrants mpiTwoImmigrants)
            (from (Mpi.nImmigrants mpiTwoImmigrants) 10) 2) = iStart popRoom /\
  (forall s, 0 <= s < 2 ->
     iStop (importParticles popRoom (Mpi.immigrants mpiTwoImmigrants)
              (from (Mpi.nImmigrants mpiTwoImmigrants) 10) 2) s
     = iStop popRoom s + from (Mpi.nImmigrants mpiTwoImmigrants) 10 s) /\
  (forall s i d, 0 <= s < 2 -> 0 <= i < from (Mpi.nImmigrants mpiTwoImmigrants) 10 s ->
     0 <= d < nDims popRoom ->
     pos (importParticles popRoom (Mpi.immigrants mpiTwoImmigrants)
            (from (Mpi.nImmigrants mpiTwoImmigrants) 10) 2)
       (nDims popRoom * (iStop popRoom s + i) + d)
     = Mpi.immigrants mpiTwoImmigrants
         (2 * nDims popRoom * (alSum (from (Mpi.nImmigrants mpiTwoImmigrants) 10) s + i) + d) /\
     vel (importParticles popRoom (Mpi.immigrants mpiTwoImmigrants)
            (from (Mpi.nImmigrants mpiTwoImmigrants) 10) 2)
       (nDims popRoom * (iStop popRoom s + i) + d)
     = Mpi.immigrants mpiTwoImmigrants
         (2 * nDims popRoom * (alSum (from (Mpi.nImmigrants mpiTwoImmigrants) 10) s + i)
          + nDims popRoom + d)) /\
  (forall s i d, 0 <= s < 2 -> iStart popRoom s <= i < iStop popRoom s ->
     0 <= d < nDims popRoom ->
     pos (importParticles popRoom (Mpi.immigrants mpiTwoImmigrants)
            (from (Mpi.nImmigrants mpiTwoImmigrants) 10) 2) (nDims popRoom * i + d)
     = pos popRoom (nDims popRoom * i + d) /\
     vel (importParticles popRoom (Mpi.immigrants mpiTwoImmigrants)
            (from (Mpi.nImmigrants mpiTwoImmigrants) 10) 2) (nDims popRoom * i + d)
     = vel popRoom (nDims popRoom * i + d)).
Proof.
  apply (importParticles_appends popRoom (Mpi.immigrants mpiTwoImmigrants)
           (from (Mpi.nImmigrants mpiTwoImmigrants) 10) 2).
  - change (nDims popRoom) with 2. lia.
  - lia.
  - split.
    + intros s Hs. assert (s = 0 \/ s = 1) as [-> | ->] by lia;
        vm_compute; repeat split; discriminate.
    + intros s t Hst Ht. assert (s = 0 /\ t = 1) as [-> ->] by lia.
      vm_compute. discriminate.
Defined.

(** ** What the extraction leaves and what it counts *)

Lemma forLoop_ext_range {S : Type} (body body' : Z -> S -> S) (n : nat) :
  forall i step s,
    (forall j s, 0 <= j < Z.of_nat n -> body (i + j * step) s = body' (i + j * step) s) ->
    forLoop n i step body s = forLoop n i step body' s.
Proof.
  induction n as [|n IH]; intros i step s H; [reflexivity|].
  cbn [forLoop]. pose proof (H 0 s ltac:(lia)) as H0.
  rewrite Z.mul_0_l, Z.add_0_r in H0. rewrite H0. apply IH.
  intros j s' Hj. replace (i + step + j * step) with (i + (j + 1) * step) by ring.
  apply H. lia.
Qed.

(** the neighbour of a particle depends on its own coordinates only *)
Lemma neighborND_moved (pos1 pos2 thr : arr double) (nD p q : Z) :
  (forall d, 0 <= d < nD -> pos1 (p + d) = pos2 (q + d)) ->
  neighborND pos1 thr nD p = neighborND pos2 thr nD q.
Proof.
  intros H. unfold neighborND, forDown. apply forLoop_ext_range.
  intros j ne Hj. cbv zeta. rewrite H by lia. reflexivity.
Qed.

Lemma neighborND_ext (pos1 pos2 thr : arr double) (nD p : Z) :
  (forall d, 0 <= d < nD -> pos1 (p + d) = pos2 (p + d)) ->
  neighborND pos1 thr nD p = neighborND pos2 thr nD p.
Proof. apply neighborND_moved. Qed.

(** [for (d = 0; d < nDims; d++) a[p+d] = a[pStop-nDims+d]] when the last
    particle is the particle at [p] or lies behind it *)
Lemma copyLast_spec (nD p pStop : Z) (a : arr double) (k : Z) :
  0 <= nD -> p + nD <= pStop - nD \/ p = pStop - nD ->
  forUp 0 nD (fun d a => upd a (p + d) (a (pStop - nD + d))) a k
  = if (p <=? k) && (k <? p + nD) then a (pStop - nD + (k - p)) else a k.
Proof.
  intros HD Hp. unfold forUp.
  set (I := fun (r : Z) (b : arr double) =>
              forall k, b k = if (p <=? k) && (k <? p + r)
                              then a (pStop - nD + (k - p)) else a k).
  assert (H : I nD (forLoop (Z.to_nat (nD - 0)) 0 1
                      (fun d a => upd a (p + d) (a (pStop - nD + d))) a)).
  { replace nD with (Z.of_nat (Z.to_nat (nD - 0))) at 1 by lia.
    apply (forLoop_invariant I).
    - intros k'. destruct (Z.leb_spec p k'), (Z.ltb_spec k' (p + 0)); cbn [andb]; trivial; lia.
    - intros r b Hr Hb k'. rewrite Z.add_0_l. unfold upd.
      destruct (Z.eqb_spec k' (p + r)) as [->|Hk].
      + destruct (Z.leb_spec p (p + r)), (Z.ltb_spec (p + r) (p + (r + 1))); try lia.
        cbn [andb]. rewrite Hb.
        destruct (Z.leb_spec p (pStop - nD + r)), (Z.ltb_spec (pStop - nD + r) (p + r));
          cbn [andb]; try lia; f_equal; lia.
      + rewrite Hb.
        destruct (Z.leb_spec p k'), (Z.ltb_spec k' (p + r)), (Z.ltb_spec k' (p + (r + 1)));
          cbn [andb]; trivial; lia. }
  apply H.
Qed.

(** writing to the send buffers changes neither the thresholds nor the
    counts *)
Lemma pushEmigrants_frame (f : Z -> double) (ne : Z) (n : nat) :
  forall (d : Z) (m : MpiInfo),
    let m' := forLoop n d 1 (fun d m => pushEmigrant m ne (f d)) m in
    thresholds m' = thresholds m /\ neighborhoodCenter m' = neighborhoodCenter m /\
    nNeighbors m' = nNeighbors m /\ nEmigrants m' = nEmigrants m.
Proof.
  induction n as [|n IH]; intros d m; cbv zeta; [now repeat split|].
  cbn [forLoop]. destruct (IH (d + 1) (pushEmigrant m ne (f d))) as (A & B & C & D).
  cbv zeta in A, B, C, D. rewrite A, B, C, D. now repeat split.
Qed.

(** what taking the particle at [p] out of species [s] leaves *)
Lemma removeEmigrantND_spec (s S nD p pStop ne : Z) (pop : Population) (m : MpiInfo) :
  0 <= nD -> p + nD <= pStop - nD \/ p = pStop - nD ->
  let st' := removeEmigrantND s S nD p pStop ne (pop, m) in
  thresholds (snd st') = thresholds m /\
  neighborhoodCenter (snd st') = neighborhoodCenter m /\
  nNeighbors (snd st') = nNeighbors m /\
  nEmigrants (snd st') = upd (nEmigrants m) (ne * S + s) (nEmigrants m (ne * S + s) + 1) /\
  iStart (fst st') = iStart pop /\
  iStop (fst st') = upd (iStop pop) s (iStop pop s - 1) /\
  (forall k, pos (fst st') k
             = if (p <=? k) && (k <? p + nD) then pos pop (pStop - nD + (k - p))
               else pos pop k) /\
  (forall k, vel (fst st') k
             = if (p <=? k) && (k <? p + nD) then vel pop (pStop - nD + (k - p))
               else vel pop k) /\
  nDims (fst st') = nDims pop /\ nSpecies (fst st') = nSpecies pop.
Proof.
  intros HD Hp. cbv zeta. unfold removeEmigrantND.
  cbn [fst snd thresholds neighborhoodCenter nNeighbors nEmigrants iStart iStop pos vel
       nDims nSpecies setIStop setVel setPos countEmigrant setNEmigrants].
  unfold forUp.
  destruct (pushEmigrants_frame (fun d => pos pop (p + d)) ne (Z.to_nat (nD - 0)) 0 m)
    as (A1 & B1 & C1 & D1).
  cbv zeta in A1, B1, C1, D1.
  set (m1 := forLoop (Z.to_nat (nD - 0)) 0 1
               (fun d m => pushEmigrant m ne (pos pop (p + d))) m) in *.
  destruct (pushEmigrants_frame (fun d => vel pop (p + d)) ne (Z.to_nat (nD - 0)) 0 m1)
    as (A2 & B2 & C2 & D2).
  cbv zeta in A2, B2, C2, D2.
  rewrite ?A2, ?B2, ?C2, ?D2, ?A1, ?B1, ?C1, ?D1.
  split; [reflexivity|]. split; [reflexivity|]. split; [reflexivity|].
  split; [reflexivity|]. split; [reflexivity|]. split; [reflexivity|].
  split; [intros k; exact (copyLast_spec nD p pStop (pos pop) k HD Hp)|].
  split; [intros k; exact (copyLast_spec nD p pStop (vel pop) k HD Hp)|].
  split; reflexivity.
Qed.


Lemma sumZ_front (n : nat) (f : Z -> Z) :
  sumZ (Datatypes.S n) f = f 0 + sumZ n (fun k => f (k + 1)).
Proof.
  induction n as [|n IH]; [cbn; lia|].
  rewrite sumZ_succ, IH, sumZ_succ. rewrite Nat2Z.inj_succ. unfold Z.succ. lia.
Qed.

Section Counting.

Variables (thr : arr double) (nD n : Z).

Lemma emigrantsTo_ext (pos1 pos2 : arr double) (a b : Z) :
  (forall c d, a <= c < b -> 0 <= d < nD -> pos1 (c * nD + d) = pos2 (c * nD + d)) ->
  emigrantsTo pos1 thr nD n a b = emigrantsTo pos2 thr nD n a b.
Proof.
  intros H. unfold emigrantsTo. apply sumZ_ext. intros k Hk.
  rewrite (neighborND_ext pos1 pos2); [reflexivity|].
  intros d Hd. apply H; lia.
Qed.

Lemma emigrantsTo_empty (pos_ : arr double) (a b : Z) :
  b <= a -> emigrantsTo pos_ thr nD n a b = 0.
Proof.
  intros H. unfold emigrantsTo. replace (Z.to_nat (b - a)) with 0%nat by lia. reflexivity.
Qed.

Lemma emigrantsTo_back (pos_ : arr double) (a b : Z) :
  a <= b ->
  emigrantsTo pos_ thr nD n a (b + 1)
  = emigrantsTo pos_ thr nD n a b + b2z (neighborND pos_ thr nD (b * nD) =? n).
Proof.
  intros H. unfold emigrantsTo.
  replace (Z.to_nat (b + 1 - a)) with (Datatypes.S (Z.to_nat (b - a))) by lia.
  rewrite sumZ_succ. cbv beta. rewrite Z2Nat.id by lia.
  replace (a + (b - a)) with b by lia. reflexivity.
Qed.

Lemma emigrantsTo_front (pos_ : arr double) (a b : Z) :
  a < b ->
  emigrantsTo pos_ thr nD n a b
  = b2z (neighborND pos_ thr nD (a * nD) =? n) + emigrantsTo pos_ thr nD n (a + 1) b.
Proof.
  intros H. unfold emigrantsTo.
  replace (Z.to_nat (b - a)) with (Datatypes.S (Z.to_nat (b - (a + 1)))) by lia.
  rewrite sumZ_front. cbv beta. rewrite Z.add_0_r. f_equal.
  apply sumZ_ext. intros k Hk. cbv beta.
  replace (a + (k + 1)) with (a + 1 + k) by lia. reflexivity.
Qed.

End Counting.

(** the particle loop of [puExtractEmigrantsND] on the particles [i..j) of
    species [s]: it ends, every particle it leaves in the range belongs to
    this subdomain, and every count of the species has grown by the number of
    the particles that were to go to the neighbour *)
Lemma extractLoopND_sorted (s S nD : Z) (fuel : nat) :
  0 <= s < S -> 1 <= nD ->
  forall i j pop m,
    i <= j -> iStop pop s = j -> (j - i) * nD <= Z.of_nat fuel ->
    exists pop' m',
      extractLoopND fuel s S nD (i * nD) (j * nD) (pop, m) = Some (pop', m') /\
      thresholds m' = thresholds m /\
      neighborhoodCenter m' = neighborhoodCenter m /\
      nNeighbors m' = nNeighbors m /\
      (iStart pop' = iStart pop /\ nDims pop' = nDims pop /\ nSpecies pop' = nSpecies pop) /\
      i <= iStop pop' s <= j /\
      (forall t, t <> s -> iStop pop' t = iStop pop t) /\
      (forall k, ~ (i * nD <= k < j * nD) -> pos pop' k = pos pop k /\ vel pop' k = vel pop k) /\
      (forall a, i <= a < iStop pop' s ->
         neighborND (pos pop') (thresholds m) nD (a * nD) = neighborhoodCenter m) /\
      (forall n t, 0 <= t < S ->
         nEmigrants m' (n * S + t)
         = nEmigrants m (n * S + t)
           + if (t =? s) && negb (n =? neighborhoodCenter m)
             then emigrantsTo (pos pop) (thresholds m) nD n i j else 0).
Proof.
  intros Hs HD. induction fuel as [|fuel IH]; intros i j pop m Hij HiStop Hfuel.
  - assert (i = j) by nia. subst i. cbn [extractLoopND].
    destruct (Z.ltb_spec (j * nD) (j * nD)); [lia|].
    exists pop, m. split; [reflexivity|].
    split; [reflexivity|]. split; [reflexivity|]. split; [reflexivity|].
    split; [now repeat split|]. split; [lia|]. split; [intros t _; reflexivity|].
    split; [intros k _; split; reflexivity|]. split; [intros a Ha; lia|].
    intros n t Ht. rewrite emigrantsTo_empty by lia.
    destruct ((t =? s) && negb (n =? neighborhoodCenter m)); lia.
  - cbn [extractLoopND]. destruct (Z.ltb_spec (i * nD) (j * nD)) as [Hlt|Hge].
    + assert (Hij' : i < j) by nia. cbn [fst snd].
      set (ne := neighborND (pos pop) (thresholds m) nD (i * nD)).
      destruct (Z.eqb_spec ne (neighborhoodCenter m)) as [Hc|Hc]; cbn [negb].
      * (* the particle stays *)
        replace (i * nD + nD) with ((i + 1) * nD) by ring.
        destruct (IH (i + 1) j pop m ltac:(lia) HiStop ltac:(nia))
          as (pop' & m' & E & A & B & C & D & F & G & Hfr & Hcen & Hcnt).
        exists pop', m'. split; [exact E|].
        split; [exact A|]. split; [exact B|]. split; [exact C|]. split; [exact D|].
        split; [lia|]. split; [exact G|].
        split; [intros k Hk; apply Hfr; nia|]. split.
        -- intros a Ha. destruct (Z.eq_dec a i) as [->|Hai]; [|apply Hcen; lia].
           rewrite (neighborND_ext (pos pop') (pos pop)); [exact Hc|].
           intros d Hd. apply Hfr. nia.
        -- intros n t Ht. rewrite Hcnt by assumption. f_equal.
           destruct ((t =? s) && negb (n =? neighborhoodCenter m)) eqn:Eb; [|reflexivity].
           rewrite (emigrantsTo_front _ _ _ _ i j) by lia. fold ne.
           apply andb_true_iff in Eb. destruct Eb as [_ Eb].
           apply negb_true_iff, Z.eqb_neq in Eb.
           destruct (Z.eqb_spec ne n); [lia | cbn; lia].
      * (* the particle leaves and the last one takes its place *)
        cbv zeta.
        replace (i * nD - nD + nD) with (i * nD) by ring.
        replace (j * nD - nD) with ((j - 1) * nD) by ring.
        assert (Hlast : i * nD + nD <= j * nD - nD \/ i * nD = j * nD - nD)
          by (destruct (Z.eq_dec i (j - 1)); [right; nia | left; nia]).
        destruct (removeEmigrantND_spec s S nD (i * nD) (j * nD) ne pop m ltac:(lia) Hlast)
          as (A1 & B1 & C1 & D1 & E1 & F1 & Hp1 & Hv1 & G1 & K1).
        cbv zeta in A1, B1, C1, D1, E1, F1, Hp1, Hv1, G1, K1.
        destruct (removeEmigrantND s S nD (i * nD) (j * nD) ne (pop, m)) as [pop1 m1].
        cbn [fst snd] in A1, B1, C1, D1, E1, F1, Hp1, Hv1, G1, K1.
        destruct (IH i (j - 1) pop1 m1 ltac:(lia)
                    ltac:(rewrite F1, upd_same; lia) ltac:(nia))
          as (pop' & m' & E & A & B & C & D & F & G & Hfr & Hcen & Hcnt).
        exists pop', m'. split; [exact E|].
        split; [congruence|]. split; [congruence|]. split; [congruence|].
        split; [destruct D as (D & D' & D''); repeat split; congruence|]. split; [lia|].
        split; [intros t Ht; rewrite G, F1 by assumption; now apply upd_other|].
        split.
        -- intros k Hk. destruct (Hfr k ltac:(nia)) as [Hp Hv]. rewrite Hp, Hv, Hp1, Hv1.
           destruct (Z.leb_spec (i * nD) k), (Z.ltb_spec k (i * nD + nD)); cbn [andb];
             try (split; reflexivity); nia.
        -- split; [intros a Ha; rewrite <- A1, <- B1; apply Hcen; exact Ha|].
           intros n t Ht. rewrite Hcnt, D1, A1, B1 by assumption.
           (* the particles [i+1..j) at their old places are the particles
              [i..j-1) at their new places, up to their order *)
           assert (Hmove : emigrantsTo (pos pop1) (thresholds m) nD n i (j - 1)
                           = emigrantsTo (pos pop) (thresholds m) nD n (i + 1) j).
           { destruct (Z.eq_dec i (j - 1)) as [Ei|Ei].
             - rewrite !emigrantsTo_empty by lia. reflexivity.
             - rewrite (emigrantsTo_front _ _ _ _ i (j - 1)) by lia.
               replace j with ((j - 1) + 1) at 2 by lia.
               rewrite emigrantsTo_back by lia.
               rewrite (emigrantsTo_ext _ _ _ (pos pop1) (pos pop) (i + 1) (j - 1)).
               + rewrite (neighborND_moved (pos pop1) (pos pop)
                            (thresholds m) nD (i * nD) ((j - 1) * nD)); [lia|].
                 intros d Hd. rewrite Hp1.
                 destruct (Z.leb_spec (i * nD) (i * nD + d)),
                   (Z.ltb_spec (i * nD + d) (i * nD + nD)); try lia. cbn [andb].
                 f_equal. ring.
               + intros c d Hc' Hd. rewrite Hp1.
                 destruct (Z.leb_spec (i * nD) (c * nD + d)),
                   (Z.ltb_spec (c * nD + d) (i * nD + nD)); cbn [andb]; trivial; nia. }
           rewrite Hmove. unfold upd.
           destruct (Z.eqb_spec t s) as [->|Hts]; cbn [andb].
           ++ destruct (Z.eqb_spec n (neighborhoodCenter m)) as [->|Hn]; cbn [negb].
              ** destruct (Z.eqb_spec (neighborhoodCenter m * S + s) (ne * S + s)) as [E'|E'];
                   [|lia].
                 apply index_injective in E'; lia.
              ** rewrite (emigrantsTo_front _ _ _ _ i j) by lia. fold ne.
                 destruct (Z.eqb_spec (n * S + s) (ne * S + s)) as [E'|E'].
                 --- apply index_injective in E'; [|lia|lia]. destruct E' as [-> _].
                     rewrite Z.eqb_refl. cbn [b2z]. lia.
                 --- destruct (Z.eqb_spec ne n) as [->|]; [lia|]. cbn [b2z]. lia.
           ++ destruct (Z.eqb_spec (n * S + t) (ne * S + s)) as [E'|E']; [|lia].
              apply index_injective in E'; lia.
    + assert (i = j) by nia. subst i.
      exists pop, m. split; [reflexivity|].
      split; [reflexivity|]. split; [reflexivity|]. split; [reflexivity|].
      split; [now repeat split|]. split; [lia|]. split; [intros t _; reflexivity|].
      split; [intros k _; split; reflexivity|]. split; [intros a Ha; lia|].
      intros n t Ht. rewrite emigrantsTo_empty by lia.
      destruct ((t =? s) && negb (n =? neighborhoodCenter m)); lia.
Qed.


(** the state of [puExtractEmigrantsND] after the species below [r] *)
Lemma puExtractEmigrantsND_rounds (pop : Population) (mpiInfo : MpiInfo) :
  1 <= nDims pop ->
  disjointSpecies pop ->
  (forall s, 0 <= s < nSpecies pop -> iStart pop s <= iStop pop s) ->
  forall r, 0 <= r <= nSpecies pop ->
    exists pop' m',
      forUp 0 r
        (fun s res =>
           match res with
           | None => None
           | Some st =>
               extractLoopND
                 (Z.to_nat (iStop (fst st) s * nDims pop - iStart (fst st) s * nDims pop))
                 s (nSpecies pop) (nDims pop)
                 (iStart (fst st) s * nDims pop) (iStop (fst st) s * nDims pop) st
           end)
        (Some (pop, resetEmigrants (nSpecies pop) mpiInfo))
      = Some (pop', m') /\
      thresholds m' = thresholds mpiInfo /\
      neighborhoodCenter m' = neighborhoodCenter mpiInfo /\
      nNeighbors m' = nNeighbors mpiInfo /\
      (iStart pop' = iStart pop /\ nDims pop' = nDims pop /\ nSpecies pop' = nSpecies pop) /\
      (forall t, ~ (0 <= t < r) -> iStop pop' t = iStop pop t) /\
      (forall t, 0 <= t < r -> iStart pop t <= iStop pop' t <= iStop pop t) /\
      (forall k,
         (forall t, 0 <= t < r -> ~ (iStart pop t * nDims pop <= k < iStop pop t * nDims pop)) ->
         pos pop' k = pos pop k /\ vel pop' k = vel pop k) /\
      (forall t a, 0 <= t < r -> iStart pop t <= a < iStop pop' t ->
         neighborND (pos pop') (thresholds mpiInfo) (nDims pop) (a * nDims pop)
         = neighborhoodCenter mpiInfo) /\
      (forall n t, 0 <= n < nNeighbors mpiInfo -> 0 <= t < nSpecies pop ->
         nEmigrants m' (n * nSpecies pop + t)
         = if (t <? r) && negb (n =? neighborhoodCenter mpiInfo)
           then emigrantsTo (pos pop) (thresholds mpiInfo) (nDims pop) n
                  (iStart pop t) (iStop pop t)
           else 0).
Proof.
  intros HD Hdis Hwf r [Hr0 HrS]. revert HrS.
  pattern r. apply natlike_ind; [| |exact Hr0]; clear r Hr0.
  - intros _. rewrite forUp_none by lia.
    exists pop, (resetEmigrants (nSpecies pop) mpiInfo).
    split; [reflexivity|]. split; [reflexivity|]. split; [reflexivity|].
    split; [reflexivity|]. split; [now repeat split|].
    split; [intros t _; reflexivity|]. split; [intros t Ht; lia|].
    split; [intros k _; split; reflexivity|]. split; [intros t a Ht; lia|].
    intros n t Hn Ht. destruct (Z.ltb_spec t 0); [lia|]. cbn [andb].
    unfold resetEmigrants. cbv zeta. cbn [nEmigrants setNEmigrants setEmigrants nNeighbors].
    unfold alSetAll.
    destruct (Z.leb_spec 0 (n * nSpecies pop + t)),
      (Z.ltb_spec (n * nSpecies pop + t) (nSpecies pop * nNeighbors mpiInfo));
      cbn [andb]; trivial; nia.
  - intros r Hr0 IH HrS.
    destruct (IH ltac:(lia))
      as (pop1 & m1 & E & A & B & C & (D & D' & D'') & F & G & Hfr & Hcen & Hcnt).
    replace (Z.succ r) with (r + 1) by lia. rewrite forUp_succ, E by lia. cbn [fst].
    assert (EiS : iStop pop1 r = iStop pop r) by (apply F; lia).
    rewrite D, EiS.
    pose proof (Hwf r ltac:(lia)) as Hlive.
    destruct (extractLoopND_sorted r (nSpecies pop) (nDims pop)
                (Z.to_nat (iStop pop r * nDims pop - iStart pop r * nDims pop))
                ltac:(lia) HD (iStart pop r) (iStop pop r) pop1 m1 Hlive EiS ltac:(nia))
      as (pop2 & m2 & E2 & A2 & B2 & C2 & (D2 & D2' & D2'') & F2 & G2 & Hfr2 & Hcen2 & Hcnt2).
    exists pop2, m2. split; [exact E2|].
    split; [congruence|]. split; [congruence|]. split; [congruence|].
    split; [repeat split; congruence|].
    split; [intros t Ht; rewrite G2 by lia; apply F; lia|].
    split.
    { intros t Ht. destruct (Z.eq_dec t r) as [->|Htr]; [lia|].
      rewrite G2 by assumption. apply G. lia. }
    split.
    { intros k Hk. destruct (Hfr2 k (Hk r ltac:(lia))) as [Hp Hv]. rewrite Hp, Hv.
      apply Hfr. intros t Ht. apply Hk. lia. }
    split.
    { intros t a Ht Ha. destruct (Z.eq_dec t r) as [->|Htr].
      - rewrite <- A, <- B. apply Hcen2. exact Ha.
      - rewrite G2 in Ha by assumption.
        pose proof (G t ltac:(lia)) as Gt.
        pose proof (Hdis t r ltac:(lia) ltac:(lia)) as Hd.
        rewrite (neighborND_ext (pos pop2) (pos pop1)); [apply (Hcen t); lia|].
        intros d Hd'. apply Hfr2. nia. }
    intros n t Hn Ht. rewrite Hcnt2, Hcnt, A, B by assumption.
    destruct (Z.eqb_spec t r) as [->|Htr]; cbn [andb].
    + destruct (Z.ltb_spec r r); [lia|]. destruct (Z.ltb_spec r (r + 1)); [|lia]. cbn [andb].
      destruct (negb (n =? neighborhoodCenter mpiInfo)); [|reflexivity].
      rewrite Z.add_0_l. apply emigrantsTo_ext. intros c d Hc Hd'.
      apply Hfr. intros t Ht'. pose proof (Hdis t r ltac:(lia) ltac:(lia)). nia.
    + destruct (Z.ltb_spec t r), (Z.ltb_spec t (r + 1)); cbn [andb]; try lia.
Qed.


Lemma puExtractEmigrants3D_as_ND (pop : Population) (mpiInfo : MpiInfo) :
  nDims pop = 3 -> puExtractEmigrants3D pop mpiInfo = puExtractEmigrantsND pop mpiInfo.
Proof.
  intros H3. unfold puExtractEmigrantsND, puExtractEmigrants3D, forUp. cbv zeta.
  rewrite H3. symmetry. apply forLoop_ext. intros s [st|]; [|reflexivity].
  apply extractLoopND_3D.
Qed.

(** X18: when the ranges of the species are well formed and follow one
    another, [puExtractEmigrantsND] ends and leaves no emigrant behind: every
    particle that is live afterwards is classified to the centre of the
    neighbourhood, so none lies beyond a migration threshold; the cells of
    [pos] and [vel] outside the entry ranges of the species are not touched.
    In three dimensions the same holds of [puExtractEmigrants3D]. *)
Theorem puExtractEmigrants_leaves_residents (pop : Population) (mpiInfo : MpiInfo) :
  1 <= nDims pop ->
  disjointSpecies pop ->
  (forall s, 0 <= s < nSpecies pop -> iStart pop s <= iStop pop s) ->
  (exists pop' m',
     puExtractEmigrantsND pop mpiInfo = Some (pop', m') /\
     noEmigrantND pop' m' /\
     forall k,
       (forall t, 0 <= t < nSpecies pop ->
          ~ (iStart pop t * nDims pop <= k < iStop pop t * nDims pop)) ->
       pos pop' k = pos pop k /\ vel pop' k = vel pop k) /\
  (nDims pop = 3 ->
   exists pop' m',
     puExtractEmigrants3D pop mpiInfo = Some (pop', m') /\ noEmigrant3D pop' m').
Proof.
  intros HD Hdis Hwf.
  assert (HND : exists pop' m',
             puExtractEmigrantsND pop mpiInfo = Some (pop', m') /\
             noEmigrantND pop' m' /\ nDims pop' = nDims pop /\
             forall k,
               (forall t, 0 <= t < nSpecies pop ->
                  ~ (iStart pop t * nDims pop <= k < iStop pop t * nDims pop)) ->
               pos pop' k = pos pop k /\ vel pop' k = vel pop k).
  { destruct (Z_le_gt_dec 0 (nSpecies pop)) as [HS|HS].
    - destruct (puExtractEmigrantsND_rounds pop mpiInfo HD Hdis Hwf (nSpecies pop) ltac:(lia))
        as (pop' & m' & E & A & B & C & (D & D' & D'') & F & G & Hfr & Hcen & Hcnt).
      exists pop', m'. split; [exact E|]. split; [|split; [exact D' | exact Hfr]].
      intros t i Ht Hi. rewrite D'' in Ht. rewrite D in Hi. rewrite D', A, B.
      apply (Hcen t); assumption.
    - exists pop, (resetEmigrants (nSpecies pop) mpiInfo). split; [|split; [|split]].
      + unfold puExtractEmigrantsND. cbv zeta. now rewrite forUp_none by lia.
      + intros t i Ht. lia.
      + reflexivity.
      + intros k _. split; reflexivity. }
  destruct HND as (pop' & m' & E & Hno & HD' & Hfr). split.
  - exists pop', m'. split; [exact E|]. split; [exact Hno | exact Hfr].
  - intros H3. exists pop', m'. split; [rewrite puExtractEmigrants3D_as_ND; assumption|].
    intros t i Ht Hi. rewrite <- neighborND_3D.
    pose proof (Hno t i Ht Hi) as H. rewrite HD', H3 in H. exact H.
Qed.

Lemma puExtractEmigrants_leaves_residents_witness :
  (exists pop' m',
     puExtractEmigrantsND popMig mpiMig = Some (pop', m') /\
     noEmigrantND pop' m' /\
     forall k,
       (forall t, 0 <= t < nSpecies popMig ->
          ~ (iStart popMig t * nDims popMig <= k < iStop popMig t * nDims popMig)) ->
       pos pop' k = pos popMig k /\ vel pop' k = vel popMig k) /\
  (nDims popMig = 3 ->
   exists pop' m',
     puExtractEmigrants3D popMig mpiMig = Some (pop', m') /\ noEmigrant3D pop' m').
Proof.
  apply (puExtractEmigrants_leaves_residents popMig mpiMig).
  - change (nDims popMig) with 3. lia.
  - intros s t Hst Ht. change (nSpecies popMig) with 2 in Ht.
    assert (s = 0 /\ t = 1) as [-> ->] by lia.
    change (iStop popMig 0) with 2. change (iStart popMig 1) with 3. lia.
  - intros s Hs. change (nSpecies popMig) with 2 in Hs.
    assert (s = 0 \/ s = 1) as [-> | ->] by lia; vm_compute; discriminate.
Defined.

(** X19: under the same conditions the counts that [puExtractEmigrantsND]
    leaves are exact: for every neighbour [n] of the neighbourhood other than
    the centre and every species [s], [nEmigrants[n*nSpecies+s]] is the number
    of the particles of [s] that were classified to [n] at their entry
    positions, and the counts of the centre are zero. In three dimensions the
    same holds of [puExtractEmigrants3D]. *)
Theorem puExtractEmigrants_counts_by_neighbor (pop : Population) (mpiInfo : MpiInfo)
    (n s : Z) :
  1 <= nDims pop ->
  disjointSpecies pop ->
  (forall s, 0 <= s < nSpecies pop -> iStart pop s <= iStop pop s) ->
  0 <= n < nNeighbors mpiInfo ->
  0 <= s < nSpecies pop ->
  (exists pop' m',
     puExtractEmigrantsND pop mpiInfo = Some (pop', m') /\
     nEmigrants m' (n * nSpecies pop + s)
     = if n =? neighborhoodCenter mpiInfo then 0
       else emigrantsTo (pos pop) (thresholds mpiInfo) (nDims pop) n
              (iStart pop s) (iStop pop s)) /\
  (nDims pop = 3 ->
   exists pop' m',
     puExtractEmigrants3D pop mpiInfo = Some (pop', m') /\
     nEmigrants m' (n * nSpecies pop + s)
     = if n =? neighborhoodCenter mpiInfo then 0
       else emigrantsTo (pos pop) (thresholds mpiInfo) 3 n (iStart pop s) (iStop pop s)).
Proof.
  intros HD Hdis Hwf Hn Hs.
  destruct (puExtractEmigrantsND_rounds pop mpiInfo HD Hdis Hwf (nSpecies pop) ltac:(lia))
    as (pop' & m' & E & A & B & C & D & F & G & Hfr & Hcen & Hcnt).
  assert (Hc : nEmigrants m' (n * nSpecies pop + s)
               = if n =? neighborhoodCenter mpiInfo then 0
                 else emigrantsTo (pos pop) (thresholds mpiInfo) (nDims pop) n
                        (iStart pop s) (iStop pop s)).
  { rewrite (Hcnt n s Hn Hs). destruct (Z.ltb_spec s (nSpecies pop)); [|lia]. cbn [andb].
    destruct (n =? neighborhoodCenter mpiInfo); reflexivity. }
  split.
  - exists pop', m'. split; [exact E | exact Hc].
  - intros H3. exists pop', m'. split; [rewrite puExtractEmigrants3D_as_ND; assumption|].
    rewrite Hc, H3. reflexivity.
Qed.

Lemma puExtractEmigrants_counts_by_neighbor_witness :
  (exists pop' m',
     puExtractEmigrantsND popMig mpiMig = Some (pop', m') /\
     nEmigrants m' (14 * nSpecies popMig + 0)
     = if 14 =? neighborhoodCenter mpiMig then 0
       else emigrantsTo (pos popMig) (thresholds mpiMig) (nDims popMig) 14
              (iStart popMig 0) (iStop popMig 0)) /\
  (nDims popMig = 3 ->
   exists pop' m',
     puExtractEmigrants3D popMig mpiMig = Some (pop', m') /\
     nEmigrants m' (14 * nSpecies popMig + 0)
     = if 14 =? neighborhoodCenter mpiMig then 0
       else emigrantsTo (pos popMig) (thresholds mpiMig) 3 14
              (iStart popMig 0) (iStop popMig 0)).
Proof.
  apply (puExtractEmigrants_counts_by_neighbor popMig mpiMig 14 0).
  - change (nDims popMig) with 3. lia.
  - intros s t Hst Ht. change (nSpecies popMig) with 2 in Ht.
    assert (s = 0 /\ t = 1) as [-> ->] by lia.
    change (iStop popMig 0) with 2. change (iStart popMig 1) with 3. lia.
  - intros s Hs. change (nSpecies popMig) with 2 in Hs.
    assert (s = 0 \/ s = 1) as [-> | ->] by lia; vm_compute; discriminate.
  - change (nNeighbors mpiMig) with 27. lia.
  - change (nSpecies popMig) with 2. lia.
Defined.


(** ** The length of the send buffers *)

Lemma pushEmigrants_dummy (f : Z -> double) (ne : Z) (n : nat) :
  forall (d : Z) (m : MpiInfo) (k : Z),
    emigrantsDummy (forLoop n d 1 (fun d m => pushEmigrant m ne (f d)) m) k
    = if k =? ne then emigrantsDummy m k + Z.of_nat n else emigrantsDummy m k.
Proof.
  induction n as [|n IH]; intros d m k.
  - cbn [forLoop]. destruct (k =? ne); cbn; lia.
  - cbn [forLoop]. rewrite IH. cbn [pushEmigrant emigrantsDummy setEmigrants]. unfold upd.
    destruct (Z.eqb_spec k ne) as [->|]; lia.
Qed.

Lemma removeEmigrantND_dummy (s S nD p pStop ne : Z) (st : Population * MpiInfo) (k : Z) :
  0 <= nD ->
  emigrantsDummy (snd (removeEmigrantND s S nD p pStop ne st)) k
  = if k =? ne then emigrantsDummy (snd st) k + 2 * nD else emigrantsDummy (snd st) k.
Proof.
  intros HD. destruct st as [pop m]. unfold removeEmigrantND, forUp.
  cbn [snd countEmigrant setNEmigrants emigrantsDummy].
  rewrite !pushEmigrants_dummy. destruct (k =? ne); lia.
Qed.

(** a property of the state kept by every removal is kept by the particle
    loop *)
Lemma extractLoopND_preserves (Q : Population * MpiInfo -> Prop) (s S nD : Z) :
  (forall p pStop st, Q st ->
     Q (removeEmigrantND s S nD p pStop
          (neighborND (pos (fst st)) (thresholds (snd st)) nD p) st)) ->
  forall fuel p pStop st st',
    Q st -> extractLoopND fuel s S nD p pStop st = Some st' -> Q st'.
Proof.
  intros Hrem. induction fuel as [|fuel IH]; intros p pStop st st' HQ E;
    cbn [extractLoopND] in E.
  - destruct (p <? pStop); [discriminate | now injection E as <-].
  - destruct (p <? pStop); [|now injection E as <-].
    destruct (negb _).
    + cbv zeta in E. apply (IH _ _ _ _ (Hrem p pStop st HQ) E).
    + apply (IH _ _ _ _ HQ E).
Qed.

(** when the extraction returns, every send buffer has been filled up to
    [2 * nDims] times the emigrants on record for its neighbour *)
Lemma puExtractEmigrantsND_buffer_invariant (pop : Population) (mpiInfo : MpiInfo)
    (pop' : Population) (m' : MpiInfo) (n : Z) :
  1 <= nDims pop ->
  0 <= nSpecies pop ->
  nNeighbors mpiInfo = 3 ^ nDims pop ->
  0 <= n < nNeighbors mpiInfo ->
  puExtractEmigrantsND pop mpiInfo = Some (pop', m') ->
  emigrantsDummy m' n
  = alSum (from (nEmigrants m') (n * nSpecies pop)) (nSpecies pop) * 2 * nDims pop.
Proof.
  intros HD HS HN Hn E.
  set (S := nSpecies pop) in *. set (nD := nDims pop) in *.
  set (Q := fun st : Population * MpiInfo =>
              nNeighbors (snd st) = 3 ^ nD /\
              forall k, 0 <= k < 3 ^ nD ->
                emigrantsDummy (snd st) k
                = alSum (from (nEmigrants (snd st)) (k * S)) S * 2 * nD).
  assert (Hstep : forall s, 0 <= s < S ->
            forall p pStop st, Q st ->
              Q (removeEmigrantND s S nD p pStop
                   (neighborND (pos (fst st)) (thresholds (snd st)) nD p) st)).
  { intros s Hs p pStop [pop1 m1] [HN1 HQ]. cbn [fst snd] in *.
    pose proof (neighborND_range (pos pop1) (thresholds m1) nD p ltac:(lia)) as Hr.
    set (ne := neighborND (pos pop1) (thresholds m1) nD p) in *.
    pose proof (kept_removeEmigrantND S s nD p pStop ne (pop1, m1) Hs
                  ltac:(cbn [snd]; rewrite HN1; exact Hr)) as (_ & HN2 & _).
    cbn [snd] in HN2. split; [congruence|].
    intros k Hk. rewrite removeEmigrantND_dummy by lia. cbn [snd].
    assert (HnE : nEmigrants (snd (removeEmigrantND s S nD p pStop ne (pop1, m1)))
                  = upd (nEmigrants m1) (ne * S + s) (nEmigrants m1 (ne * S + s) + 1)).
    { unfold removeEmigrantND, forUp. cbn [snd countEmigrant setNEmigrants nEmigrants].
      destruct (pushEmigrants_frame (fun d => pos pop1 (p + d)) ne (Z.to_nat (nD - 0)) 0 m1)
        as (_ & _ & _ & D1).
      cbv zeta in D1.
      set (m2 := forLoop (Z.to_nat (nD - 0)) 0 1
                   (fun d m => pushEmigrant m ne (pos pop1 (p + d))) m1) in *.
      destruct (pushEmigrants_frame (fun d => vel pop1 (p + d)) ne (Z.to_nat (nD - 0)) 0 m2)
        as (_ & _ & _ & D2).
      cbv zeta in D2. rewrite D2, D1. reflexivity. }
    rewrite HnE, (HQ k Hk). unfold alSum, from.
    destruct (Z.eqb_spec k ne) as [->|Hkne].
    - rewrite (sumZ_bump (Z.to_nat S) (fun t => nEmigrants m1 (ne * S + t))
                 (fun t => upd (nEmigrants m1) (ne * S + s) (nEmigrants m1 (ne * S + s) + 1)
                             (ne * S + t)) s).
      + ring.
      + lia.
      + intros t Ht Hts. apply upd_other. lia.
      + apply upd_same.
    - f_equal. f_equal. apply sumZ_ext. intros t Ht. symmetry. apply upd_other.
      intros E'. apply index_injective in E'; lia. }
  assert (Hall : forall r, 0 <= r <= S ->
            forall st,
              forUp 0 r
                (fun s res =>
                   match res with
                   | None => None
                   | Some st =>
                       extractLoopND
                         (Z.to_nat (iStop (fst st) s * nD - iStart (fst st) s * nD))
                         s S nD (iStart (fst st) s * nD) (iStop (fst st) s * nD) st
                   end)
                (Some (pop, resetEmigrants S mpiInfo))
              = Some st -> Q st).
  { intros r [Hr0 HrS]. revert HrS. pattern r. apply natlike_ind; [| |exact Hr0]; clear r Hr0.
    - intros _ st E0. rewrite forUp_none in E0 by lia. injection E0 as <-.
      split; [exact HN|]. intros k Hk. cbn [snd].
      unfold resetEmigrants. cbv zeta.
      cbn [emigrantsDummy nEmigrants setNEmigrants setEmigrants nNeighbors].
      unfold forUp. rewrite (forLoop_fill (fun _ _ => 0) (fun _ => 0)) by trivial.
      destruct (Z.leb_spec 0 k), (Z.ltb_spec k (0 + Z.of_nat (Z.to_nat (nNeighbors mpiInfo - 0))));
        try lia. cbn [andb].
      unfold alSum. rewrite sumZ_zero; [lia|]. intros t Ht. unfold from, alSetAll.
      destruct (Z.leb_spec 0 (k * S + t)), (Z.ltb_spec (k * S + t) (S * nNeighbors mpiInfo));
        cbn [andb]; trivial; nia.
    - intros r Hr0 IH HrS st E1. replace (Z.succ r) with (r + 1) in E1 by lia.
      rewrite forUp_succ in E1 by lia.
      destruct (forUp 0 r _ (Some (pop, resetEmigrants S mpiInfo))) as [st0|];
        [|discriminate].
      apply (extractLoopND_preserves Q r S nD (Hstep r ltac:(lia)) _ _ _ _ _
               (IH ltac:(lia) st0 eq_refl) E1). }
  unfold puExtractEmigrantsND in E. cbv zeta in E. fold S nD in E.
  destruct (Hall S ltac:(lia) _ E) as [_ HQ]. cbn [snd] in HQ.
  apply HQ. rewrite <- HN. exact Hn.
Qed.

(** X20: in a neighbourhood of [3^nDims] neighbours [puExtractEmigrantsND]
    returns, and the send buffer of every neighbour [n] has then been filled
    up to the offset [2 * nDims] times the number of emigrants on record for
    [n] over all the species, [alSum(&nEmigrants[n*nSpecies], nSpecies) * 2 *
    nDims]: the length that [exchangeMigrants] sends. *)
Theorem puExtractEmigrantsND_buffer_length (pop : Population) (mpiInfo : MpiInfo) (n : Z) :
  1 <= nDims pop ->
  0 <= nSpecies pop ->
  nNeighbors mpiInfo = 3 ^ nDims pop ->
  0 <= n < nNeighbors mpiInfo ->
  exists pop' m',
    puExtractEmigrantsND pop mpiInfo = Some (pop', m') /\
    emigrantsDummy m' n
    = alSum (from (nEmigrants m') (n * nSpecies pop)) (nSpecies pop) * 2 * nDims pop.
Proof.
  intros HD HS HN Hn.
  destruct (species_kept (nSpecies pop)
              (fun s st =>
                 extractLoopND
                   (Z.to_nat (iStop (fst st) s * nDims pop - iStart (fst st) s * nDims pop))
                   s (nSpecies pop) (nDims pop)
                   (iStart (fst st) s * nDims pop) (iStop (fst st) s * nDims pop) st)
              (3 ^ nDims pop)
              (fun s0 st Hs0 HN0 =>
                 extractLoopND_kept (nSpecies pop) s0 (nDims pop)
                   (Z.to_nat (iStop (fst st) s0 * nDims pop - iStart (fst st) s0 * nDims pop))
                   Hs0 HD (iStart (fst st) s0 * nDims pop) (iStop (fst st) s0 * nDims pop)
                   st HN0 ltac:(lia))
              (pop, resetEmigrants (nSpecies pop) mpiInfo) HN (nSpecies pop) ltac:(lia))
    as ([pop' m'] & E & _).
  exists pop', m'. split; [exact E|].
  apply (puExtractEmigrantsND_buffer_invariant pop mpiInfo pop' m' n); assumption.
Qed.

Lemma puExtractEmigrantsND_buffer_length_witness :
  exists pop' m',
    puExtractEmigrantsND popMig mpiMig = Some (pop', m') /\
    emigrantsDummy m' 14
    = alSum (from (nEmigrants m') (14 * nSpecies popMig)) (nSpecies popMig) * 2 * nDims popMig.
Proof.
  apply (puExtractEmigrantsND_buffer_length popMig mpiMig 14).
  - change (nDims popMig) with 3. lia.
  - change (nSpecies popMig) with 2. lia.
  - reflexivity.
  - change (nNeighbors mpiMig) with 27. lia.
Defined.

(** ** The stencils of the restriction *)

(** X21: on a pair of two-dimensional grids as [halfWeightRestrict2D] takes
    them, the coarse interior node [(j, k)] receives the half-weighted
    stencil of the fine field around the fine node [(2j - 1, 2k - 1)]: an
    eighth of four times that node plus its four neighbours; every other
    element of the coarse grid, its ghost cells included, is left as it
    was. *)
Theorem halfWeightRestrict2D_stencil (fine coarse : Grid) (cT1 cT2 : Z) :
  restrictPair2D fine coarse cT1 cT2 ->
  (forall j k, 1 <= j <= cT1 -> 1 <= k <= cT2 ->
     val (halfWeightRestrict2D fine coarse) (j + k * (cT1 + 2))
     = (d0_125
        * (ofZ 4 * val fine (2 * j - 1 + (2 * k - 1) * (2 * cT1 + 2))%Z
           + val fine (2 * j - 1 + (2 * k - 1) * (2 * cT1 + 2) + 1)%Z
           + val fine (2 * j - 1 + (2 * k - 1) * (2 * cT1 + 2) - 1)%Z
           + val fine (2 * j - 1 + (2 * k - 1) * (2 * cT1 + 2) + (2 * cT1 + 2))%Z
           + val fine (2 * j - 1 + (2 * k - 1) * (2 * cT1 + 2) - (2 * cT1 + 2))%Z))%Qc) /\
  (forall j k, 0 <= j < cT1 + 2 -> ~ (1 <= j <= cT1 /\ 1 <= k <= cT2) ->
     val (halfWeightRestrict2D fine coarse) (j + k * (cT1 + 2))
     = val coarse (j + k * (cT1 + 2))).
Proof.
  intros (Hrank & Hg1 & Hg2 & Hg4 & Hg5 & H1 & H2 & Hs1 & Hs2 & Hcp1 & Hcp2 & Hfp1 & Hfp2 & HnE).
  unfold halfWeightRestrict2D. cbv zeta.
  rewrite Hrank. change (3 + 2) with 5. change (3 + 1) with 4.
  rewrite Hg1, Hg2, Hg4, Hg5, Hs1, Hs2, Hcp1, Hcp2, Hfp1, Hfp2.
  set (C1 := cT1 + 2). set (F1 := 2 * cT1 + 2).
  set (stencil := fun j k : Z =>
                    (d0_125
                     * (ofZ 4 * val fine (2 * j - 1 + (2 * k - 1) * F1)%Z
                        + val fine (2 * j - 1 + (2 * k - 1) * F1 + 1)%Z
                        + val fine (2 * j - 1 + (2 * k - 1) * F1 - 1)%Z
                        + val fine (2 * j - 1 + (2 * k - 1) * F1 + F1)%Z
                        + val fine (2 * j - 1 + (2 * k - 1) * F1 - F1)%Z))%Qc).
  (* the nodes written once [q] nodes of row [r + 1] are done *)
  set (done := fun (r q j' k' : Z) =>
                 1 <= j' <= cT1 /\ (1 <= k' <= r \/ (k' = r + 1 /\ j' <= q))).
  set (I := fun (r q : Z) (st : arr double * Z * Z * Z * Z * Z * Z) =>
              let '(cVal, cc, f, fj, fjj, fk, fkk) := st in
              cc = 1 + q + (1 + r) * C1 /\
              f = 1 + 2 * q + (1 + 2 * r) * F1 /\
              fj = f + 1 /\ fjj = f - 1 /\ fk = f + F1 /\ fkk = f - F1 /\
              forall j' k', 0 <= j' < C1 ->
                (done r q j' k' -> cVal (j' + k' * C1) = stencil j' k') /\
                (~ done r q j' k' -> cVal (j' + k' * C1) = val coarse (j' + k' * C1))).
  assert (Hrow : forall r st, 0 <= r < cT2 -> I r 0 st ->
             I r cT1
               (forUp 1 (C1 - 1)
                  (fun _ '(cVal, cc, f, fj, fjj, fk, fkk) =>
                     (upd cVal cc
                        (d0_125 * (ofZ 4 * val fine f + val fine fj + val fine fjj
                                   + val fine fk + val fine fkk))%Qc,
                      cc + 1, f + 2, fj + 2, fjj + 2, fk + 2, fkk + 2))
                  st)).
  { intros r st Hr Hst. unfold forUp.
    replace cT1 with (Z.of_nat (Z.to_nat (C1 - 1 - 1))) at 1 by (subst C1; lia).
    apply (forLoop_invariant (I r)); [exact Hst|].
    intros q [[[[[[cVal cc] f] fj] fjj] fk] fkk] Hq (Ec & Ef & Efj & Efjj & Efk & Efkk & Hc).
    unfold I.
    refine (conj _ (conj _ (conj _ (conj _ (conj _ (conj _ _)))))); try lia.
    intros j' k' Hj'. destruct (Hc j' k' Hj') as [Hdone Hnot]. unfold done in *.
    destruct (Z.eq_dec (j' + k' * C1) cc) as [E|E].
    - assert (Ejk : j' = q + 1 /\ k' = r + 1).
      { rewrite Ec in E. replace (1 + q + (1 + r) * C1) with ((1 + r) * C1 + (q + 1)) in E by ring.
        rewrite (Z.add_comm j') in E. apply index_injective in E; subst C1; lia. }
      destruct Ejk as [-> ->]. rewrite E, upd_same. split.
      + intros _. unfold stencil. subst fj fjj fk fkk f.
        replace (2 * (q + 1) - 1 + (2 * (r + 1) - 1) * F1) with (1 + 2 * q + (1 + 2 * r) * F1)
          by ring.
        reflexivity.
      + intros Hn. exfalso. apply Hn. subst C1. lia.
    - rewrite upd_other by exact E.
      assert (Hne : ~ (j' = q + 1 /\ k' = r + 1)) by (intros [-> ->]; apply E; subst; ring).
      split.
      + intros Hd. apply Hdone. lia.
      + intros Hn. apply Hnot. lia. }
  assert (Hall : I cT2 0
            (forUp 1 (cT2 + 2 - 1)
               (fun _ st =>
                  let '(cVal, cc, f, fj, fjj, fk, fkk) :=
                    forUp 1 (C1 - 1)
                      (fun _ '(cVal, cc, f, fj, fjj, fk, fkk) =>
                         (upd cVal cc
                            (d0_125 * (ofZ 4 * val fine f + val fine fj + val fine fjj
                                       + val fine fk + val fine fkk))%Qc,
                          cc + 1, f + 2, fj + 2, fjj + 2, fk + 2, fkk + 2))
                      st in
                  (cVal, cc + (1 + 1), f + (1 + 1 + F1), fj + (1 + 1 + F1),
                   fjj + (1 + 1 + F1), fk + (1 + 1 + F1), fkk + (1 + 1 + F1)))
               (val coarse, C1 + 1, F1 + 1, F1 + 1 + 1, F1 + 1 - 1,
                F1 + 1 + F1, F1 + 1 - F1))).
  { unfold forUp at 1.
    replace cT2 with (Z.of_nat (Z.to_nat (cT2 + 2 - 1 - 1))) at 1 by lia.
    apply (forLoop_invariant (fun r => I r 0)).
    - unfold I, done.
      refine (conj _ (conj _ (conj _ (conj _ (conj _ (conj _ _))))));
        try (subst C1 F1; lia).
      intros j' k' Hj'. split; [intros Hd; lia | reflexivity].
    - intros r st Hr Hst. pose proof (Hrow r st ltac:(lia) Hst) as Hend.
      destruct (forUp 1 (C1 - 1) _ st) as [[[[[[cVal cc] f] fj] fjj] fk] fkk].
      destruct Hend as (Ec & Ef & Efj & Efjj & Efk & Efkk & Hc).
      unfold I.
      refine (conj _ (conj _ (conj _ (conj _ (conj _ (conj _ _))))));
        try (subst C1 F1; lia).
      intros j' k' Hj'. destruct (Hc j' k' Hj') as [Hdone Hnot]. unfold done in *. split.
      + intros Hd. apply Hdone. lia.
      + intros Hn. apply Hnot. lia. }
  destruct (forUp 1 (cT2 + 2 - 1) _ _) as [[[[[[cVal cc] f] fj] fjj] fk] fkk].
  destruct Hall as (_ & _ & _ & _ & _ & _ & Hc).
  cbn [val setVal]. unfold done in Hc. split.
  - intros j k Hj Hk. destruct (Hc j k ltac:(subst C1; lia)) as [Hd _].
    rewrite Hd by lia. reflexivity.
  - intros j k Hj Hn. destruct (Hc j k Hj) as [_ Hnot]. apply Hnot. lia.
Qed.

Lemma halfWeightRestrict2D_stencil_witness :
  (forall j k, 1 <= j <= 2 -> 1 <= k <= 2 ->
     val (halfWeightRestrict2D (constSq 4 (ofZ 7)) (gridSq 2)) (j + k * (2 + 2))
     = (d0_125
        * (ofZ 4 * val (constSq 4 (ofZ 7)) (2 * j - 1 + (2 * k - 1) * (2 * 2 + 2))%Z
           + val (constSq 4 (ofZ 7)) (2 * j - 1 + (2 * k - 1) * (2 * 2 + 2) + 1)%Z
           + val (constSq 4 (ofZ 7)) (2 * j - 1 + (2 * k - 1) * (2 * 2 + 2) - 1)%Z
           + val (constSq 4 (ofZ 7)) (2 * j - 1 + (2 * k - 1) * (2 * 2 + 2) + (2 * 2 + 2))%Z
           + val (constSq 4 (ofZ 7))
               (2 * j - 1 + (2 * k - 1) * (2 * 2 + 2) - (2 * 2 + 2))%Z))%Qc) /\
  (forall j k, 0 <= j < 2 + 2 -> ~ (1 <= j <= 2 /\ 1 <= k <= 2) ->
     val (halfWeightRestrict2D (constSq 4 (ofZ 7)) (gridSq 2)) (j + k * (2 + 2))
     = val (gridSq 2) (j + k * (2 + 2))).
Proof.
  apply (halfWeightRestrict2D_stencil (constSq 4 (ofZ 7)) (gridSq 2) 2 2).
  repeat split; try reflexivity; lia.
Defined.


(** X22: on a pair of three-dimensional grids as [halfWeightRestrict3D]
    takes them, the coarse interior node [(j, k, l)] receives the
    half-weighted stencil of the fine field around the fine node
    [(2j - 1, 2k - 1, 2l - 1)]: a twelfth of six times that node plus its six
    neighbours; every other element of the coarse grid, its ghost cells
    included, is left as it was. *)
Theorem halfWeightRestrict3D_stencil (fine coarse : Grid) (cT1 cT2 cT3 : Z) :
  restrictPair3D fine coarse cT1 cT2 cT3 ->
  let C1 := cT1 + 2 in
  let C2 := cT2 + 2 in
  let F1 := 2 * cT1 + 2 in
  let F2 := 2 * cT2 + 2 in
  let node := fun j k l : Z => 2 * j - 1 + (2 * k - 1 + (2 * l - 1) * F2) * F1 in
  (forall j k l, 1 <= j <= cT1 -> 1 <= k <= cT2 -> 1 <= l <= cT3 ->
     val (halfWeightRestrict3D fine coarse) (j + (k + l * C2) * C1)
     = (d1_12
        * (ofZ 6 * val fine (node j k l)
           + val fine (node j k l + 1)%Z + val fine (node j k l - 1)%Z
           + val fine (node j k l + F1)%Z + val fine (node j k l - F1)%Z
           + val fine (node j k l + F1 * F2)%Z + val fine (node j k l - F1 * F2)%Z))%Qc) /\
  (forall j k l, 0 <= j < C1 -> 0 <= k < C2 ->
     ~ (1 <= j <= cT1 /\ 1 <= k <= cT2 /\ 1 <= l <= cT3) ->
     val (halfWeightRestrict3D fine coarse) (j + (k + l * C2) * C1)
     = val coarse (j + (k + l * C2) * C1)).
Proof.
  intros (Hrank & Hg1 & Hg2 & Hg3 & Hg6 & Hg7 & H1 & H2 & H3 & Ht1 & Ht2 & Ht3
          & Hcp1 & Hcp2 & Hcp3 & Hfp1 & Hfp2 & Hfp3 & HnE) C1 C2 F1 F2 node.
  unfold halfWeightRestrict3D. cbv zeta.
  rewrite Hrank. change (4 + 2) with 6. change (4 + 3) with 7.
  rewrite Hg1, Hg2, Hg3, Hg6, Hg7, Ht1, Ht2, Ht3, Hcp1, Hcp2, Hcp3, Hfp1, Hfp2, Hfp3.
  fold C1 C2 F1 F2.
  set (stencil := fun j k l : Z =>
                    (d1_12
                     * (ofZ 6 * val fine (node j k l)
                        + val fine (node j k l + 1)%Z + val fine (node j k l - 1)%Z
                        + val fine (node j k l + F1)%Z + val fine (node j k l - F1)%Z
                        + val fine (node j k l + F1 * F2)%Z
                        + val fine (node j k l - F1 * F2)%Z))%Qc).
  (* the nodes written once [q] nodes of row [r2 + 1] of plane [r3 + 1] are
     done *)
  set (done := fun (r3 r2 q j' k' l' : Z) =>
                 1 <= j' <= cT1 /\ 1 <= k' <= cT2 /\
                 (1 <= l' <= r3 \/ (l' = r3 + 1 /\ k' <= r2)
                  \/ (l' = r3 + 1 /\ k' = r2 + 1 /\ j' <= q))).
  set (I := fun (r3 r2 q : Z) (st : arr double * Z * Z * Z * Z * Z * Z * Z * Z) =>
              let '(cVal, cc, f, fj, fjj, fk, fkk, fl, fll) := st in
              cc = 1 + q + (1 + r2 + (1 + r3) * C2) * C1 /\
              f = 1 + 2 * q + (1 + 2 * r2 + (1 + 2 * r3) * F2) * F1 /\
              fj = f + 1 /\ fjj = f - 1 /\ fk = f + F1 /\ fkk = f - F1 /\
              fl = f + F1 * F2 /\ fll = f - F1 * F2 /\
              forall j' k' l', 0 <= j' < C1 -> 0 <= k' < C2 ->
                (done r3 r2 q j' k' l' -> cVal (j' + (k' + l' * C2) * C1) = stencil j' k' l') /\
                (~ done r3 r2 q j' k' l' ->
                 cVal (j' + (k' + l' * C2) * C1) = val coarse (j' + (k' + l' * C2) * C1))).
  set (row := forUp 0 cT1
                (fun (_ : Z) '(cVal, cc, f, fj, fjj, fk, fkk, fl, fll) =>
                   (upd cVal cc
                      (d1_12 * (ofZ 6 * val fine f + val fine fj + val fine fjj
                                + val fine fk + val fine fkk + val fine fl
                                + val fine fll))%Qc,
                    cc + 1, f + 2, fj + 2, fjj + 2, fk + 2, fkk + 2, fl + 2, fll + 2))).
  assert (Hrow : forall r3 r2 st, 0 <= r3 < cT3 -> 0 <= r2 < cT2 ->
                                  I r3 r2 0 st -> I r3 r2 cT1 (row st)).
  { intros r3 r2 st Hr3 Hr2 Hst. unfold row, forUp.
    replace cT1 with (Z.of_nat (Z.to_nat (cT1 - 0))) at 1 by lia.
    apply (forLoop_invariant (I r3 r2)); [exact Hst|].
    intros q [[[[[[[[cVal cc] f] fj] fjj] fk] fkk] fl] fll] Hq
           (Ec & Ef & Efj & Efjj & Efk & Efkk & Efl & Efll & Hc).
    unfold I.
    refine (conj _ (conj _ (conj _ (conj _ (conj _ (conj _ (conj _ (conj _ _))))))));
      try lia.
    intros j' k' l' Hj' Hk'. destruct (Hc j' k' l' Hj' Hk') as [Hdone Hnot].
    unfold done in *.
    destruct (Z.eq_dec (j' + (k' + l' * C2) * C1) cc) as [E|E].
    - assert (Ejkl : j' = q + 1 /\ k' = r2 + 1 /\ l' = r3 + 1).
      { rewrite Ec in E.
        replace (j' + (k' + l' * C2) * C1) with ((l' * C2 + k') * C1 + j') in E by ring.
        replace (1 + q + (1 + r2 + (1 + r3) * C2) * C1)
          with (((1 + r3) * C2 + (r2 + 1)) * C1 + (q + 1)) in E by ring.
        apply index_injective in E; [|subst C1; lia|subst C1; lia].
        destruct E as [E ->]. apply index_injective in E; subst C2; lia. }
      destruct Ejkl as (-> & -> & ->). rewrite E, upd_same. split.
      + intros _. unfold stencil, node. subst fj fjj fk fkk fl fll f.
        replace (2 * (q + 1) - 1 + (2 * (r2 + 1) - 1 + (2 * (r3 + 1) - 1) * F2) * F1)
          with (1 + 2 * q + (1 + 2 * r2 + (1 + 2 * r3) * F2) * F1) by ring.
        reflexivity.
      + intros Hn. exfalso. apply Hn. lia.
    - rewrite upd_other by exact E.
      assert (Hne : ~ (j' = q + 1 /\ k' = r2 + 1 /\ l' = r3 + 1))
        by (intros (-> & -> & ->); apply E; subst; ring).
      split.
      + intros Hd. apply Hdone. lia.
      + intros Hn. apply Hnot. lia. }
  set (plane := forUp 0 cT2
                  (fun (_ : Z) st =>
                     let '(cVal, cc, f, fj, fjj, fk, fkk, fl, fll) := row st in
                     (cVal, cc + (1 + 1), f + (1 + 1 + F1), fj + (1 + 1 + F1),
                      fjj + (1 + 1 + F1), fk + (1 + 1 + F1), fkk + (1 + 1 + F1),
                      fl + (1 + 1 + F1), fll + (1 + 1 + F1)))).
  assert (Hplane : forall r3 st, 0 <= r3 < cT3 -> I r3 0 0 st -> I r3 cT2 0 (plane st)).
  { intros r3 st Hr3 Hst. unfold plane, forUp.
    replace cT2 with (Z.of_nat (Z.to_nat (cT2 - 0))) at 1 by lia.
    apply (forLoop_invariant (fun r2 => I r3 r2 0)); [exact Hst|].
    intros r2 st' Hr2 Hst'. pose proof (Hrow r3 r2 st' Hr3 ltac:(lia) Hst') as Hend.
    destruct (row st') as [[[[[[[[cVal cc] f] fj] fjj] fk] fkk] fl] fll].
    destruct Hend as (Ec & Ef & Efj & Efjj & Efk & Efkk & Efl & Efll & Hc).
    unfold I.
    refine (conj _ (conj _ (conj _ (conj _ (conj _ (conj _ (conj _ (conj _ _))))))));
      try (subst C1 F1; lia).
    intros j' k' l' Hj' Hk'. destruct (Hc j' k' l' Hj' Hk') as [Hdone Hnot].
    unfold done in *. split.
    + intros Hd. apply Hdone. lia.
    + intros Hn. apply Hnot. lia. }
  assert (Hall : I cT3 0 0
            (forUp 0 cT3
               (fun (_ : Z) st =>
                  let '(cVal, cc, f, fj, fjj, fk, fkk, fl, fll) := plane st in
                  (cVal, cc + (1 + 1) * C1, f + ((1 + 1) * F1 + F1 * F2),
                   fj + ((1 + 1) * F1 + F1 * F2), fjj + ((1 + 1) * F1 + F1 * F2),
                   fk + ((1 + 1) * F1 + F1 * F2), fkk + ((1 + 1) * F1 + F1 * F2),
                   fl + ((1 + 1) * F1 + F1 * F2), fll + ((1 + 1) * F1 + F1 * F2)))
               (val coarse, 1 * 1 + C1 * 1 + C1 * C2 * 1, 1 * 1 + F1 * 1 + F1 * F2 * 1,
                1 * 1 + F1 * 1 + F1 * F2 * 1 + 1, 1 * 1 + F1 * 1 + F1 * F2 * 1 - 1,
                1 * 1 + F1 * 1 + F1 * F2 * 1 + F1, 1 * 1 + F1 * 1 + F1 * F2 * 1 - F1,
                1 * 1 + F1 * 1 + F1 * F2 * 1 + F1 * F2,
                1 * 1 + F1 * 1 + F1 * F2 * 1 - F1 * F2))).
  { unfold forUp at 1.
    replace cT3 with (Z.of_nat (Z.to_nat (cT3 - 0))) at 1 by lia.
    apply (forLoop_invariant (fun r3 => I r3 0 0)).
    - unfold I, done.
      refine (conj _ (conj _ (conj _ (conj _ (conj _ (conj _ (conj _ (conj _ _))))))));
        try lia.
      intros j' k' l' Hj' Hk'. split; [intros Hd; lia | reflexivity].
    - intros r3 st Hr3 Hst. pose proof (Hplane r3 st ltac:(lia) Hst) as Hend.
      destruct (plane st) as [[[[[[[[cVal cc] f] fj] fjj] fk] fkk] fl] fll].
      destruct Hend as (Ec & Ef & Efj & Efjj & Efk & Efkk & Efl & Efll & Hc).
      unfold I.
      refine (conj _ (conj _ (conj _ (conj _ (conj _ (conj _ (conj _ (conj _ _))))))));
        try (subst C2 F2; lia).
      intros j' k' l' Hj' Hk'. destruct (Hc j' k' l' Hj' Hk') as [Hdone Hnot].
      unfold done in *. split.
      + intros Hd. apply Hdone. lia.
      + intros Hn. apply Hnot. lia. }
  fold row. fold plane.
  destruct (forUp 0 cT3 _ _) as [[[[[[[[cVal cc] f] fj] fjj] fk] fkk] fl] fll].
  destruct Hall as (_ & _ & _ & _ & _ & _ & _ & _ & Hc).
  cbn [val setVal]. unfold done in Hc. split.
  - intros j k l Hj Hk Hl.
    destruct (Hc j k l ltac:(subst C1; lia) ltac:(subst C2; lia)) as [Hd _].
    rewrite Hd by lia. reflexivity.
  - intros j k l Hj Hk Hn. destruct (Hc j k l Hj Hk) as [_ Hnot]. apply Hnot. lia.
Qed.

Lemma halfWeightRestrict3D_stencil_witness :
  (forall j k l, 1 <= j <= 2 -> 1 <= k <= 2 -> 1 <= l <= 2 ->
     val (halfWeightRestrict3D (constCube 4 (ofZ 7)) (gridCube 2))
       (j + (k + l * (2 + 2)) * (2 + 2))
     = (d1_12
        * (ofZ 6 * val (constCube 4 (ofZ 7))
                     (2 * j - 1 + (2 * k - 1 + (2 * l - 1) * (2 * 2 + 2)) * (2 * 2 + 2))%Z
           + val (constCube 4 (ofZ 7))
               (2 * j - 1 + (2 * k - 1 + (2 * l - 1) * (2 * 2 + 2)) * (2 * 2 + 2) + 1)%Z
           + val (constCube 4 (ofZ 7))
               (2 * j - 1 + (2 * k - 1 + (2 * l - 1) * (2 * 2 + 2)) * (2 * 2 + 2) - 1)%Z
           + val (constCube 4 (ofZ 7))
               (2 * j - 1 + (2 * k - 1 + (2 * l - 1) * (2 * 2 + 2)) * (2 * 2 + 2)
                + (2 * 2 + 2))%Z
           + val (constCube 4 (ofZ 7))
               (2 * j - 1 + (2 * k - 1 + (2 * l - 1) * (2 * 2 + 2)) * (2 * 2 + 2)
                - (2 * 2 + 2))%Z
           + val (constCube 4 (ofZ 7))
               (2 * j - 1 + (2 * k - 1 + (2 * l - 1) * (2 * 2 + 2)) * (2 * 2 + 2)
                + (2 * 2 + 2) * (2 * 2 + 2))%Z
           + val (constCube 4 (ofZ 7))
               (2 * j - 1 + (2 * k - 1 + (2 * l - 1) * (2 * 2 + 2)) * (2 * 2 + 2)
                - (2 * 2 + 2) * (2 * 2 + 2))%Z))%Qc) /\
  (forall j k l, 0 <= j < 2 + 2 -> 0 <= k < 2 + 2 ->
     ~ (1 <= j <= 2 /\ 1 <= k <= 2 /\ 1 <= l <= 2) ->
     val (halfWeightRestrict3D (constCube 4 (ofZ 7)) (gridCube 2))
       (j + (k + l * (2 + 2)) * (2 + 2))
     = val (gridCube 2) (j + (k + l * (2 + 2)) * (2 + 2))).
Proof.
  apply (halfWeightRestrict3D_stencil (constCube 4 (ofZ 7)) (gridCube 2) 2 2 2).
  repeat split; try reflexivity; lia.
Defined.


(** ** The red-black Gauss-Seidel solver in two dimensions *)

(** one row of [loopRedBlack2D]: [n] nodes two apart from [g0] on, in a
    grid whose rows are [W] apart *)
Lemma loopRedBlack2D_row (rhoVal : arr double) (W : Z) (n : nat) :
  forall (i : Z) (phi0 : arr double) (g0 : Z),
    2 * Z.of_nat n < W ->
    exists phi,
      forLoop n i 2
        (fun (j : Z) '(phiVal, g, gj, gjj, gk, gkk) =>
           (upd phiVal g
              (d0_25 * (phiVal gj + phiVal gjj + phiVal gk + phiVal gkk + rhoVal g))%Qc,
            g + 2, gj + 2, gjj + 2, gk + 2, gkk + 2))
        (phi0, g0, g0 + 1, g0 - 1, g0 + W, g0 - W)
      = (phi, g0 + 2 * Z.of_nat n, g0 + 2 * Z.of_nat n + 1, g0 + 2 * Z.of_nat n - 1,
         g0 + 2 * Z.of_nat n + W, g0 + 2 * Z.of_nat n - W) /\
      (forall q, 0 <= q < Z.of_nat n ->
         phi (g0 + 2 * q) = relax2D phi0 rhoVal W (g0 + 2 * q)) /\
      (forall k, (forall q, 0 <= q < Z.of_nat n -> k <> g0 + 2 * q) -> phi k = phi0 k).
Proof.
  induction n as [|n IH]; intros i phi0 g0 HW.
  - exists phi0. cbn [forLoop]. split; [|split].
    + repeat (f_equal; try lia).
    + intros q Hq. lia.
    + reflexivity.
  - rewrite forLoop_snoc.
    destruct (IH i phi0 g0 ltac:(lia)) as (phi & E & HA & HB).
    rewrite E. cbv beta iota.
    eexists. split; [|split].
    + repeat (f_equal; try lia).
    + intros q Hq.
      destruct (Z.eq_dec q (Z.of_nat n)) as [->|Hne].
      * rewrite upd_same. unfold relax2D.
        rewrite !HB by (intros q' Hq'; lia).
        repeat (f_equal; try lia).
      * rewrite upd_other by lia. apply HA. lia.
    + intros k Hk. rewrite upd_other by (apply Hk; lia).
      apply HB. intros q Hq. apply Hk. lia.
Qed.

(** the rows of [loopRedBlack2D]: [nb] rows two apart, from the node at
    column [j0] of row [k0] on *)
Lemma loopRedBlack2D_rows (rhoVal : arr double) (W a j0 k0 kEdgeInc : Z) (nb : nat) :
  forall (i : Z) (phi0 : arr double),
    0 <= a -> W = 2 * a + 2 -> kEdgeInc = W + 2 -> 0 <= j0 <= 3 ->
    exists phi,
      forLoop nb i 2
        (fun (k : Z) st =>
           let '(phiVal, g, gj, gjj, gk, gkk) :=
             forLoop (Z.to_nat a) 1 2
               (fun (j : Z) '(phiVal, g, gj, gjj, gk, gkk) =>
                  (upd phiVal g
                     (d0_25 * (phiVal gj + phiVal gjj + phiVal gk + phiVal gkk + rhoVal g))%Qc,
                   g + 2, gj + 2, gjj + 2, gk + 2, gkk + 2))
               st in
           (phiVal, g + kEdgeInc, gj + kEdgeInc, gjj + kEdgeInc, gk + kEdgeInc,
            gkk + kEdgeInc))
        (phi0, k0 * W + j0, k0 * W + j0 + 1, k0 * W + j0 - 1,
         k0 * W + j0 + W, k0 * W + j0 - W)
      = (phi, (k0 + 2 * Z.of_nat nb) * W + j0, (k0 + 2 * Z.of_nat nb) * W + j0 + 1,
         (k0 + 2 * Z.of_nat nb) * W + j0 - 1, (k0 + 2 * Z.of_nat nb) * W + j0 + W,
         (k0 + 2 * Z.of_nat nb) * W + j0 - W) /\
      (forall q r, 0 <= q < a -> 0 <= r < Z.of_nat nb ->
         phi ((k0 + 2 * r) * W + (j0 + 2 * q))
         = relax2D phi0 rhoVal W ((k0 + 2 * r) * W + (j0 + 2 * q))) /\
      (forall g, (forall q r, 0 <= q < a -> 0 <= r < Z.of_nat nb ->
                              g <> (k0 + 2 * r) * W + (j0 + 2 * q)) ->
                 phi g = phi0 g).
Proof.
  intros i phi0 Ha HW HkE Hj0.
  induction nb as [|nb IH].
  - exists phi0. cbn [forLoop]. split; [|split].
    + repeat (f_equal; try lia).
    + intros q r Hq Hr. lia.
    + reflexivity.
  - rewrite forLoop_snoc.
    destruct IH as (phi & E & HA & HB).
    rewrite E.
    destruct (loopRedBlack2D_row rhoVal W (Z.to_nat a) 1 phi
                ((k0 + 2 * Z.of_nat nb) * W + j0) ltac:(lia)) as (phi' & E' & HA' & HB').
    rewrite E'. cbv beta iota. rewrite Z2Nat.id in * by lia.
    exists phi'. split; [|split].
    + repeat (f_equal; try lia).
    + intros q r Hq Hr.
      destruct (Z.eq_dec r (Z.of_nat nb)) as [->|Hne].
      * replace ((k0 + 2 * Z.of_nat nb) * W + (j0 + 2 * q))
          with ((k0 + 2 * Z.of_nat nb) * W + j0 + 2 * q) by lia.
        rewrite HA' by lia. unfold relax2D. 
        rewrite !HB; [reflexivity| | | |]; intros q' r' Hq' Hr' Heq.
        -- destruct (index_injective W (k0 + 2 * Z.of_nat nb - 1) (j0 + 2 * q)
                       (k0 + 2 * r') (j0 + 2 * q')); lia.
        -- destruct (index_injective W (k0 + 2 * Z.of_nat nb + 1) (j0 + 2 * q)
                       (k0 + 2 * r') (j0 + 2 * q')); lia.
        -- lia.
        -- lia.
      * rewrite HB'.
        -- apply HA; lia.
        -- intros q' Hq' Heq.
           destruct (index_injective W (k0 + 2 * r) (j0 + 2 * q)
                       (k0 + 2 * Z.of_nat nb) (j0 + 2 * q')); lia.
    + intros g Hg. rewrite HB'.
      * apply HB. intros q r Hq Hr. apply Hg; lia.
      * intros q Hq Heq. apply (Hg q (Z.of_nat nb)); lia.
Qed.

(** [loopRedBlack2D] on a grid with an interior of [2a x 2b] nodes and one
    ghost layer on every side, started at column [j0] of row [k0]: the nodes
    two apart in either direction from the start take the relaxed value
    formed from the field on entry, and no other element is written. *)
Lemma loopRedBlack2D_spec (rhoVal phiVal : arr double) (sizeProd_ trueSize_ : arr Z)
    (W a b j0 k0 kEdgeInc : Z) :
  0 <= a -> 0 <= b -> W = 2 * a + 2 -> kEdgeInc = W + 2 -> 0 <= j0 <= 3 ->
  sizeProd_ 1 = 1 -> sizeProd_ 2 = W -> trueSize_ 1 = 2 * a -> trueSize_ 2 = 2 * b ->
  (forall q r, 0 <= q < a -> 0 <= r < b ->
     loopRedBlack2D rhoVal phiVal sizeProd_ trueSize_ kEdgeInc (k0 * W + j0)
       ((k0 + 2 * r) * W + (j0 + 2 * q))
     = relax2D phiVal rhoVal W ((k0 + 2 * r) * W + (j0 + 2 * q))) /\
  (forall g, (forall q r, 0 <= q < a -> 0 <= r < b ->
                          g <> (k0 + 2 * r) * W + (j0 + 2 * q)) ->
     loopRedBlack2D rhoVal phiVal sizeProd_ trueSize_ kEdgeInc (k0 * W + j0) g
     = phiVal g).
Proof.
  intros Ha Hb HW HkE Hj0 Hs1 Hs2 Ht1 Ht2.
  unfold loopRedBlack2D, forStep. rewrite Hs1, Hs2, Ht1, Ht2.
  replace ((2 * a - 1 + 2 - 1) / 2) with a
    by (apply (Z.div_unique_pos _ 2 a 0); lia).
  replace ((2 * b - 1 + 2 - 1) / 2) with b
    by (apply (Z.div_unique_pos _ 2 b 0); lia).
  destruct (loopRedBlack2D_rows rhoVal W a j0 k0 kEdgeInc (Z.to_nat b) 1 phiVal
              Ha HW HkE Hj0) as (phi & E & HA & HB).
  rewrite E. rewrite Z2Nat.id in * by lia.
  split; [exact HA | exact HB].
Qed.

(** an exchange keeps the shape of the grid *)
Lemma swapGhosts_shape (swap : Grid -> MpiInfo -> Z -> Grid) (rk : Z) (m : MpiInfo) (g : Grid) :
  exchangeContract swap -> sameShape g (swapGhosts swap rk m g).
Proof.
  intros Hc. unfold swapGhosts, forUp.
  apply (exchanges_frame swap Hc m (-1)). intros d Hd. reflexivity.
Qed.

Lemma grid2D_sameShape (g g' : Grid) (T1 T2 : Z) :
  grid2D g T1 T2 -> sameShape g g' -> grid2D g' T1 T2.
Proof.
  unfold grid2D. intros H (A & B & C & D & E). rewrite A, B, C, D, E. exact H.
Qed.

(** the interior nodes lie in no ghost layer *)
Lemma grid2D_interior (g : Grid) (T1 T2 j k d : Z) :
  grid2D g T1 T2 -> 1 <= j <= T1 -> 1 <= k <= T2 -> 1 <= d < 3 ->
  ghostCell g d (k * (T1 + 2) + j) = false.
Proof.
  intros (Hr & G1 & G2 & G4 & G5 & _ & _ & S1 & S2 & P1 & P2 & P3) Hj Hk Hd.
  unfold ghostCell, coordAlong, nElems. rewrite Hr.
  apply andb_false_iff. right.
  assert (Hd' : d = 1 \/ d = 2) by lia. destruct Hd' as [-> | ->].
  - rewrite P1, S1, G1. change (3 + 1) with 4. rewrite G4. rewrite Z.div_1_r.
    rewrite <- (Z.mod_unique_pos (k * (T1 + 2) + j) (T1 + 2) k j) by lia.
    apply orb_false_iff. split; [apply Z.ltb_ge | apply Z.leb_gt]; lia.
  - rewrite P2, S2, G2. change (3 + 2) with 5. rewrite G5.
    rewrite <- (Z.div_unique_pos (k * (T1 + 2) + j) (T1 + 2) k j) by lia.
    rewrite Z.mod_small by lia.
    apply orb_false_iff. split; [apply Z.ltb_ge | apply Z.leb_gt]; lia.
Qed.

(** the nodes of odd [j + k] are those of the two sweeps of the black pass *)
Lemma black_nodes (a b j k : Z) :
  1 <= j <= 2 * a -> 1 <= k <= 2 * b -> Z.odd (j + k) = true ->
  (exists q r, 0 <= q < a /\ 0 <= r < b /\ j = 2 + 2 * q /\ k = 1 + 2 * r) \/
  (exists q r, 0 <= q < a /\ 0 <= r < b /\ j = 1 + 2 * q /\ k = 2 + 2 * r).
Proof.
  intros Hj Hk Ho. apply Z.odd_spec in Ho. destruct Ho as [m Hm].
  pose proof (Z.div_mod j 2 ltac:(lia)) as Hd.
  pose proof (Z.mod_pos_bound j 2 ltac:(lia)) as Hb.
  assert (Hc : j mod 2 = 0 \/ j mod 2 = 1) by lia. destruct Hc as [Hc | Hc].
  - left. exists (j / 2 - 1), (m - j / 2). lia.
  - right. exists (j / 2), (m - j / 2 - 1). lia.
Qed.

(** after the two sweeps of the black pass every interior node of odd
    [j + k] holds the relaxed value of its four neighbours *)
Lemma blackPass_relaxed (rhoVal phiVal : arr double) (sizeProd_ trueSize_ : arr Z)
    (W a b kEdgeInc j k : Z) :
  0 <= a -> 0 <= b -> W = 2 * a + 2 -> kEdgeInc = W + 2 ->
  sizeProd_ 1 = 1 -> sizeProd_ 2 = W -> trueSize_ 1 = 2 * a -> trueSize_ 2 = 2 * b ->
  1 <= j <= 2 * a -> 1 <= k <= 2 * b -> Z.odd (j + k) = true ->
  let black :=
    loopRedBlack2D rhoVal
      (loopRedBlack2D rhoVal phiVal sizeProd_ trueSize_ kEdgeInc (1 * W + 2))
      sizeProd_ trueSize_ kEdgeInc (2 * W + 1) in
  black (k * W + j) = relax2D black rhoVal W (k * W + j).
Proof.
  intros Ha Hb HW HkE Hs1 Hs2 Ht1 Ht2 Hj Hk Ho black.
  destruct (loopRedBlack2D_spec rhoVal phiVal sizeProd_ trueSize_ W a b 2 1 kEdgeInc
              Ha Hb HW HkE ltac:(lia) Hs1 Hs2 Ht1 Ht2) as [A1 B1].
  set (first := loopRedBlack2D rhoVal phiVal sizeProd_ trueSize_ kEdgeInc (1 * W + 2)) in *.
  destruct (loopRedBlack2D_spec rhoVal first sizeProd_ trueSize_ W a b 1 2 kEdgeInc
              Ha Hb HW HkE ltac:(lia) Hs1 Hs2 Ht1 Ht2) as [A2 B2].
  fold black in A2, B2.
  (* the four neighbours are written by neither sweep *)
  assert (Hn : forall g, g = k * W + j + 1 \/ g = k * W + j - 1 \/
                         g = k * W + j + W \/ g = k * W + j - W ->
                         black g = phiVal g).
  { intros g Hg.
    assert (Hg' : exists k' j', g = k' * W + j' /\ 0 <= j' < W /\ Z.odd (j' + k') = false).
    { assert (Hev : Z.odd (j + k + 1) = false).
      { replace (j + k + 1) with (Z.succ (j + k)) by lia.
        rewrite Z.odd_succ. rewrite <- Z.negb_odd. now rewrite Ho. }
      destruct Hg as [-> | [-> | [-> | ->]]].
      - exists k, (j + 1). split; [lia|]. split; [lia|].
        now replace (j + 1 + k) with (j + k + 1) by lia.
      - exists k, (j - 1). split; [lia|]. split; [lia|].
        replace (j - 1 + k) with (j + k + 1 + 2 * (-1)) by lia.
        now rewrite Z.odd_add_mul_2.
      - exists (k + 1), j. split; [lia|]. split; [lia|].
        now replace (j + (k + 1)) with (j + k + 1) by lia.
      - exists (k - 1), j. split; [lia|]. split; [lia|].
        replace (j + (k - 1)) with (j + k + 1 + 2 * (-1)) by lia.
        now rewrite Z.odd_add_mul_2. }
    destruct Hg' as (k' & j' & -> & Hj' & Hodd).
    rewrite B2, B1; [reflexivity| |]; intros q r Hq Hr Heq.
    - destruct (index_injective W k' j' (1 + 2 * r) (2 + 2 * q)) as [-> ->]; [lia..|].
      replace (2 + 2 * q + (1 + 2 * r)) with (1 + 2 * (q + r + 1)) in Hodd by lia.
      rewrite Z.odd_add_mul_2 in Hodd. discriminate.
    - destruct (index_injective W k' j' (2 + 2 * r) (1 + 2 * q)) as [-> ->]; [lia..|].
      replace (1 + 2 * q + (2 + 2 * r)) with (1 + 2 * (q + r + 1)) in Hodd by lia.
      rewrite Z.odd_add_mul_2 in Hodd. discriminate. }
  assert (Hrel : relax2D black rhoVal W (k * W + j) = relax2D phiVal rhoVal W (k * W + j)).
  { unfold relax2D. rewrite !Hn by tauto. reflexivity. }
  assert (Hfirst : relax2D first rhoVal W (k * W + j) = relax2D phiVal rhoVal W (k * W + j)).
  { unfold relax2D.
    assert (Hf : forall g, g = k * W + j + 1 \/ g = k * W + j - 1 \/
                           g = k * W + j + W \/ g = k * W + j - W ->
                           first g = phiVal g).
    { intros g Hg.
      assert (Hbg : black g = first g -> first g = phiVal g)
        by (intros E; rewrite <- E; apply Hn, Hg).
      apply Hbg. apply B2. intros q r Hq Hr Heq. subst g.
      destruct Hg as [Hg | [Hg | [Hg | Hg]]].
      all: destruct (black_nodes a b j k Hj Hk Ho) as [(q' & r' & Hq' & Hr' & -> & ->)
                                                       | (q' & r' & Hq' & Hr' & -> & ->)].
      1: destruct (index_injective W (1 + 2 * r') (2 + 2 * q' + 1) (2 + 2 * r) (1 + 2 * q));
           lia.
      1: destruct (index_injective W (2 + 2 * r') (1 + 2 * q' + 1) (2 + 2 * r) (1 + 2 * q));
           lia.
      1: destruct (index_injective W (1 + 2 * r') (2 + 2 * q' - 1) (2 + 2 * r) (1 + 2 * q));
           lia.
      1: destruct (index_injective W (2 + 2 * r') (1 + 2 * q' - 1) (2 + 2 * r) (1 + 2 * q));
           lia.
      1: destruct (index_injective W (1 + 2 * r' + 1) (2 + 2 * q') (2 + 2 * r) (1 + 2 * q));
           lia.
      1: destruct (index_injective W (2 + 2 * r' + 1) (1 + 2 * q') (2 + 2 * r) (1 + 2 * q));
           lia.
      1: destruct (index_injective W (1 + 2 * r' - 1) (2 + 2 * q') (2 + 2 * r) (1 + 2 * q));
           lia.
      1: destruct (index_injective W (2 + 2 * r' - 1) (1 + 2 * q') (2 + 2 * r) (1 + 2 * q));
           lia. }
    rewrite !Hf by tauto. reflexivity. }
  rewrite Hrel.
  destruct (black_nodes a b j k Hj Hk Ho) as [(q & r & Hq & Hr & -> & ->)
                                             | (q & r & Hq & Hr & -> & ->)].
  - (* written by the first sweep, kept by the second *)
    rewrite B2.
    + replace ((1 + 2 * r) * W + (2 + 2 * q)) with ((1 + 2 * r) * W + (2 + 2 * q)) by lia.
      apply A1; lia.
    + intros q' r' Hq' Hr' Heq.
      destruct (index_injective W (1 + 2 * r) (2 + 2 * q) (2 + 2 * r') (1 + 2 * q')); lia.
  - rewrite A2 by lia. exact Hfirst.
Qed.

Lemma gaussSeidel2D_cycle_shape (swap : Grid -> MpiInfo -> Z -> Grid) (phi0 rho : Grid)
    (m : MpiInfo) (g : Grid) :
  exchangeContract swap -> sameShape g (gaussSeidel2D_cycle swap phi0 rho m g).
Proof.
  intros Hc. unfold gaussSeidel2D_cycle. cbv zeta.
  eapply sameShape_trans; [|apply swapGhosts_shape, Hc].
  eapply sameShape_trans; [|apply sameShape_setVal].
  eapply sameShape_trans; [|apply swapGhosts_shape, Hc].
  apply sameShape_setVal.
Qed.

Lemma gaussSeidel2D_shape (swap : Grid -> MpiInfo -> Z -> Grid) (phi rho : Grid)
    (m : MpiInfo) (c : Z) :
  exchangeContract swap -> 0 <= c -> sameShape phi (gaussSeidel2D swap phi rho c m).
Proof.
  intros Hc Hc0. pattern c. apply natlike_ind; [| |exact Hc0]; clear c Hc0.
  - apply sameShape_refl.
  - intros c Hc0 IH. replace (Z.succ c) with (c + 1) by lia.
    unfold gaussSeidel2D in *. rewrite forUp_succ by assumption.
    eapply sameShape_trans; [exact IH|]. apply gaussSeidel2D_cycle_shape, Hc.
Qed.

(** X23: [gaussSeidel2D] returns a field in which the black nodes are relaxed.
    On a two-dimensional grid with an interior of [2a x 2b] nodes and one
    ghost layer on every side, with an exchange that keeps the shape of the
    grid and writes ghost cells only, and at least one cycle: at every node
    [(j, k)] of odd [j + k] whose four neighbours are interior nodes, the
    returned field satisfies
    [phi(j,k) = 0.25 (phi(j+1,k) + phi(j-1,k) + phi(j,k+1) + phi(j,k-1) + rho(j,k))]
    exactly, whatever the field on entry and however many cycles were run.
    The source term enters with a plus sign. *)
Theorem gaussSeidel2D_black_nodes_relaxed
    (gSwapGhostsDim : Grid -> MpiInfo -> Z -> Grid)
    (phi rho : Grid) (mpiInfo : MpiInfo) (nCycles a b j k : Z) :
  exchangeContract gSwapGhostsDim ->
  grid2D phi (2 * a) (2 * b) ->
  1 <= nCycles ->
  2 <= j <= 2 * a - 1 -> 2 <= k <= 2 * b - 1 -> Z.odd (j + k) = true ->
  val (gaussSeidel2D gSwapGhostsDim phi rho nCycles mpiInfo) (k * (2 * a + 2) + j)
  = relax2D (val (gaussSeidel2D gSwapGhostsDim phi rho nCycles mpiInfo)) (val rho)
      (2 * a + 2) (k * (2 * a + 2) + j).
Proof.
  intros Hc Hg Hn Hj Hk Ho.
  pose proof (gaussSeidel2D_shape gSwapGhostsDim phi rho mpiInfo (nCycles - 1) Hc ltac:(lia))
    as Hshape.
  unfold gaussSeidel2D in *.
  replace nCycles with (nCycles - 1 + 1) at 1 2 by lia.
  rewrite forUp_succ by lia.
  set (entering := forUp 0 (nCycles - 1)
                     (fun (_ : Z) (phi' : Grid) =>
                        gaussSeidel2D_cycle gSwapGhostsDim phi rho mpiInfo phi') phi) in *.
  unfold gaussSeidel2D_cycle. cbv zeta.
  set (mid := swapGhosts gSwapGhostsDim (rank phi) mpiInfo (setVal entering _)).
  assert (Hmid : sameShape phi mid).
  { eapply sameShape_trans; [exact Hshape|].
    eapply sameShape_trans; [apply sameShape_setVal|].
    apply swapGhosts_shape, Hc. }
  pose proof Hg as (Hr & G1 & G2 & G4 & G5 & T1 & T2 & S1 & S2 & P1 & P2 & P3).
  rewrite Hr, G1, G2, P2. change (3 + 2) with 5. rewrite G5.
  set (W := 2 * a + 2) in *.
  replace (1 + 1 + W) with (1 * W + 2) by lia.
  replace (1 + 2 * W) with (2 * W + 1) by lia.
  set (black := loopRedBlack2D (val rho)
                  (loopRedBlack2D (val rho) (val mid) (sizeProd phi) (trueSize phi)
                     (1 * W + 2) (1 * W + 2))
                  (sizeProd phi) (trueSize phi) (1 * W + 2) (2 * W + 1)).
  assert (Hframe : forall j' k', 1 <= j' <= 2 * a -> 1 <= k' <= 2 * b ->
            val (swapGhosts gSwapGhostsDim 3 mpiInfo (setVal mid black)) (k' * W + j')
            = black (k' * W + j')).
  { intros j' k' Hj' Hk'. unfold swapGhosts, forUp.
    destruct (exchanges_frame gSwapGhostsDim Hc mpiInfo (k' * W + j') (Z.to_nat (3 - 1)) 1
                (setVal mid black)) as [_ Hv]; [|exact Hv].
    intros d Hd.
    rewrite (ghostCell_sameShape phi)
      by (eapply sameShape_trans; [exact Hmid | apply sameShape_setVal]).
    apply (grid2D_interior phi (2 * a) (2 * b)); [exact Hg | lia..]. }
  unfold relax2D.
  replace (k * W + j + 1) with (k * W + (j + 1)) by lia.
  replace (k * W + j - 1) with (k * W + (j - 1)) by lia.
  replace (k * W + j + W) with ((k + 1) * W + j) by lia.
  replace (k * W + j - W) with ((k - 1) * W + j) by lia.
  rewrite !Hframe by lia.
  pose proof (blackPass_relaxed (val rho) (val mid) (sizeProd phi) (trueSize phi)
                W a b (1 * W + 2) j k) as Hb.
  cbv zeta in Hb. fold black in Hb. unfold relax2D in Hb.
  replace (k * W + (j + 1)) with (k * W + j + 1) by lia.
  replace (k * W + (j - 1)) with (k * W + j - 1) by lia.
  replace ((k + 1) * W + j) with (k * W + j + W) by lia.
  replace ((k - 1) * W + j) with (k * W + j - W) by lia.
  apply Hb; try lia; try assumption.
Qed.

Lemma gaussSeidel2D_black_nodes_relaxed_witness :
  val (gaussSeidel2D gSwapGhostsDimPeriodic (setVal (gridSq 4) ofZ) rhoSmall 1 mpiMig)
      (3 * (2 * 2 + 2) + 2)
  = relax2D (val (gaussSeidel2D gSwapGhostsDimPeriodic (setVal (gridSq 4) ofZ) rhoSmall 1
                    mpiMig))
      (val rhoSmall) (2 * 2 + 2) (3 * (2 * 2 + 2) + 2).
Proof.
  apply (gaussSeidel2D_black_nodes_relaxed gSwapGhostsDimPeriodic
           (setVal (gridSq 4) ofZ) rhoSmall mpiMig 1 2 2 2 3).
  - exact gSwapGhostsDimPeriodic_contract.
  - vm_compute. repeat split.
  - lia.
  - lia.
  - lia.
  - reflexivity.
Defined.

(** ** The red-black Gauss-Seidel solver in three dimensions *)

(** one row of [loopRedBlack3D] writes to the [n] nodes two apart from [g0]
    on, and to nothing else *)
Lemma loopRedBlack3D_row (rhoVal : arr double) (n : nat) :
  forall (i : Z) (phi0 : arr double) (g0 gj gjj gk gkk gl gll : Z),
    exists phi,
      forLoop n i 2
        (fun (j : Z) '(phiVal, g, gj, gjj, gk, gkk, gl, gll) =>
           (upd phiVal g
              (d0_125 * (phiVal gj + phiVal gjj + phiVal gk + phiVal gkk
                         + phiVal gl + phiVal gll + rhoVal g))%Qc,
            g + 2, gj + 2, gjj + 2, gk + 2, gkk + 2, gl + 2, gll + 2))
        (phi0, g0, gj, gjj, gk, gkk, gl, gll)
      = (phi, g0 + 2 * Z.of_nat n, gj + 2 * Z.of_nat n, gjj + 2 * Z.of_nat n,
         gk + 2 * Z.of_nat n, gkk + 2 * Z.of_nat n, gl + 2 * Z.of_nat n,
         gll + 2 * Z.of_nat n) /\
      (forall x, (forall q, 0 <= q < Z.of_nat n -> x <> g0 + 2 * q) -> phi x = phi0 x).
Proof.
  induction n as [|n IH]; intros i phi0 g0 gj gjj gk gkk gl gll.
  - exists phi0. cbn [forLoop]. split; [|reflexivity].
    repeat (f_equal; try lia).
  - rewrite forLoop_snoc.
    destruct (IH i phi0 g0 gj gjj gk gkk gl gll) as (phi & E & HB).
    rewrite E. cbv beta iota. eexists. split.
    + repeat (f_equal; try lia).
    + intros x Hx. rewrite upd_other by (apply Hx; lia).
      apply HB. intros q Hq. apply Hx. lia.
Qed.

(** the rows of one layer, [R] being the distance from a row to the next
    one visited *)
Lemma loopRedBlack3D_rows (rhoVal : arr double) (a kEdgeInc : Z) (nb : nat) :
  forall (i : Z) (phi0 : arr double) (g0 gj gjj gk gkk gl gll : Z),
    0 <= a ->
    exists phi,
      forLoop nb i 2
        (fun (k : Z) st =>
           let '(phiVal, g, gj, gjj, gk, gkk, gl, gll) :=
             forLoop (Z.to_nat a) 0 2
               (fun (j : Z) '(phiVal, g, gj, gjj, gk, gkk, gl, gll) =>
                  (upd phiVal g
                     (d0_125 * (phiVal gj + phiVal gjj + phiVal gk + phiVal gkk
                                + phiVal gl + phiVal gll + rhoVal g))%Qc,
                   g + 2, gj + 2, gjj + 2, gk + 2, gkk + 2, gl + 2, gll + 2))
               st in
           (phiVal, g + kEdgeInc, gj + kEdgeInc, gjj + kEdgeInc, gk + kEdgeInc,
            gkk + kEdgeInc, gl + kEdgeInc, gll + kEdgeInc))
        (phi0, g0, gj, gjj, gk, gkk, gl, gll)
      = (phi, g0 + Z.of_nat nb * (2 * a + kEdgeInc), gj + Z.of_nat nb * (2 * a + kEdgeInc),
         gjj + Z.of_nat nb * (2 * a + kEdgeInc), gk + Z.of_nat nb * (2 * a + kEdgeInc),
         gkk + Z.of_nat nb * (2 * a + kEdgeInc), gl + Z.of_nat nb * (2 * a + kEdgeInc),
         gll + Z.of_nat nb * (2 * a + kEdgeInc)) /\
      (forall x, (forall q r, 0 <= q < a -> 0 <= r < Z.of_nat nb ->
                              x <> g0 + r * (2 * a + kEdgeInc) + 2 * q) ->
                 phi x = phi0 x).
Proof.
  intros i phi0 g0 gj gjj gk gkk gl gll Ha.
  induction nb as [|nb IH].
  - exists phi0. cbn [forLoop]. split; [|reflexivity].
    repeat (f_equal; try lia).
  - rewrite forLoop_snoc.
    destruct IH as (phi & E & HB). rewrite E.
    match goal with
    | |- context [forLoop (Z.to_nat a) 0 2 _ (phi, ?g, ?x1, ?x2, ?x3, ?x4, ?x5, ?x6)] =>
        destruct (loopRedBlack3D_row rhoVal (Z.to_nat a) 0 phi g x1 x2 x3 x4 x5 x6)
          as (phi' & E' & HB')
    end.
    rewrite E'. cbv beta iota. rewrite Z2Nat.id in * by lia.
    exists phi'. split.
    + repeat (f_equal; try lia).
    + intros x Hx. rewrite HB'.
      * apply HB. intros q r Hq Hr. apply Hx; lia.
      * intros q Hq. apply (Hx q (Z.of_nat nb)); lia.
Qed.

(** the layers, [L] being the distance from a layer to the next one visited *)
Lemma loopRedBlack3D_layers (rhoVal : arr double) (a b kEdgeInc lEdgeInc : Z) (nc : nat) :
  forall (i : Z) (phi0 : arr double) (g0 gj gjj gk gkk gl gll : Z),
    0 <= a -> 0 <= b ->
    let R := 2 * a + kEdgeInc in
    let L := b * R + lEdgeInc in
    exists phi,
      forLoop nc i 2
        (fun (l : Z) st =>
           let '(phiVal, g, gj, gjj, gk, gkk, gl, gll) :=
             forLoop (Z.to_nat b) 0 2
               (fun (k : Z) st =>
                  let '(phiVal, g, gj, gjj, gk, gkk, gl, gll) :=
                    forLoop (Z.to_nat a) 0 2
                      (fun (j : Z) '(phiVal, g, gj, gjj, gk, gkk, gl, gll) =>
                         (upd phiVal g
                            (d0_125 * (phiVal gj + phiVal gjj + phiVal gk + phiVal gkk
                                       + phiVal gl + phiVal gll + rhoVal g))%Qc,
                          g + 2, gj + 2, gjj + 2, gk + 2, gkk + 2, gl + 2, gll + 2))
                      st in
                  (phiVal, g + kEdgeInc, gj + kEdgeInc, gjj + kEdgeInc, gk + kEdgeInc,
                   gkk + kEdgeInc, gl + kEdgeInc, gll + kEdgeInc))
               st in
           (phiVal, g + lEdgeInc, gj + lEdgeInc, gjj + lEdgeInc, gk + lEdgeInc,
            gkk + lEdgeInc, gl + lEdgeInc, gll + lEdgeInc))
        (phi0, g0, gj, gjj, gk, gkk, gl, gll)
      = (phi, g0 + Z.of_nat nc * L, gj + Z.of_nat nc * L, gjj + Z.of_nat nc * L,
         gk + Z.of_nat nc * L, gkk + Z.of_nat nc * L, gl + Z.of_nat nc * L,
         gll + Z.of_nat nc * L) /\
      (forall x, (forall q r s, 0 <= q < a -> 0 <= r < b -> 0 <= s < Z.of_nat nc ->
                                x <> g0 + s * L + r * R + 2 * q) ->
                 phi x = phi0 x).
Proof.
  intros i phi0 g0 gj gjj gk gkk gl gll Ha Hb R L.
  induction nc as [|nc IH].
  - exists phi0. cbn [forLoop]. split; [|reflexivity].
    repeat (f_equal; try lia).
  - rewrite forLoop_snoc.
    destruct IH as (phi & E & HB). rewrite E.
    match goal with
    | |- context [forLoop (Z.to_nat b) 0 2 _ (phi, ?g, ?x1, ?x2, ?x3, ?x4, ?x5, ?x6)] =>
        destruct (loopRedBlack3D_rows rhoVal a kEdgeInc (Z.to_nat b) 0 phi
                    g x1 x2 x3 x4 x5 x6 Ha) as (phi' & E' & HB')
    end.
    rewrite E'. cbv beta iota. rewrite Z2Nat.id in * by lia. fold R in HB' |- *.
    exists phi'. split.
    + unfold L. repeat (f_equal; try lia).
    + intros x Hx. rewrite HB'.
      * apply HB. intros q r s Hq Hr Hs. apply Hx; lia.
      * intros q r Hq Hr. apply (Hx q r (Z.of_nat nc)); lia.
Qed.

(** [loopRedBlack3D] on a grid with an interior of [2a x 2b x 2c] nodes and
    one ghost layer on every side, started at the node [(j0, k0, l0)]: only
    the nodes two apart from the start in every direction are written *)
Lemma loopRedBlack3D_frame (rhoVal phiVal : arr double) (sizeProd_ trueSize_ : arr Z)
    (W S2 a b c j0 k0 l0 kEdgeInc lEdgeInc x : Z) :
  0 <= a -> 0 <= b -> 0 <= c -> W = 2 * a + 2 -> S2 = 2 * b + 2 ->
  kEdgeInc = W + 2 -> lEdgeInc = 2 * W + W * S2 ->
  trueSize_ 1 = 2 * a -> trueSize_ 2 = 2 * b -> trueSize_ 3 = 2 * c ->
  (forall q r s, 0 <= q < a -> 0 <= r < b -> 0 <= s < c ->
     x <> ((l0 + 2 * s) * S2 + (k0 + 2 * r)) * W + (j0 + 2 * q)) ->
  loopRedBlack3D rhoVal phiVal sizeProd_ trueSize_ kEdgeInc lEdgeInc
    ((l0 * S2 + k0) * W + j0) x
  = phiVal x.
Proof.
  intros Ha Hb Hc HW HS HkE HlE Ht1 Ht2 Ht3 Hx.
  unfold loopRedBlack3D, forStep. rewrite Ht1, Ht2, Ht3.
  replace ((2 * a - 0 + 2 - 1) / 2) with a by (apply (Z.div_unique_pos _ 2 a 1); lia).
  replace ((2 * b - 0 + 2 - 1) / 2) with b by (apply (Z.div_unique_pos _ 2 b 1); lia).
  replace ((2 * c - 0 + 2 - 1) / 2) with c by (apply (Z.div_unique_pos _ 2 c 1); lia).
  match goal with
  | |- context [forLoop (Z.to_nat c) 0 2 _ (phiVal, ?g, ?x1, ?x2, ?x3, ?x4, ?x5, ?x6)] =>
      destruct (loopRedBlack3D_layers rhoVal a b kEdgeInc lEdgeInc (Z.to_nat c) 0 phiVal
                  g x1 x2 x3 x4 x5 x6 Ha Hb) as (phi & E & HB)
  end.
  rewrite E. apply HB. rewrite Z2Nat.id by lia.
  intros q r s Hq Hr Hs Heq. apply (Hx q r s Hq Hr Hs). rewrite Heq.
  subst W S2 kEdgeInc lEdgeInc. ring.
Qed.

Lemma grid3D_sameShape (g g' : Grid) (T1 T2 T3 : Z) :
  grid3D g T1 T2 T3 -> sameShape g g' -> grid3D g' T1 T2 T3.
Proof.
  unfold grid3D. intros H (A & B & C & D & E). rewrite A, B, C, D, E. exact H.
Qed.

(** the interior nodes lie in no ghost layer *)
Lemma grid3D_interior (g : Grid) (T1 T2 T3 j k l d : Z) :
  grid3D g T1 T2 T3 -> 1 <= j <= T1 -> 1 <= k <= T2 -> 1 <= l <= T3 -> 1 <= d < 4 ->
  ghostCell g d ((l * (T2 + 2) + k) * (T1 + 2) + j) = false.
Proof.
  intros (Hr & G1 & G2 & G3 & G5 & G6 & G7 & _ & _ & _ & S1 & S2 & S3 & P1 & P2 & P3 & P4)
         Hj Hk Hl Hd.
  unfold ghostCell, coordAlong, nElems. rewrite Hr.
  apply andb_false_iff. right.
  assert (Hd' : d = 1 \/ d = 2 \/ d = 3) by lia. destruct Hd' as [-> | [-> | ->]].
  - rewrite P1, S1, G1. change (4 + 1) with 5. rewrite G5. rewrite Z.div_1_r.
    rewrite <- (Z.mod_unique_pos ((l * (T2 + 2) + k) * (T1 + 2) + j) (T1 + 2)
                  (l * (T2 + 2) + k) j) by lia.
    apply orb_false_iff. split; [apply Z.ltb_ge | apply Z.leb_gt]; lia.
  - rewrite P2, S2, G2. change (4 + 2) with 6. rewrite G6.
    rewrite <- (Z.div_unique_pos ((l * (T2 + 2) + k) * (T1 + 2) + j) (T1 + 2)
                  (l * (T2 + 2) + k) j) by lia.
    rewrite <- (Z.mod_unique_pos (l * (T2 + 2) + k) (T2 + 2) l k) by lia.
    apply orb_false_iff. split; [apply Z.ltb_ge | apply Z.leb_gt]; lia.
  - rewrite P3, S3, G3. change (4 + 3) with 7. rewrite G7.
    assert (Hin : 0 <= k * (T1 + 2) + j < (T1 + 2) * (T2 + 2)).
    { split; [apply Z.add_nonneg_nonneg; [apply Z.mul_nonneg_nonneg|]; lia|].
      assert (k * (T1 + 2) <= (T2 + 1) * (T1 + 2))
        by (apply Z.mul_le_mono_nonneg_r; lia).
      lia. }
    rewrite <- (Z.div_unique_pos ((l * (T2 + 2) + k) * (T1 + 2) + j)
                  ((T1 + 2) * (T2 + 2)) l (k * (T1 + 2) + j)) by (try exact Hin; ring).
    rewrite Z.mod_small by lia.
    apply orb_false_iff. split; [apply Z.ltb_ge | apply Z.leb_gt]; lia.
Qed.

(** a sweep started at [(j0, k0, l0)] leaves alone every interior node that
    is an odd number of nodes away from the start along some axis *)
Lemma loopRedBlack3D_skips (rhoVal phiVal : arr double) (sizeProd_ trueSize_ : arr Z)
    (a b c kEdgeInc lEdgeInc g0 j0 k0 l0 j k l : Z) :
  0 <= a -> 0 <= b -> 0 <= c ->
  kEdgeInc = 2 * a + 2 + 2 -> lEdgeInc = 2 * (2 * a + 2) + (2 * a + 2) * (2 * b + 2) ->
  trueSize_ 1 = 2 * a -> trueSize_ 2 = 2 * b -> trueSize_ 3 = 2 * c ->
  g0 = (l0 * (2 * b + 2) + k0) * (2 * a + 2) + j0 ->
  1 <= j0 <= 2 -> 1 <= k0 <= 2 ->
  1 <= j <= 2 * a -> 1 <= k <= 2 * b ->
  ~ (Z.Even (j - j0) /\ Z.Even (k - k0) /\ Z.Even (l - l0)) ->
  loopRedBlack3D rhoVal phiVal sizeProd_ trueSize_ kEdgeInc lEdgeInc g0
    ((l * (2 * b + 2) + k) * (2 * a + 2) + j)
  = phiVal ((l * (2 * b + 2) + k) * (2 * a + 2) + j).
Proof.
  intros Ha Hb Hc HkE HlE Ht1 Ht2 Ht3 -> Hj0 Hk0 Hj Hk Hpar.
  apply (loopRedBlack3D_frame rhoVal phiVal sizeProd_ trueSize_ (2 * a + 2) (2 * b + 2)
           a b c j0 k0 l0); try assumption; try reflexivity.
  intros q r s Hq Hr Hs Heq. apply Hpar.
  destruct (index_injective (2 * a + 2) (l * (2 * b + 2) + k) j
              ((l0 + 2 * s) * (2 * b + 2) + (k0 + 2 * r)) (j0 + 2 * q)) as [E1 E2];
    [lia | lia | exact Heq |].
  destruct (index_injective (2 * b + 2) l k (l0 + 2 * s) (k0 + 2 * r)) as [E3 E4];
    [lia | lia | exact E1 |].
  split; [exists q; lia | split; [exists r; lia | exists s; lia]].
Qed.

Lemma gaussSeidel3D_cycle_shape (swap : Grid -> MpiInfo -> Z -> Grid) (phi0 rho : Grid)
    (m : MpiInfo) (g : Grid) :
  exchangeContract swap -> sameShape g (gaussSeidel3D_cycle swap phi0 rho m g).
Proof.
  intros Hc. unfold gaussSeidel3D_cycle. cbv zeta.
  eapply sameShape_trans; [|apply swapGhosts_shape, Hc].
  eapply sameShape_trans; [|apply sameShape_setVal].
  eapply sameShape_trans; [|apply swapGhosts_shape, Hc].
  apply sameShape_setVal.
Qed.

(** a cycle of [gaussSeidel3D] leaves the interior nodes of even [l] and odd
    [j + k] as they are *)
Lemma gaussSeidel3D_cycle_skips (swap : Grid -> MpiInfo -> Z -> Grid) (phi0 rho : Grid)
    (m : MpiInfo) (g : Grid) (a b c j k l : Z) :
  exchangeContract swap -> grid3D phi0 (2 * a) (2 * b) (2 * c) -> sameShape phi0 g ->
  1 <= j <= 2 * a -> 1 <= k <= 2 * b -> 1 <= l <= 2 * c ->
  Z.even l = true -> Z.odd (j + k) = true ->
  val (gaussSeidel3D_cycle swap phi0 rho m g) ((l * (2 * b + 2) + k) * (2 * a + 2) + j)
  = val g ((l * (2 * b + 2) + k) * (2 * a + 2) + j).
Proof.
  intros Hc Hg Hsh Hj Hk Hl Hel Hojk.
  apply Z.even_spec in Hel. destruct Hel as [lq Hlq].
  apply Z.odd_spec in Hojk. destruct Hojk as [mq Hmq].
  pose proof Hg as (Hr & G1 & G2 & G3 & G5 & G6 & G7 & T1 & T2 & T3 & S1 & S2 & S3
                    & P1 & P2 & P3 & P4).
  assert (Hframe : forall (h : Grid) (v : arr double), sameShape phi0 h ->
            val (swapGhosts swap 4 m (setVal h v)) ((l * (2 * b + 2) + k) * (2 * a + 2) + j)
            = v ((l * (2 * b + 2) + k) * (2 * a + 2) + j)).
  { intros h v Hh. unfold swapGhosts, forUp.
    destruct (exchanges_frame swap Hc m ((l * (2 * b + 2) + k) * (2 * a + 2) + j)
                (Z.to_nat (4 - 1)) 1 (setVal h v)) as [_ Hv]; [|exact Hv].
    intros d Hd.
    rewrite (ghostCell_sameShape phi0)
      by (eapply sameShape_trans; [exact Hh | apply sameShape_setVal]).
    apply (grid3D_interior phi0 (2 * a) (2 * b) (2 * c)); [exact Hg | lia..]. }
  assert (Hskip : forall (v : arr double) (g0 j0 k0 l0 : Z),
            g0 = (l0 * (2 * b + 2) + k0) * (2 * a + 2) + j0 ->
            1 <= j0 <= 2 -> 1 <= k0 <= 2 ->
            ~ (Z.Even (j - j0) /\ Z.Even (k - k0) /\ Z.Even (l - l0)) ->
            loopRedBlack3D (val rho) v (sizeProd phi0) (trueSize phi0)
              (1 + 1 + (2 * a + 2))
              ((1 + 1) * (2 * a + 2) + (2 * a + 2) * (2 * b + 2)) g0
              ((l * (2 * b + 2) + k) * (2 * a + 2) + j)
            = v ((l * (2 * b + 2) + k) * (2 * a + 2) + j)).
  { intros v g0 j0 k0 l0 Hg0 Hj0 Hk0 Hpar.
    apply (loopRedBlack3D_skips (val rho) v (sizeProd phi0) (trueSize phi0) a b c _ _
             g0 j0 k0 l0 j k l); try assumption; lia. }
  unfold gaussSeidel3D_cycle. cbv zeta. cbv beta.
  rewrite Hr, G1, G2, G3, P1, P2, P3.
  change (4 + 1) with 5. change (4 + 2) with 6. rewrite G5, G6.
  set (mid := swapGhosts swap 4 m (setVal g _)).
  assert (Hmid : sameShape phi0 mid).
  { eapply sameShape_trans; [exact Hsh|].
    eapply sameShape_trans; [apply sameShape_setVal|].
    apply swapGhosts_shape, Hc. }
  rewrite (Hframe mid _ Hmid).
  rewrite (Hskip _ _ 2 2 2) by (try ring; try lia; intros ([x Hx] & [y Hy] & [z Hz]); lia).
  rewrite (Hskip _ _ 1 1 2) by (try ring; try lia; intros ([x Hx] & [y Hy] & [z Hz]); lia).
  rewrite (Hskip _ _ 1 2 1) by (try ring; try lia; intros ([x Hx] & [y Hy] & [z Hz]); lia).
  rewrite (Hskip _ _ 2 1 1) by (try ring; try lia; intros ([x Hx] & [y Hy] & [z Hz]); lia).
  unfold mid. rewrite (Hframe g _ Hsh).
  rewrite (Hskip _ _ 2 2 2) by (try ring; try lia; intros ([x Hx] & [y Hy] & [z Hz]); lia).
  rewrite (Hskip _ _ 1 1 2) by (try ring; try lia; intros ([x Hx] & [y Hy] & [z Hz]); lia).
  rewrite (Hskip _ _ 2 2 1) by (try ring; try lia; intros ([x Hx] & [y Hy] & [z Hz]); lia).
  rewrite (Hskip _ _ 1 1 1) by (try ring; try lia; intros ([x Hx] & [y Hy] & [z Hz]); lia).
  reflexivity.
Qed.

(** X24: [gaussSeidel3D] never updates a quarter of the interior. On a
    three-dimensional grid with an interior of [2a x 2b x 2c] nodes and one
    ghost layer on every side, with an exchange that keeps the shape of the
    grid and writes ghost cells only: every interior node [(j, k, l)] of
    even [l] and odd [j + k] holds on return the value it had on entry,
    however many cycles are run. The eight sweeps of a cycle start at
    [(1,1,1)], [(2,2,1)], [(1,1,2)], [(2,2,2)] and at [(2,1,1)], [(1,2,1)],
    [(1,1,2)], [(2,2,2)], each visiting every second node along every axis,
    so that no sweep reaches the nodes [(2,1,2)] and [(1,2,2)] and those two
    apart from them. *)
Theorem gaussSeidel3D_skips_nodes
    (gSwapGhostsDim : Grid -> MpiInfo -> Z -> Grid)
    (phi rho : Grid) (mpiInfo : MpiInfo) (nCycles a b c j k l : Z) :
  exchangeContract gSwapGhostsDim ->
  grid3D phi (2 * a) (2 * b) (2 * c) ->
  0 <= nCycles ->
  1 <= j <= 2 * a -> 1 <= k <= 2 * b -> 1 <= l <= 2 * c ->
  Z.even l = true -> Z.odd (j + k) = true ->
  val (gaussSeidel3D gSwapGhostsDim phi rho nCycles mpiInfo)
      ((l * (2 * b + 2) + k) * (2 * a + 2) + j)
  = val phi ((l * (2 * b + 2) + k) * (2 * a + 2) + j).
Proof.
  intros Hc Hg Hn Hj Hk Hl Hel Hojk.
  enough (H : sameShape phi (gaussSeidel3D gSwapGhostsDim phi rho nCycles mpiInfo) /\
              val (gaussSeidel3D gSwapGhostsDim phi rho nCycles mpiInfo)
                  ((l * (2 * b + 2) + k) * (2 * a + 2) + j)
              = val phi ((l * (2 * b + 2) + k) * (2 * a + 2) + j)) by apply H.
  pattern nCycles. apply natlike_ind; [| |exact Hn]; clear nCycles Hn.
  - split; [apply sameShape_refl | reflexivity].
  - intros n Hn [IHs IHv]. replace (Z.succ n) with (n + 1) by lia.
    unfold gaussSeidel3D in *. rewrite forUp_succ by assumption. split.
    + eapply sameShape_trans; [exact IHs|]. apply gaussSeidel3D_cycle_shape, Hc.
    + rewrite (gaussSeidel3D_cycle_skips gSwapGhostsDim phi rho mpiInfo _ a b c j k l)
        by assumption.
      exact IHv.
Qed.

Lemma gaussSeidel3D_skips_nodes_witness :
  val (gaussSeidel3D gSwapGhostsDimPeriodic (setVal (gridCube 4) ofZ)
         (constCube 4 (ofZ (-6))) 3 mpiMig)
      ((2 * (2 * 2 + 2) + 1) * (2 * 2 + 2) + 2)
  = val (setVal (gridCube 4) ofZ) ((2 * (2 * 2 + 2) + 1) * (2 * 2 + 2) + 2).
Proof.
  apply (gaussSeidel3D_skips_nodes gSwapGhostsDimPeriodic (setVal (gridCube 4) ofZ)
           (constCube 4 (ofZ (-6))) mpiMig 3 2 2 2 2 1 2).
  - exact gSwapGhostsDimPeriodic_contract.
  - vm_compute. repeat split.
  - lia.
  - lia.
  - lia.
  - lia.
  - reflexivity.
  - reflexivity.
Defined.


(** ** The update of the Jacobi solver *)

(** the values a traced loop computes are those of the loop over the values
    of its body *)
Lemma fst_forLoopT {S : Type} (body : Z -> S -> Traced S) (n : nat) :
  forall (i step : Z) (s : S),
    fst (forLoopT n i step body s) = forLoop n i step (fun d s => fst (body d s)) s.
Proof.
  induction n as [|n IH]; intros i step s; [reflexivity|].
  cbn [forLoopT forLoop]. rewrite fst_tbind. apply IH.
Qed.

(** the sweep of [jacobian] as a loop on values *)
Lemma jacobianSweep_rounds (phiVal rhoVal : arr double) (n : nat) :
  forall (temp0 : arr double) (gj gjj gk gkk : Z),
    exists temp,
      forLoop n 0 1
        (fun (g : Z) '(tempVal, gj, gjj, gk, gkk) =>
           (upd tempVal g
              (d0_25 * (phiVal gj + phiVal gjj + phiVal gk + phiVal gkk - rhoVal g))%Qc,
            gj + 1, gjj + 1, gk + 1, gkk + 1))
        (temp0, gj, gjj, gk, gkk)
      = (temp, gj + Z.of_nat n, gjj + Z.of_nat n, gk + Z.of_nat n, gkk + Z.of_nat n) /\
      (forall g, 0 <= g < Z.of_nat n ->
         temp g = (d0_25 * (phiVal (gj + g)%Z + phiVal (gjj + g)%Z + phiVal (gk + g)%Z
                            + phiVal (gkk + g)%Z - rhoVal g))%Qc) /\
      (forall g, ~ 0 <= g < Z.of_nat n -> temp g = temp0 g).
Proof.
  induction n as [|n IH]; intros temp0 gj gjj gk gkk.
  - exists temp0. cbn [forLoop]. split; [|split].
    + repeat (f_equal; try lia).
    + intros g Hg. lia.
    + reflexivity.
  - rewrite forLoop_snoc.
    destruct (IH temp0 gj gjj gk gkk) as (temp & E & HA & HB).
    rewrite E. cbv beta iota. eexists. split; [|split].
    + repeat (f_equal; try lia).
    + intros g Hg. destruct (Z.eq_dec g (Z.of_nat n)) as [->|Hne].
      * replace (0 + Z.of_nat n * 1) with (Z.of_nat n) by lia. now rewrite upd_same.
      * rewrite upd_other by lia. apply HA. lia.
    + intros g Hg. rewrite upd_other by lia. apply HB. lia.
Qed.

(** the relaxation of [jacobian] gives every element other than that at
    [normalize] the quarter of its four neighbours along the axes 1 and 2
    less the source, all taken from the field on entry to the cycle *)
Lemma jacobianRelax_value (sp : arr Z) (rk : Z) (rhoVal : arr double)
    (phi : Grid) (tempVal : arr double) (g : Z) :
  0 <= g < sp rk -> g <> normalizeIndex sp ->
  val (fst (fst (jacobianRelax sp rk rhoVal (phi, tempVal)))) g
  = (d0_25 * (val phi (g + sp 1)%Z + val phi (g - sp 1)%Z + val phi (g + sp 2)%Z
              + val phi (g - sp 2)%Z - rhoVal g))%Qc.
Proof.
  intros Hg Hn. unfold jacobianRelax. cbv zeta.
  rewrite !fst_tbind. cbn [tret fst wr val setVal].
  rewrite upd_other by exact Hn.
  unfold forUpT. rewrite fst_forLoopT.
  rewrite (forLoop_fill (fun q _ => fst (jacobianSweep sp rk (val phi) rhoVal tempVal) q)
             (fun q => fst (jacobianSweep sp rk (val phi) rhoVal tempVal) q))
    by reflexivity.
  replace ((0 <=? g) && (g <? 0 + Z.of_nat (Z.to_nat (sp rk - 0)))) with true
    by (symmetry; apply andb_true_iff; split; [apply Z.leb_le | apply Z.ltb_lt]; lia).
  unfold jacobianSweep. cbv zeta. rewrite fst_tbind. unfold forUpT. rewrite fst_forLoopT.
  destruct (jacobianSweep_rounds (val phi) rhoVal (Z.to_nat (sp rk - 0)) tempVal
              (sp 1) (- sp 1) (sp 2) (- sp 2)) as (temp & E & HA & _).
  rewrite (forLoop_ext _
             (fun (g : Z) '(tempVal, gj, gjj, gk, gkk) =>
                (upd tempVal g
                   (d0_25 * (val phi gj + val phi gjj + val phi gk + val phi gkk - rhoVal g))%Qc,
                 gj + 1, gjj + 1, gk + 1, gkk + 1)))
    by (intros d [[[[t x1] x2] x3] x4]; reflexivity).
  rewrite E. cbn [tret fst]. rewrite HA by lia.
  repeat (f_equal; try lia).
Qed.

(** X25: the update of a cycle of [jacobian]. With an exchange that keeps
    the shape of the grid and writes ghost cells only, and [c >= 1]: at every
    element [g] of the grid that lies in no ghost layer of the axes
    [1 .. rank-1] and is not the element at [3 sizeProd[1] + 3 sizeProd[2]],
    the field [jacobian] returns after [c] cycles is
    [0.25 (old(g + sizeProd[1]) + old(g - sizeProd[1]) + old(g + sizeProd[2])
           + old(g - sizeProd[2]) - rho(g))],
    [old] being the field after [c - 1] cycles: all four neighbours are
    taken from the previous cycle, the source enters with a minus sign, and
    the neighbours are those along the axes 1 and 2 whatever the rank of the
    grid. *)
Theorem jacobian_update
    (gSwapGhostsDim : Grid -> MpiInfo -> Z -> Grid)
    (junk : arr double) (phi rho : Grid) (mpiInfo : MpiInfo) (c g : Z) :
  exchangeContract gSwapGhostsDim ->
  1 <= c ->
  0 <= g < nElems phi ->
  g <> normalizeIndex (sizeProd phi) ->
  (forall d, 1 <= d < rank phi -> ghostCell phi d g = false) ->
  val (fst (jacobian gSwapGhostsDim junk phi rho c mpiInfo)) g
  = (d0_25
     * (val (fst (fst (jacobianCycles gSwapGhostsDim junk phi rho mpiInfo (c - 1))))
          (g + sizeProd phi 1)%Z
        + val (fst (fst (jacobianCycles gSwapGhostsDim junk phi rho mpiInfo (c - 1))))
            (g - sizeProd phi 1)%Z
        + val (fst (fst (jacobianCycles gSwapGhostsDim junk phi rho mpiInfo (c - 1))))
            (g + sizeProd phi 2)%Z
        + val (fst (fst (jacobianCycles gSwapGhostsDim junk phi rho mpiInfo (c - 1))))
            (g - sizeProd phi 2)%Z
        - val rho g))%Qc.
Proof.
  intros Hcontract Hc Hg Hn Hint.
  unfold jacobian. rewrite fst_tbind. cbn [tret fst].
  replace c with (c - 1 + 1) at 1 by lia.
  rewrite jacobianCycles_succ, jacobianCycle_unfold by lia.
  pose proof (jacobianCycles_shape gSwapGhostsDim Hcontract junk phi rho mpiInfo (c - 1)
                ltac:(lia)) as Hshape.
  destruct (fst (jacobianCycles gSwapGhostsDim junk phi rho mpiInfo (c - 1)))
    as [entering tempVal] eqn:E.
  cbn [fst] in Hshape |- *.
  destruct (jacobianRelax_pin (sizeProd phi) (rank phi) (val rho) (entering, tempVal))
    as [_ Hr].
  cbn [fst] in Hr.
  set (relaxed := fst (fst (jacobianRelax (sizeProd phi) (rank phi) (val rho)
                              (entering, tempVal)))) in *.
  assert (Hphi : sameShape phi relaxed) by exact (sameShape_trans _ _ _ Hshape Hr).
  destruct (swapGhosts_frame gSwapGhostsDim Hcontract mpiInfo relaxed g) as [_ Hv].
  - intros d Hd. rewrite (ghostCell_sameShape phi) by exact Hphi.
    apply Hint. destruct Hphi as [Hrk _]. rewrite <- Hrk. exact Hd.
  - destruct Hphi as [Hrk _]. rewrite Hrk in Hv. rewrite Hv.
    unfold relaxed. apply jacobianRelax_value; assumption.
Qed.

Lemma jacobian_update_witness :
  val (fst (jacobian gSwapGhostsDimPeriodic (fresh (Q2Qc 0)) (setVal (gridSq 6) ofZ)
              rhoLarge 2 mpiMig)) 18
  = (d0_25
     * (val (fst (fst (jacobianCycles gSwapGhostsDimPeriodic (fresh (Q2Qc 0))
                         (setVal (gridSq 6) ofZ) rhoLarge mpiMig (2 - 1))))
          (18 + sizeProd (setVal (gridSq 6) ofZ) 1)%Z
        + val (fst (fst (jacobianCycles gSwapGhostsDimPeriodic (fresh (Q2Qc 0))
                           (setVal (gridSq 6) ofZ) rhoLarge mpiMig (2 - 1))))
            (18 - sizeProd (setVal (gridSq 6) ofZ) 1)%Z
        + val (fst (fst (jacobianCycles gSwapGhostsDimPeriodic (fresh (Q2Qc 0))
                           (setVal (gridSq 6) ofZ) rhoLarge mpiMig (2 - 1))))
            (18 + sizeProd (setVal (gridSq 6) ofZ) 2)%Z
        + val (fst (fst (jacobianCycles gSwapGhostsDimPeriodic (fresh (Q2Qc 0))
                           (setVal (gridSq 6) ofZ) rhoLarge mpiMig (2 - 1))))
            (18 - sizeProd (setVal (gridSq 6) ofZ) 2)%Z
        - val rhoLarge 18))%Qc.
Proof.
  apply (jacobian_update gSwapGhostsDimPeriodic (fresh (Q2Qc 0)) (setVal (gridSq 6) ofZ)
           rhoLarge mpiMig 2 18).
  - exact gSwapGhostsDimPeriodic_contract.
  - lia.
  - vm_compute. split; [discriminate | reflexivity].
  - vm_compute. discriminate.
  - intros d Hd. change (rank (setVal (gridSq 6) ofZ)) with 3 in Hd.
    assert (Hc : d = 1 \/ d = 2) by lia. destruct Hc as [-> | ->]; reflexivity.
Defined.


(** ** The grids of the hierarchy *)

Lemma mgAllocSubGrids_level (junk : arr double) (grid : Grid) (L q : Z) :
  1 <= q < L -> level (mgAllocSubGrids junk grid L) q = Some (subGrid junk grid q).
Proof.
  intros Hq. unfold level, mgAllocSubGrids, forUp.
  destruct (Z.ltb_spec q 0); [lia|].
  rewrite mgAllocSubGrids_rounds.
  replace (Z.to_nat q) with (Datatypes.S (Z.to_nat (q - 1))) by lia.
  cbn [app nth_error].
  rewrite nth_error_map, nth_error_seq.
  destruct (Nat.ltb_spec (Z.to_nat (q - 1)) (Z.to_nat (L - 1))); [|lia].
  cbn [option_map]. do 2 f_equal. lia.
Qed.

Lemma mgAllocSubGrids_length (junk : arr double) (grid : Grid) (L : Z) :
  Datatypes.length (mgAllocSubGrids junk grid L) = Datatypes.S (Z.to_nat (L - 1)).
Proof.
  unfold mgAllocSubGrids, forUp. rewrite mgAllocSubGrids_rounds.
  rewrite length_app, length_map, length_seq. reflexivity.
Qed.

(** the cumulative products of [longIntArrCumProd] *)
Lemma longIntArrCumProd_spec (a : arr Z) (n : Z) :
  0 <= n ->
  longIntArrCumProd a n 0 = 1 /\
  forall d, 0 <= d < n -> longIntArrCumProd a n (d + 1) = longIntArrCumProd a n d * a d.
Proof.
  intros Hn. pattern n. apply natlike_ind; [| |exact Hn]; clear n Hn.
  - unfold longIntArrCumProd. rewrite forUp_none by lia. split; [reflexivity|].
    intros d Hd. lia.
  - intros n Hn [IH0 IH]. replace (Z.succ n) with (n + 1) by lia.
    unfold longIntArrCumProd in *. rewrite forUp_succ by assumption.
    set (p := forUp 0 n (fun (d : Z) (p : arr Z) => upd p (d + 1) (p d * a d))
                (upd (fresh 0) 0 1)) in *.
    split.
    + rewrite upd_other by lia. exact IH0.
    + intros d Hd. destruct (Z.eq_dec d n) as [->|Hne].
      * rewrite upd_same, upd_other by lia. reflexivity.
      * rewrite !upd_other by lia. apply IH. lia.
Qed.

Lemma subGrid_size (junk : arr double) (grid : Grid) (q d : Z) :
  1 <= d < rank grid ->
  size (subGrid junk grid q) d
  = trueSize (subGrid junk grid q) d + nGhostLayers grid d
    + nGhostLayers grid (rank grid + d).
Proof.
  intros Hd. unfold subGrid; cbn [size trueSize]. unfold forUp at 1.
  set (subTrueSize := forUp 1 (rank grid) _ _).
  destruct (forLoop_owned
              (fun k (_ : Z) =>
                 subTrueSize k + nGhostLayers grid k + nGhostLayers grid (rank grid + k))
              (fun d' k => d' =? k)
              (fun (d0 : Z) (a : arr Z) =>
                 upd (upd (upd a d0 (subTrueSize d0)) d0
                        (upd a d0 (subTrueSize d0) d0 + nGhostLayers grid d0)) d0
                   (upd (upd a d0 (subTrueSize d0)) d0
                      (upd a d0 (subTrueSize d0) d0 + nGhostLayers grid d0) d0
                    + nGhostLayers grid (rank grid + d0)))
              d (Z.to_nat (rank grid - 1)) 1
              (upd (upd (fresh 0) 0 (upd (fresh 0) 0 (trueSize grid 0) 0)) 0
                 (trueSize grid 0))) as [Hown _].
  - intros d0 b Hd0. destruct (Z.eqb_spec d0 d) as [->|Hne].
    + now rewrite !upd_same.
    + now rewrite !upd_other by congruence.
  - intros d1 d2 _ _ H1 H2. apply Z.eqb_eq in H1, H2. congruence.
  - apply (Hown d); [lia | apply Z.eqb_refl].
Qed.

Lemma subGrid_size0 (junk : arr double) (grid : Grid) (q : Z) :
  size (subGrid junk grid q) 0 = trueSize grid 0.
Proof.
  unfold subGrid; cbn [size]. unfold forUp at 1.
  set (subTrueSize := forUp 1 (rank grid) _ _).
  destruct (forLoop_owned
              (fun k (_ : Z) =>
                 subTrueSize k + nGhostLayers grid k + nGhostLayers grid (rank grid + k))
              (fun d' k => d' =? k)
              (fun (d0 : Z) (a : arr Z) =>
                 upd (upd (upd a d0 (subTrueSize d0)) d0
                        (upd a d0 (subTrueSize d0) d0 + nGhostLayers grid d0)) d0
                   (upd (upd a d0 (subTrueSize d0)) d0
                      (upd a d0 (subTrueSize d0) d0 + nGhostLayers grid d0) d0
                    + nGhostLayers grid (rank grid + d0)))
              0 (Z.to_nat (rank grid - 1)) 1
              (upd (upd (fresh 0) 0 (upd (fresh 0) 0 (trueSize grid 0) 0)) 0
                 (trueSize grid 0))) as [_ Hnone].
  - intros d0 b Hd0. destruct (Z.eqb_spec d0 0) as [->|Hne].
    + now rewrite !upd_same.
    + now rewrite !upd_other by congruence.
  - intros d1 d2 _ _ H1 H2. apply Z.eqb_eq in H1, H2. congruence.
  - rewrite Hnone; [apply upd_same|]. intros d Hd. apply Z.eqb_neq. lia.
Qed.

Lemma subGrid_nGhostLayers (junk : arr double) (grid : Grid) (q d : Z) :
  0 <= d < 2 * rank grid -> nGhostLayers (subGrid junk grid q) d = nGhostLayers grid d.
Proof.
  intros Hd. unfold subGrid; cbn [nGhostLayers]. unfold forUp.
  rewrite (forLoop_fill (fun d _ => nGhostLayers grid d) (nGhostLayers grid)) by trivial.
  destruct (Z.leb_spec 0 d), (Z.ltb_spec d (0 + Z.of_nat (Z.to_nat (2 * rank grid - 0))));
    simpl; trivial; lia.
Qed.

(** X26: the grids of the hierarchy are well formed. For [nLevels >= 1] and
    a grid of rank at least 0, [mgAllocSubGrids] returns [nLevels] grids, the
    first being the caller's grid; every further grid has the rank and the
    ghost layers of the caller's grid, along every non-leading axis an extent
    [size[d]] that is its interior extent plus its two ghost layers, the
    leading extent of the caller's grid, and in [sizeProd] the cumulative
    products of [size]. *)
Theorem mgAllocSubGrids_well_formed (junk : arr double) (grid : Grid) (L : Z) :
  1 <= L -> 0 <= rank grid ->
  Datatypes.length (mgAllocSubGrids junk grid L) = Z.to_nat L /\
  level (mgAllocSubGrids junk grid L) 0 = Some grid /\
  forall q, 1 <= q < L ->
    exists g, level (mgAllocSubGrids junk grid L) q = Some g /\
      rank g = rank grid /\
      (forall d, 0 <= d < 2 * rank grid -> nGhostLayers g d = nGhostLayers grid d) /\
      size g 0 = trueSize grid 0 /\
      (forall d, 1 <= d < rank grid ->
         size g d = trueSize g d + nGhostLayers g d + nGhostLayers g (rank g + d)) /\
      sizeProd g 0 = 1 /\
      (forall d, 0 <= d < rank grid -> sizeProd g (d + 1) = sizeProd g d * size g d).
Proof.
  intros HL Hr. split; [|split].
  - rewrite mgAllocSubGrids_length. lia.
  - unfold level, mgAllocSubGrids, forUp. rewrite mgAllocSubGrids_rounds. reflexivity.
  - intros q Hq. exists (subGrid junk grid q).
    split; [apply mgAllocSubGrids_level, Hq|].
    split; [reflexivity|].
    split; [intros d Hd; apply subGrid_nGhostLayers, Hd|].
    split; [apply subGrid_size0|].
    split.
    + intros d Hd. rewrite subGrid_size by exact Hd.
      rewrite !subGrid_nGhostLayers by (cbn [rank subGrid]; lia). reflexivity.
    + destruct (longIntArrCumProd_spec (size (subGrid junk grid q)) (rank grid) Hr)
        as [H0 Hs].
      split; [exact H0 | exact Hs].
Qed.

Lemma mgAllocSubGrids_well_formed_witness :
  Datatypes.length (mgAllocSubGrids (fresh (Q2Qc 0)) grid32 4) = Z.to_nat 4 /\
  level (mgAllocSubGrids (fresh (Q2Qc 0)) grid32 4) 0 = Some grid32 /\
  forall q, 1 <= q < 4 ->
    exists g, level (mgAllocSubGrids (fresh (Q2Qc 0)) grid32 4) q = Some g /\
      rank g = rank grid32 /\
      (forall d, 0 <= d < 2 * rank grid32 -> nGhostLayers g d = nGhostLayers grid32 d) /\
      size g 0 = trueSize grid32 0 /\
      (forall d, 1 <= d < rank grid32 ->
         size g d = trueSize g d + nGhostLayers g d + nGhostLayers g (rank g + d)) /\
      sizeProd g 0 = 1 /\
      (forall d, 0 <= d < rank grid32 -> sizeProd g (d + 1) = sizeProd g d * size g d).
Proof.
  apply (mgAllocSubGrids_well_formed (fresh (Q2Qc 0)) grid32 4).
  - lia.
  - vm_compute. discriminate.
Defined.

(** X27: the first two levels fit the restriction. For a two-dimensional
    grid of unit leading extent with one ghost layer on every side and an
    even number [2 c1 x 2 c2] of interior nodes, and [nLevels >= 2], the grid
    of level 1 has an interior of [c1 x c2] nodes and the finest grid and it
    are a pair as [halfWeightRestrict2D] takes them. *)
Theorem mgAllocSubGrids_first_pair (junk : arr double) (grid : Grid) (L c1 c2 : Z) :
  2 <= L -> 0 <= c1 -> 0 <= c2 ->
  grid2D grid (2 * c1) (2 * c2) -> trueSize grid 0 = 1 ->
  exists g, level (mgAllocSubGrids junk grid L) 1 = Some g /\
            trueSize g 1 = c1 /\ trueSize g 2 = c2 /\
            restrictPair2D grid g c1 c2.
Proof.
  intros HL H1 H2 (Hr & G1 & G2 & G4 & G5 & T1 & T2 & S1 & S2 & P1 & P2 & P3) T0.
  exists (subGrid junk grid 1).
  assert (Ht1 : trueSize (subGrid junk grid 1) 1 = c1).
  { rewrite subGrid_trueSize, Hr, T1. cbn [Z.leb Z.ltb andb Z.compare Pos.compare
                                             Pos.compare_cont].
    change (2 * 1) with 2. rewrite Z.mul_comm. apply Z.quot_mul. lia. }
  assert (Ht2 : trueSize (subGrid junk grid 1) 2 = c2).
  { rewrite subGrid_trueSize, Hr, T2. cbn [Z.leb Z.ltb andb Z.compare Pos.compare
                                             Pos.compare_cont].
    change (2 * 1) with 2. rewrite Z.mul_comm. apply Z.quot_mul. lia. }
  assert (Hs0 : size (subGrid junk grid 1) 0 = 1)
    by (rewrite subGrid_size0; exact T0).
  assert (Hs1 : size (subGrid junk grid 1) 1 = c1 + 2).
  { rewrite subGrid_size by lia. rewrite Ht1, Hr, G1. change (3 + 1) with 4.
    rewrite G4. lia. }
  assert (Hs2 : size (subGrid junk grid 1) 2 = c2 + 2).
  { rewrite subGrid_size by lia. rewrite Ht2, Hr, G2. change (3 + 2) with 5.
    rewrite G5. lia. }
  destruct (longIntArrCumProd_spec (size (subGrid junk grid 1)) (rank grid) ltac:(lia))
    as [Hp0 Hp].
  change (longIntArrCumProd (size (subGrid junk grid 1)) (rank grid))
    with (sizeProd (subGrid junk grid 1)) in Hp0, Hp.
  assert (Hp1 : sizeProd (subGrid junk grid 1) 1 = 1).
  { pose proof (Hp 0 ltac:(lia)) as E. change (0 + 1) with 1 in E.
    rewrite E, Hp0, Hs0. reflexivity. }
  assert (Hp2 : sizeProd (subGrid junk grid 1) 2 = c1 + 2).
  { pose proof (Hp 1 ltac:(lia)) as E. change (1 + 1) with 2 in E.
    rewrite E, Hp1, Hs1. lia. }
  split; [apply mgAllocSubGrids_level; lia|].
  split; [exact Ht1|]. split; [exact Ht2|].
  unfold restrictPair2D, nElems. rewrite Hr, P3.
  repeat split; try assumption; try lia.
Qed.

Lemma mgAllocSubGrids_first_pair_witness :
  exists g, level (mgAllocSubGrids (fresh (Q2Qc 0)) grid32 4) 1 = Some g /\
            trueSize g 1 = 16 /\ trueSize g 2 = 16 /\
            restrictPair2D grid32 g 16 16.
Proof.
  apply (mgAllocSubGrids_first_pair (fresh (Q2Qc 0)) grid32 4 16 16).
  - lia.
  - lia.
  - lia.
  - vm_compute. repeat split.
  - reflexivity.
Defined.


(** ** What [mgAlloc] accepts *)

Lemma mgAllocSubGrids_first (junk : arr double) (grid : Grid) (L : Z) :
  nth 0 (mgAllocSubGrids junk grid L) noGrid = grid.
Proof. unfold mgAllocSubGrids, forUp. rewrite mgAllocSubGrids_rounds. reflexivity. Qed.

(** [setSolvers] goes through exactly when each of the three names is
    ["jacobian"], or ["gaussSeidel"] on a grid of two or three dimensions;
    it keeps the grids *)
Lemma setSolvers_cases (ini : dictionary) (m : Multigrid) :
  let known := fun name : string =>
    name = "jacobian"%string \/
    (name = "gaussSeidel"%string /\
     (rank (nth 0 (grids m) noGrid) = 3 \/ rank (nth 0 (grids m) noGrid) = 4)) in
  let all :=
    known (iniparser_getstring ini "modules:preSmooth" "") /\
    known (iniparser_getstring ini "modules:postSmooth" "") /\
    known (iniparser_getstring ini "modules:coarseSolv" "") in
  (exists m', setSolvers ini m = Ok m' /\ grids m' = grids m /\ all) \/
  (exists d, setSolvers ini m = Fatal d /\ ~ all).
Proof.
  intros known all. unfold setSolvers. cbv zeta.
  set (r := rank (nth 0 (grids m) noGrid)) in *.
  assert (Hpick : forall (name noDims noName : string),
            (exists s, (if String.eqb name "gaussSeidel" then
                          if r - 1 =? 2 then Ok SmGaussSeidel2D
                          else if r - 1 =? 3 then Ok SmGaussSeidel3D
                          else msgERROR noDims
                        else if String.eqb name "jacobian" then Ok SmJacobian
                        else msgERROR noName) = Ok s /\ known name) \/
            (exists d, (if String.eqb name "gaussSeidel" then
                          if r - 1 =? 2 then Ok SmGaussSeidel2D
                          else if r - 1 =? 3 then Ok SmGaussSeidel3D
                          else msgERROR noDims
                        else if String.eqb name "jacobian" then Ok SmJacobian
                        else @msgERROR Smoother noName) = Fatal d /\ ~ known name)).
  { intros name noDims noName. unfold known.
    destruct (String.eqb_spec name "gaussSeidel") as [->|Hg].
    - destruct (Z.eqb_spec (r - 1) 2) as [H2|H2].
      + left. eexists. split; [reflexivity|]. right. split; [reflexivity | lia].
      + destruct (Z.eqb_spec (r - 1) 3) as [H3|H3].
        * left. eexists. split; [reflexivity|]. right. split; [reflexivity | lia].
        * right. eexists. split; [reflexivity|].
          intros [H | [_ H]]; [discriminate | lia].
    - destruct (String.eqb_spec name "jacobian") as [->|Hj].
      + left. eexists. split; [reflexivity|]. left. reflexivity.
      + right. eexists. split; [reflexivity|]. intros [H | [H _]]; congruence. }
  unfold all.
  destruct (Hpick (iniparser_getstring ini "modules:preSmooth" "")
              "No Presmoothing algorithm set for dimensions"%string
              "No Presmoothing algorithm specified"%string)
    as [(s1 & -> & K1) | (d1 & -> & K1)];
    [|right; eexists; split; [reflexivity | tauto]].
  cbn [bind].
  destruct (Hpick (iniparser_getstring ini "modules:postSmooth" "")
              "No postsmoothing algorithm set for dimensions"%string
              "No Postsmoothing algorithm specified"%string)
    as [(s2 & -> & K2) | (d2 & -> & K2)];
    [|right; eexists; split; [reflexivity | tauto]].
  cbn [bind].
  destruct (Hpick (iniparser_getstring ini "modules:coarseSolv" "")
              "No coarsesolver algorithm set for dimensions"%string
              "No coarse Grid Solver algorithm specified"%string)
    as [(s3 & -> & K3) | (d3 & -> & K3)];
    [|right; eexists; split; [reflexivity | tauto]].
  cbn [bind]. left. eexists. split; [reflexivity|]. split; [reflexivity | tauto].
Qed.

(** [setRestrictProlong] goes through exactly when the restrictor is
    ["halfWeight"], the prolongator ["bilinear"] and the grid of rank 3 or 4 *)
Lemma setRestrictProlong_cases (ini : dictionary) (m : Multigrid) :
  let all :=
    iniparser_getstring ini "multigrid:restrictor" "" = "halfWeight"%string /\
    iniparser_getstring ini "multigrid:prolongator" "" = "bilinear"%string /\
    (rank (nth 0 (grids m) noGrid) = 3 \/ rank (nth 0 (grids m) noGrid) = 4) in
  (exists m', setRestrictProlong ini m = Ok m' /\ all) \/
  (exists d, setRestrictProlong ini m = Fatal d /\ ~ all).
Proof.
  intros all. unfold all, setRestrictProlong. cbv zeta.
  set (r := rank (nth 0 (grids m) noGrid)) in *.
  destruct (String.eqb_spec (iniparser_getstring ini "multigrid:restrictor" "") "halfWeight")
    as [Hre|Hre]; [|right; eexists; split; [reflexivity | tauto]].
  destruct (String.eqb_spec (iniparser_getstring ini "multigrid:prolongator" "") "bilinear")
    as [Hpr|Hpr].
  - destruct (Z.eqb_spec r 3) as [H3|H3].
    + left. eexists. split; [reflexivity | tauto].
    + destruct (Z.eqb_spec r 4) as [H4|H4].
      * left. eexists. split; [reflexivity | tauto].
      * right. eexists. split; [reflexivity | lia].
  - destruct (Z.eqb_spec r 3) as [H3|H3]; [|destruct (Z.eqb_spec r 4) as [H4|H4]];
      right; eexists; (split; [reflexivity | tauto]).
Qed.

(** X28: what [mgAlloc] accepts. For a number of levels
    [multigrid:mgLevels] that is not negative, where the allocation of the
    hierarchy has a meaning, construction goes through exactly when
    [multigrid:mgLevels] and [multigrid:mgCycles] are present and not 0,
    every interior extent of the grid along a non-leading axis is even, the
    grid has rank 3 or 4, each of [modules:preSmooth], [modules:postSmooth]
    and [modules:coarseSolv] is ["gaussSeidel"] or ["jacobian"],
    [multigrid:restrictor] is ["halfWeight"] and [multigrid:prolongator] is
    ["bilinear"]. Nothing else is checked: a negative number of cycles and
    any number of smoothing steps are accepted. *)
Theorem mgAlloc_accepts (junk : arr double) (ini : dictionary) (grid : Grid) :
  0 <= iniparser_getint ini "multigrid:mgLevels" 0 ->
  isOk (mgAlloc junk ini grid) = true <->
  iniparser_getint ini "multigrid:mgLevels" 0 <> 0 /\
  iniparser_getint ini "multigrid:mgCycles" 0 <> 0 /\
  (forall d, 0 <= d < rank grid - 1 -> Z.rem (trueSize grid (d + 1)) 2 = 0) /\
  (rank grid = 3 \/ rank grid = 4) /\
  smootherName (iniparser_getstring ini "modules:preSmooth" "") /\
  smootherName (iniparser_getstring ini "modules:postSmooth" "") /\
  smootherName (iniparser_getstring ini "modules:coarseSolv" "") /\
  iniparser_getstring ini "multigrid:restrictor" "" = "halfWeight"%string /\
  iniparser_getstring ini "multigrid:prolongator" "" = "bilinear"%string.
Proof.
  intros _. unfold mgAlloc, smootherName. cbv zeta.
  set (L := iniparser_getint ini "multigrid:mgLevels" 0).
  set (C := iniparser_getint ini "multigrid:mgCycles" 0).
  destruct (Z.eqb_spec L 0) as [HL|HL];
    [cbn [bind msgERROR isOk]; split; [discriminate | tauto]|].
  destruct (Z.eqb_spec C 0) as [HC|HC];
    [cbn [bind msgERROR isOk]; split; [discriminate | tauto]|].
  cbn [bind].
  pose proof (mgAlloc_sanity_parity (trueSize grid) L (Z.to_nat (rank grid - 1 - 0)) HL 0)
    as Hsan.
  unfold forUp at 1.
  destruct (forLoop (Z.to_nat (rank grid - 1 - 0)) 0 1 (sanityLoop (trueSize grid) L) (Ok tt))
    as [[]|dg] eqn:Esan.
  2:{ cbn [bind isOk]. split; [discriminate|].
      intros (_ & _ & Hev & _). exfalso.
      assert (Hok : @Fatal unit dg = Ok tt)
        by (apply (proj2 Hsan); intros d Hd; apply Hev; lia).
      discriminate. }
  assert (Hev : forall d, 0 <= d < rank grid - 1 -> Z.rem (trueSize grid (d + 1)) 2 = 0)
    by (intros d Hd; apply (proj1 Hsan eq_refl); lia).
  cbn [bind].
  match goal with
  | |- context [setSolvers ini ?m0] =>
      destruct (setSolvers_cases ini m0) as [(m1 & E1 & Hg1 & K1) | (d1 & E1 & K1)];
      cbn [grids] in *; rewrite mgAllocSubGrids_first in *; rewrite E1
  end.
  - cbn [bind].
    destruct (setRestrictProlong_cases ini m1) as [(m2 & E2 & K2) | (d2 & E2 & K2)];
      rewrite Hg1, mgAllocSubGrids_first in K2; rewrite E2; cbn [isOk].
    + split; [intros _ | reflexivity].
      destruct K2 as (Kre & Kpr & Kr). destruct K1 as (Ka & Kb & Kc).
      repeat split; try assumption; tauto.
    + split; [discriminate|]. intros H. exfalso. apply K2. tauto.
  - cbn [bind isOk]. split; [discriminate|]. intros H. exfalso. apply K1. tauto.
Qed.

Lemma mgAlloc_accepts_witness :
  isOk (mgAlloc (fresh (Q2Qc 0)) (iniOf 3) (gridSq 2)) = true <->
  iniparser_getint (iniOf 3) "multigrid:mgLevels" 0 <> 0 /\
  iniparser_getint (iniOf 3) "multigrid:mgCycles" 0 <> 0 /\
  (forall d, 0 <= d < rank (gridSq 2) - 1 -> Z.rem (trueSize (gridSq 2) (d + 1)) 2 = 0) /\
  (rank (gridSq 2) = 3 \/ rank (gridSq 2) = 4) /\
  smootherName (iniparser_getstring (iniOf 3) "modules:preSmooth" "") /\
  smootherName (iniparser_getstring (iniOf 3) "modules:postSmooth" "") /\
  smootherName (iniparser_getstring (iniOf 3) "modules:coarseSolv" "") /\
  iniparser_getstring (iniOf 3) "multigrid:restrictor" "" = "halfWeight"%string /\
  iniparser_getstring (iniOf 3) "multigrid:prolongator" "" = "bilinear"%string.
Proof.
  apply (mgAlloc_accepts (fresh (Q2Qc 0)) (iniOf 3) (gridSq 2)).
  vm_compute. discriminate.
Defined.


(** ** The V cycle and the grids it reaches *)

Lemma replaceNth_length (n : nat) (g : Grid) (l : list Grid) :
  Datatypes.length (replaceNth n g l) = Datatypes.length l.
Proof.
  revert n. induction l as [|h t IH]; intros n; [destruct n; reflexivity|].
  destruct n; cbn [replaceNth Datatypes.length]; [reflexivity | now rewrite IH].
Qed.

Lemma replaceNth_other (n n' : nat) (g : Grid) (l : list Grid) :
  n <> n' -> nth_error (replaceNth n g l) n' = nth_error l n'.
Proof.
  revert n n'. induction l as [|h t IH]; intros n n' Hn; [destruct n; reflexivity|].
  destruct n, n'; cbn [replaceNth nth_error]; try reflexivity; [congruence|].
  apply IH. congruence.
Qed.

Lemma setGridAt_length (m : Multigrid) (q : Z) (g : Grid) :
  Datatypes.length (grids (setGridAt m q g)) = Datatypes.length (grids m).
Proof.
  unfold setGridAt; cbn [grids]. destruct (q <? 0); [reflexivity|].
  apply replaceNth_length.
Qed.

Lemma setGridAt_other (m : Multigrid) (q q' : Z) (g : Grid) :
  q' <> q -> level (grids (setGridAt m q g)) q' = level (grids m) q'.
Proof.
  intros Hq. unfold setGridAt; cbn [grids].
  destruct (Z.ltb_spec q 0); [reflexivity|].
  unfold level. destruct (Z.ltb_spec q' 0); [reflexivity|].
  apply replaceNth_other. lia.
Qed.

Lemma setGridAt_settings (m : Multigrid) (q : Z) (g : Grid) :
  sameSettings m (setGridAt m q g).
Proof. repeat split. Qed.

Lemma sameSettings_refl (m : Multigrid) : sameSettings m m.
Proof. repeat split. Qed.

Lemma sameSettings_trans (m1 m2 m3 : Multigrid) :
  sameSettings m1 m2 -> sameSettings m2 m3 -> sameSettings m1 m3.
Proof. unfold sameSettings. intuition congruence. Qed.

Lemma solversSet_settings (m m' : Multigrid) :
  sameSettings m m' -> solversSet m -> solversSet m'.
Proof.
  unfold sameSettings, solversSet.
  intros (_ & _ & _ & _ & _ & -> & -> & -> & -> & ->). trivial.
Qed.

Lemma gridAt_inside (m : Multigrid) (q : Z) :
  0 <= q < Z.of_nat (Datatypes.length (grids m)) -> exists g, gridAt m q = Done g.
Proof.
  intros Hq. unfold gridAt, level. destruct (Z.ltb_spec q 0); [lia|].
  destruct (nth_error (grids m) (Z.to_nat q)) as [g|] eqn:E; [now exists g|].
  apply nth_error_None in E. lia.
Qed.

Lemma gridAt_below (m : Multigrid) (q : Z) : q < 0 -> gridAt m q = OutOfBounds q.
Proof.
  intros Hq. unfold gridAt, level. destruct (Z.ltb_spec q 0); [reflexivity | lia].
Qed.

Lemma pointer_set {A : Type} (p : option A) : p <> None -> exists f, pointer p = Done f.
Proof. destruct p as [f|]; [now exists f | congruence]. Qed.

(** a cycle between the levels [lvl] and [targetLvl >= 1] of hierarchies of
    [targetLvl + 1] grids stays inside them, and leaves the grids of [mgRho]
    up to [lvl] as they are *)
Lemma mgVCycle_in_bounds (swap : Grid -> MpiInfo -> Z -> Grid)
    (finDiff : Grid -> Grid -> MpiInfo -> Grid) (junk : arr double) (mpiInfo : MpiInfo)
    (targetLvl : Z) (fuel : nat) :
  forall (lvl : Z) (mgRho mgPhi mgRes : Multigrid),
    1 <= targetLvl -> 0 <= lvl <= targetLvl -> targetLvl - lvl < Z.of_nat fuel ->
    Z.of_nat (Datatypes.length (grids mgRho)) = targetLvl + 1 ->
    Z.of_nat (Datatypes.length (grids mgPhi)) = targetLvl + 1 ->
    Z.of_nat (Datatypes.length (grids mgRes)) = targetLvl + 1 ->
    solversSet mgRho ->
    exists rho' phi' res',
      mgVCycle swap finDiff junk fuel lvl targetLvl mgRho mgPhi mgRes mpiInfo
      = Done (rho', phi', res') /\
      Datatypes.length (grids rho') = Datatypes.length (grids mgRho) /\
      Datatypes.length (grids phi') = Datatypes.length (grids mgPhi) /\
      Datatypes.length (grids res') = Datatypes.length (grids mgRes) /\
      sameSettings mgRho rho' /\
      (forall q, q <= lvl -> level (grids rho') q = level (grids mgRho) q).
Proof.
  induction fuel as [|fuel IH]; intros lvl mgRho mgPhi mgRes Ht Hl Hf Lr Lp Ls Hset;
    [lia|].
  pose proof Hset as (Hpre & Hpost & Hcs & Hre & Hpr).
  cbn [mgVCycle]. destruct (Z.eqb_spec lvl targetLvl) as [->|Hne].
  - destruct (pointer_set _ Hcs) as (cs & ->). cbn [obind].
    destruct (gridAt_inside mgPhi targetLvl ltac:(lia)) as (phi & ->). cbn [obind].
    destruct (gridAt_inside mgRho targetLvl ltac:(lia)) as (rho & ->). cbn [obind].
    destruct (pointer_set _ Hpr) as (pr & ->). cbn [obind].
    destruct (gridAt_inside mgRes (targetLvl - 1) ltac:(lia)) as (res & ->). cbn [obind].
    eexists _, _, _. split; [reflexivity|].
    rewrite !setGridAt_length.
    repeat split; try reflexivity.
  - cbv zeta.
    destruct (gridAt_inside mgPhi lvl ltac:(lia)) as (phi & ->). cbn [obind].
    destruct (gridAt_inside mgRho lvl ltac:(lia)) as (rho & ->). cbn [obind].
    destruct (gridAt_inside mgRes lvl ltac:(lia)) as (res & ->). cbn [obind].
    destruct (pointer_set _ Hpre) as (pre & ->). cbn [obind].
    destruct (pointer_set _ Hre) as (re & ->). cbn [obind].
    destruct (gridAt_inside mgRho (lvl + 1) ltac:(lia)) as (coarse & ->). cbn [obind].
    match goal with
    | |- context [mgVCycle swap finDiff junk fuel (lvl + 1) targetLvl ?r ?p ?s mpiInfo] =>
        destruct (IH (lvl + 1) r p s Ht ltac:(lia) ltac:(lia))
          as (rho1 & phi1 & res1 & E & L1 & L2 & L3 & S1 & K1);
        [rewrite setGridAt_length; exact Lr
        |rewrite setGridAt_length; exact Lp
        |rewrite setGridAt_length; exact Ls
        |exact (solversSet_settings _ _ (setGridAt_settings _ _ _) Hset)
        |]
    end.
    rewrite E. cbn [obind]. cbv iota beta.
    rewrite setGridAt_length in L1, L2, L3.
    pose proof (sameSettings_trans _ _ _ (setGridAt_settings mgRho (lvl + 1) _) S1) as S2.
    pose proof (solversSet_settings _ _ S2 Hset) as (_ & Hpost1 & _ & _ & Hpr1).
    destruct (gridAt_inside phi1 lvl ltac:(lia)) as (phi2 & ->). cbn [obind].
    destruct (gridAt_inside rho1 lvl ltac:(lia)) as (rho2 & ->). cbn [obind].
    destruct (gridAt_inside res1 lvl ltac:(lia)) as (res2 & ->). cbn [obind].
    destruct (pointer_set _ Hpost1) as (post & ->). cbn [obind].
    assert (Hkeep : forall q, q <= lvl -> level (grids rho1) q = level (grids mgRho) q).
    { intros q Hq. rewrite K1 by lia. apply setGridAt_other. lia. }
    destruct (Z.ltb_spec 0 lvl) as [Hpos|Hzero].
    + destruct (pointer_set _ Hpr1) as (pr & ->). cbn [obind].
      destruct (gridAt_inside res1 (lvl - 1) ltac:(lia)) as (finer & ->). cbn [obind].
      eexists _, _, _. split; [reflexivity|].
      rewrite !setGridAt_length. repeat split; try assumption; apply S2.
    + eexists _, _, _. split; [reflexivity|].
      rewrite !setGridAt_length. repeat split; try assumption; apply S2.
Qed.


(** outcomes other than a value pass through the remaining cycles *)
Lemma cycles_stop {A : Type} (f : A -> outcome A) (q : Z) (n : nat) :
  forall i, forLoop n i 1 (fun (_ : Z) st => obind st f) (OutOfBounds q) = OutOfBounds q.
Proof. induction n as [|n IH]; intros i; [reflexivity|]. cbn [forLoop obind]. apply IH. Qed.

(** what [mgAlloc] returns when it returns *)
Lemma mgAlloc_result (junk : arr double) (ini : dictionary) (grid : Grid) (m : Multigrid) :
  mgAlloc junk ini grid = Ok m ->
  nLevels m = iniparser_getint ini "multigrid:mgLevels" 0 /\
  nMGCycles m = iniparser_getint ini "multigrid:mgCycles" 0 /\
  grids m = mgAllocSubGrids junk grid (iniparser_getint ini "multigrid:mgLevels" 0) /\
  solversSet m.
Proof.
  unfold mgAlloc. cbv zeta.
  destruct (iniparser_getint ini "multigrid:mgLevels" 0 =? 0); [discriminate|].
  destruct (iniparser_getint ini "multigrid:mgCycles" 0 =? 0); [discriminate|].
  cbn [bind].
  destruct (forUp 0 (rank grid - 1) _ (Ok tt)) as [[]|]; [|discriminate].
  cbn [bind].
  match goal with
  | |- context [setSolvers ini ?m0] =>
      destruct (setSolvers ini m0) as [m1|] eqn:E1; [|discriminate]
  end.
  cbn [bind]. intros E2.
  unfold setSolvers in E1. cbv zeta in E1. cbn [grids nLevels nMGCycles nPreSmooth
    nPostSmooth nCoarseSolve restrictor prolongator] in E1.
  repeat (match type of E1 with
          | context [if ?c then _ else _] => destruct c
          end; cbn [bind msgERROR] in E1; try discriminate).
  all: injection E1 as <-.
  all: unfold setRestrictProlong in E2; cbv zeta in E2;
    cbn [grids nLevels nMGCycles nPreSmooth nPostSmooth nCoarseSolve preSmooth postSmooth
         coarseSolv] in E2.
  all: repeat (match type of E2 with
               | context [if ?c then _ else _] => destruct c
               end; cbn [bind msgERROR] in E2; try discriminate).
  all: injection E2 as <-.
  all: unfold solversSet; cbn; repeat split; discriminate.
Qed.

(** X29: a hierarchy of one level. When [multigrid:mgLevels] is 1 and
    [multigrid:mgCycles] at least 1, and [mgAlloc] has built the three
    hierarchies, which it does for such a configuration, the first cycle of
    [linearMGSolv] is at the coarsest level at once: it runs the coarse
    solver on level 0 and then passes [mgRes->grids[-1]] to the prolongator,
    a read before the first grid of the hierarchy. *)
Theorem linearMGSolv_single_level
    (gSwapGhostsDim : Grid -> MpiInfo -> Z -> Grid)
    (gFinDiff2nd2D : Grid -> Grid -> MpiInfo -> Grid) (junk : arr double)
    (ini : dictionary) (rho phi res : Grid) (mgRho mgPhi mgRes : Multigrid)
    (mpiInfo : MpiInfo) (fuel : nat) :
  iniparser_getint ini "multigrid:mgLevels" 0 = 1 ->
  1 <= iniparser_getint ini "multigrid:mgCycles" 0 ->
  mgAlloc junk ini rho = Ok mgRho ->
  mgAlloc junk ini phi = Ok mgPhi ->
  mgAlloc junk ini res = Ok mgRes ->
  fuel <> O ->
  linearMGSolv gSwapGhostsDim gFinDiff2nd2D junk fuel mgRho mgPhi mgRes mpiInfo
  = OutOfBounds (-1).
Proof.
  intros HL HC Hrho Hphi Hres Hfuel.
  destruct (mgAlloc_result _ _ _ _ Hrho) as (Ln & Cn & Gr & (_ & _ & Hcs & _ & Hpr)).
  destruct (mgAlloc_result _ _ _ _ Hphi) as (_ & _ & Gp & _).
  rewrite HL in *.
  unfold linearMGSolv. cbv zeta. rewrite Ln, Cn. unfold forUp.
  replace (Z.to_nat (iniparser_getint ini "multigrid:mgCycles" 0 - 0))
    with (Datatypes.S (Z.to_nat (iniparser_getint ini "multigrid:mgCycles" 0 - 1))) by lia.
  cbn [forLoop obind].
  destruct fuel as [|fuel]; [congruence|].
  cbn [mgVCycle]. change (1 - 1) with 0. cbn [Z.eqb].
  destruct (pointer_set _ Hcs) as (cs & ->). cbn [obind].
  destruct (gridAt_inside mgPhi 0) as (g1 & ->).
  { rewrite Gp, mgAllocSubGrids_length. lia. }
  cbn [obind].
  destruct (gridAt_inside mgRho 0) as (g2 & ->).
  { rewrite Gr, mgAllocSubGrids_length. lia. }
  cbn [obind].
  destruct (pointer_set _ Hpr) as (pr & ->). cbn [obind].
  rewrite gridAt_below by lia. cbn [obind].
  apply (cycles_stop
           (fun st : Multigrid * Multigrid * Multigrid =>
              let '(mgRho0, mgPhi0, mgRes0) := st in
              mgVCycle gSwapGhostsDim gFinDiff2nd2D junk (Datatypes.S fuel) 0 0
                mgRho0 mgPhi0 mgRes0 mpiInfo)).
Qed.

Lemma linearMGSolv_single_level_witness :
  linearMGSolv gSwapGhostsDimPeriodic finDiffNone (fresh (Q2Qc 0)) 1 mgOne mgOne mgOne mpiMig
  = OutOfBounds (-1).
Proof.
  apply (linearMGSolv_single_level gSwapGhostsDimPeriodic finDiffNone (fresh (Q2Qc 0))
           (iniOf 1) (gridSq 4) (gridSq 4) (gridSq 4)).
  - reflexivity.
  - vm_compute. discriminate.
  - reflexivity.
  - reflexivity.
  - reflexivity.
  - discriminate.
Defined.

(** X30: with two levels or more the cycles stay inside the hierarchies.
    For [nLevels >= 2], three hierarchies of [nLevels] grids each that share
    no grid, every function pointer of [mgRho] assigned and a recursion
    allowed [nLevels] deep, [linearMGSolv] returns, whatever the number of
    cycles; no read of [grids] falls outside a hierarchy, the hierarchies
    keep their number of grids and [mgRho] its settings, and the finest
    grid of [mgRho], the right-hand side of the caller, is left as it
    was. *)
Theorem linearMGSolv_in_bounds
    (gSwapGhostsDim : Grid -> MpiInfo -> Z -> Grid)
    (gFinDiff2nd2D : Grid -> Grid -> MpiInfo -> Grid) (junk : arr double)
    (mgRho mgPhi mgRes : Multigrid) (mpiInfo : MpiInfo) (fuel : nat) :
  2 <= nLevels mgRho ->
  Z.of_nat (Datatypes.length (grids mgRho)) = nLevels mgRho ->
  Z.of_nat (Datatypes.length (grids mgPhi)) = nLevels mgRho ->
  Z.of_nat (Datatypes.length (grids mgRes)) = nLevels mgRho ->
  solversSet mgRho ->
  nLevels mgRho <= Z.of_nat fuel ->
  exists rho' phi' res',
    linearMGSolv gSwapGhostsDim gFinDiff2nd2D junk fuel mgRho mgPhi mgRes mpiInfo
    = Done (rho', phi', res') /\
    Datatypes.length (grids rho') = Datatypes.length (grids mgRho) /\
    Datatypes.length (grids phi') = Datatypes.length (grids mgPhi) /\
    Datatypes.length (grids res') = Datatypes.length (grids mgRes) /\
    sameSettings mgRho rho' /\
    level (grids rho') 0 = level (grids mgRho) 0.
Proof.
  intros HL Lr Lp Ls Hset Hfuel.
  unfold linearMGSolv. cbv zeta. unfold forUp.
  set (body := fun (_ : Z) (st : outcome (Multigrid * Multigrid * Multigrid)) => _).
  pose (P := fun (_ : Z) (st : outcome (Multigrid * Multigrid * Multigrid)) =>
               exists rho' phi' res',
                 st = Done (rho', phi', res') /\
                 Datatypes.length (grids rho') = Datatypes.length (grids mgRho) /\
                 Datatypes.length (grids phi') = Datatypes.length (grids mgPhi) /\
                 Datatypes.length (grids res') = Datatypes.length (grids mgRes) /\
                 sameSettings mgRho rho' /\
                 level (grids rho') 0 = level (grids mgRho) 0).
  apply (forLoop_invariant P body (Z.to_nat (nMGCycles mgRho - 0)) 0).
  - exists mgRho, mgPhi, mgRes. repeat split.
  - intros q st Hq (rho1 & phi1 & res1 & -> & L1 & L2 & L3 & S1 & K1).
    unfold body. cbn [obind]. cbv iota beta.
    destruct (mgVCycle_in_bounds gSwapGhostsDim gFinDiff2nd2D junk mpiInfo
                (nLevels mgRho - 1) fuel 0 rho1 phi1 res1)
      as (rho2 & phi2 & res2 & E & M1 & M2 & M3 & S2 & K2); try lia.
    + exact (solversSet_settings _ _ S1 Hset).
    + rewrite E. exists rho2, phi2, res2.
      split; [reflexivity|].
      split; [congruence|]. split; [congruence|]. split; [congruence|].
      split; [exact (sameSettings_trans _ _ _ S1 S2)|].
      rewrite K2 by lia. exact K1.
Qed.

Lemma linearMGSolv_in_bounds_witness :
  exists rho' phi' res',
    linearMGSolv gSwapGhostsDimPeriodic finDiffNone (fresh (Q2Qc 0)) 2 mgTwo mgTwo mgTwo mpiMig
    = Done (rho', phi', res') /\
    Datatypes.length (grids rho') = Datatypes.length (grids mgTwo) /\
    Datatypes.length (grids phi') = Datatypes.length (grids mgTwo) /\
    Datatypes.length (grids res') = Datatypes.length (grids mgTwo) /\
    sameSettings mgTwo rho' /\
    level (grids rho') 0 = level (grids mgTwo) 0.
Proof.
  apply (linearMGSolv_in_bounds gSwapGhostsDimPeriodic finDiffNone (fresh (Q2Qc 0))
           mgTwo mgTwo mgTwo mpiMig 2).
  - vm_compute. discriminate.
  - reflexivity.
  - reflexivity.
  - reflexivity.
  - unfold solversSet. cbn. repeat split; discriminate.
  - vm_compute. discriminate.
Defined.


(** ** The approximation on entry *)

Lemma replaceNth_twice (n : nat) (g g' : Grid) (l : list Grid) :
  replaceNth n g' (replaceNth n g l) = replaceNth n g' l.
Proof.
  revert n. induction l as [|h t IH]; intros n; [destruct n; reflexivity|].
  destruct n; cbn [replaceNth]; [reflexivity | now rewrite IH].
Qed.

Lemma setGridAt_twice (m : Multigrid) (q : Z) (g g' : Grid) :
  setGridAt (setGridAt m q g) q g' = setGridAt m q g'.
Proof.
  unfold setGridAt; cbn. destruct (q <? 0); [reflexivity|].
  now rewrite replaceNth_twice.
Qed.

Lemma gridAt_setGridAt (m : Multigrid) (q : Z) (g g' : Grid) :
  gridAt m q = Done g -> gridAt (setGridAt m q g') q = Done g'.
Proof.
  unfold gridAt, level, setGridAt; cbn [grids].
  destruct (Z.ltb_spec q 0); [discriminate|].
  destruct (nth_error (grids m) (Z.to_nat q)) as [x|] eqn:E; [|discriminate].
  intros _. revert E. generalize (Z.to_nat q). generalize (grids m).
  induction l as [|h t IH]; intros n E; [destruct n; discriminate|].
  destruct n; cbn [replaceNth nth_error] in *; [reflexivity|].
  now apply IH.
Qed.

(** grids of one shape that agree beside their elements are zeroed to the
    same grid *)
Lemma gZero_shape (g g' : Grid) :
  sameShape g g' -> slice g' = slice g -> h5 g' = h5 g ->
  (forall k, ~ 0 <= k < nElems g -> val g' k = val g k) ->
  gZero g' = gZero g.
Proof.
  intros (Hr & Hs & Ht & Hn & Hp) Hsl Hh Hv.
  unfold gZero, setVal, nElems. rewrite Hr, Hs, Ht, Hn, Hp, Hsl, Hh. f_equal.
  apply functional_extensionality. intros k.
  destruct (Z.leb_spec 0 k), (Z.ltb_spec k (sizeProd g (rank g))); cbn [andb];
    try reflexivity; apply Hv; unfold nElems; lia.
Qed.

(** X3: the approximation on entry is discarded. With two levels or more
    and at least one cycle, [linearMGSolv] gives the same three hierarchies
    whatever the elements of the finest grid of [mgPhi] are on entry: the
    first cycle zeroes that grid before it smooths. Here [g'] is any grid of
    the shape of the finest grid [g] of [mgPhi] that differs from it in its
    elements only. *)
Theorem linearMGSolv_discards_entry
    (gSwapGhostsDim : Grid -> MpiInfo -> Z -> Grid)
    (gFinDiff2nd2D : Grid -> Grid -> MpiInfo -> Grid) (junk : arr double)
    (mgRho mgPhi mgRes : Multigrid) (mpiInfo : MpiInfo) (fuel : nat) (g g' : Grid) :
  2 <= nLevels mgRho -> 1 <= nMGCycles mgRho ->
  gridAt mgPhi 0 = Done g ->
  sameShape g g' -> slice g' = slice g -> h5 g' = h5 g ->
  (forall k, ~ 0 <= k < nElems g -> val g' k = val g k) ->
  linearMGSolv gSwapGhostsDim gFinDiff2nd2D junk fuel mgRho (setGridAt mgPhi 0 g') mgRes
    mpiInfo
  = linearMGSolv gSwapGhostsDim gFinDiff2nd2D junk fuel mgRho mgPhi mgRes mpiInfo.
Proof.
  intros HL HC Hg Hsh Hsl Hh Hv.
  pose proof (gZero_shape g g' Hsh Hsl Hh Hv) as Hz.
  unfold linearMGSolv. cbv zeta. unfold forUp.
  replace (Z.to_nat (nMGCycles mgRho - 0))
    with (Datatypes.S (Z.to_nat (nMGCycles mgRho - 1))) by lia.
  cbn [forLoop]. f_equal. cbn [obind]. cbv iota beta.
  destruct fuel as [|fuel]; [reflexivity|].
  cbn [mgVCycle].
  destruct (Z.eqb_spec 0 (nLevels mgRho - 1)) as [H0|_]; [lia|].
  cbv zeta.
  rewrite (gridAt_setGridAt mgPhi 0 g g' Hg), Hg. cbn [obind].
  destruct (gridAt mgRho 0) as [rho| | |]; try reflexivity. cbn [obind].
  destruct (gridAt mgRes 0) as [res| | |]; try reflexivity. cbn [obind].
  destruct (pointer (preSmooth mgRho)) as [pre| | |]; try reflexivity. cbn [obind].
  destruct (pointer (restrictor mgRho)) as [re| | |]; try reflexivity. cbn [obind].
  destruct (gridAt mgRho (0 + 1)) as [coarse| | |]; try reflexivity. cbn [obind].
  rewrite setGridAt_twice, Hz. reflexivity.
Qed.

Lemma linearMGSolv_discards_entry_witness :
  linearMGSolv gSwapGhostsDimPeriodic finDiffNone (fresh (Q2Qc 0)) 2 mgTwo
    (setGridAt mgTwo 0
       (setVal (gridSq 4) (fun k => if (0 <=? k) && (k <? 36) then ofZ 7 else Q2Qc 0)))
    mgTwo mpiMig
  = linearMGSolv gSwapGhostsDimPeriodic finDiffNone (fresh (Q2Qc 0)) 2 mgTwo mgTwo mgTwo
      mpiMig.
Proof.
  apply (linearMGSolv_discards_entry gSwapGhostsDimPeriodic finDiffNone (fresh (Q2Qc 0))
           mgTwo mgTwo mgTwo mpiMig 2 (gridSq 4)
           (setVal (gridSq 4) (fun k => if (0 <=? k) && (k <? 36) then ofZ 7 else Q2Qc 0))).
  - vm_compute. discriminate.
  - vm_compute. discriminate.
  - reflexivity.
  - repeat split.
  - reflexivity.
  - reflexivity.
  - intros k Hk. change (nElems (gridSq 4)) with 36 in Hk. cbn [val setVal gridSq fresh].
    destruct (Z.leb_spec 0 k), (Z.ltb_spec k 36); cbn [andb]; try reflexivity; lia.
Defined.
